(** * Space Switching add-on: the bake pipeline and the temporary hierarchy

    A shallow embedding of [custom_bake], [is_constrained_to],
    [remove_bone_curves], [_remove_bones_common] and [_space_switch] of
    [__init__.py].  The add-on is a client of the Blender Python API; the
    part of the host it touches (armature objects, bones, pose channels,
    constraints, the action of an object, the time cursor, modes) is an
    explicit state record, and the add-on's functions are programs of a
    state-and-exception monad over it. *)

From Stdlib Require Import List String Ascii ZArith QArith Qabs Qround Bool Arith Lia Lqa.
From Stdlib Require Import DecimalString DecimalNat.
Import ListNotations.

Local Open Scope string_scope.
Local Open Scope list_scope.

(* ===================================================================== *)
(** ** Numbers, vectors and rotations *)
(* ===================================================================== *)

(** Channel values are Python floats; they are embedded as exact rationals
    (every finite float is one), so that the continuity rules can be stated
    without rounding. *)

Record Vector := mkVector { vx : Q; vy : Q; vz : Q }.

Record Quaternion := mkQuaternion { qw : Q; qx : Q; qy : Q; qz : Q }.

Definition vzero : Vector := mkVector 0 0 0.
Definition vone : Vector := mkVector 1 1 1.
Definition qidentity : Quaternion := mkQuaternion 1 0 0 0.

Definition qneg (q : Quaternion) : Quaternion :=
  mkQuaternion (- qw q) (- qx q) (- qy q) (- qz q).

Definition qdot (a b : Quaternion) : Q :=
  qw a * qw b + qx a * qx b + qy a * qy b + qz a * qz b.

(** Squared 4D distance between two quaternions. *)
Definition qdist2 (a b : Quaternion) : Q :=
  (qw a - qw b) * (qw a - qw b) + (qx a - qx b) * (qx a - qx b)
  + (qy a - qy b) * (qy a - qy b) + (qz a - qz b) * (qz a - qz b).

(** Modelled from the spec: [Quaternion.make_compatible] belongs to the
    host's [mathutils], not to this repository.  The spec: "flip the
    current quaternion's sign to minimize the 4D distance to the previous
    one". *)
Definition quat_make_compatible (quat quat_prev : Quaternion) : Quaternion :=
  if Qlt_le_dec (qdist2 (qneg quat) quat_prev) (qdist2 quat quat_prev)
  then qneg quat else quat.

(** A full turn, 2*pi, as the double-precision constant. *)
Definition full_turn : Q := 6283185307179586 # 1000000000000000.

(** The representative of [e] modulo [turn] closest to [old]. *)
Definition nearest_turn (turn e old : Q) : Q :=
  e - inject_Z (Qfloor ((e - old) / turn + (1 # 2))) * turn.

(** Modelled from the spec: [Euler.make_compatible] belongs to the host's
    [mathutils], not to this repository.  The spec: "adjust the current
    Euler triple by adding multiples of a full turn to each component to
    minimize total angular distance from the previous frame's Euler
    triple". *)
Definition euler_make_compatible (euler euler_prev : Vector) : Vector :=
  mkVector (nearest_turn full_turn (vx euler) (vx euler_prev))
           (nearest_turn full_turn (vy euler) (vy euler_prev))
           (nearest_turn full_turn (vz euler) (vz euler_prev)).

(** Total per-axis absolute difference of two Euler triples. *)
Definition euler_distance (a b : Vector) : Q :=
  Qabs (vx a - vx b) + Qabs (vy a - vy b) + Qabs (vz a - vz b).

(** [a] and [b] differ by integer multiples of a full turn on each axis. *)
Definition turn_congruent (a b : Vector) : Prop :=
  exists k1 k2 k3 : Z,
    vx a == vx b + inject_Z k1 * full_turn /\
    vy a == vy b + inject_Z k2 * full_turn /\
    vz a == vz b + inject_Z k3 * full_turn.

(* ===================================================================== *)
(** ** The host's data *)
(* ===================================================================== *)

Inductive EulerOrder := XYZ | XZY | YXZ | YZX | ZXY | ZYX.

Inductive RotationMode :=
| QUATERNION
| AXIS_ANGLE
| EULER (order : EulerOrder).

(** [Bone.space_switching_tag], registered by the add-on. *)
Inductive Tag := NONE | EMPTY | SPACE | COPY.

Inductive ConstraintType := COPY_TRANSFORMS | COPY_LOCATION | COPY_ROTATION | IK.

(** Animatable data paths of a pose bone used by the add-on. *)
Inductive Channel :=
| location_path
| rotation_quaternion_path
| rotation_axis_angle_path
| rotation_euler_path
| scale_path.

Inductive Mode := OBJECT | EDIT | POSE.

(** A pose bone is referred to by (object name, bone name). *)
Definition BoneRef : Type := string * string.

Definition boneref_eqb (a b : BoneRef) : bool :=
  String.eqb (fst a) (fst b) && String.eqb (snd a) (snd b).

Definition option_eqb {A} (eqb : A -> A -> bool) (a b : option A) : bool :=
  match a, b with
  | Some x, Some y => eqb x y
  | None, None => true
  | _, _ => false
  end.

(** A constraint.  [c_id] is the identity of the Python object (the host
    hands out a fresh one at every [constraints.new]); [target] is an
    object (by name) or [None]; the pole slots are meaningful for IK. *)
Record Constraint := mkConstraint {
  c_id : nat;
  c_type : ConstraintType;
  target : option string;
  subtarget : string;
  head_tail : Q;
  pole_target : option string;
  pole_subtarget : string
}.

(** The visual transform of a bone, through the channels it decomposes to. *)
Record Matrix := mkMatrix {
  m_location : Vector;
  m_quaternion : Quaternion;
  m_axis_angle : Quaternion;
  m_euler : Vector;
  m_scale : Vector
}.

(** Viewport display attributes of a pose bone. *)
Record Display := mkDisplay {
  custom_shape : option string;
  custom_shape_translation : Vector;
  custom_shape_rotation_euler : Vector;
  custom_shape_scale_xyz : Vector;
  custom_shape_transform : option BoneRef;
  use_custom_shape_bone_size : bool
}.

(** [Bone] (with the [EditBone] attributes the add-on sets). *)
Record Bone := mkBone {
  name : string;
  parent : option string;
  use_connect : bool;
  head : Vector;
  tail : Vector;
  bone_length : Q;
  use_deform : bool;
  hide : bool;
  select : bool;
  show_wire : bool;
  space_switching_tag : Tag
}.

(** [PoseBone]. *)
Record PoseBone := mkPoseBone {
  bone : Bone;
  rotation_mode : RotationMode;
  location : Vector;
  rotation_quaternion : Quaternion;
  rotation_axis_angle : Quaternion;
  rotation_euler : Vector;
  scale : Vector;
  display : Display;
  constraints : list Constraint
}.

(** One insertion of a key: the bone and data path keyed, the [frame] and
    the [group] passed to [keyframe_insert], and the value keyed. *)
Record Keyframe := mkKeyframe {
  k_bone : string;
  k_path : Channel;
  k_frame : Z;
  k_group : string;
  k_value : Vector + Quaternion
}.

(** The action of an object, as the log of the insertions made into it,
    oldest first, and the F-curves (bone, data path) that are locked.  The
    F-curves themselves are the host's reading of this log: an insertion
    on a frame that already holds a key of the curve replaces that key,
    and a curve that exists keeps the group it has.  The add-on never
    reads the keys a curve holds, so the log is what is modelled, and what
    is stated of keys is stated of insertions. *)
Record Action := mkAction {
  keys : list Keyframe;
  locked : list (string * Channel)
}.

(** An armature object.  [animation_data] is [None], or holds an action
    slot that may itself be empty. *)
Record Object := mkObject {
  obj_name : string;
  data_name : string;
  obj_select : bool;
  obj_mode : Mode;
  show_in_front : bool;
  bones : list PoseBone;
  active_bone : option string;
  animation_data : option (option Action)
}.

(** A naming template: a format string with its replacement fields
    resolved. *)
Inductive Piece := Lit (s : string) | bone_name | armature_name | object_name.

Record Preferences := mkPreferences {
  pref_object_name : string;
  pref_armature_name : string;
  pref_copy_name : list Piece;
  pref_parent_name : list Piece;
  pref_space_name : list Piece
}.

Record Blender := mkBlender {
  objects : list Object;
  frame_current : Z;
  active_object : option string;
  next_id : nat;
  preferences : Preferences
}.

Inductive exn :=
| ValueError (msg : string)
| RuntimeError (msg : string)
| KeyError (key : string)
| AttributeError (attr : string)
| IndexError
| TypeError (msg : string)
| ReferenceError.

Inductive outcome (A : Type) :=
| Ok (a : A)
| Raise (e : exn).
Arguments Ok {A} a.
Arguments Raise {A} e.

(* ===================================================================== *)
(** ** The monad of host programs *)
(* ===================================================================== *)

Definition M (A : Type) : Type := Blender -> Blender * outcome A.

Definition ret {A} (a : A) : M A := fun s => (s, Ok a).

Definition raise {A} (e : exn) : M A := fun s => (s, Raise e).

Definition bind {A B} (m : M A) (k : A -> M B) : M B :=
  fun s =>
    match m s with
    | (s', Ok a) => k a s'
    | (s', Raise e) => (s', Raise e)
    end.

Definition get : M Blender := fun s => (s, Ok s).

Definition modify (f : Blender -> Blender) : M unit := fun s => (f s, Ok tt).

Declare Scope host_scope.
Delimit Scope host_scope with host.
Notation "x <- m ;; k" := (bind m (fun x => k))
  (at level 61, m at next level, right associativity) : host_scope.
Notation "m ;; k" := (bind m (fun _ => k))
  (at level 61, right associativity) : host_scope.
Local Open Scope host_scope.

(** [for x in xs: body x]. *)
Fixpoint for_each {A} (xs : list A) (body : A -> M unit) : M unit :=
  match xs with
  | [] => ret tt
  | x :: xs' => body x ;; for_each xs' body
  end.

(** A loop that carries local variables [acc] from one iteration to the
    next. *)
Fixpoint for_fold {A B} (xs : list A) (acc : B) (body : B -> A -> M B) : M B :=
  match xs with
  | [] => ret acc
  | x :: xs' => acc' <- body acc x ;; for_fold xs' acc' body
  end.

(** [enumerate(xs)]. *)
Fixpoint enumerate_from {A} (i : nat) (xs : list A) : list (nat * A) :=
  match xs with
  | [] => []
  | x :: xs' => (i, x) :: enumerate_from (S i) xs'
  end.

Definition enumerate {A} (xs : list A) : list (nat * A) := enumerate_from 0 xs.

(* ===================================================================== *)
(** ** Host primitives: lookup and update *)
(* ===================================================================== *)

(** Replace the first element satisfying [p] by its image under [f]. *)
Fixpoint update_first {A} (p : A -> bool) (f : A -> A) (l : list A) : list A :=
  match l with
  | [] => []
  | x :: l' => if p x then f x :: l' else x :: update_first p f l'
  end.

Definition is_object (n : string) (o : Object) : bool := String.eqb (obj_name o) n.

Definition is_bone (n : string) (b : PoseBone) : bool := String.eqb (name (bone b)) n.

(** [bpy.data.objects.get(n)]. *)
Definition lookup_object (s : Blender) (n : string) : option Object :=
  find (is_object n) (objects s).

(** [obj.pose.bones.get(n)] / [obj.data.bones.get(n)]. *)
Definition lookup_bone (o : Object) (n : string) : option PoseBone :=
  find (is_bone n) (bones o).

Definition lookup (s : Blender) (r : BoneRef) : option PoseBone :=
  match lookup_object s (fst r) with
  | Some o => lookup_bone o (snd r)
  | None => None
  end.

Definition set_objects (os : list Object) (s : Blender) : Blender :=
  mkBlender os (frame_current s) (active_object s) (next_id s) (preferences s).

Definition set_frame_current (f : Z) (s : Blender) : Blender :=
  mkBlender (objects s) f (active_object s) (next_id s) (preferences s).

Definition set_active_object (a : option string) (s : Blender) : Blender :=
  mkBlender (objects s) (frame_current s) a (next_id s) (preferences s).

Definition set_next_id (n : nat) (s : Blender) : Blender :=
  mkBlender (objects s) (frame_current s) (active_object s) n (preferences s).

Definition set_bones (bs : list PoseBone) (o : Object) : Object :=
  mkObject (obj_name o) (data_name o) (obj_select o) (obj_mode o) (show_in_front o)
           bs (active_bone o) (animation_data o).

Definition set_obj_select (v : bool) (o : Object) : Object :=
  mkObject (obj_name o) (data_name o) v (obj_mode o) (show_in_front o)
           (bones o) (active_bone o) (animation_data o).

Definition set_obj_mode (m : Mode) (o : Object) : Object :=
  mkObject (obj_name o) (data_name o) (obj_select o) m (show_in_front o)
           (bones o) (active_bone o) (animation_data o).

Definition set_active_bone (a : option string) (o : Object) : Object :=
  mkObject (obj_name o) (data_name o) (obj_select o) (obj_mode o) (show_in_front o)
           (bones o) a (animation_data o).

Definition set_animation_data (a : option (option Action)) (o : Object) : Object :=
  mkObject (obj_name o) (data_name o) (obj_select o) (obj_mode o) (show_in_front o)
           (bones o) (active_bone o) a.

Definition update_object (n : string) (f : Object -> Object) (s : Blender) : Blender :=
  set_objects (update_first (is_object n) f (objects s)) s.

Definition update_bone (r : BoneRef) (f : PoseBone -> PoseBone) (s : Blender) : Blender :=
  update_object (fst r)
    (fun o => set_bones (update_first (is_bone (snd r)) f (bones o)) o) s.

(** Attribute writes on [Bone] / [EditBone]. *)

Definition set_parent (v : option string) (b : Bone) : Bone :=
  mkBone (name b) v (use_connect b) (head b) (tail b) (bone_length b)
         (use_deform b) (hide b) (select b) (show_wire b) (space_switching_tag b).

Definition set_use_connect (v : bool) (b : Bone) : Bone :=
  mkBone (name b) (parent b) v (head b) (tail b) (bone_length b)
         (use_deform b) (hide b) (select b) (show_wire b) (space_switching_tag b).

(** The add-on lays every temporary bone along the Y axis, where the
    length is the distance between the Y coordinates. *)
Definition y_axis_length (h t : Vector) : Q := Qabs (vy t - vy h).

Definition set_head (v : Vector) (b : Bone) : Bone :=
  mkBone (name b) (parent b) (use_connect b) v (tail b) (y_axis_length v (tail b))
         (use_deform b) (hide b) (select b) (show_wire b) (space_switching_tag b).

Definition set_tail (v : Vector) (b : Bone) : Bone :=
  mkBone (name b) (parent b) (use_connect b) (head b) v (y_axis_length (head b) v)
         (use_deform b) (hide b) (select b) (show_wire b) (space_switching_tag b).

Definition set_use_deform (v : bool) (b : Bone) : Bone :=
  mkBone (name b) (parent b) (use_connect b) (head b) (tail b) (bone_length b)
         v (hide b) (select b) (show_wire b) (space_switching_tag b).

Definition set_hide (v : bool) (b : Bone) : Bone :=
  mkBone (name b) (parent b) (use_connect b) (head b) (tail b) (bone_length b)
         (use_deform b) v (select b) (show_wire b) (space_switching_tag b).

Definition set_select (v : bool) (b : Bone) : Bone :=
  mkBone (name b) (parent b) (use_connect b) (head b) (tail b) (bone_length b)
         (use_deform b) (hide b) v (show_wire b) (space_switching_tag b).

Definition set_show_wire (v : bool) (b : Bone) : Bone :=
  mkBone (name b) (parent b) (use_connect b) (head b) (tail b) (bone_length b)
         (use_deform b) (hide b) (select b) v (space_switching_tag b).

Definition set_space_switching_tag (v : Tag) (b : Bone) : Bone :=
  mkBone (name b) (parent b) (use_connect b) (head b) (tail b) (bone_length b)
         (use_deform b) (hide b) (select b) (show_wire b) v.

(** Attribute writes on [PoseBone]. *)

Definition on_bone (f : Bone -> Bone) (p : PoseBone) : PoseBone :=
  mkPoseBone (f (bone p)) (rotation_mode p) (location p) (rotation_quaternion p)
             (rotation_axis_angle p) (rotation_euler p) (scale p) (display p)
             (constraints p).

Definition set_rotation_mode (v : RotationMode) (p : PoseBone) : PoseBone :=
  mkPoseBone (bone p) v (location p) (rotation_quaternion p)
             (rotation_axis_angle p) (rotation_euler p) (scale p) (display p)
             (constraints p).

Definition set_location (v : Vector) (p : PoseBone) : PoseBone :=
  mkPoseBone (bone p) (rotation_mode p) v (rotation_quaternion p)
             (rotation_axis_angle p) (rotation_euler p) (scale p) (display p)
             (constraints p).

Definition set_rotation_quaternion (v : Quaternion) (p : PoseBone) : PoseBone :=
  mkPoseBone (bone p) (rotation_mode p) (location p) v
             (rotation_axis_angle p) (rotation_euler p) (scale p) (display p)
             (constraints p).

Definition set_rotation_axis_angle (v : Quaternion) (p : PoseBone) : PoseBone :=
  mkPoseBone (bone p) (rotation_mode p) (location p) (rotation_quaternion p)
             v (rotation_euler p) (scale p) (display p) (constraints p).

Definition set_rotation_euler (v : Vector) (p : PoseBone) : PoseBone :=
  mkPoseBone (bone p) (rotation_mode p) (location p) (rotation_quaternion p)
             (rotation_axis_angle p) v (scale p) (display p) (constraints p).

Definition set_scale (v : Vector) (p : PoseBone) : PoseBone :=
  mkPoseBone (bone p) (rotation_mode p) (location p) (rotation_quaternion p)
             (rotation_axis_angle p) (rotation_euler p) v (display p) (constraints p).

Definition set_display (v : Display) (p : PoseBone) : PoseBone :=
  mkPoseBone (bone p) (rotation_mode p) (location p) (rotation_quaternion p)
             (rotation_axis_angle p) (rotation_euler p) (scale p) v (constraints p).

Definition set_constraints (v : list Constraint) (p : PoseBone) : PoseBone :=
  mkPoseBone (bone p) (rotation_mode p) (location p) (rotation_quaternion p)
             (rotation_axis_angle p) (rotation_euler p) (scale p) (display p) v.

(** [pose_bone.matrix_basis = m]: the host decomposes the matrix into the
    location, the scale and the rotation channel of the bone's current
    rotation mode; the other rotation channels keep their values. *)
Definition set_matrix_basis (m : Matrix) (p : PoseBone) : PoseBone :=
  let p1 := set_scale (m_scale m) (set_location (m_location m) p) in
  match rotation_mode p with
  | QUATERNION => set_rotation_quaternion (m_quaternion m) p1
  | AXIS_ANGLE => set_rotation_axis_angle (m_axis_angle m) p1
  | EULER _ => set_rotation_euler (m_euler m) p1
  end.

(** Reading a pose bone through a reference; a reference to a bone that no
    longer exists is the host's [ReferenceError]. *)
Definition get_bone (r : BoneRef) : M PoseBone :=
  fun s =>
    match lookup s r with
    | Some p => (s, Ok p)
    | None => (s, Raise ReferenceError)
    end.

(** Writing attributes of a pose bone through a reference. *)
Definition write_bone (r : BoneRef) (f : PoseBone -> PoseBone) : M unit :=
  _ <- get_bone r ;; modify (update_bone r f).

(** [scene.frame_set(frame)]. *)
Definition frame_set (frame : Z) : M unit := modify (set_frame_current frame).

(** The value a data path of a pose bone currently holds. *)
Definition channel_value (c : Channel) (p : PoseBone) : Vector + Quaternion :=
  match c with
  | location_path => inl (location p)
  | rotation_quaternion_path => inr (rotation_quaternion p)
  | rotation_axis_angle_path => inr (rotation_axis_angle p)
  | rotation_euler_path => inl (rotation_euler p)
  | scale_path => inl (scale p)
  end.

Definition channel_eqb (a b : Channel) : bool :=
  match a, b with
  | location_path, location_path
  | rotation_quaternion_path, rotation_quaternion_path
  | rotation_axis_angle_path, rotation_axis_angle_path
  | rotation_euler_path, rotation_euler_path
  | scale_path, scale_path => true
  | _, _ => false
  end.

Definition curve_eqb (a b : string * Channel) : bool :=
  String.eqb (fst a) (fst b) && channel_eqb (snd a) (snd b).

(** The action keys are inserted into: the object's action, created
    together with the animation data when missing. *)
Definition ensure_action (o : Object) : Action :=
  match animation_data o with
  | Some (Some a) => a
  | _ => mkAction [] []
  end.

(** [pose_bone.keyframe_insert(path, index=-1, frame=frame, group=group)]:
    keys the current value of every component of the channel; the
    insertion is appended to the log of the action.  The host refuses to
    key a locked F-curve and reports it as a [RuntimeError]. *)
Definition keyframe_insert (r : BoneRef) (path : Channel) (frame : Z) (group : string)
  : M unit :=
  p <- get_bone r ;;
  s <- get ;;
  match lookup_object s (fst r) with
  | None => raise ReferenceError
  | Some o =>
      let a := ensure_action o in
      if existsb (curve_eqb (snd r, path)) (locked a)
      then raise (RuntimeError "F-Curve cannot be keyframed")
      else
        let k := mkKeyframe (snd r) path frame group (channel_value path p) in
        modify (update_object (fst r)
                  (set_animation_data (Some (Some (mkAction (keys a ++ [k]) (locked a))))))
  end.

(* ===================================================================== *)
(** ** custom_bake *)
(* ===================================================================== *)

Section AddOn.

(** The host's evaluation of the scene: [visual_local s r] is what
    [convert_space(pose_bone, pose_bone.matrix, 'POSE', 'LOCAL')] returns
    for bone [r] once the dependency graph of [s] has been updated (at the
    frame [frame_current s], through parenting, constraints and F-curves). *)
Variable visual_local : Blender -> BoneRef -> Matrix.

(** [pose_info[i].append(matrix)] for each bone [i] of one frame. *)
Definition append_samples (pose_info : list (list Matrix)) (ms : list Matrix)
  : list (list Matrix) :=
  map (fun rm => fst rm ++ [snd rm]) (combine pose_info ms).

(** Body of the evaluation loop, for one frame. *)
Definition sample_frame (pose_bones : list BoneRef) (pose_info : list (list Matrix))
    (frame : Z) : M (list (list Matrix)) :=
  frame_set frame ;;
  s <- get ;;
  ret (append_samples pose_info (map (visual_local s) pose_bones)).

(** [pose_info[i][j]]. *)
Definition pose_info_at (pose_info : list (list Matrix)) (i j : nat) : M Matrix :=
  match nth_error pose_info i with
  | None => raise IndexError
  | Some row =>
      match nth_error row j with
      | None => raise IndexError
      | Some m => ret m
      end
  end.

(** The local variables [euler_prev] and [quat_prev]. *)
Definition Prev : Type := option Vector * option Quaternion.

(** The [if do_rotation:] block of the keyframing loop. *)
Definition bake_rotation (pose_bone : BoneRef) (frame : Z) (prev : Prev) : M Prev :=
  let '(euler_prev, quat_prev) := prev in
  p <- get_bone pose_bone ;;
  match rotation_mode p with
  | QUATERNION =>
      prev' <- match quat_prev with
               | Some qp =>
                   let quat := quat_make_compatible (rotation_quaternion p) qp in
                   write_bone pose_bone (set_rotation_quaternion quat) ;;
                   ret (euler_prev, Some quat)
               | None => ret (euler_prev, Some (rotation_quaternion p))
               end ;;
      keyframe_insert pose_bone rotation_quaternion_path frame (snd pose_bone) ;;
      ret prev'
  | AXIS_ANGLE =>
      keyframe_insert pose_bone rotation_axis_angle_path frame (snd pose_bone) ;;
      ret prev
  | EULER _ =>
      prev' <- match euler_prev with
               | Some ep =>
                   let euler := euler_make_compatible (rotation_euler p) ep in
                   write_bone pose_bone (set_rotation_euler euler) ;;
                   ret (Some euler, quat_prev)
               | None => ret (Some (rotation_euler p), quat_prev)
               end ;;
      keyframe_insert pose_bone rotation_euler_path frame (snd pose_bone) ;;
      ret prev'
  end.

(** Body of the keyframing loop, for one bone and one frame. *)
Definition bake_frame (do_location do_rotation do_scale : bool)
    (pose_info : list (list Matrix)) (pose_bone_index : nat) (pose_bone : BoneRef)
    (prev : Prev) (fr : nat * Z) : M Prev :=
  let '(frame_index, frame) := fr in
  m <- pose_info_at pose_info pose_bone_index frame_index ;;
  write_bone pose_bone (set_matrix_basis m) ;;
  p <- get_bone pose_bone ;;
  (if do_location && negb (use_connect (bone p))
   then keyframe_insert pose_bone location_path frame (snd pose_bone)
   else ret tt) ;;
  prev' <- (if do_rotation then bake_rotation pose_bone frame prev else ret prev) ;;
  (if do_scale
   then keyframe_insert pose_bone scale_path frame (snd pose_bone)
   else ret tt) ;;
  ret prev'.

(** The keyframing loop of one bone: the continuity state starts empty. *)
Definition bake_bone (do_location do_rotation do_scale : bool)
    (frames : list Z) (pose_info : list (list Matrix)) (ib : nat * BoneRef) : M unit :=
  let '(pose_bone_index, pose_bone) := ib in
  let euler_prev : option Vector := None in
  let quat_prev : option Quaternion := None in
  _ <- for_fold (enumerate frames) (euler_prev, quat_prev)
         (bake_frame do_location do_rotation do_scale pose_info pose_bone_index pose_bone) ;;
  ret tt.

Definition custom_bake (frames : list Z) (pose_bones : list BoneRef)
    (do_location do_rotation do_scale : bool) : M unit :=
  if negb do_location && negb do_rotation && negb do_scale
  then raise (ValueError "No channels enabled")
  else
    s <- get ;;
    let original_frame := frame_current s in
    let pose_info := map (fun _ => []) pose_bones in
    pose_info <- for_fold frames pose_info (sample_frame pose_bones) ;;
    for_each (enumerate pose_bones)
             (bake_bone do_location do_rotation do_scale frames pose_info) ;;
    frame_set original_frame.


(* ===================================================================== *)
(** ** Host primitives: context, modes, constraints, edit bones *)
(* ===================================================================== *)

Definition mode_eqb (a b : Mode) : bool :=
  match a, b with
  | OBJECT, OBJECT | EDIT, EDIT | POSE, POSE => true
  | _, _ => false
  end.

Definition is_active_object (s : Blender) (o : Object) : bool :=
  option_eqb String.eqb (Some (obj_name o)) (active_object s).

(** [context.objects_in_mode]: the objects sharing the active object's
    mode, when that is not Object Mode. *)
Definition objects_in_mode (s : Blender) : list string :=
  match active_object s with
  | None => []
  | Some a =>
      match lookup_object s a with
      | None => []
      | Some o =>
          match obj_mode o with
          | OBJECT => []
          | m => map obj_name (filter (fun o' => mode_eqb (obj_mode o') m) (objects s))
          end
      end
  end.

(** [context.selected_pose_bones]: the visible selected bones of the
    objects in Pose Mode. *)
Definition selected_pose_bones (s : Blender) : list BoneRef :=
  flat_map
    (fun o =>
       match obj_mode o with
       | POSE =>
           map (fun p => (obj_name o, name (bone p)))
               (filter (fun p => select (bone p) && negb (hide (bone p))) (bones o))
       | _ => []
       end)
    (objects s).

(** [context.active_pose_bone]. *)
Definition active_pose_bone (s : Blender) : option BoneRef :=
  match active_object s with
  | None => None
  | Some a =>
      match lookup_object s a with
      | None => None
      | Some o =>
          match active_bone o with
          | None => None
          | Some b =>
              match lookup_bone o b with
              | Some _ => Some (a, b)
              | None => None
              end
          end
      end
  end.

(** [bpy.ops.object.mode_set(mode = m)]: leaving for Object Mode takes
    every object along; entering a mode takes the active object and the
    selected ones. *)
Definition mode_set (m : Mode) : M unit :=
  modify (fun s =>
    set_objects
      (map (fun o =>
              match m with
              | OBJECT => set_obj_mode OBJECT o
              | _ => if obj_select o || is_active_object s o then set_obj_mode m o else o
              end)
           (objects s)) s).

Definition get_object (n : string) : M Object :=
  fun s =>
    match lookup_object s n with
    | Some o => (s, Ok o)
    | None => (s, Raise ReferenceError)
    end.

Definition write_object (n : string) (f : Object -> Object) : M unit :=
  _ <- get_object n ;; modify (update_object n f).

(** [obj.select_set(v)]. *)
Definition select_set (n : string) (v : bool) : M unit :=
  write_object n (set_obj_select v).

(** [owner.constraints.new(type)]: a fresh constraint with the host's
    defaults, appended to the owner's stack; its identity is returned. *)
Definition constraints_new (owner : BoneRef) (type : ConstraintType) : M nat :=
  s <- get ;;
  let id := next_id s in
  write_bone owner
    (fun p => set_constraints
                (constraints p ++ [mkConstraint id type None "" 0 None ""]) p) ;;
  modify (set_next_id (S id)) ;;
  ret id.

Definition set_target (obj : option string) (sub : string) (c : Constraint) : Constraint :=
  mkConstraint (c_id c) (c_type c) obj sub (head_tail c)
               (pole_target c) (pole_subtarget c).

Definition set_head_tail (v : Q) (c : Constraint) : Constraint :=
  mkConstraint (c_id c) (c_type c) (target c) (subtarget c) v
               (pole_target c) (pole_subtarget c).

(** Attribute writes on a constraint held by reference. *)
Definition write_constraint (owner : BoneRef) (id : nat) (f : Constraint -> Constraint)
  : M unit :=
  write_bone owner
    (fun p => set_constraints
                (update_first (fun c => Nat.eqb (c_id c) id) f (constraints p)) p).

(** [owner.constraints.remove(constraint)]; the host reports a constraint
    that is not on the owner's stack as a [RuntimeError]. *)
Definition constraints_remove (owner : BoneRef) (id : nat) : M unit :=
  p <- get_bone owner ;;
  if existsb (fun c => Nat.eqb (c_id c) id) (constraints p)
  then write_bone owner
         (fun p => set_constraints
                     (filter (fun c => negb (Nat.eqb (c_id c) id)) (constraints p)) p)
  else raise (RuntimeError "Constraint not found in pose bone").

(** [template.format(bone_name = bn, armature_name = an, object_name = on)]. *)
Fixpoint format (t : list Piece) (bn an on : string) : string :=
  match t with
  | [] => ""
  | Lit l :: t' => l ++ format t' bn an on
  | bone_name :: t' => bn ++ format t' bn an on
  | armature_name :: t' => an ++ format t' bn an on
  | object_name :: t' => on ++ format t' bn an on
  end.

(** The host's "%03d". *)
Definition pad3 (d : string) : string :=
  match String.length d with
  | 0%nat => "000" ++ d
  | 1%nat => "00" ++ d
  | 2%nat => "0" ++ d
  | _ => d
  end.

Definition numbered (base : string) (n : nat) : string :=
  base ++ "." ++ pad3 (NilEmpty.string_of_uint (Nat.to_uint n)).

Definition mem (x : string) (l : list string) : bool := existsb (String.eqb x) l.

(** The host makes the name of a new bone unique in its armature by a
    numeric suffix: the first of [base.001], [base.002], ... that is free. *)
Definition unique_name (taken : list string) (desired : string) : string :=
  if mem desired taken then
    match find (fun n => negb (mem (numbered desired n) taken))
               (seq 1 (S (List.length taken))) with
    | Some n => numbered desired n
    | None => desired
    end
  else desired.

Definition new_bone (n : string) : Bone :=
  mkBone n None false vzero vzero 0 true false false false NONE.

Definition new_pose_bone (n : string) : PoseBone :=
  mkPoseBone (new_bone n) QUATERNION vzero qidentity (mkQuaternion 0 0 1 0) vzero vone
             (mkDisplay None vzero vzero vone None true) [].

(** [obj.data.edit_bones.new(desired)]: the name the bone really got is
    returned, as [temp_edit_bone.name] reads it. *)
Definition edit_bones_new (obj : string) (desired : string) : M string :=
  o <- get_object obj ;;
  let n := unique_name (map (fun p => name (bone p)) (bones o)) desired in
  modify (update_object obj (fun o => set_bones (bones o ++ [new_pose_bone n]) o)) ;;
  ret n.

(** [obj.data.bones[n]] / [obj.pose.bones[n]] / [obj.data.edit_bones[n]]. *)
Definition bones_item (obj : string) (n : string) : M BoneRef :=
  o <- get_object obj ;;
  match lookup_bone o n with
  | Some _ => ret (obj, n)
  | None => raise (KeyError n)
  end.

(** [obj.data.edit_bones.remove(bone)]: the children of the removed bone
    are handed to its parent and disconnected. *)
Definition edit_bones_remove (r : BoneRef) : M unit :=
  p <- get_bone r ;;
  modify (update_object (fst r)
    (fun o =>
       set_active_bone
         (if option_eqb String.eqb (active_bone o) (Some (snd r)) then None
          else active_bone o)
         (set_bones
            (map (fun c =>
                    if option_eqb String.eqb (parent (bone c)) (Some (snd r))
                    then on_bone (fun b => set_use_connect false
                                             (set_parent (parent (bone p)) b)) c
                    else c)
                 (filter (fun c => negb (is_bone (snd r) c)) (bones o)))
            o))).

(** [pose_bone.parent], as a reference. *)
Definition parent_ref (r : BoneRef) (p : PoseBone) : option BoneRef :=
  match parent (bone p) with
  | Some n => Some (fst r, n)
  | None => None
  end.

(** Attribute access on a value that may be [None]. *)
Definition not_none {A} (attr : string) (o : option A) : M A :=
  match o with
  | Some a => ret a
  | None => raise (AttributeError attr)
  end.

(* ===================================================================== *)
(** ** The add-on's helpers *)
(* ===================================================================== *)

Definition get_space_switching_armature_object : M string :=
  s <- get ;;
  let addon_prefs := preferences s in
  match lookup_object s (pref_object_name addon_prefs) with
  | Some existing_object => ret (obj_name existing_object)
  | None =>
      let new_obj :=
        mkObject (pref_object_name addon_prefs) (pref_armature_name addon_prefs)
                 false OBJECT true [] None None in
      modify (set_objects (objects s ++ [new_obj])) ;;
      ret (obj_name new_obj)
  end.

(** Every modelled object carries armature data. *)
Definition get_armature_objects (s : Blender) : list string :=
  map obj_name (objects s).

(** The F-curves of a bone are those whose data path starts with the
    bone's path.  The loop removes from the collection it walks; the
    embedding takes it to remove every matching curve. *)
Definition remove_bone_curves (pose_bone : BoneRef) : M unit :=
  armature <- get_object (fst pose_bone) ;;
  match animation_data armature with
  | None => ret tt
  | Some slot =>
      action <- not_none "fcurves" slot ;;
      let other_bone (n : string) := negb (String.eqb n (snd pose_bone)) in
      modify (update_object (fst pose_bone)
                (set_animation_data
                   (Some (Some (mkAction
                      (filter (fun k => other_bone (k_bone k)) (keys action))
                      (filter (fun c => other_bone (fst c)) (locked action)))))))
  end.

Definition is_IK (t : ConstraintType) : bool :=
  match t with IK => true | _ => false end.

(** All four constraint types have a [target] and a [subtarget]. *)
Definition is_constrained_to (constraint : Constraint) (target_pose_bone : BoneRef) : bool :=
  if option_eqb String.eqb (target constraint) (Some (fst target_pose_bone))
     && String.eqb (subtarget constraint) (snd target_pose_bone)
  then true
  else if is_IK (c_type constraint)
          && option_eqb String.eqb (pole_target constraint) (Some (fst target_pose_bone))
          && String.eqb (pole_subtarget constraint) (snd target_pose_bone)
  then true
  else false.

(** [frames] defaults to [None], which the bake cannot iterate. *)
Definition bake_all_channels (frames : option (list Z)) (pose_bones : list BoneRef)
  : M unit :=
  match frames with
  | Some fs => custom_bake fs pose_bones true true true
  | None => raise (TypeError "'NoneType' object is not iterable")
  end.

(* ===================================================================== *)
(** ** _remove_bones_common *)
(* ===================================================================== *)

Definition was_constrained (temp_pose_bone : BoneRef) (src_pose_bone : PoseBone) : bool :=
  existsb (fun c => is_constrained_to c temp_pose_bone) (constraints src_pose_bone).

(** The pose bones constrained to a selected temporary bone, in the order
    the nested loops find them. *)
Definition pose_bones_to_bake (s : Blender) (armature_objects : list string)
  : list BoneRef :=
  flat_map
    (fun temp_pose_bone =>
       flat_map
         (fun obj =>
            match lookup_object s obj with
            | Some o =>
                map (fun p => (obj, name (bone p)))
                    (filter (was_constrained temp_pose_bone) (bones o))
            | None => []
            end)
         armature_objects)
    (selected_pose_bones s).

(** The local variables of the removal loop: [names_of_bones_to_remove],
    [src_bones_to_select], [src_bone_to_activate]. *)
Definition Removal : Type := list string * list BoneRef * option BoneRef.

(** "Find pose bones constrained to temp bone", for one source bone. *)
Definition release_source (temp_pose_bone : BoneRef) (original_active_pose_bone : option BoneRef)
    (obj : string) (acc : list BoneRef * option BoneRef) (src_pose_bone : PoseBone)
  : M (list BoneRef * option BoneRef) :=
  let src := (obj, name (bone src_pose_bone)) in
  p <- get_bone src ;;
  if was_constrained temp_pose_bone p then
    write_bone src
      (fun p => set_constraints
                  (filter (fun c => negb (is_constrained_to c temp_pose_bone))
                          (constraints p)) p) ;;
    write_bone src (on_bone (set_hide false)) ;;
    ret (fst acc ++ [src],
         if option_eqb boneref_eqb (Some temp_pose_bone) original_active_pose_bone
         then Some src else snd acc)
  else ret acc.

(** Body of the removal loop, for one selected temporary bone. *)
Definition remove_step (armature_objects : list string)
    (original_active_pose_bone : option BoneRef) (acc : Removal)
    (temp_pose_bone : BoneRef) : M Removal :=
  let '(names_of_bones_to_remove, src_bones_to_select, src_bone_to_activate) := acc in
  p <- get_bone temp_pose_bone ;;
  let names_of_bones_to_remove := names_of_bones_to_remove ++ [snd temp_pose_bone] in
  names_of_bones_to_remove <-
    match parent_ref temp_pose_bone p with
    | Some par =>
        let names := names_of_bones_to_remove ++ [snd par] in
        pp <- get_bone par ;;
        match parent (bone pp) with
        | Some grandparent => ret (names ++ [grandparent])
        | None => ret names
        end
    | None => ret names_of_bones_to_remove
    end ;;
  remove_bone_curves temp_pose_bone ;;
  sel <- for_fold armature_objects (src_bones_to_select, src_bone_to_activate)
           (fun acc obj =>
              o <- get_object obj ;;
              for_fold (bones o) acc
                (release_source temp_pose_bone original_active_pose_bone obj)) ;;
  ret (names_of_bones_to_remove, fst sel, snd sel).

Definition _remove_bones_common (do_apply : bool) (frames : option (list Z)) : M unit :=
  s <- get ;;
  let original_objects := objects_in_mode s in
  let original_active_pose_bone := active_pose_bone s in
  let armature_objects := get_armature_objects s in
  (if do_apply then
     let pose_bones_to_bake := pose_bones_to_bake s armature_objects in
     if (0 <? List.length pose_bones_to_bake)%nat
     then bake_all_channels frames pose_bones_to_bake
     else ret tt
   else ret tt) ;;
  s <- get ;;
  removal <- for_fold (selected_pose_bones s) ([], [], None)
               (remove_step armature_objects original_active_pose_bone) ;;
  let '(names_of_bones_to_remove, src_bones_to_select, src_bone_to_activate) := removal in
  mode_set OBJECT ;;
  for_each original_objects (fun obj => select_set obj false) ;;
  temp_obj <- get_space_switching_armature_object ;;
  select_set temp_obj true ;;
  modify (set_active_object (Some temp_obj)) ;;
  mode_set EDIT ;;
  for_each names_of_bones_to_remove
    (fun name =>
       temp_edit_bone <- bones_item temp_obj name ;;
       edit_bones_remove temp_edit_bone) ;;
  mode_set OBJECT ;;
  for_each original_objects
    (fun obj => select_set obj true ;; write_object obj (set_active_bone None)) ;;
  mode_set POSE ;;
  for_each src_bones_to_select
    (fun src =>
       b <- bones_item (fst src) (snd src) ;;
       write_bone b (on_bone (set_select true))) ;;
  match src_bone_to_activate with
  | Some src =>
      active_bone <- bones_item (fst src) (snd src) ;;
      modify (set_active_object (Some (fst src))) ;;
      write_object (fst src) (set_active_bone (Some (snd active_bone)))
  | None => ret tt
  end.

(* ===================================================================== *)
(** ** _space_switch *)
(* ===================================================================== *)

(** [l.remove(x)]: drops the first element equal to [x]. *)
Fixpoint remove_first (x : BoneRef) (l : list BoneRef) : list BoneRef :=
  match l with
  | [] => []
  | y :: l' => if boneref_eqb y x then l' else y :: remove_first x l'
  end.

(** [try: src_pose_bones.remove(dest_pose_bone) / except: pass]. *)
Definition remove_dest (dest_pose_bone : option BoneRef) (src_pose_bones : list BoneRef)
  : list BoneRef :=
  match dest_pose_bone with
  | Some d => remove_first d src_pose_bones
  | None => src_pose_bones
  end.

(** The three keyword arguments every naming template is formatted with. *)
Definition format_for (t : list Piece) (r : BoneRef) : M string :=
  _ <- get_bone r ;;
  o <- get_object (fst r) ;;
  ret (format t (snd r) (data_name o) (fst r)).

(** Head, tail and deform flag of a freshly created temporary edit bone. *)
Definition place_edit_bone (r : BoneRef) (h t : Vector) : M unit :=
  write_bone r (on_bone (set_head h)) ;;
  write_bone r (on_bone (set_tail t)) ;;
  write_bone r (on_bone (set_use_deform false)).

(** Body of the Edit Mode loop, for one source bone. *)
Definition build_edit_bone (temp_obj : string) (dest_pose_bone : option BoneRef)
    (temp_bone_names : list string) (src_pose_bone : BoneRef) : M (list string) :=
  s <- get ;;
  let addon_prefs := preferences s in
  desired_name <- format_for (pref_copy_name addon_prefs) src_pose_bone ;;
  temp_edit_bone <- edit_bones_new temp_obj desired_name ;;
  p <- get_bone src_pose_bone ;;
  place_edit_bone (temp_obj, temp_edit_bone) vzero (mkVector 0 (bone_length (bone p)) 0) ;;
  let temp_bone_names := temp_bone_names ++ [temp_edit_bone] in
  (if use_connect (bone p) then
     let parent_pose_bone := parent_ref src_pose_bone p in
     parent_desired_name <- format_for (pref_parent_name addon_prefs) src_pose_bone ;;
     child_desired_name <-
       match dest_pose_bone with
       | Some d => format_for (pref_space_name addon_prefs) d
       | None =>
           par <- not_none "name" parent_pose_bone ;;
           format_for (pref_space_name addon_prefs) par
       end ;;
     temp_parent_edit_bone <- edit_bones_new temp_obj parent_desired_name ;;
     place_edit_bone (temp_obj, temp_parent_edit_bone) vzero (mkVector 0 1 0) ;;
     temp_child_edit_bone <- edit_bones_new temp_obj child_desired_name ;;
     place_edit_bone (temp_obj, temp_child_edit_bone) (mkVector 0 (-1) 0) vzero ;;
     write_bone (temp_obj, temp_child_edit_bone)
       (on_bone (set_parent (Some temp_parent_edit_bone))) ;;
     write_bone (temp_obj, temp_edit_bone)
       (on_bone (set_parent (Some temp_child_edit_bone))) ;;
     write_bone (temp_obj, temp_edit_bone) (on_bone (set_use_connect true))
   else
     match dest_pose_bone with
     | Some d =>
         desired_name <- format_for (pref_space_name addon_prefs) d ;;
         temp_dest_edit_bone <- edit_bones_new temp_obj desired_name ;;
         dp <- get_bone d ;;
         place_edit_bone (temp_obj, temp_dest_edit_bone) vzero
           (mkVector 0 (bone_length (bone dp)) 0) ;;
         write_bone (temp_obj, temp_edit_bone)
           (on_bone (set_parent (Some temp_dest_edit_bone)))
     | None => ret tt
     end) ;;
  ret temp_bone_names.

Definition is_euler (m : RotationMode) : bool :=
  match m with
  | QUATERNION | AXIS_ANGLE => false
  | EULER _ => true
  end.

(** Hide an anchor and tag it as a space bone. *)
Definition mark_space (r : BoneRef) : M unit :=
  write_bone r (on_bone (set_hide true)) ;;
  write_bone r (on_bone (set_space_switching_tag SPACE)).

(** The [if temp_pose_bone.parent:] block of the Pose Mode loop. *)
Definition constrain_anchor (dest_pose_bone : option BoneRef)
    (src_pose_bone : BoneRef) (sp : PoseBone) (temp_dest_pose_bone : BoneRef) : M unit :=
  temp_dest_pose_bone <-
    (if use_connect (bone sp) then
       mark_space temp_dest_pose_bone ;;
       tdp <- get_bone temp_dest_pose_bone ;;
       not_none "bone" (parent_ref temp_dest_pose_bone tdp)
     else ret temp_dest_pose_bone) ;;
  mark_space temp_dest_pose_bone ;;
  copy_location <- constraints_new temp_dest_pose_bone COPY_LOCATION ;;
  (if use_connect (bone sp) then
     par <- not_none "id_data" (parent_ref src_pose_bone sp) ;;
     write_constraint temp_dest_pose_bone copy_location
       (set_target (Some (fst par)) (snd par)) ;;
     write_constraint temp_dest_pose_bone copy_location (set_head_tail 1)
   else
     match dest_pose_bone with
     | Some d =>
         write_constraint temp_dest_pose_bone copy_location
           (set_target (Some (fst d)) (snd d))
     | None => ret tt
     end) ;;
  match dest_pose_bone with
  | Some d =>
      copy_rotation <- constraints_new temp_dest_pose_bone COPY_ROTATION ;;
      write_constraint temp_dest_pose_bone copy_rotation
        (set_target (Some (fst d)) (snd d))
  | None => ret tt
  end.

(** [pose_bone.custom_shape_transform = v]: the host keeps in this slot a
    pose bone of the object the slot belongs to, and nothing else; any
    other value leaves the slot empty. *)
Definition own_shape_transform (obj : string) (v : option BoneRef) : option BoneRef :=
  match v with
  | Some r => if String.eqb (fst r) obj then Some r else None
  | None => None
  end.

(** The display attributes a pose bone of [obj] ends with once the six
    custom shape attributes of [d] are assigned to it. *)
Definition copied_display (obj : string) (d : Display) : Display :=
  mkDisplay (custom_shape d) (custom_shape_translation d)
            (custom_shape_rotation_euler d) (custom_shape_scale_xyz d)
            (own_shape_transform obj (custom_shape_transform d))
            (use_custom_shape_bone_size d).

(** Body of the Pose Mode loop, for one (source bone, temporary name). *)
Definition setup_pose_bone (temp_obj : string) (dest_pose_bone : option BoneRef)
    (src_active_pose_bone : option BoneRef) (acc : list BoneRef * list nat)
    (st : BoneRef * string) : M (list BoneRef * list nat) :=
  let '(temp_pose_bones, constraints_to_remove) := acc in
  let '(src_pose_bone, temp_bone_name) := st in
  temp_bone <- bones_item temp_obj temp_bone_name ;;
  write_bone temp_bone (on_bone (set_select true)) ;;
  write_bone temp_bone (on_bone (set_space_switching_tag COPY)) ;;
  temp_pose_bone <- bones_item temp_obj temp_bone_name ;;
  let temp_pose_bones := temp_pose_bones ++ [temp_pose_bone] in
  sp <- get_bone src_pose_bone ;;
  let src_rotation_mode := rotation_mode sp in
  (if use_connect (bone sp) && is_euler src_rotation_mode
   then write_bone temp_pose_bone (set_rotation_mode QUATERNION)
   else
     write_bone temp_pose_bone (set_rotation_mode (rotation_mode sp)) ;;
     write_bone temp_pose_bone (set_rotation_axis_angle (rotation_axis_angle sp))) ;;
  write_bone temp_pose_bone (set_display (copied_display temp_obj (display sp))) ;;
  write_bone temp_bone (on_bone (set_show_wire (show_wire (bone sp)))) ;;
  copy_transforms <- constraints_new temp_pose_bone COPY_TRANSFORMS ;;
  write_constraint temp_pose_bone copy_transforms
    (set_target (Some (fst src_pose_bone)) (snd src_pose_bone)) ;;
  let constraints_to_remove := constraints_to_remove ++ [copy_transforms] in
  (if option_eqb boneref_eqb (Some src_pose_bone) src_active_pose_bone
   then write_object temp_obj (set_active_bone (Some temp_bone_name))
   else ret tt) ;;
  tp <- get_bone temp_pose_bone ;;
  match parent_ref temp_pose_bone tp with
  | Some temp_dest_pose_bone =>
      constrain_anchor dest_pose_bone src_pose_bone sp temp_dest_pose_bone
  | None => ret tt
  end ;;
  ret (temp_pose_bones, constraints_to_remove).

(** Body of the rewiring loop, for one (source, copy, capture constraint). *)
Definition rewire (x : BoneRef * (BoneRef * nat)) : M unit :=
  let '(src_pose_bone, (temp_pose_bone, constraint)) := x in
  constraints_remove temp_pose_bone constraint ;;
  sp <- get_bone src_pose_bone ;;
  (if negb (use_connect (bone sp)) then
     reverse_copy_location <- constraints_new src_pose_bone COPY_LOCATION ;;
     write_constraint src_pose_bone reverse_copy_location
       (set_target (Some (fst temp_pose_bone)) (snd temp_pose_bone))
   else ret tt) ;;
  reverse_copy_rotation <- constraints_new src_pose_bone COPY_ROTATION ;;
  write_constraint src_pose_bone reverse_copy_rotation
    (set_target (Some (fst temp_pose_bone)) (snd temp_pose_bone)).

(** The Edit Mode phase: one copy (and its anchors) per source bone. *)
Definition build_edit_bones (temp_obj : string) (dest_pose_bone : option BoneRef)
    (src_pose_bones : list BoneRef) : M (list string) :=
  for_fold src_pose_bones [] (build_edit_bone temp_obj dest_pose_bone).

(** The Pose Mode phase. *)
Definition setup_pose_bones (temp_obj : string) (dest_pose_bone : option BoneRef)
    (src_active_pose_bone : option BoneRef) (src_pose_bones : list BoneRef)
    (temp_bone_names : list string) : M (list BoneRef * list nat) :=
  for_fold (combine src_pose_bones temp_bone_names) ([], [])
    (setup_pose_bone temp_obj dest_pose_bone src_active_pose_bone).

Definition edit_mismatch : string := "edit bones list mismatch".
Definition reverse_mismatch : string := "reverse constraints list mismatch".

Definition _space_switch (src_pose_bones : list BoneRef) (dest_pose_bone : option BoneRef)
    (frames : option (list Z)) : M unit :=
  s <- get ;;
  let original_objects := objects_in_mode s in
  let src_active_pose_bone := active_pose_bone s in
  let src_pose_bones := remove_dest dest_pose_bone src_pose_bones in
  if (List.length src_pose_bones <? 1)%nat then ret tt
  else
    for_each (selected_pose_bones s)
      (fun pose_bone => write_bone pose_bone (on_bone (set_select false))) ;;
    for_each src_pose_bones
      (fun pose_bone => write_bone pose_bone (on_bone (set_hide true))) ;;
    mode_set OBJECT ;;
    for_each original_objects (fun obj => select_set obj false) ;;
    temp_obj <- get_space_switching_armature_object ;;
    select_set temp_obj true ;;
    modify (set_active_object (Some temp_obj)) ;;
    mode_set EDIT ;;
    temp_bone_names <- build_edit_bones temp_obj dest_pose_bone src_pose_bones ;;
    mode_set OBJECT ;;
    for_each original_objects
      (fun obj => select_set obj true ;; write_object obj (set_active_bone None)) ;;
    mode_set POSE ;;
    if negb (List.length src_pose_bones =? List.length temp_bone_names)%nat
    then raise (RuntimeError edit_mismatch)
    else
      lists <- setup_pose_bones temp_obj dest_pose_bone src_active_pose_bone
                 src_pose_bones temp_bone_names ;;
      let '(temp_pose_bones, constraints_to_remove) := lists in
      bake_all_channels frames temp_pose_bones ;;
      if negb (List.length src_pose_bones =? List.length temp_pose_bones)%nat
         || negb (List.length src_pose_bones =? List.length constraints_to_remove)%nat
      then raise (RuntimeError reverse_mismatch)
      else
        for_each (combine src_pose_bones (combine temp_pose_bones constraints_to_remove))
          rewire.

End AddOn.

(* ===================================================================== *)
(** ** Observations used by the statements *)
(* ===================================================================== *)

(** The constraint stack of a bone ([[]] for a dangling reference). *)
Definition constraints_of (s : Blender) (r : BoneRef) : list Constraint :=
  match lookup s r with
  | Some p => constraints p
  | None => []
  end.

(** The keys of an object's action. *)
Definition action_keys (s : Blender) (obj : string) : list Keyframe :=
  match lookup_object s obj with
  | Some o => keys (ensure_action o)
  | None => []
  end.

(** The keys of one channel of one bone, oldest first. *)
Definition keys_of (s : Blender) (r : BoneRef) (c : Channel) : list Keyframe :=
  filter (fun k => String.eqb (k_bone k) (snd r) && channel_eqb (k_path k) c)
         (action_keys s (fst r)).

(** A sequence of bake invocations, as the host runs operators one after
    the other: an invocation that raises leaves its partial effects behind
    and the next one starts from there. *)
Record BakeCall := mkBakeCall {
  call_frames : list Z;
  call_bones : list BoneRef;
  call_location : bool;
  call_rotation : bool;
  call_scale : bool
}.

Fixpoint bake_sequence (visual_local : Blender -> BoneRef -> Matrix)
    (calls : list BakeCall) (s : Blender) : Blender :=
  match calls with
  | [] => s
  | c :: calls' =>
      bake_sequence visual_local calls'
        (fst (custom_bake visual_local (call_frames c) (call_bones c)
                (call_location c) (call_rotation c) (call_scale c) s))
  end.


(* ===================================================================== *)
(** ** A small scene, for the concrete runs *)
(* ===================================================================== *)

Definition demo_bone (n : string) (par : option string) (connected : bool)
    (mode : RotationMode) (selected : bool) : PoseBone :=
  mkPoseBone (mkBone n par connected vzero (mkVector 0 2 0) 2 true false selected false NONE)
             mode vzero qidentity (mkQuaternion 0 0 1 0) vzero vone
             (mkDisplay None vzero vzero vone None true) [].

(** The add-on's default preferences. *)
Definition demo_preferences : Preferences :=
  mkPreferences "SpaceSwitching" "SpaceSwitchingArmature"
                [bone_name; Lit "_Copy"] [bone_name; Lit "_Parent"]
                [bone_name; Lit "_Space"].

(** Root <- Arm (connected, Euler) <- Hand (loose, quaternion), and a loose
    Target; Arm and Hand are selected. *)
Definition demo_rig (anim : option (option Action)) : Object :=
  mkObject "Rig" "RigData" true POSE false
           [demo_bone "Root" None false QUATERNION false;
            demo_bone "Arm" (Some "Root") true (EULER XYZ) true;
            demo_bone "Hand" (Some "Arm") false QUATERNION true;
            demo_bone "Target" None false (EULER XYZ) false]
           (Some "Hand") anim.

Definition demo_scene : Blender :=
  mkBlender [demo_rig None] 7 (Some "Rig") 0 demo_preferences.

(** The same scene with the location F-curve of Hand locked. *)
Definition demo_locked_scene : Blender :=
  mkBlender [demo_rig (Some (Some (mkAction [] [("Hand", location_path)])))]
            7 (Some "Rig") 0 demo_preferences.

(** An evaluation whose quaternion changes sign on odd frames and whose
    Euler angle grows by four radians a frame. *)
Definition demo_visual_local (s : Blender) (r : BoneRef) : Matrix :=
  let f := inject_Z (frame_current s) in
  mkMatrix (mkVector f 0 0)
           (mkQuaternion (if Z.even (frame_current s) then 1 else -1) 0 0 0)
           (mkQuaternion 0 0 1 0)
           (mkVector (f * 4) 0 0)
           vone.

(* ===================================================================== *)
(** ** Relations between states, used by the proofs *)
(* ===================================================================== *)

(** [steps R m]: every run of [m], whether it returns or raises, takes a
    state to an [R]-related one. *)
Definition steps {A} (R : Blender -> Blender -> Prop) (m : M A) : Prop :=
  forall s s' r, m s = (s', r) -> R s s'.

(** The same from one given state, so that what earlier steps returned can
    be used for the later ones. *)
Definition steps_at {A} (R : Blender -> Blender -> Prop) (m : M A) (s : Blender) : Prop :=
  forall s' r, m s = (s', r) -> R s s'.

Definition keeps_name (f : PoseBone -> PoseBone) : Prop :=
  forall p, name (bone (f p)) = name (bone p).

Definition inserted_key (r : BoneRef) (path : Channel) (frame : Z) (group : string)
    (p : PoseBone) : Keyframe :=
  mkKeyframe (snd r) path frame group (channel_value path p).

Definition with_key (k : Keyframe) (o : Object) : Object :=
  set_animation_data
    (Some (Some (mkAction (keys (ensure_action o) ++ [k]) (locked (ensure_action o))))) o.

(** The part of a pose bone no bake writes. *)
Definition rig_view (p : PoseBone) : Bone * RotationMode * list Constraint * Display :=
  (bone p, rotation_mode p, constraints p, display p).

Definition same_rig (s s' : Blender) : Prop :=
  (forall r, option_map rig_view (lookup s' r) = option_map rig_view (lookup s r)) /\
  next_id s' = next_id s /\ preferences s' = preferences s.

Definition same_frame (s s' : Blender) : Prop := frame_current s' = frame_current s.

(** Whether a bone is connected ([None] for a dangling reference). *)
Definition connected_flag (s : Blender) (r : BoneRef) : option bool :=
  option_map (fun p => use_connect (bone p)) (lookup s r).

(** Every location key among [ks] is for a bone of [obj] that is not
    connected. *)
Definition loose_location_keys (s : Blender) (obj : string) (ks : list Keyframe) : Prop :=
  forall k, In k ks -> k_path k = location_path ->
            connected_flag s (obj, k_bone k) = Some false.

(** What any part of a bake does: the rig stays, and actions only grow, by
    keys that respect connectivity. *)
Definition bake_step (s s' : Blender) : Prop :=
  same_rig s s' /\
  forall obj, exists ks,
    action_keys s' obj = action_keys s obj ++ ks /\ loose_location_keys s obj ks.

(** Among [ks] there is a location key of bone [r] at frame [f]. *)
Definition has_location_key (r : BoneRef) (f : Z) (ks : list Keyframe) : Prop :=
  exists k, In k ks /\ k_bone k = snd r /\ k_path k = location_path /\ k_frame k = f.

(** Between [s] and [s'] a location key of [r] at [f] was inserted. *)
Definition location_keyed (r : BoneRef) (f : Z) (s s' : Blender) : Prop :=
  exists ks, action_keys s' (fst r) = action_keys s (fst r) ++ ks /\
             has_location_key r f ks.

(** What the evaluation loop records: for each bone, its visual transform
    at each frame. *)
Definition samples (visual_local : Blender -> BoneRef -> Matrix)
    (frames : list Z) (pose_bones : list BoneRef) (s : Blender) : list (list Matrix) :=
  map (fun b => map (fun f => visual_local (set_frame_current f s) b) frames) pose_bones.

(** The quaternion keys of a bone, oldest first. *)
Definition quaternion_keys (s : Blender) (r : BoneRef) : list Quaternion :=
  flat_map (fun k => match k_value k with inr q => [q] | inl _ => [] end)
           (keys_of s r rotation_quaternion_path).

(** What the quaternion branch promises for the value [q2'] keyed for the
    sample [q2] after the previously keyed value [prev]. *)
Definition sign_compatible (prev : option Quaternion) (q2 q2' : Quaternion) : Prop :=
  match prev with
  | None => q2' = q2
  | Some q1 => (q2' = q2 \/ q2' = qneg q2) /\ 0 <= qdot q1 q2'
  end.

(** The same along a whole run of samples, each keyed value becoming the
    previous one of the next. *)
Fixpoint sign_continuous (prev : option Quaternion) (sampled keyed : list Quaternion)
  : Prop :=
  match sampled, keyed with
  | [], [] => True
  | q2 :: sampled', q2' :: keyed' =>
      sign_compatible prev q2 q2' /\ sign_continuous (Some q2') sampled' keyed'
  | _, _ => False
  end.

(** The Euler keys of a bone, oldest first. *)
Definition euler_keys (s : Blender) (r : BoneRef) : list Vector :=
  flat_map (fun k => match k_value k with inl v => [v] | inr _ => [] end)
           (keys_of s r rotation_euler_path).

(** What the Euler branch promises for the triple [e2'] keyed for the
    sample [e2] after the previously keyed triple [prev]: a representative
    of [e2] modulo full turns, as close to the previous triple as any. *)
Definition turn_compatible (prev : option Vector) (e2 e2' : Vector) : Prop :=
  match prev with
  | None => e2' = e2
  | Some e1 =>
      turn_congruent e2' e2 /\
      forall e, turn_congruent e e2 -> euler_distance e2' e1 <= euler_distance e e1
  end.

Fixpoint turn_continuous (prev : option Vector) (sampled keyed : list Vector) : Prop :=
  match sampled, keyed with
  | [], [] => True
  | e2 :: sampled', e2' :: keyed' =>
      turn_compatible prev e2 e2' /\ turn_continuous (Some e2') sampled' keyed'
  | _, _ => False
  end.

(** A step that leaves the rig and the keys of bone [b] alone. *)
Definition others_step (b : BoneRef) (s s' : Blender) : Prop :=
  same_rig s s' /\ forall c, keys_of s' b c = keys_of s b c.

(** Bone references and bakes on the small scene. *)
Definition demo_arm : BoneRef := ("Rig", "Arm").
Definition demo_hand : BoneRef := ("Rig", "Hand").
Definition demo_target : BoneRef := ("Rig", "Target").

Definition demo_calls : list BakeCall :=
  [mkBakeCall [1; 2]%Z [demo_arm; demo_hand] true true true;
   mkBakeCall [5]%Z [demo_arm] true false false].

Definition demo_matrix : Matrix :=
  mkMatrix vzero (mkQuaternion (-1) 0 0 0) (mkQuaternion 0 0 1 0)
           (mkVector 7 0 0) vone.

(** [raises_only P m]: every exception a run of [m] ends with satisfies [P]. *)
Definition raises_only {A} (P : exn -> Prop) (m : M A) : Prop :=
  forall s s' e, m s = (s', Raise e) -> P e.

(** [returns_only Q m]: every value a run of [m] returns satisfies [Q]. *)
Definition returns_only {A} (Q : A -> Prop) (m : M A) : Prop :=
  forall s s' a, m s = (s', Ok a) -> Q a.

(** An exception that is neither of the two internal-inconsistency errors. *)
Definition not_mismatch (e : exn) : Prop :=
  e <> RuntimeError edit_mismatch /\ e <> RuntimeError reverse_mismatch.

(** The small scene once the temporary armature object exists. *)
Definition demo_temp_scene : Blender :=
  fst (get_space_switching_armature_object demo_scene).

(** A scene whose temporary armature holds one selected, unconstrained
    bone. *)
Definition demo_empty_scene : Blender :=
  mkBlender
    [mkObject "Rig" "RigData" true POSE false
              [demo_bone "Root" None false QUATERNION false] None None;
     mkObject "SpaceSwitching" "SpaceSwitchingArmature" true POSE true
              [mkPoseBone
                 (mkBone "Empty" None false vzero (mkVector 0 1 0) 1 false false true
                         false EMPTY)
                 QUATERNION vzero qidentity (mkQuaternion 0 0 1 0) vzero vone
                 (mkDisplay None vzero vzero vone None true) []]
              (Some "Empty") None]
    1 (Some "SpaceSwitching") 0 demo_preferences.

(* ===================================================================== *)
(** ** The temporary bones of a space switch *)
(* ===================================================================== *)

(** The number a decimal numeral denotes. *)
Definition decimal_value (s : string) : option nat :=
  option_map Nat.of_uint (NilEmpty.uint_of_string s).

(** [s'] has the bones of [s], with the same pose data and constraints,
    and hands out the same constraint identities. *)
Definition same_bones (s s' : Blender) : Prop :=
  (forall r, lookup s' r = lookup s r) /\ next_id s' = next_id s.

(** [s'] agrees with [s] on every bone outside [F]. *)
Definition agree_outside (F : list BoneRef) (s s' : Blender) : Prop :=
  forall r, ~ In r F -> lookup s' r = lookup s r.

(** Bone [r] exists in [s], with parent [par] and constraint stack [cs]. *)
Definition has (s : Blender) (r : BoneRef) (par : option string) (cs : list Constraint)
  : Prop :=
  exists p, lookup s r = Some p /\ parent (bone p) = par /\ constraints p = cs.

(** The constraints [_space_switch] creates, once their targets are set. *)
Definition copy_transforms_to (id : nat) (r : BoneRef) : Constraint :=
  mkConstraint id COPY_TRANSFORMS (Some (fst r)) (snd r) 0 None "".

Definition copy_location_to (id : nat) (r : BoneRef) (factor : Q) : Constraint :=
  mkConstraint id COPY_LOCATION (Some (fst r)) (snd r) factor None "".

Definition copy_rotation_to (id : nat) (r : BoneRef) : Constraint :=
  mkConstraint id COPY_ROTATION (Some (fst r)) (snd r) 0 None "".

(** The temporary bones built for one source bone: the copy alone (world
    space, source not connected), the copy under a space anchor (a
    destination, source not connected) or the copy connected to an inner
    anchor under an outer one (source connected). *)
Inductive Chain :=
| ChainRoot (copy : string)
| ChainSpace (copy space : string)
| ChainConnected (copy inner outer : string).

Definition chain_copy (ch : Chain) : string :=
  match ch with
  | ChainRoot n | ChainSpace n _ | ChainConnected n _ _ => n
  end.

Definition chain_parent (ch : Chain) : option string :=
  match ch with
  | ChainRoot _ => None
  | ChainSpace _ d => Some d
  | ChainConnected _ c _ => Some c
  end.

Definition chain_names (ch : Chain) : list string :=
  match ch with
  | ChainRoot n => [n]
  | ChainSpace n d => [n; d]
  | ChainConnected n c a => [n; c; a]
  end.

(** Which chain a source bone gets. *)
Definition chain_shape (connected : bool) (dest : option BoneRef) (ch : Chain) : Prop :=
  match ch with
  | ChainRoot _ => connected = false /\ dest = None
  | ChainSpace _ _ => connected = false /\ dest <> None
  | ChainConnected _ _ _ => connected = true
  end.

(** The anchors of a chain exist, parented as the chain says, and carry
    no constraint yet. *)
Definition anchors_built (s : Blender) (T : string) (ch : Chain) : Prop :=
  match ch with
  | ChainRoot _ => True
  | ChainSpace _ d => has s (T, d) None []
  | ChainConnected _ c a => has s (T, c) (Some a) [] /\ has s (T, a) None []
  end.

(** A chain as the Edit Mode loop leaves it. *)
Definition chain_built (s : Blender) (T : string) (ch : Chain) : Prop :=
  has s (T, chain_copy ch) (chain_parent ch) [] /\ anchors_built s T ch.

(** The part of a pose bone the operation reads from its sources and
    nothing but the rewiring changes. *)
Definition keep_view (p : PoseBone) : option string * bool * list Constraint :=
  (parent (bone p), use_connect (bone p), constraints p).

Definition kept (s s' : Blender) : Prop :=
  (forall r, option_map keep_view (lookup s' r) = option_map keep_view (lookup s r)) /\
  next_id s' = next_id s /\ preferences s' = preferences s.

(** A step that writes bone [r] only. *)
Definition touches (r : BoneRef) (s s' : Blender) : Prop :=
  forall r', r' <> r -> lookup s' r' = lookup s r'.

(** The anchors of a chain once the Pose Mode loop has constrained them;
    [src_parent] is the parent of the source bone. *)
Definition anchors_wired (s : Blender) (T : string) (dest src_parent : option BoneRef)
    (ch : Chain) : Prop :=
  match ch with
  | ChainRoot _ => True
  | ChainSpace _ d =>
      exists dref id1 id2,
        dest = Some dref /\
        has s (T, d) None [copy_location_to id1 dref 0; copy_rotation_to id2 dref]
  | ChainConnected _ c a =>
      has s (T, c) (Some a) [] /\
      exists par id1 rot,
        src_parent = Some par /\
        has s (T, a) None (copy_location_to id1 par 1 :: rot) /\
        match dest with
        | Some dref => exists id2, rot = [copy_rotation_to id2 dref]
        | None => rot = []
        end
  end.

(** A chain as the Pose Mode loop leaves it: the copy carries the capture
    constraint [id] to its source. *)
Definition chain_wired (s : Blender) (T : string) (dest : option BoneRef)
    (src : BoneRef) (src_parent : option BoneRef) (ch : Chain) (id : nat) : Prop :=
  has s (T, chain_copy ch) (chain_parent ch) [copy_transforms_to id src] /\
  anchors_wired s T dest src_parent ch.

(** A chain at the end of the operation: the capture constraint is gone. *)
Definition chain_done (s : Blender) (T : string) (dest src_parent : option BoneRef)
    (ch : Chain) : Prop :=
  has s (T, chain_copy ch) (chain_parent ch) [] /\
  anchors_wired s T dest src_parent ch.

Inductive Forall3 {A B C} (R : A -> B -> C -> Prop)
  : list A -> list B -> list C -> Prop :=
| Forall3_nil : Forall3 R [] [] []
| Forall3_cons a b c la lb lc :
    R a b c -> Forall3 R la lb lc -> Forall3 R (a :: la) (b :: lb) (c :: lc).

(** The parent of a bone, as a reference. *)
Definition parent_of (s : Blender) (r : BoneRef) : option BoneRef :=
  match lookup s r with
  | Some p => parent_ref r p
  | None => None
  end.

(** Whether a bone is connected ([false] for a dangling reference). *)
Definition is_connected (s : Blender) (r : BoneRef) : bool :=
  match lookup s r with
  | Some p => use_connect (bone p)
  | None => false
  end.

(** The constraints the rewiring adds to a source bone. *)
Definition gained (connected : bool) (copy : BoneRef) (id1 id2 : nat) : list Constraint :=
  (if connected then [] else [copy_location_to id1 copy 0])
  ++ [copy_rotation_to id2 copy].

(** Bone [r] shows the same parent, connection and constraints in [s']
    as in [s]. *)
Definition same_view (s s' : Blender) (r : BoneRef) : Prop :=
  option_map keep_view (lookup s' r) = option_map keep_view (lookup s r).

(** Constraint identities are handed out from [next_id]: the constraints
    of the bones [W] are older than the next one. *)
Definition fresh_ids (s : Blender) (W : list BoneRef) : Prop :=
  forall src c, In src W -> In c (constraints_of s src) -> (c_id c < next_id s)%nat.

(** What [_space_switch] has done for source bone [src], from [s] to [s']:
    the chain [ch] of new bones of the temporary armature [T] stands, its
    capture constraint gone and its anchors constrained, and [src] has its
    old constraints followed by those to its copy. *)
Definition switched (s s' : Blender) (T : string) (dest : option BoneRef)
    (src : BoneRef) (ch : Chain) : Prop :=
  chain_shape (is_connected s src) dest ch /\
  (forall x, In x (chain_names ch) -> lookup s (T, x) = None) /\
  chain_done s' T dest (parent_of s src) ch /\
  exists id1 id2,
    constraints_of s' src
    = constraints_of s src ++ gained (is_connected s src) (T, chain_copy ch) id1 id2.

(* ===================================================================== *)
(** ** The operators *)
(* ===================================================================== *)

(** Python's [range(start, stop)]. *)
Definition range (start stop : Z) : list Z :=
  map (fun i => (start + Z.of_nat i)%Z) (seq 0 (Z.to_nat (stop - start))).

(** [context.mode]: the mode of the active object, Object Mode without
    one. *)
Definition context_mode (s : Blender) : Mode :=
  match active_object s with
  | None => OBJECT
  | Some a =>
      match lookup_object s a with
      | Some o => obj_mode o
      | None => OBJECT
      end
  end.

(** The pose bones [context.selected_pose_bones] holds, as
    [selected_pose_bones] refers to them. *)
Definition selected_pose_bone_data (s : Blender) : list PoseBone :=
  flat_map
    (fun o =>
       match obj_mode o with
       | POSE => filter (fun p => select (bone p) && negb (hide (bone p))) (bones o)
       | _ => []
       end)
    (objects s).

Definition tag_eqb (a b : Tag) : bool :=
  match a, b with
  | NONE, NONE | EMPTY, EMPTY | SPACE, SPACE | COPY, COPY => true
  | _, _ => false
  end.

(** [SPACE_SWITCHING_OT_add_empty.poll]. *)
Definition add_empty_poll (s : Blender) : bool := mode_eqb (context_mode s) POSE.

(** [SPACE_SWITCHING_OT_bake_pose.poll]. *)
Definition bake_pose_poll (s : Blender) : bool :=
  mode_eqb (context_mode s) POSE
  && (0 <? List.length (selected_pose_bone_data s))%nat
  && match active_object s with
     | None => false
     | Some a =>
         match lookup_object s a with
         | Some o =>
             match animation_data o with
             | Some (Some _) => true
             | _ => false
             end
         | None => false
         end
     end.

(** [SPACE_SWITCHING_OT_delete_bone.poll]. *)
Definition delete_bone_poll (s : Blender) : bool :=
  if mode_eqb (context_mode s) POSE then
    if existsb (fun pose_bone => tag_eqb (space_switching_tag (bone pose_bone)) NONE)
               (selected_pose_bone_data s)
    then false
    else (0 <? List.length (selected_pose_bone_data s))%nat
  else false.

(** [SPACE_SWITCHING_OT_apply_bone.poll]. *)
Definition apply_bone_poll (s : Blender) : bool :=
  if mode_eqb (context_mode s) POSE then
    if existsb (fun pose_bone => negb (tag_eqb (space_switching_tag (bone pose_bone)) COPY))
               (selected_pose_bone_data s)
    then false
    else (0 <? List.length (selected_pose_bone_data s))%nat
  else false.

(** The loop the polls of the switching operators share: is a selected
    bone already constrained? *)
Definition selection_constrained (s : Blender) : bool :=
  existsb (fun pose_bone => (0 <? List.length (constraints pose_bone))%nat)
          (selected_pose_bone_data s).

(** [SPACE_SWITCHING_OT_selection_to_world.poll]. *)
Definition selection_to_world_poll (s : Blender) : bool :=
  if mode_eqb (context_mode s) POSE then
    if selection_constrained s then false
    else (0 <? List.length (selected_pose_bone_data s))%nat
  else false.

(** [SPACE_SWITCHING_OT_selection_to_active.poll]. *)
Definition selection_to_active_poll (s : Blender) : bool :=
  if mode_eqb (context_mode s) POSE then
    if selection_constrained s then false
    else (1 <? List.length (selected_pose_bone_data s))%nat
  else false.

(** [SPACE_SWITCHING_OT_selection_to_target.poll]. *)
Definition selection_to_target_poll (s : Blender) : bool :=
  if mode_eqb (context_mode s) POSE then
    if selection_constrained s then false
    else (0 <? List.length (selected_pose_bone_data s))%nat
  else false.

(** [SPACE_SWITCHING_OT_build_two_bone_ik.poll]. *)
Definition build_two_bone_ik_poll (s : Blender) : bool :=
  if mode_eqb (context_mode s) POSE then
    if selection_constrained s then false
    else (List.length (selected_pose_bone_data s) =? 1)%nat
  else false.

(** What [execute] returns. *)
Inductive OperatorReturn := FINISHED.

Section Operators.

Variable visual_local : Blender -> BoneRef -> Matrix.


(** [SPACE_SWITCHING_OT_delete_bone.execute]. *)
Definition delete_bone_execute : M OperatorReturn :=
  _remove_bones_common visual_local false None ;;
  ret FINISHED.

(** [SPACE_SWITCHING_OT_apply_bone.execute]. *)
Definition apply_bone_execute (frame_start frame_end : Z) : M OperatorReturn :=
  _remove_bones_common visual_local true (Some (range frame_start (frame_end + 1))) ;;
  ret FINISHED.

(** [SPACE_SWITCHING_OT_selection_to_world.execute]. *)
Definition selection_to_world_execute (frame_start frame_end : Z) : M OperatorReturn :=
  s <- get ;;
  _space_switch visual_local (selected_pose_bones s) None
                (Some (range frame_start (frame_end + 1))) ;;
  ret FINISHED.

(** [SPACE_SWITCHING_OT_selection_to_active.execute]. *)
Definition selection_to_active_execute (frame_start frame_end : Z) : M OperatorReturn :=
  s <- get ;;
  let src_pose_bones := selected_pose_bones s in
  let dest_pose_bone := active_pose_bone s in
  _space_switch visual_local src_pose_bones dest_pose_bone
                (Some (range frame_start (frame_end + 1))) ;;
  ret FINISHED.

End Operators.


(* ===================================================================== *)
(** ** Relations and observations for the operators *)
(* ===================================================================== *)

(** Names identify: no two objects share a name, no two bones of an
    object do. *)
Definition unique_names (s : Blender) : Prop :=
  NoDup (map obj_name (objects s)) /\
  forall o, In o (objects s) -> NoDup (map (fun p => name (bone p)) (bones o)).

(** The preferences stay, and no insertion is made into the action of an
    object other than the temporary armature. *)
Definition keys_elsewhere (s s' : Blender) : Prop :=
  preferences s' = preferences s /\
  forall obj, obj <> pref_object_name (preferences s) ->
              action_keys s' obj = action_keys s obj.

(** The insertions made into the action of [obj] between [s] and a
    later state [s'], oldest first: what the log holds at [s'] beyond what
    it held at [s]. *)
Definition inserted (s s' : Blender) (obj : string) : list Keyframe :=
  skipn (List.length (action_keys s obj)) (action_keys s' obj).

(** Those of them made on one data path of one bone. *)
Definition inserted_of (s s' : Blender) (r : BoneRef) (c : Channel) : list Keyframe :=
  filter (fun k => String.eqb (k_bone k) (snd r) && channel_eqb (k_path k) c)
         (inserted s s' (fst r)).

(** Whether a bake with the given channels enabled keys data path [c] of
    pose bone [p]. *)
Definition bake_channel (do_location do_rotation do_scale : bool) (p : PoseBone)
    (c : Channel) : bool :=
  match c with
  | location_path => do_location && negb (use_connect (bone p))
  | rotation_quaternion_path =>
      do_rotation && match rotation_mode p with QUATERNION => true | _ => false end
  | rotation_axis_angle_path =>
      do_rotation && match rotation_mode p with AXIS_ANGLE => true | _ => false end
  | rotation_euler_path => do_rotation && is_euler (rotation_mode p)
  | scale_path => do_scale
  end.

(** An insertion a bake of [pose_bones] over [frames] may make into the
    action of [obj]: for one of the bones, at one of the frames, with the
    name of the bone passed as the group, on a channel the bake keys for
    that bone. *)
Definition bake_key (frames : list Z) (pose_bones : list BoneRef)
    (do_location do_rotation do_scale : bool) (s : Blender) (obj : string)
    (k : Keyframe) : Prop :=
  In (obj, k_bone k) pose_bones /\ In (k_frame k) frames /\ k_group k = k_bone k /\
  exists p, lookup s (obj, k_bone k) = Some p /\
            bake_channel do_location do_rotation do_scale p (k_path k) = true.

(** What any part of such a bake does: the rig stays, and only such
    insertions are made. *)
Definition keyed_step (frames : list Z) (pose_bones : list BoneRef)
    (do_location do_rotation do_scale : bool) (s s' : Blender) : Prop :=
  same_rig s s' /\
  forall obj, exists ks,
    action_keys s' obj = action_keys s obj ++ ks /\
    forall k, In k ks -> bake_key frames pose_bones do_location do_rotation do_scale s obj k.

(** The insertion on a vector channel the bake makes for bone [b] at
    frame [f]: the value is read off the visual transform [m] sampled
    there, and the group passed is the name of the bone. *)
Definition sampled_key (b : BoneRef) (c : Channel) (value : Matrix -> Vector)
    (m : Matrix) (f : Z) : Keyframe :=
  mkKeyframe (snd b) c f (snd b) (inl (value m)).

(** The small scene once Arm and Hand have been switched to world space
    over frames 1 and 2. *)
Definition demo_switched_scene : Blender :=
  fst (_space_switch demo_visual_local [demo_arm; demo_hand] None (Some [1; 2]%Z)
         demo_scene).

(** [returns_to R m]: every run of [m] that returns takes a state to an
    [R]-related one. *)
Definition returns_to {A} (R : Blender -> Blender -> Prop) (m : M A) : Prop :=
  forall s s' a, m s = (s', Ok a) -> R s s'.

(** What the removal owes to the bones outside the temporary armature
    [T]: each is still there, under the same parent, connected or not as
    before, and with no constraint it did not have. *)
Definition spared (T : string) (s s' : Blender) : Prop :=
  preferences s' = preferences s /\
  forall r p, fst r <> T -> lookup s r = Some p ->
    exists p', lookup s' r = Some p' /\
               parent (bone p') = parent (bone p) /\
               use_connect (bone p') = use_connect (bone p) /\
               incl (constraints p') (constraints p).

(** The same, as long as [T] is the temporary armature of the
    preferences. *)
Definition spared_while (T : string) (s s' : Blender) : Prop :=
  pref_object_name (preferences s) = T -> spared T s s'.



(** No bone appears, disappears or changes its connection. *)
Definition same_joints (s s' : Blender) : Prop :=
  forall r, connected_flag s' r = connected_flag s r.

(* ===================================================================== *)
(** ** How a space switch dresses the bones *)
(* ===================================================================== *)

(** What the Pose Mode loop gives a copy [cp], a bone of object [T], of
    source bone [sp]: it is selected and tagged COPY; it has the wireframe
    flag and the custom shape attributes of the source, as far as the host
    stores them on a bone of [T] (a custom shape transform that is a bone
    of another object is not carried over); and its rotation mode is the
    source's, but for a connected source in an Euler mode, whose copy is
    in quaternion mode. *)
Definition copy_dress (T : string) (sp cp : PoseBone) : Prop :=
  select (bone cp) = true /\
  space_switching_tag (bone cp) = COPY /\
  rotation_mode cp
  = (if use_connect (bone sp) && is_euler (rotation_mode sp)
     then QUATERNION else rotation_mode sp) /\
  display cp = copied_display T (display sp) /\
  show_wire (bone cp) = show_wire (bone sp).

(** The part of a source bone the copy is dressed from. *)
Definition veil_view (p : PoseBone) : bool * bool * RotationMode * Display :=
  (use_connect (bone p), show_wire (bone p), rotation_mode p, display p).

(** Every bone is still there and shows the same; a hidden bone is still
    hidden. *)
Definition veiled (s s' : Blender) : Prop :=
  forall r p, lookup s r = Some p ->
    exists p', lookup s' r = Some p' /\ veil_view p' = veil_view p /\
               (hide (bone p) = true -> hide (bone p') = true).

(** The part of a pose bone neither the bake nor the rewiring writes. *)
Definition dress_view (p : PoseBone) : Bone * RotationMode * Display :=
  (bone p, rotation_mode p, display p).

Definition same_dress (s s' : Blender) : Prop :=
  forall r, option_map dress_view (lookup s' r) = option_map dress_view (lookup s r).


(** Source bone [src] and the copy of its chain [ch], at the end [s'] of a
    space switch from [s]: the source is hidden and the copy dressed from
    it. *)
Definition dressed (s s' : Blender) (T : string) (src : BoneRef) (ch : Chain) : Prop :=
  exists sp sp' cp,
    lookup s src = Some sp /\
    lookup s' src = Some sp' /\ hide (bone sp') = true /\
    lookup s' (T, chain_copy ch) = Some cp /\ copy_dress T sp cp.
(* ===================================================================== *)
(** * Proofs *)
(* ===================================================================== *)

(** ** Lists *)

Lemma find_update_first_same {A} (p : A -> bool) (f : A -> A) (l : list A) :
  (forall x, p (f x) = p x) ->
  find p (update_first p f l) = option_map f (find p l).
Proof.
  intros Hp. induction l as [|x l IH]; simpl; auto.
  destruct (p x) eqn:E; simpl.
  - rewrite Hp, E. reflexivity.
  - rewrite E. exact IH.
Qed.

Lemma find_update_first_other {A} (p q : A -> bool) (f : A -> A) (l : list A) :
  (forall x, q x = true -> p x = false /\ p (f x) = false) ->
  find p (update_first q f l) = find p l.
Proof.
  intros Hq. induction l as [|x l IH]; simpl; auto.
  destruct (q x) eqn:E; simpl.
  - destruct (Hq x E) as [-> ->]. reflexivity.
  - destruct (p x); auto.
Qed.

Lemma boneref_eqb_eq (a b : BoneRef) : boneref_eqb a b = true <-> a = b.
Proof.
  destruct a as [a1 a2], b as [b1 b2]; unfold boneref_eqb; simpl.
  rewrite andb_true_iff, !String.eqb_eq. split.
  - intros [-> ->]; reflexivity.
  - intros H; inversion H; auto.
Qed.

Lemma boneref_eqb_refl (a : BoneRef) : boneref_eqb a a = true.
Proof. apply boneref_eqb_eq; reflexivity. Qed.

Lemma boneref_eqb_neq (a b : BoneRef) : boneref_eqb a b = false <-> a <> b.
Proof.
  split.
  - intros H E. apply boneref_eqb_eq in E. congruence.
  - intros H. destruct (boneref_eqb a b) eqn:E; auto.
    apply boneref_eqb_eq in E. contradiction.
Qed.

(** ** The monad *)

Lemma bind_inv {A B} (m : M A) (k : A -> M B) s s' r :
  bind m k s = (s', r) ->
  (exists e, m s = (s', Raise e) /\ r = Raise e) \/
  (exists s1 a, m s = (s1, Ok a) /\ k a s1 = (s', r)).
Proof.
  unfold bind. destruct (m s) as [s1 [a|e]]; intros H.
  - right. eauto.
  - left. inversion H; subst. eauto.
Qed.

Lemma bind_ok_inv {A B} (m : M A) (k : A -> M B) s s' b :
  bind m k s = (s', Ok b) ->
  exists s1 a, m s = (s1, Ok a) /\ k a s1 = (s', Ok b).
Proof.
  intros H. apply bind_inv in H. destruct H as [(e & _ & He)|H]; [discriminate|exact H].
Qed.

Section Steps.

Variable R : Blender -> Blender -> Prop.
Hypothesis R_refl : forall s, R s s.
Hypothesis R_trans : forall a b c, R a b -> R b c -> R a c.

Lemma steps_ret {A} (a : A) : steps R (ret a).
Proof. intros s s' r H. inversion H; subst. apply R_refl. Qed.

Lemma steps_raise {A} (e : exn) : steps R (@raise A e).
Proof. intros s s' r H. inversion H; subst. apply R_refl. Qed.

Lemma steps_get : steps R get.
Proof. intros s s' r H. inversion H; subst. apply R_refl. Qed.

Lemma steps_bind {A B} (m : M A) (k : A -> M B) :
  steps R m -> (forall a, steps R (k a)) -> steps R (bind m k).
Proof.
  intros Hm Hk s s' r H. apply bind_inv in H.
  destruct H as [(e & H & _)|(s1 & a & H1 & H2)].
  - eapply Hm; eauto.
  - eapply R_trans; [eapply Hm|eapply Hk]; eauto.
Qed.

Lemma steps_for_each {A} (xs : list A) (body : A -> M unit) :
  (forall x, In x xs -> steps R (body x)) -> steps R (for_each xs body).
Proof.
  induction xs as [|x xs IH]; intros Hb; simpl.
  - apply steps_ret.
  - apply steps_bind; [apply Hb; simpl; auto|].
    intros _. apply IH. intros y Hy. apply Hb. simpl; auto.
Qed.

Lemma steps_for_fold {A B} (xs : list A) (body : B -> A -> M B) :
  (forall acc x, In x xs -> steps R (body acc x)) ->
  forall acc, steps R (for_fold xs acc body).
Proof.
  induction xs as [|x xs IH]; intros Hb acc; simpl.
  - apply steps_ret.
  - apply steps_bind; [apply Hb; simpl; auto|].
    intros acc'. apply IH. intros a y Hy. apply Hb. simpl; auto.
Qed.

Lemma steps_get_bone r : steps R (get_bone r).
Proof.
  intros s s' res H. unfold get_bone in H.
  destruct (lookup s r); inversion H; subst; apply R_refl.
Qed.

Lemma steps_get_object n : steps R (get_object n).
Proof.
  intros s s' res H. unfold get_object in H.
  destruct (lookup_object s n); inversion H; subst; apply R_refl.
Qed.

Lemma steps_not_none {A} attr (o : option A) : steps R (not_none attr o).
Proof. destruct o; [apply steps_ret|apply steps_raise]. Qed.

Lemma steps_modify f : (forall s, R s (f s)) -> steps R (modify f).
Proof. intros Hf s s' r H. inversion H; subst. apply Hf. Qed.

Lemma steps_at_of {A} (m : M A) s : steps R m -> steps_at R m s.
Proof. intros H s' r E. eapply H; eauto. Qed.

Lemma steps_at_bind {A B} (m : M A) (k : A -> M B) s :
  steps_at R m s ->
  (forall a s1, m s = (s1, Ok a) -> steps_at R (k a) s1) ->
  steps_at R (bind m k) s.
Proof.
  intros Hm Hk s' r H. apply bind_inv in H.
  destruct H as [(e & H & _)|(s1 & a & H1 & H2)].
  - eapply Hm; eauto.
  - eapply R_trans; [eapply Hm|eapply Hk]; eauto.
Qed.

Lemma steps_at_for_fold {A B} (I : Blender -> Prop) (xs : list A) (body : B -> A -> M B) :
  (forall acc x s, In x xs -> I s -> steps_at R (body acc x) s) ->
  (forall acc x s s' r, In x xs -> I s -> body acc x s = (s', r) -> I s') ->
  forall acc s, I s -> steps_at R (for_fold xs acc body) s.
Proof.
  induction xs as [|x xs IH]; intros Hb HI acc s Hs; simpl.
  - apply steps_at_of, steps_ret.
  - apply steps_at_bind; [apply Hb; simpl; auto|].
    intros acc' s1 H1. apply IH.
    + intros a y s0 Hy. apply Hb. simpl; auto.
    + intros a y s0 s0' r0 Hy. eapply HI. simpl; auto.
    + eapply HI; eauto. simpl; auto.
Qed.

Lemma steps_at_for_each {A} (I : Blender -> Prop) (xs : list A) (body : A -> M unit) :
  (forall x s, In x xs -> I s -> steps_at R (body x) s) ->
  (forall x s s' r, In x xs -> I s -> body x s = (s', r) -> I s') ->
  forall s, I s -> steps_at R (for_each xs body) s.
Proof.
  induction xs as [|x xs IH]; intros Hb HI s Hs; simpl.
  - apply steps_at_of, steps_ret.
  - apply steps_at_bind; [apply Hb; simpl; auto|].
    intros [] s1 H1. apply IH.
    + intros y s0 Hy. apply Hb. simpl; auto.
    + intros y s0 s0' r0 Hy. eapply HI. simpl; auto.
    + eapply HI; eauto. simpl; auto.
Qed.

(** A loop that returns has run its body, from a state reached from the
    start, to a state from which the end was reached. *)
Lemma for_each_ran {A} (xs : list A) (body : A -> M unit) :
  (forall x, steps R (body x)) ->
  forall s s' x, for_each xs body s = (s', Ok tt) -> In x xs ->
  exists s1 s2, R s s1 /\ body x s1 = (s2, Ok tt) /\ R s2 s'.
Proof.
  intros Hb. induction xs as [|y xs IH]; intros s s' x H Hin; [destruct Hin|].
  simpl in H. apply bind_ok_inv in H. destruct H as (s1 & [] & H1 & H2).
  destruct Hin as [->|Hin].
  - exists s, s1. repeat split; auto.
    eapply (steps_for_each xs body); eauto.
  - destruct (IH _ _ _ H2 Hin) as (t1 & t2 & Ha & Hb' & Hc).
    exists t1, t2. repeat split; auto.
    eapply R_trans; [eapply Hb; eauto|exact Ha].
Qed.

Lemma for_fold_ran {A B} (xs : list A) (body : B -> A -> M B) :
  (forall acc x, steps R (body acc x)) ->
  forall acc s s' res x, for_fold xs acc body s = (s', Ok res) -> In x xs ->
  exists acc1 s1 acc2 s2, R s s1 /\ body acc1 x s1 = (s2, Ok acc2) /\ R s2 s'.
Proof.
  intros Hb. induction xs as [|y xs IH]; intros acc s s' res x H Hin; [destruct Hin|].
  simpl in H. apply bind_ok_inv in H. destruct H as (s1 & acc1 & H1 & H2).
  destruct Hin as [->|Hin].
  - exists acc, s, acc1, s1. repeat split; auto.
    eapply (steps_for_fold xs body); eauto.
  - destruct (IH _ _ _ _ _ H2 Hin) as (a1 & t1 & a2 & t2 & Ha & Hb' & Hc).
    exists a1, t1, a2, t2. repeat split; auto.
    eapply R_trans; [eapply Hb; eauto|exact Ha].
Qed.

End Steps.

(** ** Reading the state after a write *)

Lemma lookup_object_update_object n f s m :
  (forall o, obj_name (f o) = obj_name o) ->
  lookup_object (update_object n f s) m =
  if String.eqb m n then option_map f (lookup_object s n) else lookup_object s m.
Proof.
  intros Hf. unfold lookup_object, update_object; simpl.
  destruct (String.eqb m n) eqn:E.
  - apply String.eqb_eq in E; subst m.
    apply find_update_first_same. intros o. unfold is_object. now rewrite Hf.
  - apply find_update_first_other. intros o Ho. unfold is_object in *.
    apply String.eqb_eq in Ho. rewrite Hf, Ho.
    rewrite String.eqb_sym, E. auto.
Qed.

Lemma lookup_update_bone r f s r' :
  keeps_name f ->
  lookup (update_bone r f s) r' =
  if boneref_eqb r' r then option_map f (lookup s r) else lookup s r'.
Proof.
  intros Hf. destruct r as [o n], r' as [o' n'].
  unfold lookup, update_bone, boneref_eqb; simpl.
  rewrite lookup_object_update_object by reflexivity.
  destruct (String.eqb o' o) eqn:Eo; simpl; auto.
  apply String.eqb_eq in Eo; subst o'.
  destruct (lookup_object s o) as [ob|]; simpl.
  - unfold lookup_bone; simpl. destruct (String.eqb n' n) eqn:En.
    + apply String.eqb_eq in En; subst n'.
      apply find_update_first_same. intros p. unfold is_bone. now rewrite Hf.
    + apply find_update_first_other. intros p Hp. unfold is_bone in *.
      apply String.eqb_eq in Hp. rewrite Hf, Hp.
      rewrite String.eqb_sym, En. auto.
  - destruct (String.eqb n' n); reflexivity.
Qed.

Lemma lookup_update_bone_same r f s :
  keeps_name f -> lookup (update_bone r f s) r = option_map f (lookup s r).
Proof. intros Hf. rewrite lookup_update_bone by auto. now rewrite boneref_eqb_refl. Qed.

Lemma lookup_update_bone_other r f s r' :
  keeps_name f -> r' <> r -> lookup (update_bone r f s) r' = lookup s r'.
Proof.
  intros Hf Hne. rewrite lookup_update_bone by auto.
  apply boneref_eqb_neq in Hne. now rewrite Hne.
Qed.

(** A write on an object that leaves its bones alone is invisible to
    [lookup]. *)
Lemma lookup_update_object_bones n g s r :
  (forall o, obj_name (g o) = obj_name o) ->
  (forall o, bones (g o) = bones o) ->
  lookup (update_object n g s) r = lookup s r.
Proof.
  intros Hn Hb. unfold lookup. rewrite lookup_object_update_object by auto.
  destruct (String.eqb (fst r) n) eqn:E; auto.
  apply String.eqb_eq in E. rewrite E.
  destruct (lookup_object s n); simpl; auto.
  unfold lookup_bone. now rewrite Hb.
Qed.

Lemma lookup_object_update_bone r f s m :
  lookup_object (update_bone r f s) m =
  if String.eqb m (fst r)
  then option_map (fun o => set_bones (update_first (is_bone (snd r)) f (bones o)) o)
                  (lookup_object s (fst r))
  else lookup_object s m.
Proof. unfold update_bone. now rewrite lookup_object_update_object. Qed.

Lemma action_keys_update_bone r f s obj :
  action_keys (update_bone r f s) obj = action_keys s obj.
Proof.
  unfold action_keys. rewrite lookup_object_update_bone.
  destruct (String.eqb obj (fst r)) eqn:E; auto.
  apply String.eqb_eq in E; subst obj.
  destruct (lookup_object s (fst r)); reflexivity.
Qed.

Lemma keeps_name_on_bone f :
  (forall b, name (f b) = name b) -> keeps_name (on_bone f).
Proof. intros H p. simpl. apply H. Qed.

Lemma keeps_name_set_matrix_basis m : keeps_name (set_matrix_basis m).
Proof. intros p. unfold set_matrix_basis. destruct (rotation_mode p); reflexivity. Qed.

Create HintDb names discriminated.
#[local] Hint Resolve keeps_name_set_matrix_basis : names.
#[local] Hint Extern 1 (keeps_name _) => (intros ?; reflexivity) : names.
#[local] Hint Extern 1 (keeps_name (on_bone _)) =>
  (apply keeps_name_on_bone; intros ?; reflexivity) : names.

(** ** Runs of the primitives *)

Lemma get_bone_run r s s' res : get_bone r s = (s', res) -> s' = s.
Proof. unfold get_bone. destruct (lookup s r); intros H; inversion H; auto. Qed.

Lemma get_bone_ok r s s' p :
  get_bone r s = (s', Ok p) -> s' = s /\ lookup s r = Some p.
Proof. unfold get_bone. destruct (lookup s r); intros H; inversion H; auto. Qed.

Lemma get_object_ok n s s' o :
  get_object n s = (s', Ok o) -> s' = s /\ lookup_object s n = Some o.
Proof. unfold get_object. destruct (lookup_object s n); intros H; inversion H; auto. Qed.

Lemma write_bone_ok r f s s' u :
  write_bone r f s = (s', Ok u) ->
  s' = update_bone r f s /\ exists p, lookup s r = Some p.
Proof.
  unfold write_bone, bind, get_bone, modify.
  destruct (lookup s r); intros H; inversion H; eauto.
Qed.

Lemma write_bone_run r f s s' res :
  write_bone r f s = (s', res) -> s' = s \/ s' = update_bone r f s.
Proof.
  unfold write_bone, bind, get_bone, modify.
  destruct (lookup s r); intros H; inversion H; auto.
Qed.

Lemma write_object_ok n f s s' u :
  write_object n f s = (s', Ok u) ->
  s' = update_object n f s /\ exists o, lookup_object s n = Some o.
Proof.
  unfold write_object, bind, get_object, modify.
  destruct (lookup_object s n); intros H; inversion H; eauto.
Qed.

Lemma keyframe_insert_run r path frame group s s' res :
  keyframe_insert r path frame group s = (s', res) ->
  (s' = s /\ exists e, res = Raise e) \/
  (exists p o, lookup s r = Some p /\ lookup_object s (fst r) = Some o /\
               res = Ok tt /\
               s' = update_object (fst r)
                      (fun _ => with_key (inserted_key r path frame group p) o) s).
Proof.
  unfold keyframe_insert, bind, get_bone, get. destruct (lookup s r) as [p|] eqn:Ep.
  - destruct (lookup_object s (fst r)) as [o|] eqn:Eo.
    + destruct (existsb _ _); unfold raise, modify; intros H; inversion H; subst.
      * left; eauto.
      * right. exists p, o. repeat split; auto.
        unfold update_object. f_equal.
        unfold lookup_object in Eo. clear -Eo.
        induction (objects s) as [|x l IH]; simpl in *; auto.
        destruct (is_object (fst r) x) eqn:E.
        -- inversion Eo; subst. reflexivity.
        -- f_equal. auto.
    + unfold raise. intros H; inversion H; subst. left; eauto.
  - intros H; inversion H; subst. left; eauto.
Qed.

Lemma action_keys_with_key (r : BoneRef) k o s obj :
  lookup_object s (fst r) = Some o ->
  action_keys (update_object (fst r) (fun _ => with_key k o) s) obj =
  action_keys s obj ++ (if String.eqb obj (fst r) then [k] else []).
Proof.
  intros Ho. unfold action_keys.
  assert (Hn : obj_name o = fst r).
  { unfold lookup_object in Ho. apply find_some in Ho. destruct Ho as [_ Ho].
    unfold is_object in Ho. now apply String.eqb_eq in Ho. }
  unfold lookup_object, update_object; simpl.
  destruct (String.eqb obj (fst r)) eqn:E.
  - apply String.eqb_eq in E; subst obj.
    unfold lookup_object in Ho.
    induction (objects s) as [|x l IH]; simpl in *; [discriminate|].
    destruct (is_object (fst r) x) eqn:Ex; simpl.
    + inversion Ho; subst x. unfold is_object at 1; simpl.
      rewrite Hn, String.eqb_refl. reflexivity.
    + rewrite Ex. auto.
  - rewrite app_nil_r.
    replace (find (is_object obj)
               (update_first (is_object (fst r)) (fun _ => with_key k o) (objects s)))
      with (find (is_object obj) (objects s)); auto.
    symmetry. apply find_update_first_other. intros x Hx. unfold is_object in *.
    apply String.eqb_eq in Hx. simpl. rewrite Hn, Hx.
    rewrite String.eqb_sym, E. auto.
Qed.

Lemma lookup_with_key n k o s r :
  lookup_object s n = Some o ->
  lookup (update_object n (fun _ => with_key k o) s) r = lookup s r.
Proof.
  intros Ho. unfold lookup.
  assert (Hn : obj_name o = n).
  { unfold lookup_object in Ho. apply find_some in Ho. destruct Ho as [_ Ho].
    unfold is_object in Ho. now apply String.eqb_eq in Ho. }
  destruct (String.eqb (fst r) n) eqn:E.
  - apply String.eqb_eq in E. rewrite E.
    replace (lookup_object (update_object n (fun _ => with_key k o) s) n)
      with (Some (with_key k o)).
    + rewrite Ho. reflexivity.
    + unfold lookup_object, update_object in *; simpl.
      induction (objects s) as [|x l IH]; simpl in *; [discriminate|].
      destruct (is_object n x) eqn:Ex; simpl.
      * unfold is_object; simpl. now rewrite Hn, String.eqb_refl.
      * rewrite Ex. auto.
  - f_equal. unfold lookup_object, update_object; simpl.
    replace (find (is_object (fst r)) (update_first (is_object n) (fun _ => with_key k o) (objects s)))
      with (find (is_object (fst r)) (objects s)); auto.
    symmetry. apply find_update_first_other. intros x Hx. unfold is_object in *.
    apply String.eqb_eq in Hx. simpl. rewrite Hn, Hx.
    rewrite String.eqb_sym, E. auto.
Qed.

(** ** What a bake leaves alone *)

Lemma same_rig_refl s : same_rig s s.
Proof. repeat split. Qed.

Lemma same_rig_trans a b c : same_rig a b -> same_rig b c -> same_rig a c.
Proof.
  intros (H1 & H2 & H3) (H4 & H5 & H6). split; [|split; congruence].
  intros r. now rewrite H4, H1.
Qed.

Lemma same_rig_update_bone r f s :
  (forall p, rig_view (f p) = rig_view p) -> same_rig s (update_bone r f s).
Proof.
  intros Hf. repeat split. intros r'.
  rewrite lookup_update_bone.
  - destruct (boneref_eqb r' r) eqn:E; auto.
    apply boneref_eqb_eq in E; subst r'.
    destruct (lookup s r); simpl; auto. now rewrite Hf.
  - intros p. specialize (Hf p). unfold rig_view in Hf. congruence.
Qed.

Lemma same_rig_with_key n k o s :
  lookup_object s n = Some o -> same_rig s (update_object n (fun _ => with_key k o) s).
Proof. intros Ho. repeat split. intros r. now rewrite lookup_with_key. Qed.

Lemma rig_view_set_matrix_basis m p : rig_view (set_matrix_basis m p) = rig_view p.
Proof. unfold set_matrix_basis. destruct (rotation_mode p); reflexivity. Qed.

Create HintDb host discriminated.
#[local] Hint Unfold write_bone write_object frame_set keyframe_insert select_set
  constraints_new write_constraint constraints_remove mode_set : host.

(** One decomposition step of a [steps] goal; [Hr] and [Ht] are the proofs
    that the relation is reflexive and transitive. *)
Ltac steps_step Hr Ht :=
  match goal with
  | |- steps _ (bind _ _) => apply (steps_bind _ Ht); [| intros ?]
  | |- steps _ (ret _) => apply (steps_ret _ Hr)
  | |- steps _ (raise _) => apply (steps_raise _ Hr)
  | |- steps _ get => apply (steps_get _ Hr)
  | |- steps _ (get_bone _) => apply (steps_get_bone _ Hr)
  | |- steps _ (get_object _) => apply (steps_get_object _ Hr)
  | |- steps _ (not_none _ _) => apply (steps_not_none _ Hr)
  | |- steps _ (for_each _ _) => apply (steps_for_each _ Hr Ht); intros ? _
  | |- steps _ (for_fold _ _ _) => apply (steps_for_fold _ Hr Ht); intros ? ? _
  | |- steps _ (modify _) => apply steps_modify; intros ?
  | |- steps _ (if ?c then _ else _) => destruct c
  | |- steps _ (match ?x with _ => _ end) => destruct x
  | |- steps _ _ => progress autounfold with host
  end.

Ltac steps_auto Hr Ht := repeat steps_step Hr Ht.
Ltac steps_prims Hr Ht prim := repeat first [solve [prim] | steps_step Hr Ht].

(** ** Keys after an insertion *)

Lemma keyframe_insert_ok r path frame group s s' u :
  keyframe_insert r path frame group s = (s', Ok u) ->
  exists p, lookup s r = Some p /\
            (forall r', lookup s' r' = lookup s r') /\
            next_id s' = next_id s /\
            forall c, keys_of s' r c =
                      keys_of s r c ++
                      (if channel_eqb path c
                       then [inserted_key r path frame group p] else []).
Proof.
  intros H. apply keyframe_insert_run in H.
  destruct H as [(_ & e & He)|(p & o & Hp & Ho & _ & ->)]; [discriminate|].
  exists p. split; auto. split; [|split; [reflexivity|]].
  - intros r'. now apply lookup_with_key.
  - intros c. unfold keys_of. rewrite (action_keys_with_key r _ o) by exact Ho.
    rewrite String.eqb_refl, filter_app. f_equal. simpl.
    rewrite String.eqb_refl. simpl. now destruct (channel_eqb path c).
Qed.

(** An optional insertion on another channel. *)
Lemma optional_insert_ok (cond : bool) r path frame group s s' u c :
  (if cond then keyframe_insert r path frame group else ret tt) s = (s', Ok u) ->
  channel_eqb path c = false ->
  (forall r', lookup s' r' = lookup s r') /\ keys_of s' r c = keys_of s r c.
Proof.
  intros H Hc. destruct cond.
  - apply keyframe_insert_ok in H. destruct H as (p & _ & Hl & _ & Hk).
    split; auto. rewrite Hk, Hc. apply app_nil_r.
  - inversion H; subst. auto.
Qed.

Lemma keys_of_update_bone r f s r' c :
  keys_of (update_bone r f s) r' c = keys_of s r' c.
Proof. unfold keys_of. now rewrite action_keys_update_bone. Qed.

Lemma pose_info_at_run pose_info i j s s' res :
  pose_info_at pose_info i j s = (s', res) -> s' = s.
Proof.
  unfold pose_info_at. destruct (nth_error pose_info i) as [row|].
  - destruct (nth_error row j); intros H; inversion H; auto.
  - intros H; inversion H; auto.
Qed.

(** ** Sign continuity of quaternions *)

Lemma quat_make_compatible_sign (q2 q1 : Quaternion) :
  sign_compatible (Some q1) q2 (quat_make_compatible q2 q1).
Proof.
  unfold sign_compatible, quat_make_compatible.
  assert (E1 : qdist2 (qneg q2) q1 == qdist2 q2 q1 + 4 * qdot q1 q2)
    by (unfold qdist2, qdot, qneg; simpl; ring).
  assert (E2 : qdot q1 (qneg q2) == - qdot q1 q2)
    by (unfold qdot, qneg; simpl; ring).
  destruct (Qlt_le_dec (qdist2 (qneg q2) q1) (qdist2 q2 q1)) as [Hlt|Hle].
  - split; [now right|]. rewrite E2. rewrite E1 in Hlt. lra.
  - split; [now left|]. rewrite E1 in Hle. lra.
Qed.

(** The flipped value is the one closer to the previous quaternion. *)
Lemma quat_make_compatible_closest (q2 q1 : Quaternion) :
  qdist2 (quat_make_compatible q2 q1) q1 <= qdist2 q2 q1 /\
  qdist2 (quat_make_compatible q2 q1) q1 <= qdist2 (qneg q2) q1.
Proof.
  unfold quat_make_compatible.
  destruct (Qlt_le_dec (qdist2 (qneg q2) q1) (qdist2 q2 q1)); split; lra.
Qed.

(** ** Turn continuity of Euler angles *)

Lemma nearest_turn_bounds t e old :
  0 < t ->
  - (t * (1 # 2)) <= nearest_turn t e old - old /\
  nearest_turn t e old - old < t * (1 # 2).
Proof.
  intros Ht. unfold nearest_turn.
  set (y := (e - old) / t + (1 # 2)).
  pose proof (Qfloor_le y) as H1. pose proof (Qlt_floor y) as H2.
  rewrite inject_Z_plus in H2.
  set (k := inject_Z (Qfloor y)) in *.
  assert (Hy : y * t == (e - old) + t * (1 # 2))
    by (unfold y; field; apply Qnot_eq_sym, Qlt_not_eq, Ht).
  assert (A1 : k * t <= y * t) by (apply Qmult_le_compat_r; lra).
  assert (A2 : y * t < (k + inject_Z 1) * t) by (apply Qmult_lt_compat_r; lra).
  change (inject_Z 1) with 1 in A2.
  assert (A3 : (k + 1) * t == k * t + t) by ring.
  rewrite A3 in A2. rewrite Hy in A1, A2.
  set (kt := k * t) in *.
  split; lra.
Qed.

Lemma inject_Z_ge1 n : (1 <= n)%Z -> 1 <= inject_Z n.
Proof. intros H. change 1 with (inject_Z 1). now rewrite <- Zle_Qle. Qed.

(** No representative modulo [t] is closer to [old]. *)
Lemma nearest_turn_minimal t e old (j : Z) :
  0 < t ->
  Qabs (nearest_turn t e old - old) <= Qabs (e + inject_Z j * t - old).
Proof.
  intros Ht. destruct (nearest_turn_bounds t e old Ht) as [B1 B2].
  unfold nearest_turn in *.
  set (k := Qfloor ((e - old) / t + (1 # 2))) in *.
  set (d := e - inject_Z k * t - old) in *.
  assert (E : e + inject_Z j * t - old == d + inject_Z (j + k) * t)
    by (unfold d; rewrite inject_Z_plus; ring).
  rewrite E.
  assert (Hd : Qabs d <= t * (1 # 2)) by (apply Qabs_Qle_condition; split; lra).
  destruct (Z.eq_dec (j + k) 0) as [Hz|Hz].
  - rewrite Hz. assert (d + inject_Z 0 * t == d) as -> by ring. apply Qle_refl.
  - eapply Qle_trans; [exact Hd|].
    destruct (Z_le_gt_dec 1 (j + k)) as [Hp|Hn].
    + apply inject_Z_ge1 in Hp.
      assert (t <= inject_Z (j + k) * t).
      { assert (0 <= (inject_Z (j + k) - 1) * t)
          by (apply Qmult_le_0_compat; lra). lra. }
      eapply Qle_trans; [|apply Qle_Qabs]. lra.
    + assert (Hm : (1 <= - (j + k))%Z) by lia.
      apply inject_Z_ge1 in Hm. rewrite inject_Z_opp in Hm.
      assert (inject_Z (j + k) * t <= - t).
      { assert (0 <= (- inject_Z (j + k) - 1) * t)
          by (apply Qmult_le_0_compat; lra). lra. }
      rewrite <- Qabs_opp. eapply Qle_trans; [|apply Qle_Qabs]. lra.
Qed.

Lemma nearest_turn_congruent t e old :
  nearest_turn t e old ==
  e + inject_Z (- Qfloor ((e - old) / t + (1 # 2))) * t.
Proof. unfold nearest_turn. rewrite inject_Z_opp. ring. Qed.

Lemma full_turn_pos : 0 < full_turn.
Proof. reflexivity. Qed.

Lemma euler_make_compatible_turn (e2 e1 : Vector) :
  turn_compatible (Some e1) e2 (euler_make_compatible e2 e1).
Proof.
  split.
  - unfold turn_congruent, euler_make_compatible; simpl.
    do 3 eexists. repeat split; apply nearest_turn_congruent.
  - intros e (k1 & k2 & k3 & Hx & Hy & Hz).
    unfold euler_distance. rewrite Hx, Hy, Hz.
    unfold euler_make_compatible. cbn [vx vy vz].
    pose proof (nearest_turn_minimal full_turn (vx e2) (vx e1) k1 full_turn_pos).
    pose proof (nearest_turn_minimal full_turn (vy e2) (vy e1) k2 full_turn_pos).
    pose proof (nearest_turn_minimal full_turn (vz e2) (vz e1) k3 full_turn_pos).
    lra.
Qed.

Section BakeProofs.

Variable visual_local : Blender -> BoneRef -> Matrix.

(** ** The time cursor *)

Lemma same_frame_refl s : same_frame s s.
Proof. reflexivity. Qed.

Lemma same_frame_trans a b c : same_frame a b -> same_frame b c -> same_frame a c.
Proof. unfold same_frame; congruence. Qed.

Lemma bake_rotation_same_frame r frame prev :
  steps same_frame (bake_rotation r frame prev).
Proof.
  unfold bake_rotation. destruct prev as [ep qp].
  steps_auto same_frame_refl same_frame_trans; reflexivity.
Qed.

Lemma bake_bone_same_frame dl dr ds frames pose_info ib :
  steps same_frame (bake_bone dl dr ds frames pose_info ib).
Proof.
  unfold bake_bone. destruct ib as [i b].
  steps_auto same_frame_refl same_frame_trans.
  unfold bake_frame. destruct x as [fi frame]. unfold pose_info_at.
  steps_auto same_frame_refl same_frame_trans;
    try reflexivity; apply bake_rotation_same_frame.
Qed.

(** The evaluation loop never raises and leaves the cursor on the last
    frame. *)
Lemma last_cons {A} (x : A) (l : list A) (d : A) : last (x :: l) d = last l x.
Proof.
  revert x d. induction l as [|y l IH]; intros x d; [reflexivity|].
  change (last (x :: y :: l) d) with (last (y :: l) d).
  rewrite (IH y d), (IH y x). reflexivity.
Qed.

Lemma sample_frames_run pose_bones frames :
  forall pose_info s,
  exists pose_info',
    for_fold frames pose_info (sample_frame visual_local pose_bones) s =
    (set_frame_current (last frames (frame_current s)) s, Ok pose_info').
Proof.
  induction frames as [|f frames IH]; intros pose_info s.
  - exists pose_info. destruct s; reflexivity.
  - destruct (IH (append_samples pose_info
                    (map (visual_local (set_frame_current f s)) pose_bones))
                 (set_frame_current f s)) as [pi' Hpi'].
    exists pi'. rewrite last_cons.
    change (for_fold (f :: frames) pose_info (sample_frame visual_local pose_bones) s)
      with (for_fold frames
              (append_samples pose_info
                 (map (visual_local (set_frame_current f s)) pose_bones))
              (sample_frame visual_local pose_bones) (set_frame_current f s)).
    rewrite Hpi'. reflexivity.
Qed.

(** C1: with the three channel flags off, [custom_bake] raises ValueError
    ("No channels enabled") at once, for every frame list and bone list,
    and the state it leaves is the state it was given. *)
Theorem custom_bake_no_channels :
  forall (frames : list Z) (pose_bones : list BoneRef) (s : Blender),
    custom_bake visual_local frames pose_bones false false false s
    = (s, Raise (ValueError "No channels enabled")).
Proof. reflexivity. Qed.

(** C2, as the code has it: when at least one channel is enabled, a bake
    that returns has put the time cursor back where it was on entry; a bake
    that raises (in the keyframing phase, the only one that can) leaves the
    cursor on the last sampled frame. *)
Theorem custom_bake_time_cursor :
  forall frames pose_bones dl dr ds s s' r,
    dl || dr || ds = true ->
    custom_bake visual_local frames pose_bones dl dr ds s = (s', r) ->
    match r with
    | Ok _ => frame_current s' = frame_current s
    | Raise _ => frame_current s' = last frames (frame_current s)
    end.
Proof.
  intros frames pose_bones dl dr ds s s' r Hch H.
  unfold custom_bake in H.
  replace (negb dl && negb dr && negb ds) with false in H
    by (destruct dl, dr, ds; simpl in *; congruence).
  unfold bind at 1 in H. unfold get in H.
  unfold bind at 1 in H.
  destruct (sample_frames_run pose_bones frames (map (fun _ => []) pose_bones) s)
    as [pose_info Hs].
  rewrite Hs in H.
  apply bind_inv in H. destruct H as [(e & H & ->)|(s2 & [] & H1 & H2)].
  - apply (steps_for_each same_frame same_frame_refl same_frame_trans) in H.
    + exact H.
    + intros ib _. apply bake_bone_same_frame.
  - unfold frame_set, modify in H2. inversion H2; subst. reflexivity.
Qed.

Lemma connected_flag_same_rig s s' r :
  same_rig s s' -> connected_flag s' r = connected_flag s r.
Proof.
  intros (H & _). specialize (H r). unfold connected_flag.
  destruct (lookup s' r), (lookup s r); simpl in *; try congruence.
  inversion H. reflexivity.
Qed.

Lemma bake_step_refl s : bake_step s s.
Proof.
  split; [apply same_rig_refl|]. intros obj. exists []. split.
  - now rewrite app_nil_r.
  - intros k [].
Qed.

Lemma bake_step_trans a b c : bake_step a b -> bake_step b c -> bake_step a c.
Proof.
  intros (R1 & K1) (R2 & K2). split; [eapply same_rig_trans; eauto|].
  intros obj. destruct (K1 obj) as (k1 & E1 & L1), (K2 obj) as (k2 & E2 & L2).
  exists (k1 ++ k2). split.
  - now rewrite E2, E1, app_assoc.
  - intros k Hk Hp. apply in_app_or in Hk. destruct Hk as [Hk|Hk]; auto.
    rewrite <- (connected_flag_same_rig a b) by assumption. auto.
Qed.

Lemma bake_step_same_keys s s' :
  same_rig s s' -> (forall obj, action_keys s' obj = action_keys s obj) -> bake_step s s'.
Proof.
  intros Hr Hk. split; auto. intros obj. exists []. split.
  - now rewrite app_nil_r.
  - intros k [].
Qed.

Lemma bake_step_update_bone r f s :
  (forall p, rig_view (f p) = rig_view p) -> bake_step s (update_bone r f s).
Proof.
  intros Hf. apply bake_step_same_keys.
  - now apply same_rig_update_bone.
  - intros obj. apply action_keys_update_bone.
Qed.

Lemma bake_step_write_bone r f :
  (forall p, rig_view (f p) = rig_view p) -> steps bake_step (write_bone r f).
Proof.
  intros Hf s s' res H. apply write_bone_run in H. destruct H as [->| ->].
  - apply bake_step_refl.
  - now apply bake_step_update_bone.
Qed.

Lemma bake_step_set_frame f s : bake_step s (set_frame_current f s).
Proof. apply bake_step_same_keys; [repeat split|reflexivity]. Qed.

(** Inserting a key is a bake step when the key respects connectivity. *)
Lemma bake_step_keyframe_insert r path frame group s :
  (path = location_path -> connected_flag s r = Some false) ->
  steps_at bake_step (keyframe_insert r path frame group) s.
Proof.
  intros Hc s' res H. apply keyframe_insert_run in H.
  destruct H as [(-> & _)|(p & o & Hp & Ho & _ & ->)]; [apply bake_step_refl|].
  split; [now apply same_rig_with_key|].
  intros obj. eexists. split; [apply action_keys_with_key; exact Ho|].
  intros k Hk Hpath. destruct (String.eqb obj (fst r)) eqn:E; [|destruct Hk].
  destruct Hk as [<-|[]]. simpl in *. apply String.eqb_eq in E; subst obj.
  rewrite <- surjective_pairing. auto.
Qed.

Lemma bake_rotation_bake_step r frame prev :
  steps bake_step (bake_rotation r frame prev).
Proof.
  unfold bake_rotation. destruct prev as [ep qp].
  intros s. apply steps_at_bind; try exact bake_step_trans.
  { apply steps_at_of, steps_get_bone, bake_step_refl. }
  intros p s1 _. destruct (rotation_mode p).
  - apply steps_at_bind; try exact bake_step_trans.
    + apply steps_at_of. destruct qp.
      * steps_auto bake_step_refl bake_step_trans.
        now apply bake_step_update_bone.
      * apply steps_ret, bake_step_refl.
    + intros prev' s2 _. apply steps_at_bind; try exact bake_step_trans.
      * apply bake_step_keyframe_insert. discriminate.
      * intros. apply steps_at_of, steps_ret, bake_step_refl.
  - apply steps_at_bind; try exact bake_step_trans.
    + apply bake_step_keyframe_insert. discriminate.
    + intros. apply steps_at_of, steps_ret, bake_step_refl.
  - apply steps_at_bind; try exact bake_step_trans.
    + apply steps_at_of. destruct ep.
      * steps_auto bake_step_refl bake_step_trans.
        now apply bake_step_update_bone.
      * apply steps_ret, bake_step_refl.
    + intros prev' s2 _. apply steps_at_bind; try exact bake_step_trans.
      * apply bake_step_keyframe_insert. discriminate.
      * intros. apply steps_at_of, steps_ret, bake_step_refl.
Qed.

Lemma bake_frame_bake_step dl dr ds pose_info i r prev fr :
  steps bake_step (bake_frame dl dr ds pose_info i r prev fr).
Proof.
  unfold bake_frame. destruct fr as [fi frame].
  intros s. apply steps_at_bind; try exact bake_step_trans.
  { apply steps_at_of. unfold pose_info_at.
    steps_auto bake_step_refl bake_step_trans. }
  intros m s1 _. apply steps_at_bind; try exact bake_step_trans.
  { apply steps_at_of, bake_step_write_bone, rig_view_set_matrix_basis. }
  intros [] s2 _. apply steps_at_bind; try exact bake_step_trans.
  { apply steps_at_of, steps_get_bone, bake_step_refl. }
  intros p s3 Hp. apply get_bone_ok in Hp. destruct Hp as [-> Hp].
  apply steps_at_bind; try exact bake_step_trans.
  { destruct (dl && negb (use_connect (bone p))) eqn:E.
    - apply bake_step_keyframe_insert. intros _.
      unfold connected_flag. rewrite Hp. simpl.
      apply andb_true_iff in E. destruct E as [_ E].
      now destruct (use_connect (bone p)).
    - apply steps_at_of, steps_ret, bake_step_refl. }
  intros [] s4 _. apply steps_at_bind; try exact bake_step_trans.
  { destruct dr; apply steps_at_of;
      [apply bake_rotation_bake_step|apply steps_ret, bake_step_refl]. }
  intros prev' s5 _. apply steps_at_bind; try exact bake_step_trans.
  { destruct ds; [apply bake_step_keyframe_insert; discriminate|].
    apply steps_at_of, steps_ret, bake_step_refl. }
  intros. apply steps_at_of, steps_ret, bake_step_refl.
Qed.

Lemma bake_bone_bake_step dl dr ds frames pose_info ib :
  steps bake_step (bake_bone dl dr ds frames pose_info ib).
Proof.
  unfold bake_bone. destruct ib as [i r].
  apply steps_bind; [exact bake_step_trans| |intros; apply steps_ret, bake_step_refl].
  apply steps_for_fold; [exact bake_step_refl|exact bake_step_trans|].
  intros acc x _. apply bake_frame_bake_step.
Qed.

Lemma sample_frame_bake_step pose_bones pose_info frame :
  steps bake_step (sample_frame visual_local pose_bones pose_info frame).
Proof.
  unfold sample_frame.
  steps_auto bake_step_refl bake_step_trans. apply bake_step_set_frame.
Qed.

Lemma custom_bake_bake_step frames pose_bones dl dr ds :
  steps bake_step (custom_bake visual_local frames pose_bones dl dr ds).
Proof.
  unfold custom_bake. destruct (negb dl && negb dr && negb ds).
  - apply steps_raise, bake_step_refl.
  - apply steps_bind; [exact bake_step_trans|apply steps_get, bake_step_refl|].
    intros s0. apply steps_bind; [exact bake_step_trans| |].
    + apply steps_for_fold; [exact bake_step_refl|exact bake_step_trans|].
      intros. apply sample_frame_bake_step.
    + intros pose_info. apply steps_bind; [exact bake_step_trans| |].
      * apply steps_for_each; [exact bake_step_refl|exact bake_step_trans|].
        intros. apply bake_bone_bake_step.
      * intros. unfold frame_set. apply steps_modify. intros. apply bake_step_set_frame.
Qed.

(** ** Location keys and connectivity *)

Lemma bake_sequence_bake_step calls :
  forall s, bake_step s (bake_sequence visual_local calls s).
Proof.
  induction calls as [|c calls IH]; intros s; simpl; [apply bake_step_refl|].
  eapply bake_step_trans; [|apply IH].
  eapply custom_bake_bake_step. apply surjective_pairing.
Qed.

Lemma filter_nil {A} (f : A -> bool) (l : list A) :
  (forall x, In x l -> f x = false) -> filter f l = [].
Proof.
  induction l as [|x l IH]; intros H; simpl; auto.
  rewrite (H x) by (simpl; auto). apply IH. intros y Hy. apply H. simpl; auto.
Qed.

Lemma channel_eqb_eq a b : channel_eqb a b = true <-> a = b.
Proof. destruct a, b; simpl; split; intros H; try discriminate; auto. Qed.

Lemma bake_step_connected_keys s s' b p :
  bake_step s s' -> lookup s b = Some p -> use_connect (bone p) = true ->
  keys_of s' b location_path = keys_of s b location_path.
Proof.
  intros (_ & HK) Hp Hc. unfold keys_of.
  destruct (HK (fst b)) as (ks & -> & Hl).
  rewrite filter_app, (filter_nil _ ks); [apply app_nil_r|].
  intros k Hk. destruct (String.eqb (k_bone k) (snd b)) eqn:E1; simpl; auto.
  destruct (channel_eqb (k_path k) location_path) eqn:E2; auto.
  apply String.eqb_eq in E1. apply channel_eqb_eq in E2.
  specialize (Hl k Hk E2). rewrite E1, <- surjective_pairing in Hl.
  unfold connected_flag in Hl. rewrite Hp in Hl. simpl in Hl. congruence.
Qed.

Lemma location_keyed_between r f a b c d :
  bake_step a b -> location_keyed r f b c -> bake_step c d -> location_keyed r f a d.
Proof.
  intros (_ & K1) (ks & E & k & Hk) (_ & K2).
  destruct (K1 (fst r)) as (k1 & E1 & _), (K2 (fst r)) as (k2 & E2 & _).
  exists (k1 ++ ks ++ k2). split.
  - rewrite E2, E, E1. now rewrite <- !app_assoc.
  - exists k. destruct Hk as (Hin & Hk). split; auto.
    apply in_or_app. right. apply in_or_app. now left.
Qed.

Lemma in_enumerate_from {A} (x : A) (xs : list A) :
  In x xs -> forall i, exists j, In (j, x) (enumerate_from i xs).
Proof.
  induction xs as [|y xs IH]; intros Hin i; [destruct Hin|].
  destruct Hin as [->|Hin].
  - exists i. simpl; auto.
  - destruct (IH Hin (S i)) as [j Hj]. exists j. simpl; auto.
Qed.

Lemma bake_frame_location_keyed dr ds pose_info i r prev fi frame s s' prev' :
  connected_flag s r = Some false ->
  bake_frame true dr ds pose_info i r prev (fi, frame) s = (s', Ok prev') ->
  location_keyed r frame s s'.
Proof.
  intros Hc H. unfold bake_frame in H.
  apply bind_ok_inv in H. destruct H as (s1 & m & H1 & H).
  assert (s1 = s) as ->.
  { unfold pose_info_at in H1. destruct (nth_error pose_info i); [|discriminate].
    destruct (nth_error l fi); inversion H1; auto. }
  apply bind_ok_inv in H. destruct H as (s2 & [] & H2 & H).
  pose proof (bake_step_write_bone r (set_matrix_basis m)
                (rig_view_set_matrix_basis m) _ _ _ H2) as B2.
  apply bind_ok_inv in H. destruct H as (s3 & p & H3 & H).
  apply get_bone_ok in H3. destruct H3 as [-> Hp].
  assert (Hu : use_connect (bone p) = false).
  { rewrite <- (connected_flag_same_rig s s2) in Hc by apply B2.
    unfold connected_flag in Hc. rewrite Hp in Hc. simpl in Hc. congruence. }
  rewrite Hu in H. simpl in H.
  apply bind_ok_inv in H. destruct H as (s4 & [] & H4 & H).
  assert (B4 : steps bake_step
                 (prev' <- (if dr then bake_rotation r frame prev else ret prev) ;;
                  (if ds then keyframe_insert r scale_path frame (snd r) else ret tt) ;;
                  ret prev')).
  { apply steps_bind; [exact bake_step_trans| |].
    - destruct dr; [apply bake_rotation_bake_step|apply steps_ret, bake_step_refl].
    - intros q. apply steps_bind; [exact bake_step_trans| |].
      + destruct ds; [|apply steps_ret, bake_step_refl].
        intros t. apply bake_step_keyframe_insert. discriminate.
      + intros. apply steps_ret, bake_step_refl. }
  apply B4 in H.
  eapply location_keyed_between; [exact B2| |exact H].
  apply keyframe_insert_run in H4.
  destruct H4 as [(_ & e & He)|(p' & o & Hp' & Ho & _ & ->)]; [discriminate|].
  eexists. split.
  - rewrite (action_keys_with_key r _ o) by exact Ho. rewrite String.eqb_refl. reflexivity.
  - eexists. split; [left; reflexivity|]. simpl. auto.
Qed.

Lemma sample_frames_from pose_bones frames :
  forall pose_info s,
    List.length pose_info = List.length pose_bones ->
    for_fold frames pose_info (sample_frame visual_local pose_bones) s =
    (set_frame_current (last frames (frame_current s)) s,
     Ok (map (fun rb => fst rb ++
                        map (fun f => visual_local (set_frame_current f s) (snd rb)) frames)
             (combine pose_info pose_bones))).
Proof.
  induction frames as [|f frames IH]; intros pose_info s Hlen.
  - simpl. unfold ret. f_equal; [destruct s; reflexivity|]. f_equal.
    revert pose_bones Hlen. induction pose_info as [|row pi IHp]; intros [|b bs] Hlen;
      simpl in *; try discriminate; auto.
    rewrite app_nil_r. f_equal. apply IHp. lia.
  - change (for_fold (f :: frames) pose_info (sample_frame visual_local pose_bones) s)
      with (for_fold frames
              (append_samples pose_info
                 (map (visual_local (set_frame_current f s)) pose_bones))
              (sample_frame visual_local pose_bones) (set_frame_current f s)).
    rewrite IH.
    + rewrite last_cons. f_equal. f_equal.
      unfold append_samples. clear IH.
      revert pose_bones Hlen. induction pose_info as [|row pi IHp]; intros [|b bs] Hlen;
        simpl in *; try discriminate; auto.
      f_equal; [now rewrite <- app_assoc|]. apply IHp. lia.
    + unfold append_samples. rewrite length_map, length_combine, length_map. lia.
Qed.

Lemma sample_frames_samples pose_bones frames s :
  for_fold frames (map (fun _ => []) pose_bones) (sample_frame visual_local pose_bones) s =
  (set_frame_current (last frames (frame_current s)) s,
   Ok (samples visual_local frames pose_bones s)).
Proof.
  rewrite sample_frames_from by apply length_map.
  f_equal. f_equal. unfold samples.
  induction pose_bones as [|b bs IH]; simpl; auto. now rewrite IH.
Qed.

Lemma nth_error_enumerate_from {A} (xs : list A) :
  forall i j x, In (j, x) (enumerate_from i xs) ->
                (i <= j)%nat /\ nth_error xs (j - i) = Some x.
Proof.
  induction xs as [|y xs IH]; intros i j x Hin; [destruct Hin|].
  destruct Hin as [E|Hin].
  - inversion E; subst. rewrite Nat.sub_diag. split; auto.
  - apply IH in Hin. destruct Hin as [Hle Hn]. split; [lia|].
    replace (j - i)%nat with (S (j - S i)) by lia. exact Hn.
Qed.

Lemma pose_info_at_samples frames pose_bones s0 i b fi f s :
  In (i, b) (enumerate pose_bones) -> In (fi, f) (enumerate frames) ->
  pose_info_at (samples visual_local frames pose_bones s0) i fi s =
  (s, Ok (visual_local (set_frame_current f s0) b)).
Proof.
  intros Hb Hf. apply nth_error_enumerate_from in Hb, Hf.
  destruct Hb as [_ Hb], Hf as [_ Hf]. rewrite Nat.sub_0_r in *.
  unfold pose_info_at, samples.
  rewrite nth_error_map, Hb. simpl. rewrite nth_error_map, Hf. reflexivity.
Qed.

(** A loop whose body returns from every state of an invariant returns. *)
Lemma for_each_returns {A} (I : Blender -> Prop) (xs : list A) (body : A -> M unit) :
  (forall x s, In x xs -> I s -> exists s', body x s = (s', Ok tt) /\ I s') ->
  forall s, I s -> exists s', for_each xs body s = (s', Ok tt) /\ I s'.
Proof.
  induction xs as [|x xs IH]; intros Hb s Hs; simpl.
  - exists s. split; auto.
  - destruct (Hb x s (or_introl eq_refl) Hs) as (s1 & E1 & I1).
    destruct (IH (fun y t Hy => Hb y t (or_intror Hy)) s1 I1) as (s2 & E2 & I2).
    exists s2. unfold bind. rewrite E1. auto.
Qed.

Lemma for_fold_returns {A B} (I : Blender -> Prop) (xs : list A) (body : B -> A -> M B) :
  (forall acc x s, In x xs -> I s -> exists s' acc', body acc x s = (s', Ok acc') /\ I s') ->
  forall acc s, I s -> exists s' acc', for_fold xs acc body s = (s', Ok acc') /\ I s'.
Proof.
  induction xs as [|x xs IH]; intros Hb acc s Hs; simpl.
  - exists s, acc. split; auto.
  - destruct (Hb acc x s (or_introl eq_refl) Hs) as (s1 & a1 & E1 & I1).
    destruct (IH (fun a y t Hy => Hb a y t (or_intror Hy)) a1 s1 I1) as (s2 & a2 & E2 & I2).
    exists s2, a2. unfold bind. rewrite E1. auto.
Qed.

Lemma lookup_same_rig s s' r p :
  same_rig s s' -> lookup s r = Some p ->
  exists p', lookup s' r = Some p' /\ rig_view p' = rig_view p.
Proof.
  intros (H & _) Hp. specialize (H r). rewrite Hp in H.
  destruct (lookup s' r) as [p'|]; simpl in H; [|discriminate].
  exists p'. split; auto. congruence.
Qed.

(** Baking only Location over connected bones: every frame is skipped and
    the bake returns. *)
Lemma custom_bake_connected_returns frames pose_bones s :
  (forall b, In b pose_bones -> connected_flag s b = Some true) ->
  exists s', custom_bake visual_local frames pose_bones true false false s = (s', Ok tt).
Proof.
  intros Hc. unfold custom_bake. simpl.
  unfold bind at 1. unfold get. unfold bind at 1.
  rewrite sample_frames_samples.
  set (s1 := set_frame_current (last frames (frame_current s)) s).
  assert (B1 : same_rig s s1) by (repeat split).
  destruct (for_each_returns (same_rig s) (enumerate pose_bones)
              (bake_bone true false false frames (samples visual_local frames pose_bones s)))
    with (s := s1) as (s2 & E2 & _); auto.
  - intros [i b] t Hib Ht. unfold bake_bone.
    destruct (for_fold_returns (same_rig s) (enumerate frames)
                (bake_frame true false false (samples visual_local frames pose_bones s) i b))
      with (acc := (@None Vector, @None Quaternion)) (s := t) as (t' & a' & E & It); auto.
    + intros acc [fi f] u Hf Hu. unfold bake_frame.
      unfold bind at 1. rewrite (pose_info_at_samples _ _ _ _ _ _ _ _ Hib Hf).
      assert (Hb : In b pose_bones).
      { apply nth_error_enumerate_from in Hib. destruct Hib as [_ Hib].
        eapply nth_error_In; eauto. }
      specialize (Hc b Hb). rewrite <- (connected_flag_same_rig s u) in Hc by auto.
      unfold connected_flag in Hc. destruct (lookup u b) as [p|] eqn:Ep; [|discriminate].
      simpl in Hc. assert (Hc' : use_connect (bone p) = true) by congruence.
      set (m := visual_local (set_frame_current f s) b).
      assert (Bu : same_rig u (update_bone b (set_matrix_basis m) u))
        by (apply same_rig_update_bone, rig_view_set_matrix_basis).
      destruct (lookup_same_rig _ _ _ _ Bu Ep) as (p' & Ep' & Hv).
      exists (update_bone b (set_matrix_basis m) u), acc. split.
      * assert (Hc'' : use_connect (bone p') = true)
          by (unfold rig_view in Hv; inversion Hv; congruence).
        unfold bind, write_bone, get_bone, modify, bind. rewrite Ep, Ep'.
        rewrite Hc''. reflexivity.
      * eapply same_rig_trans; eauto.
    + exists t'. cbv zeta. unfold bind. unfold Prev in *. rewrite E. auto.
  - exists (set_frame_current (frame_current s) s2). unfold bind. rewrite E2. reflexivity.
Qed.

(** C3: a bone whose connected flag is set never receives a location key,
    whatever the frames, bones and channel flags of the bake and however
    many bakes run one after the other (raising or not): its location keys
    stay what they were.  A bone that is not connected, baked with Location
    enabled by a bake that returns, has received a location key at every
    frame.  Skipping is no error: a Location-only bake over connected
    bones returns. *)
Theorem location_keys_follow_connectivity :
  (forall calls s b p,
      lookup s b = Some p -> use_connect (bone p) = true ->
      keys_of (bake_sequence visual_local calls s) b location_path
      = keys_of s b location_path) /\
  (forall frames pose_bones dr ds s s' b p,
      lookup s b = Some p -> use_connect (bone p) = false ->
      In b pose_bones ->
      custom_bake visual_local frames pose_bones true dr ds s = (s', Ok tt) ->
      exists ks,
        action_keys s' (fst b) = action_keys s (fst b) ++ ks /\
        forall f, In f frames -> has_location_key b f ks) /\
  (forall frames pose_bones s,
      (forall b, In b pose_bones -> connected_flag s b = Some true) ->
      exists s',
        custom_bake visual_local frames pose_bones true false false s = (s', Ok tt)).
Proof.
  split; [|split; [|apply custom_bake_connected_returns]].
  - intros calls s b p Hp Hc.
    eapply bake_step_connected_keys; eauto. apply bake_sequence_bake_step.
  - intros frames pose_bones dr ds s s' b p Hp Hc Hb H.
    pose proof (custom_bake_bake_step _ _ _ _ _ _ _ _ H) as (_ & HK).
    destruct (HK (fst b)) as (ks & Eks & _). exists ks. split; auto.
    intros f Hf.
    assert (G : location_keyed b f s s').
    { unfold custom_bake in H. simpl in H.
      apply bind_ok_inv in H. destruct H as (s0 & s0' & H0 & H).
      inversion H0; subst s0 s0'; clear H0.
      apply bind_ok_inv in H. destruct H as (s1 & pose_info & H1 & H).
      assert (B1 : bake_step s s1).
      { eapply (steps_for_fold bake_step bake_step_refl bake_step_trans); [|exact H1].
        intros. apply sample_frame_bake_step. }
      apply bind_ok_inv in H. destruct H as (s2 & [] & H2 & H).
      assert (B3 : bake_step s2 s').
      { unfold frame_set, modify in H. inversion H; subst. apply bake_step_set_frame. }
      destruct (in_enumerate_from b pose_bones Hb 0) as [i Hi].
      destruct (for_each_ran bake_step bake_step_refl bake_step_trans _ _
                  (bake_bone_bake_step true dr ds frames pose_info) _ _ _ H2 Hi)
        as (t1 & t2 & Ba & Hrun & Bb).
      unfold bake_bone in Hrun.
      apply bind_ok_inv in Hrun. destruct Hrun as (t3 & prev' & Hrun & Hret).
      inversion Hret; subst t3; clear Hret.
      destruct (in_enumerate_from f frames Hf 0) as [fi Hfi].
      destruct (for_fold_ran bake_step bake_step_refl bake_step_trans _ _
                  (fun acc x => bake_frame_bake_step true dr ds pose_info i b acc x)
                  _ _ _ _ _ Hrun Hfi)
        as (a1 & u1 & a2 & u2 & Bc & Hframe & Bd).
      assert (B_to : bake_step s u1).
      { eapply bake_step_trans; [exact B1|].
        eapply bake_step_trans; [exact Ba|exact Bc]. }
      eapply location_keyed_between; [exact B_to| |].
      - eapply bake_frame_location_keyed; [|exact Hframe].
        rewrite (connected_flag_same_rig s u1) by apply B_to.
        unfold connected_flag. rewrite Hp. simpl. now rewrite Hc.
      - eapply bake_step_trans; [exact Bd|].
        eapply bake_step_trans; [exact Bb|exact B3]. }
    destruct G as (ks' & Eks' & G). rewrite Eks in Eks'.
    apply app_inv_head in Eks'. now subst ks'.
Qed.

Lemma bake_frame_quaternion dl ds pose_info i b ep qprev fi frame s s' prev' row m p :
  nth_error pose_info i = Some row -> nth_error row fi = Some m ->
  lookup s b = Some p -> rotation_mode p = QUATERNION ->
  bake_frame dl true ds pose_info i b (ep, qprev) (fi, frame) s = (s', Ok prev') ->
  exists q2',
    sign_compatible qprev (m_quaternion m) q2' /\
    prev' = (ep, Some q2') /\
    quaternion_keys s' b = quaternion_keys s b ++ [q2'] /\
    exists p', lookup s' b = Some p' /\ rotation_mode p' = QUATERNION /\
               rotation_quaternion p' = q2'.
Proof.
  intros Hrow Hm Hp Hmode H. unfold bake_frame in H.
  unfold pose_info_at in H. rewrite Hrow, Hm in H.
  apply bind_ok_inv in H. destruct H as (s0 & m0 & H0 & H).
  inversion H0; subst s0 m0; clear H0.
  apply bind_ok_inv in H. destruct H as (s1 & [] & H1 & H).
  apply write_bone_ok in H1. destruct H1 as [-> _].
  apply bind_ok_inv in H. destruct H as (s2 & p2 & H2 & H).
  apply get_bone_ok in H2. destruct H2 as [-> Hp2].
  rewrite lookup_update_bone_same, Hp in Hp2 by auto with names.
  simpl in Hp2. inversion Hp2; subst p2; clear Hp2.
  apply bind_ok_inv in H. destruct H as (s3 & [] & H3 & H).
  apply (optional_insert_ok _ _ _ _ _ _ _ _ rotation_quaternion_path) in H3;
    [|reflexivity].
  destruct H3 as [L3 K3].
  apply bind_ok_inv in H. destruct H as (s4 & prev4 & H4 & H).
  apply bind_ok_inv in H. destruct H as (s5 & [] & H5 & H).
  inversion H; subst s5 prev4; clear H.
  apply (optional_insert_ok _ _ _ _ _ _ _ _ rotation_quaternion_path) in H5;
    [|reflexivity].
  destruct H5 as [L5 K5].
  assert (Hp3 : lookup s3 b = Some (set_matrix_basis m p)).
  { rewrite L3, lookup_update_bone_same, Hp by auto with names. reflexivity. }
  assert (Hq : rotation_quaternion (set_matrix_basis m p) = m_quaternion m
               /\ rotation_mode (set_matrix_basis m p) = QUATERNION).
  { unfold set_matrix_basis. rewrite Hmode. split; [reflexivity|exact Hmode]. }
  destruct Hq as [Hq Hmode'].
  unfold bake_rotation in H4.
  apply bind_ok_inv in H4. destruct H4 as (t0 & p3 & G0 & H4).
  apply get_bone_ok in G0. destruct G0 as [-> G0].
  rewrite Hp3 in G0. inversion G0; subst p3; clear G0.
  rewrite Hmode' in H4.
  apply bind_ok_inv in H4. destruct H4 as (t1 & prev1 & G1 & H4).
  apply bind_ok_inv in H4. destruct H4 as (t2 & [] & G2 & H4).
  inversion H4; subst t2 prev1; clear H4.
  apply keyframe_insert_ok in G2. destruct G2 as (pk & Hpk & Lk & _ & Kk).
  specialize (Kk rotation_quaternion_path). simpl in Kk.
  assert (Hkeys : quaternion_keys s' b = quaternion_keys t1 b ++ [rotation_quaternion pk]).
  { unfold quaternion_keys. rewrite K5, Kk, flat_map_app. reflexivity. }
  rewrite Hkeys. clear Hkeys.
  destruct qprev as [q1|].
  - apply bind_ok_inv in G1. destruct G1 as (t3 & [] & G3 & G1).
    inversion G1; subst t3 prev'; clear G1.
    apply write_bone_ok in G3. destruct G3 as [-> _].
    rewrite lookup_update_bone_same, Hp3 in Hpk by auto with names.
    simpl in Hpk. inversion Hpk; subst pk; clear Hpk.
    rewrite Hq in *.
    exists (quat_make_compatible (m_quaternion m) q1). repeat split.
    + apply quat_make_compatible_sign.
    + apply quat_make_compatible_sign.
    + simpl. f_equal. unfold quaternion_keys.
      now rewrite keys_of_update_bone, K3, keys_of_update_bone.
    + eexists. rewrite L5, Lk, lookup_update_bone_same, Hp3 by auto with names.
      simpl. repeat split. exact Hmode'.
  - inversion G1; subst t1 prev'; clear G1.
    rewrite Hp3 in Hpk. inversion Hpk; subst pk; clear Hpk.
    rewrite Hq in *.
    exists (m_quaternion m). repeat split.
    + f_equal. unfold quaternion_keys. now rewrite K3, keys_of_update_bone.
    + eexists. rewrite L5, Lk, Hp3. repeat split; auto.
Qed.

Lemma bake_frames_quaternion dl ds pose_info i b ep row :
  nth_error pose_info i = Some row ->
  forall xs ms qprev s s' prev' p,
    Forall2 (fun (x : nat * Z) m => nth_error row (fst x) = Some m) xs ms ->
    lookup s b = Some p -> rotation_mode p = QUATERNION ->
    for_fold xs (ep, qprev) (bake_frame dl true ds pose_info i b) s = (s', Ok prev') ->
    exists keyed,
      quaternion_keys s' b = quaternion_keys s b ++ keyed /\
      sign_continuous qprev (map m_quaternion ms) keyed.
Proof.
  intros Hrow xs ms qprev s s' prev' p HF. revert qprev s s' prev' p.
  induction HF as [|[fi frame] m xs ms Hm HF IH]; intros qprev s s' prev' p Hp Hmode H.
  - inversion H; subst. exists []. split; [now rewrite app_nil_r|exact I].
  - simpl in H. apply bind_ok_inv in H. destruct H as (s1 & prev1 & H1 & H).
    destruct (bake_frame_quaternion _ _ _ _ _ _ _ _ _ _ _ _ _ _ _
                Hrow Hm Hp Hmode H1)
      as (q2' & Hsign & -> & Hkeys & p1 & Hp1 & Hmode1 & _).
    destruct (IH _ _ _ _ _ Hp1 Hmode1 H) as (keyed & Hk & Hc).
    exists (q2' :: keyed). split.
    + rewrite Hk, Hkeys, <- app_assoc. reflexivity.
    + simpl. split; assumption.
Qed.

Lemma enumerate_from_samples {A} (g : Z -> A) (frames : list Z) :
  forall pre,
    Forall2 (fun (x : nat * Z) m => nth_error (pre ++ map g frames) (fst x) = Some m)
            (enumerate_from (List.length pre) frames) (map g frames).
Proof.
  induction frames as [|f frames IH]; intros pre; simpl; constructor.
  - simpl. rewrite nth_error_app2, Nat.sub_diag by lia. reflexivity.
  - specialize (IH (pre ++ [g f])). rewrite <- app_assoc, length_app in IH.
    simpl in IH. rewrite Nat.add_1_r in IH. exact IH.
Qed.


Lemma bake_frame_euler dl ds pose_info i b eprev qp fi frame s s' prev' row m p order :
  nth_error pose_info i = Some row -> nth_error row fi = Some m ->
  lookup s b = Some p -> rotation_mode p = EULER order ->
  bake_frame dl true ds pose_info i b (eprev, qp) (fi, frame) s = (s', Ok prev') ->
  exists e2',
    turn_compatible eprev (m_euler m) e2' /\
    prev' = (Some e2', qp) /\
    euler_keys s' b = euler_keys s b ++ [e2'] /\
    exists p', lookup s' b = Some p' /\ rotation_mode p' = EULER order /\
               rotation_euler p' = e2'.
Proof.
  intros Hrow Hm Hp Hmode H. unfold bake_frame in H.
  unfold pose_info_at in H. rewrite Hrow, Hm in H.
  apply bind_ok_inv in H. destruct H as (s0 & m0 & H0 & H).
  inversion H0; subst s0 m0; clear H0.
  apply bind_ok_inv in H. destruct H as (s1 & [] & H1 & H).
  apply write_bone_ok in H1. destruct H1 as [-> _].
  apply bind_ok_inv in H. destruct H as (s2 & p2 & H2 & H).
  apply get_bone_ok in H2. destruct H2 as [-> Hp2].
  rewrite lookup_update_bone_same, Hp in Hp2 by auto with names.
  simpl in Hp2. inversion Hp2; subst p2; clear Hp2.
  apply bind_ok_inv in H. destruct H as (s3 & [] & H3 & H).
  apply (optional_insert_ok _ _ _ _ _ _ _ _ rotation_euler_path) in H3;
    [|reflexivity].
  destruct H3 as [L3 K3].
  apply bind_ok_inv in H. destruct H as (s4 & prev4 & H4 & H).
  apply bind_ok_inv in H. destruct H as (s5 & [] & H5 & H).
  inversion H; subst s5 prev4; clear H.
  apply (optional_insert_ok _ _ _ _ _ _ _ _ rotation_euler_path) in H5;
    [|reflexivity].
  destruct H5 as [L5 K5].
  assert (Hp3 : lookup s3 b = Some (set_matrix_basis m p)).
  { rewrite L3, lookup_update_bone_same, Hp by auto with names. reflexivity. }
  assert (Hq : rotation_euler (set_matrix_basis m p) = m_euler m
               /\ rotation_mode (set_matrix_basis m p) = EULER order).
  { unfold set_matrix_basis. rewrite Hmode. split; [reflexivity|exact Hmode]. }
  destruct Hq as [Hq Hmode'].
  unfold bake_rotation in H4.
  apply bind_ok_inv in H4. destruct H4 as (t0 & p3 & G0 & H4).
  apply get_bone_ok in G0. destruct G0 as [-> G0].
  rewrite Hp3 in G0. inversion G0; subst p3; clear G0.
  rewrite Hmode' in H4.
  apply bind_ok_inv in H4. destruct H4 as (t1 & prev1 & G1 & H4).
  apply bind_ok_inv in H4. destruct H4 as (t2 & [] & G2 & H4).
  inversion H4; subst t2 prev1; clear H4.
  apply keyframe_insert_ok in G2. destruct G2 as (pk & Hpk & Lk & _ & Kk).
  specialize (Kk rotation_euler_path). simpl in Kk.
  assert (Hkeys : euler_keys s' b = euler_keys t1 b ++ [rotation_euler pk]).
  { unfold euler_keys. rewrite K5, Kk, flat_map_app. reflexivity. }
  rewrite Hkeys. clear Hkeys.
  destruct eprev as [e1|].
  - apply bind_ok_inv in G1. destruct G1 as (t3 & [] & G3 & G1).
    inversion G1; subst t3 prev'; clear G1.
    apply write_bone_ok in G3. destruct G3 as [-> _].
    rewrite lookup_update_bone_same, Hp3 in Hpk by auto with names.
    simpl in Hpk. inversion Hpk; subst pk; clear Hpk.
    rewrite Hq in *.
    exists (euler_make_compatible (m_euler m) e1). split; [|split; [|split]].
    + apply euler_make_compatible_turn.
    + reflexivity.
    + simpl. f_equal. unfold euler_keys.
      now rewrite keys_of_update_bone, K3, keys_of_update_bone.
    + eexists. rewrite L5, Lk, lookup_update_bone_same, Hp3 by auto with names.
      simpl. repeat split. exact Hmode'.
  - inversion G1; subst t1 prev'; clear G1.
    rewrite Hp3 in Hpk. inversion Hpk; subst pk; clear Hpk.
    rewrite Hq in *.
    exists (m_euler m). split; [|split; [|split]].
    + reflexivity.
    + reflexivity.
    + f_equal. unfold euler_keys. now rewrite K3, keys_of_update_bone.
    + eexists. rewrite L5, Lk, Hp3. repeat split; auto.
Qed.

Lemma bake_frames_euler dl ds pose_info i b row order :
  nth_error pose_info i = Some row ->
  forall xs ms eprev qp s s' prev' p,
    Forall2 (fun (x : nat * Z) m => nth_error row (fst x) = Some m) xs ms ->
    lookup s b = Some p -> rotation_mode p = EULER order ->
    for_fold xs (eprev, qp) (bake_frame dl true ds pose_info i b) s = (s', Ok prev') ->
    exists keyed,
      euler_keys s' b = euler_keys s b ++ keyed /\
      turn_continuous eprev (map m_euler ms) keyed.
Proof.
  intros Hrow xs ms eprev qp' s s' prev' p HF. revert eprev qp' s s' prev' p.
  induction HF as [|[fi frame] m xs ms Hm HF IH]; intros eprev qp' s s' prev' p Hp Hmode H.
  - inversion H; subst. exists []. split; [now rewrite app_nil_r|exact I].
  - simpl in H. apply bind_ok_inv in H. destruct H as (s1 & prev1 & H1 & H).
    destruct (bake_frame_euler _ _ _ _ _ _ _ _ _ _ _ _ _ _ _ _
                Hrow Hm Hp Hmode H1)
      as (e2' & Hturn & -> & Hkeys & p1 & Hp1 & Hmode1 & _).
    destruct (IH _ _ _ _ _ _ Hp1 Hmode1 H) as (keyed & Hk & Hc).
    exists (e2' :: keyed). split.
    + rewrite Hk, Hkeys, <- app_assoc. reflexivity.
    + simpl. split; assumption.
Qed.

(** ** One bone's loop inside the whole bake *)


Lemma others_step_refl b s : others_step b s s.
Proof. split; [apply same_rig_refl|reflexivity]. Qed.

Lemma others_step_trans b x y z :
  others_step b x y -> others_step b y z -> others_step b x z.
Proof.
  intros (R1 & K1) (R2 & K2). split; [eapply same_rig_trans; eauto|].
  intros c. now rewrite K2, K1.
Qed.

Lemma others_step_write_bone b r f :
  (forall p, rig_view (f p) = rig_view p) -> steps (others_step b) (write_bone r f).
Proof.
  intros Hf s s' res H. apply write_bone_run in H. destruct H as [->| ->].
  - apply others_step_refl.
  - split; [now apply same_rig_update_bone|]. intros c. apply keys_of_update_bone.
Qed.

Lemma others_step_keyframe_insert b r path frame group :
  r <> b -> steps (others_step b) (keyframe_insert r path frame group).
Proof.
  intros Hne s s' res H. apply keyframe_insert_run in H.
  destruct H as [(-> & _)|(p & o & Hp & Ho & _ & ->)]; [apply others_step_refl|].
  split; [now apply same_rig_with_key|]. intros c. unfold keys_of.
  rewrite (action_keys_with_key r _ o) by exact Ho.
  rewrite filter_app. destruct (String.eqb (fst b) (fst r)) eqn:E; simpl.
  - destruct (String.eqb (snd r) (snd b)) eqn:E2; simpl; [|apply app_nil_r].
    apply String.eqb_eq in E, E2. exfalso. apply Hne.
    destruct r, b; simpl in *; congruence.
  - apply app_nil_r.
Qed.

Lemma others_step_set_frame b f s : others_step b s (set_frame_current f s).
Proof. split; [repeat split|reflexivity]. Qed.

Lemma bake_bone_others_step b dl dr ds frames pose_info i r :
  r <> b -> steps (others_step b) (bake_bone dl dr ds frames pose_info (i, r)).
Proof.
  intros Hne. unfold bake_bone.
  steps_prims (others_step_refl b) (others_step_trans b) idtac.
  unfold bake_frame. destruct x as [fi frame]. unfold pose_info_at, bake_rotation.
  destruct acc as [ep qp].
  steps_prims (others_step_refl b) (others_step_trans b)
    ltac:(first [ apply others_step_keyframe_insert; exact Hne
                | apply others_step_write_bone; intros ?;
                  first [apply rig_view_set_matrix_basis | reflexivity] ]).
Qed.

Lemma for_each_app_ok {A} (l1 l2 : list A) (body : A -> M unit) s s' :
  for_each (l1 ++ l2) body s = (s', Ok tt) ->
  exists t, for_each l1 body s = (t, Ok tt) /\ for_each l2 body t = (s', Ok tt).
Proof.
  revert s. induction l1 as [|x l1 IH]; intros s H; simpl in *.
  - exists s. auto.
  - apply bind_ok_inv in H. destruct H as (s1 & [] & H1 & H).
    destruct (IH _ H) as (t & Ha & Hb). exists t. split; auto.
    unfold bind. now rewrite H1.
Qed.

Lemma map_snd_enumerate_from {A} (xs : list A) :
  forall i, map snd (enumerate_from i xs) = xs.
Proof. induction xs as [|x xs IH]; intros i; simpl; auto. now rewrite IH. Qed.

Lemma custom_bake_per_bone frames pose_bones dl dr ds s s' b :
  NoDup pose_bones -> In b pose_bones ->
  custom_bake visual_local frames pose_bones dl dr ds s = (s', Ok tt) ->
  exists i t t',
    In (i, b) (enumerate pose_bones) /\
    others_step b s t /\
    bake_bone dl dr ds frames (samples visual_local frames pose_bones s) (i, b) t
    = (t', Ok tt) /\
    others_step b t' s'.
Proof.
  intros Hnd Hb H. unfold custom_bake in H.
  destruct (negb dl && negb dr && negb ds); [discriminate|].
  unfold bind at 1 in H. unfold get in H. unfold bind at 1 in H.
  rewrite sample_frames_samples in H.
  apply bind_ok_inv in H. destruct H as (s2 & [] & H2 & H).
  destruct (in_enumerate_from b pose_bones Hb 0) as [i Hi].
  destruct (in_split _ _ Hi) as (l1 & l2 & Hsplit).
  fold (enumerate pose_bones) in Hsplit.
  assert (Hothers : forall x, In x (l1 ++ l2) -> snd x <> b).
  { intros x Hx E.
    pose proof (map_snd_enumerate_from pose_bones 0) as Hm.
    fold (enumerate pose_bones) in Hm. rewrite Hsplit, map_app in Hm. simpl in Hm.
    rewrite <- Hm in Hnd. apply NoDup_remove_2 in Hnd. apply Hnd.
    rewrite <- map_app, <- E. now apply in_map. }
  rewrite Hsplit in H2. apply for_each_app_ok in H2. destruct H2 as (t & Ha & Hrest).
  simpl in Hrest. apply bind_ok_inv in Hrest. destruct Hrest as (t' & [] & Hrun & Hc).
  exists i, t, t'. split; [exact Hi|]. split; [|split; [exact Hrun|]].
  - eapply others_step_trans; [apply others_step_set_frame|].
    eapply (steps_for_each (others_step b) (others_step_refl b) (others_step_trans b));
      [|exact Ha].
    intros [j r] Hj. apply bake_bone_others_step.
    apply (Hothers (j, r)). apply in_or_app. now left.
  - eapply others_step_trans.
    + eapply (steps_for_each (others_step b) (others_step_refl b) (others_step_trans b));
        [|exact Hc].
      intros [j r] Hj. apply bake_bone_others_step.
      apply (Hothers (j, r)). apply in_or_app. now right.
    + unfold frame_set, modify in H. inversion H; subst. apply others_step_set_frame.
Qed.

Lemma lookup_others_step b s s' r p :
  others_step b s s' -> lookup s r = Some p ->
  exists p', lookup s' r = Some p' /\ rig_view p' = rig_view p.
Proof. intros (H & _). now apply lookup_same_rig. Qed.

Lemma bake_bone_quaternion dl ds frames pose_bones s0 i b s s' p :
  In (i, b) (enumerate pose_bones) ->
  lookup s b = Some p -> rotation_mode p = QUATERNION ->
  bake_bone dl true ds frames (samples visual_local frames pose_bones s0) (i, b) s
  = (s', Ok tt) ->
  exists keyed,
    quaternion_keys s' b = quaternion_keys s b ++ keyed /\
    sign_continuous None
      (map (fun f => m_quaternion (visual_local (set_frame_current f s0) b)) frames)
      keyed.
Proof.
  intros Hib Hp Hmode H.
  unfold bake_bone in H. cbv zeta in H.
  apply bind_ok_inv in H. destruct H as (s1 & prev' & H & Hret).
  inversion Hret; subst s1; clear Hret.
  apply nth_error_enumerate_from in Hib. destruct Hib as [_ Hib].
  rewrite Nat.sub_0_r in Hib.
  set (g := fun f => visual_local (set_frame_current f s0) b).
  assert (Hrow : nth_error (samples visual_local frames pose_bones s0) i
                 = Some (map g frames)).
  { unfold samples. rewrite nth_error_map, Hib. reflexivity. }
  destruct (bake_frames_quaternion dl ds _ i b None _ Hrow (enumerate frames)
              (map g frames) None s s' prev' p) as (keyed & Hk & Hc); auto.
  - exact (enumerate_from_samples g frames []).
  - exists keyed. split; auto. now rewrite map_map in Hc.
Qed.

Lemma bake_bone_euler dl ds frames pose_bones s0 i b s s' p order :
  In (i, b) (enumerate pose_bones) ->
  lookup s b = Some p -> rotation_mode p = EULER order ->
  bake_bone dl true ds frames (samples visual_local frames pose_bones s0) (i, b) s
  = (s', Ok tt) ->
  exists keyed,
    euler_keys s' b = euler_keys s b ++ keyed /\
    turn_continuous None
      (map (fun f => m_euler (visual_local (set_frame_current f s0) b)) frames)
      keyed.
Proof.
  intros Hib Hp Hmode H.
  unfold bake_bone in H. cbv zeta in H.
  apply bind_ok_inv in H. destruct H as (s1 & prev' & H & Hret).
  inversion Hret; subst s1; clear Hret.
  apply nth_error_enumerate_from in Hib. destruct Hib as [_ Hib].
  rewrite Nat.sub_0_r in Hib.
  set (g := fun f => visual_local (set_frame_current f s0) b).
  assert (Hrow : nth_error (samples visual_local frames pose_bones s0) i
                 = Some (map g frames)).
  { unfold samples. rewrite nth_error_map, Hib. reflexivity. }
  destruct (bake_frames_euler dl ds _ i b _ order Hrow (enumerate frames)
              (map g frames) None None s s' prev' p) as (keyed & Hk & Hc); auto.
  - exact (enumerate_from_samples g frames []).
  - exists keyed. split; auto. now rewrite map_map in Hc.
Qed.

(** C4: in the keyframing loop with Rotation enabled, for a bone in
    quaternion mode.  One frame: with [q1] the previously keyed value and
    [q2] the sampled quaternion, the value [q2'] that is keyed is [q2] or
    its negation with [0 <= dot(q1, q2')] (and [q2] itself on the first
    frame), it is the only quaternion key inserted, the bone holds it and
    the stored previous quaternion becomes [q2'].  The whole bake: for each
    bone of a duplicate-free bone list, the quaternions keyed at the
    successive frames are sign continuous against the sampled ones,
    starting from the unadjusted first sample. *)
Theorem quaternion_sign_continuity :
  (forall dl ds pose_info i b euler_prev quat_prev fi frame s s' prev' row m p,
      nth_error pose_info i = Some row -> nth_error row fi = Some m ->
      lookup s b = Some p -> rotation_mode p = QUATERNION ->
      bake_frame dl true ds pose_info i b (euler_prev, quat_prev) (fi, frame) s
      = (s', Ok prev') ->
      exists q2',
        sign_compatible quat_prev (m_quaternion m) q2' /\
        prev' = (euler_prev, Some q2') /\
        quaternion_keys s' b = quaternion_keys s b ++ [q2'] /\
        exists p', lookup s' b = Some p' /\ rotation_mode p' = QUATERNION /\
                   rotation_quaternion p' = q2') /\
  (forall dl ds frames pose_bones s s' b p,
      NoDup pose_bones -> In b pose_bones ->
      lookup s b = Some p -> rotation_mode p = QUATERNION ->
      custom_bake visual_local frames pose_bones dl true ds s = (s', Ok tt) ->
      exists keyed,
        quaternion_keys s' b = quaternion_keys s b ++ keyed /\
        sign_continuous None
          (map (fun f => m_quaternion (visual_local (set_frame_current f s) b)) frames)
          keyed).
Proof.
  split; [exact bake_frame_quaternion|].
  intros dl ds frames pose_bones s s' b p Hnd Hb Hp Hmode H.
  destruct (custom_bake_per_bone _ _ _ _ _ _ _ _ Hnd Hb H)
    as (i & t & t' & Hi & Ha & Hrun & Hc).
  destruct (lookup_others_step _ _ _ _ _ Ha Hp) as (pt & Hpt & Hv).
  assert (Hmt : rotation_mode pt = QUATERNION)
    by (unfold rig_view in Hv; inversion Hv; congruence).
  destruct (bake_bone_quaternion _ _ _ _ _ _ _ _ _ _ Hi Hpt Hmt Hrun)
    as (keyed & Hk & Hcont).
  exists keyed. split; auto.
  unfold quaternion_keys in *.
  destruct Ha as [_ Ka], Hc as [_ Kc]. now rewrite Kc, Hk, Ka.
Qed.

(** C5: in the keyframing loop with Rotation enabled, for a bone in an
    Euler mode.  One frame: with [e1] the previously keyed triple and [e2]
    the sampled one, the triple [e2'] that is keyed differs from [e2] by
    whole turns on each axis and no such triple has a smaller total
    per-axis absolute difference from [e1] (and it is [e2] itself on the
    first frame); the stored previous triple becomes [e2'].  The whole
    bake: for each bone of a duplicate-free bone list, whatever bones were
    baked before it, the keyed triples are turn continuous starting from
    the empty previous state, i.e. from the unadjusted first sample (the
    quaternion counterpart is [quaternion_sign_continuity]); the loop of a
    bone starts from [(None, None)]. *)
Theorem euler_turn_continuity :
  (forall dl ds pose_info i b euler_prev quat_prev fi frame s s' prev' row m p order,
      nth_error pose_info i = Some row -> nth_error row fi = Some m ->
      lookup s b = Some p -> rotation_mode p = EULER order ->
      bake_frame dl true ds pose_info i b (euler_prev, quat_prev) (fi, frame) s
      = (s', Ok prev') ->
      exists e2',
        turn_compatible euler_prev (m_euler m) e2' /\
        prev' = (Some e2', quat_prev) /\
        euler_keys s' b = euler_keys s b ++ [e2'] /\
        exists p', lookup s' b = Some p' /\ rotation_mode p' = EULER order /\
                   rotation_euler p' = e2') /\
  (forall dl ds frames pose_bones s s' b p order,
      NoDup pose_bones -> In b pose_bones ->
      lookup s b = Some p -> rotation_mode p = EULER order ->
      custom_bake visual_local frames pose_bones dl true ds s = (s', Ok tt) ->
      exists keyed,
        euler_keys s' b = euler_keys s b ++ keyed /\
        turn_continuous None
          (map (fun f => m_euler (visual_local (set_frame_current f s) b)) frames)
          keyed) /\
  (forall dl dr ds frames pose_info i b s,
      bake_bone dl dr ds frames pose_info (i, b) s =
      (_ <- for_fold (enumerate frames) (None, None)
              (bake_frame dl dr ds pose_info i b) ;; ret tt) s).
Proof.
  split; [exact bake_frame_euler|]. split; [|reflexivity].
  intros dl ds frames pose_bones s s' b p order Hnd Hb Hp Hmode H.
  destruct (custom_bake_per_bone _ _ _ _ _ _ _ _ Hnd Hb H)
    as (i & t & t' & Hi & Ha & Hrun & Hc).
  destruct (lookup_others_step _ _ _ _ _ Ha Hp) as (pt & Hpt & Hv).
  assert (Hmt : rotation_mode pt = EULER order)
    by (unfold rig_view in Hv; inversion Hv; congruence).
  destruct (bake_bone_euler _ _ _ _ _ _ _ _ _ _ _ Hi Hpt Hmt Hrun)
    as (keyed & Hk & Hcont).
  exists keyed. split; auto.
  unfold euler_keys in *.
  destruct Ha as [_ Ka], Hc as [_ Kc]. now rewrite Kc, Hk, Ka.
Qed.

End BakeProofs.

(** ** Concrete runs of the bake *)

Lemma custom_bake_cursor_not_restored :
  custom_bake demo_visual_local [1; 2]%Z [demo_hand] true false false demo_locked_scene
  = (set_frame_current 2 (update_bone demo_hand
                            (set_matrix_basis (demo_visual_local
                               (set_frame_current 1 demo_locked_scene) demo_hand))
                            demo_locked_scene),
     Raise (RuntimeError "F-Curve cannot be keyframed"))
  /\ frame_current demo_locked_scene = 7%Z
  /\ frame_current
       (fst (custom_bake demo_visual_local [1; 2]%Z [demo_hand] true false false
               demo_locked_scene)) <> frame_current demo_locked_scene.
Proof.
  split; [vm_compute; reflexivity|]. split; [reflexivity|].
  vm_compute. discriminate.
Qed.

Lemma custom_bake_time_cursor_witness :
  frame_current
    (fst (custom_bake demo_visual_local [1; 2]%Z [demo_arm; demo_hand] true true true
            demo_scene)) = 7%Z
  /\ frame_current
       (fst (custom_bake demo_visual_local [1; 2]%Z [demo_hand] true false false
               demo_locked_scene)) = 2%Z.
Proof.
  split.
  - generalize (custom_bake_time_cursor demo_visual_local [1; 2]%Z [demo_arm; demo_hand]
                  true true true demo_scene _ _ eq_refl (surjective_pairing _)).
    vm_compute. exact (fun H => H).
  - generalize (custom_bake_time_cursor demo_visual_local [1; 2]%Z [demo_hand]
                  true false false demo_locked_scene _ _ eq_refl (surjective_pairing _)).
    vm_compute. exact (fun H => H).
Defined.

Lemma location_keys_follow_connectivity_witness :
  keys_of (bake_sequence demo_visual_local demo_calls demo_scene) demo_arm location_path
  = keys_of demo_scene demo_arm location_path
  /\ (exists ks,
        action_keys
          (fst (custom_bake demo_visual_local [1; 2]%Z [demo_arm; demo_hand]
                  true true true demo_scene)) "Rig"
        = action_keys demo_scene "Rig" ++ ks /\
        forall f, In f [1; 2]%Z -> has_location_key demo_hand f ks)
  /\ (exists s',
        custom_bake demo_visual_local [1; 2]%Z [demo_arm] true false false demo_scene
        = (s', Ok tt)).
Proof.
  destruct (location_keys_follow_connectivity demo_visual_local) as (H1 & H2 & H3).
  split; [|split].
  - exact (H1 demo_calls demo_scene demo_arm _ eq_refl eq_refl).
  - refine (H2 [1; 2]%Z [demo_arm; demo_hand] true true demo_scene _ demo_hand _
               eq_refl eq_refl _ _).
    + simpl; auto.
    + vm_compute. reflexivity.
  - apply H3. intros b [<-|[]]. reflexivity.
Defined.

Lemma quaternion_sign_continuity_witness :
  (exists q2',
      sign_compatible (Some qidentity) (m_quaternion demo_matrix) q2' /\
      snd (bake_frame false true false [[demo_matrix]] 0 demo_hand
             (None, Some qidentity) (0%nat, 3%Z) demo_scene)
      = Ok (None, Some q2'))
  /\ (exists keyed,
        quaternion_keys
          (fst (custom_bake demo_visual_local [1; 2; 3]%Z [demo_arm; demo_hand]
                  true true true demo_scene)) demo_hand
        = quaternion_keys demo_scene demo_hand ++ keyed /\
        sign_continuous None
          (map (fun f => m_quaternion
                           (demo_visual_local (set_frame_current f demo_scene) demo_hand))
               [1; 2; 3]%Z)
          keyed).
Proof.
  destruct (quaternion_sign_continuity demo_visual_local) as (H1 & H2).
  split.
  - destruct (H1 false false [[demo_matrix]] 0%nat demo_hand None (Some qidentity)
                0%nat 3%Z demo_scene
                (fst (bake_frame false true false [[demo_matrix]] 0 demo_hand
                        (None, Some qidentity) (0%nat, 3%Z) demo_scene))
                (None, Some (mkQuaternion 1 0 0 0)) [demo_matrix] demo_matrix _
                eq_refl eq_refl eq_refl eq_refl)
      as (q2' & Hs & Hprev & _).
    + vm_compute. reflexivity.
    + exists q2'. split; [exact Hs|]. rewrite <- Hprev. vm_compute. reflexivity.
  - refine (H2 true true [1; 2; 3]%Z [demo_arm; demo_hand] demo_scene _ demo_hand _
               _ _ eq_refl eq_refl _).
    + repeat constructor; simpl; intuition discriminate.
    + simpl; auto.
    + vm_compute. reflexivity.
Defined.

Lemma euler_turn_continuity_witness :
  (exists e2',
      turn_compatible (Some vzero) (m_euler demo_matrix) e2' /\
      snd (bake_frame false true false [[demo_matrix]] 0 demo_arm
             (Some vzero, None) (0%nat, 3%Z) demo_scene)
      = Ok (Some e2', None))
  /\ (exists keyed,
        euler_keys
          (fst (custom_bake demo_visual_local [1; 2; 3]%Z [demo_arm; demo_hand]
                  true true true demo_scene)) demo_arm
        = euler_keys demo_scene demo_arm ++ keyed /\
        turn_continuous None
          (map (fun f => m_euler
                           (demo_visual_local (set_frame_current f demo_scene) demo_arm))
               [1; 2; 3]%Z)
          keyed).
Proof.
  destruct (euler_turn_continuity demo_visual_local) as (H1 & H2 & _).
  split.
  - destruct (H1 false false [[demo_matrix]] 0%nat demo_arm (Some vzero) None
                0%nat 3%Z demo_scene
                (fst (bake_frame false true false [[demo_matrix]] 0 demo_arm
                        (Some vzero, None) (0%nat, 3%Z) demo_scene))
                (Some (euler_make_compatible (m_euler demo_matrix) vzero), None)
                [demo_matrix] demo_matrix _ XYZ
                eq_refl eq_refl eq_refl eq_refl)
      as (e2' & Hs & Hprev & _).
    + vm_compute. reflexivity.
    + exists e2'. split; [exact Hs|]. rewrite <- Hprev. vm_compute. reflexivity.
  - refine (H2 true true [1; 2; 3]%Z [demo_arm; demo_hand] demo_scene _ demo_arm _ XYZ
               _ _ eq_refl eq_refl _).
    + repeat constructor; simpl; intuition discriminate.
    + simpl; auto.
    + vm_compute. reflexivity.
Defined.

(** ** Which exceptions a program can raise, which values it can return *)

Section Raises.

Variable P : exn -> Prop.

Lemma raises_ret {A} (a : A) : raises_only P (ret a).
Proof. intros s s' e H. discriminate. Qed.

Lemma raises_get : raises_only P get.
Proof. intros s s' e H. discriminate. Qed.

Lemma raises_modify f : raises_only P (modify f).
Proof. intros s s' e H. discriminate. Qed.

Lemma raises_raise {A} e : P e -> raises_only P (@raise A e).
Proof. intros He s s' e' H. inversion H; subst. exact He. Qed.

Lemma raises_bind {A B} (m : M A) (k : A -> M B) :
  raises_only P m -> (forall a, raises_only P (k a)) -> raises_only P (bind m k).
Proof.
  intros Hm Hk s s' e H. apply bind_inv in H.
  destruct H as [(e' & H & E)|(s1 & a & _ & H)].
  - inversion E; subst. eapply Hm; eauto.
  - eapply Hk; eauto.
Qed.

Lemma raises_for_each {A} (xs : list A) (body : A -> M unit) :
  (forall x, raises_only P (body x)) -> raises_only P (for_each xs body).
Proof.
  intros Hb. induction xs as [|x xs IH]; simpl.
  - apply raises_ret.
  - apply raises_bind; auto.
Qed.

Lemma raises_for_fold {A B} (xs : list A) (body : B -> A -> M B) :
  (forall acc x, raises_only P (body acc x)) ->
  forall acc, raises_only P (for_fold xs acc body).
Proof.
  intros Hb. induction xs as [|x xs IH]; intros acc; simpl.
  - apply raises_ret.
  - apply raises_bind; auto.
Qed.

(** The continuation may use what the first part returned. *)
Lemma raised_after {A B} (m : M A) (k : A -> M B) s s' e :
  bind m k s = (s', Raise e) ->
  raises_only P m ->
  (forall a s1, m s = (s1, Ok a) -> k a s1 = (s', Raise e) -> P e) ->
  P e.
Proof.
  intros H Hm Hk. apply bind_inv in H.
  destruct H as [(e' & H & E)|(s1 & a & H1 & H)].
  - inversion E; subst. eapply Hm; eauto.
  - eapply Hk; eauto.
Qed.

Lemma raises_get_bone r : P ReferenceError -> raises_only P (get_bone r).
Proof.
  intros HP s s' e H. unfold get_bone in H.
  destruct (lookup s r); inversion H; subst. exact HP.
Qed.

Lemma raises_get_object n : P ReferenceError -> raises_only P (get_object n).
Proof.
  intros HP s s' e H. unfold get_object in H.
  destruct (lookup_object s n); inversion H; subst. exact HP.
Qed.

End Raises.

Lemma returns_ret {A} (Q : A -> Prop) (a : A) : Q a -> returns_only Q (ret a).
Proof. intros Ha s s' a' H. inversion H; subst. exact Ha. Qed.

Lemma returns_bind {A B} (Q : B -> Prop) (m : M A) (k : A -> M B) :
  (forall a, returns_only Q (k a)) -> returns_only Q (bind m k).
Proof.
  intros Hk s s' b H. apply bind_ok_inv in H.
  destruct H as (s1 & a & _ & H). eapply Hk; eauto.
Qed.

(** A loop whose body lengthens a list by one lengthens it by the number
    of iterations. *)
Lemma for_fold_length {A B} (len : B -> nat) (xs : list A) (body : B -> A -> M B) :
  (forall acc x, returns_only (fun acc' => len acc' = S (len acc)) (body acc x)) ->
  forall acc,
    returns_only (fun acc' => len acc' = (len acc + List.length xs)%nat)
                 (for_fold xs acc body).
Proof.
  intros Hb. induction xs as [|x xs IH]; intros acc s s' acc' H; simpl in *.
  - inversion H; subst. lia.
  - apply bind_ok_inv in H. destruct H as (s1 & acc1 & H1 & H).
    apply Hb in H1. apply IH in H. lia.
Qed.

#[local] Hint Unfold not_none bones_item edit_bones_new
  edit_bones_remove format_for place_edit_bone mark_space
  get_space_switching_armature_object remove_bone_curves : host.

(** One decomposition step of a [raises_only] goal; [tac] proves the
    property of the exceptions raised explicitly. *)
Ltac raises_step tac :=
  match goal with
  | |- raises_only _ (bind _ _) => apply raises_bind; [| intros ?]
  | |- raises_only _ (ret _) => apply raises_ret
  | |- raises_only _ get => apply raises_get
  | |- raises_only _ (modify _) => apply raises_modify
  | |- raises_only _ (raise _) => apply raises_raise; tac
  | |- raises_only _ (get_bone _) => apply raises_get_bone; tac
  | |- raises_only _ (get_object _) => apply raises_get_object; tac
  | |- raises_only _ (for_each _ _) => apply raises_for_each; intros ?
  | |- raises_only _ (for_fold _ _ _) => apply raises_for_fold; intros ? ?
  | |- raises_only _ (if ?c then _ else _) => destruct c
  | |- raises_only _ (match ?x with _ => _ end) => destruct x
  | |- raises_only _ _ => progress autounfold with host
  | |- raises_only _ _ => progress cbv zeta
  end.

Ltac raises_auto tac := repeat raises_step tac.

Ltac not_mismatch_tac :=
  unfold not_mismatch, edit_mismatch, reverse_mismatch; split; discriminate.

Lemma write_bone_not_mismatch r f : raises_only not_mismatch (write_bone r f).
Proof. raises_auto not_mismatch_tac. Qed.

Lemma keyframe_insert_not_mismatch r path frame group :
  raises_only not_mismatch (keyframe_insert r path frame group).
Proof. raises_auto not_mismatch_tac. Qed.

(** ** The parallel lists of [_space_switch] *)

Lemma custom_bake_not_mismatch visual_local frames pose_bones dl dr ds :
  raises_only not_mismatch (custom_bake visual_local frames pose_bones dl dr ds).
Proof.
  unfold custom_bake, sample_frame, bake_bone.
  raises_auto not_mismatch_tac.
  unfold bake_frame, pose_info_at, bake_rotation.
  raises_auto not_mismatch_tac.
Qed.

Lemma bake_all_channels_not_mismatch visual_local frames pose_bones :
  raises_only not_mismatch (bake_all_channels visual_local frames pose_bones).
Proof.
  unfold bake_all_channels. destruct frames.
  - apply custom_bake_not_mismatch.
  - apply raises_raise. not_mismatch_tac.
Qed.

Lemma build_edit_bone_not_mismatch temp_obj dest acc src :
  raises_only not_mismatch (build_edit_bone temp_obj dest acc src).
Proof. unfold build_edit_bone. raises_auto not_mismatch_tac. Qed.

Lemma setup_pose_bone_not_mismatch temp_obj dest active acc st :
  raises_only not_mismatch (setup_pose_bone temp_obj dest active acc st).
Proof.
  unfold setup_pose_bone, constrain_anchor. destruct acc, st.
  raises_auto not_mismatch_tac.
Qed.

Lemma rewire_not_mismatch x : raises_only not_mismatch (rewire x).
Proof.
  unfold rewire. destruct x as [src [temp c]]. raises_auto not_mismatch_tac.
Qed.

Lemma build_edit_bones_length temp_obj dest src s s' names :
  build_edit_bones temp_obj dest src s = (s', Ok names) ->
  List.length names = List.length src.
Proof.
  intros H. unfold build_edit_bones in H.
  apply (for_fold_length (@List.length string)) in H; [exact H|].
  intros acc x. unfold build_edit_bone.
  repeat (apply returns_bind; intros ?). apply returns_ret.
  rewrite length_app. simpl. lia.
Qed.

Lemma setup_pose_bones_length temp_obj dest active src names s s' tpb ctr :
  setup_pose_bones temp_obj dest active src names s = (s', Ok (tpb, ctr)) ->
  List.length tpb = List.length (combine src names) /\
  List.length ctr = List.length (combine src names).
Proof.
  intros H. unfold setup_pose_bones in H. split.
  - apply (for_fold_length (fun acc : list BoneRef * list nat => List.length (fst acc)))
      in H; [exact H|].
    intros [a c] [x n]. unfold setup_pose_bone.
    repeat (apply returns_bind; intros ?). apply returns_ret.
    simpl. rewrite length_app. simpl. lia.
  - apply (for_fold_length (fun acc : list BoneRef * list nat => List.length (snd acc)))
      in H; [exact H|].
    intros [a c] [x n]. unfold setup_pose_bone.
    repeat (apply returns_bind; intros ?). apply returns_ret.
    simpl. rewrite length_app. simpl. lia.
Qed.

(** C10: the two consistency checks of [_space_switch] cannot fire.  The
    Edit Mode loop returns one name per source bone, the Pose Mode loop one
    temporary pose bone and one capture constraint per source bone, and no
    run of [_space_switch] ends with either of the two RuntimeErrors. *)
Theorem space_switch_lists_agree :
  (forall temp_obj dest src s s' names,
      build_edit_bones temp_obj dest src s = (s', Ok names) ->
      List.length names = List.length src) /\
  (forall temp_obj dest active src names s s' tpb ctr,
      List.length names = List.length src ->
      setup_pose_bones temp_obj dest active src names s = (s', Ok (tpb, ctr)) ->
      List.length tpb = List.length src /\ List.length ctr = List.length src) /\
  (forall visual_local src dest frames s s' e,
      _space_switch visual_local src dest frames s = (s', Raise e) ->
      e <> RuntimeError edit_mismatch /\ e <> RuntimeError reverse_mismatch).
Proof.
  split; [exact build_edit_bones_length|]. split.
  - intros temp_obj dest active src names s s' tpb ctr Hlen H.
    apply setup_pose_bones_length in H. rewrite length_combine, Hlen in H.
    rewrite Nat.min_id in H. exact H.
  - intros visual_local src dest frames s s' e H.
    change (not_mismatch e). unfold _space_switch in H.
    unfold bind at 1 in H. unfold get at 1 in H.
    set (working := remove_dest dest src) in *.
    destruct (List.length working <? 1)%nat; [discriminate|].
    repeat (eapply (raised_after not_mismatch _ _ _ _ _ H);
            [solve [raises_auto not_mismatch_tac]|]; clear H; intros ? ? _ H).
    eapply (raised_after not_mismatch _ _ _ _ _ H); clear H.
    { unfold build_edit_bones. apply raises_for_fold.
      intros. apply build_edit_bone_not_mismatch. }
    intros names sa Hnames H. apply build_edit_bones_length in Hnames.
    repeat (eapply (raised_after not_mismatch _ _ _ _ _ H);
            [solve [raises_auto not_mismatch_tac]|]; clear H; intros ? ? _ H).
    rewrite Hnames, Nat.eqb_refl in H. simpl in H.
    eapply (raised_after not_mismatch _ _ _ _ _ H); clear H.
    { unfold setup_pose_bones. apply raises_for_fold.
      intros. apply setup_pose_bone_not_mismatch. }
    intros [tpb ctr] sb Hlists H. apply setup_pose_bones_length in Hlists.
    rewrite length_combine, Hnames, Nat.min_id in Hlists. destruct Hlists as [L1 L2].
    eapply (raised_after not_mismatch _ _ _ _ _ H); clear H.
    { apply bake_all_channels_not_mismatch. }
    intros [] sc _ H. rewrite L1, L2, Nat.eqb_refl in H. simpl in H.
    revert H. apply raises_for_each. intros. apply rewire_not_mismatch.
Qed.

Lemma space_switch_lists_agree_witness :
  (exists names,
      snd (build_edit_bones "SpaceSwitching" None [demo_arm; demo_hand] demo_temp_scene)
      = Ok names /\ List.length names = 2%nat)
  /\ (exists tpb ctr,
        snd (setup_pose_bones "SpaceSwitching" None (Some demo_hand)
               [demo_arm; demo_hand] ["Arm_Copy"; "Hand_Copy"]
               (fst (build_edit_bones "SpaceSwitching" None [demo_arm; demo_hand]
                       demo_temp_scene)))
        = Ok (tpb, ctr) /\ List.length tpb = 2%nat /\ List.length ctr = 2%nat)
  /\ snd (_space_switch demo_visual_local [demo_arm; demo_hand] None None demo_scene)
     <> Raise (RuntimeError edit_mismatch).
Proof.
  destruct space_switch_lists_agree as (H1 & H2 & H3).
  split; [|split].
  - exists ["Arm_Copy"; "Hand_Copy"]. split; [vm_compute; reflexivity|].
    apply (H1 "SpaceSwitching" None [demo_arm; demo_hand] demo_temp_scene
              (fst (build_edit_bones "SpaceSwitching" None [demo_arm; demo_hand]
                      demo_temp_scene))).
    vm_compute. reflexivity.
  - exists [("SpaceSwitching", "Arm_Copy"); ("SpaceSwitching", "Hand_Copy")], [0; 2]%nat.
    split; [vm_compute; reflexivity|].
    apply (H2 "SpaceSwitching" None (Some demo_hand) [demo_arm; demo_hand]
              ["Arm_Copy"; "Hand_Copy"]
              (fst (build_edit_bones "SpaceSwitching" None [demo_arm; demo_hand]
                      demo_temp_scene))
              (fst (setup_pose_bones "SpaceSwitching" None (Some demo_hand)
                      [demo_arm; demo_hand] ["Arm_Copy"; "Hand_Copy"]
                      (fst (build_edit_bones "SpaceSwitching" None [demo_arm; demo_hand]
                              demo_temp_scene))))).
    + reflexivity.
    + vm_compute. reflexivity.
  - intros E.
    destruct (H3 demo_visual_local [demo_arm; demo_hand] None None demo_scene
                 (fst (_space_switch demo_visual_local [demo_arm; demo_hand] None None
                         demo_scene))
                 (RuntimeError edit_mismatch)) as [Hne _].
    + rewrite <- E. apply surjective_pairing.
    + apply Hne. reflexivity.
Defined.

(** ** Self-targeting *)

Lemma remove_first_not_in d l : ~ In d l -> remove_first d l = l.
Proof.
  induction l as [|x l IH]; intros Hn; simpl; auto.
  destruct (boneref_eqb x d) eqn:E.
  - apply boneref_eqb_eq in E. subst. exfalso. apply Hn. simpl; auto.
  - f_equal. apply IH. intros H. apply Hn. simpl; auto.
Qed.

Lemma remove_first_in_iff d l x :
  x <> d -> (In x (remove_first d l) <-> In x l).
Proof.
  intros Hx. induction l as [|y l IH]; simpl; [tauto|].
  destruct (boneref_eqb y d) eqn:E.
  - apply boneref_eqb_eq in E. subst. split; auto. intros [H|H]; congruence.
  - simpl. tauto.
Qed.

Lemma remove_first_nodup d l : NoDup l -> ~ In d (remove_first d l).
Proof.
  induction 1 as [|x l Hx Hnd IH]; simpl; auto.
  destruct (boneref_eqb x d) eqn:E.
  - apply boneref_eqb_eq in E. now subst.
  - intros [H|H]; auto. subst. rewrite boneref_eqb_refl in E. discriminate.
Qed.

(** C6: when removing the destination from the source bones leaves
    nothing, [_space_switch] returns at once: no exception and the state
    untouched.  When the destination is among the (duplicate-free) source
    bones, the bones the operation works on are the others, and the run is
    the run on the source bones without the destination. *)
Theorem space_switch_self_target :
  (forall visual_local src dest frames s,
      remove_dest dest src = [] ->
      _space_switch visual_local src dest frames s = (s, Ok tt)) /\
  (forall visual_local src d frames s,
      NoDup src -> In d src ->
      ~ In d (remove_dest (Some d) src) /\
      (forall x, x <> d -> (In x (remove_dest (Some d) src) <-> In x src)) /\
      _space_switch visual_local src (Some d) frames s
      = _space_switch visual_local (remove_dest (Some d) src) (Some d) frames s).
Proof.
  split.
  - intros visual_local src dest frames s H. unfold _space_switch.
    unfold bind, get. rewrite H. reflexivity.
  - intros visual_local src d frames s Hnd Hin. simpl.
    pose proof (remove_first_nodup d src Hnd) as Hout.
    split; [exact Hout|]. split; [intros x Hx; now apply remove_first_in_iff|].
    unfold _space_switch. simpl. rewrite (remove_first_not_in d _ Hout). reflexivity.
Qed.

Lemma space_switch_self_target_witness :
  _space_switch demo_visual_local [demo_hand] (Some demo_hand) (Some [1; 2]%Z) demo_scene
  = (demo_scene, Ok tt)
  /\ _space_switch demo_visual_local [demo_arm; demo_hand] (Some demo_hand)
       (Some [1; 2]%Z) demo_scene
     = _space_switch demo_visual_local [demo_arm] (Some demo_hand)
         (Some [1; 2]%Z) demo_scene.
Proof.
  destruct space_switch_self_target as (H1 & H2).
  split.
  - apply H1. reflexivity.
  - refine (proj2 (proj2 (H2 demo_visual_local [demo_arm; demo_hand] demo_hand
                            (Some [1; 2]%Z) demo_scene _ _))).
    + repeat constructor; simpl; intuition discriminate.
    + simpl; auto.
Defined.

(** ** Apply with nothing to bake *)

Lemma flat_map_nil {A B} (f : A -> list B) (l : list A) :
  (forall x, In x l -> f x = []) -> flat_map f l = [].
Proof.
  induction l as [|x l IH]; intros H; simpl; auto.
  rewrite (H x) by (simpl; auto). apply IH. intros y Hy. apply H. simpl; auto.
Qed.

Lemma pose_bones_to_bake_nil s :
  (forall temp o p,
      In temp (selected_pose_bones s) -> In o (objects s) -> In p (bones o) ->
      was_constrained temp p = false) ->
  pose_bones_to_bake s (get_armature_objects s) = [].
Proof.
  intros H. unfold pose_bones_to_bake. apply flat_map_nil. intros temp Ht.
  apply flat_map_nil. intros n Hn.
  destruct (lookup_object s n) as [o|] eqn:Eo; auto.
  apply find_some in Eo. destruct Eo as [Ho _].
  rewrite filter_nil; auto. intros p Hp. eapply H; eauto.
Qed.

(** C9: [_remove_bones_common] with [do_apply] set, when no pose bone of
    any armature object carries a constraint to a selected temporary bone:
    the bake is skipped and the whole run, final state and outcome, is the
    run of the pure discard; the discard itself never looks at [frames]. *)
Theorem apply_without_sources_is_discard :
  (forall visual_local frames s,
      (forall temp o p,
          In temp (selected_pose_bones s) -> In o (objects s) -> In p (bones o) ->
          was_constrained temp p = false) ->
      _remove_bones_common visual_local true frames s
      = _remove_bones_common visual_local false None s) /\
  (forall visual_local frames s,
      _remove_bones_common visual_local false frames s
      = _remove_bones_common visual_local false None s).
Proof.
  split; [|reflexivity].
  intros visual_local frames s H. unfold _remove_bones_common.
  unfold bind at 1. unfold get at 1. symmetry. unfold bind at 1. unfold get at 1.
  rewrite (pose_bones_to_bake_nil s H). reflexivity.
Qed.

Lemma apply_without_sources_is_discard_witness :
  _remove_bones_common demo_visual_local true (Some [1; 2]%Z) demo_empty_scene
  = _remove_bones_common demo_visual_local false None demo_empty_scene
  /\ snd (_remove_bones_common demo_visual_local true (Some [1; 2]%Z) demo_empty_scene)
     = Ok tt
  /\ lookup (fst (_remove_bones_common demo_visual_local true (Some [1; 2]%Z)
                    demo_empty_scene)) ("SpaceSwitching", "Empty") = None.
Proof.
  assert (E : _remove_bones_common demo_visual_local true (Some [1; 2]%Z) demo_empty_scene
              = _remove_bones_common demo_visual_local false None demo_empty_scene).
  { apply (proj1 apply_without_sources_is_discard).
    intros temp o p Ht Ho Hp. simpl in Ht.
    destruct Ht as [<-|[]].
    destruct Ho as [<-|[<-|[]]]; destruct Hp as [<-|[]]; reflexivity. }
  split; [exact E|]. rewrite E. split; vm_compute; reflexivity.
Defined.

(* ===================================================================== *)
(** ** Space switching: the temporary chains and the rewiring *)
(* ===================================================================== *)


(** ** Fresh bone names *)

Lemma decimal_value_zero s : decimal_value ("0" ++ s)%string = decimal_value s.
Proof.
  unfold decimal_value. simpl.
  destruct (NilEmpty.uint_of_string s); reflexivity.
Qed.

Lemma decimal_value_print n :
  decimal_value (NilEmpty.string_of_uint (Nat.to_uint n)) = Some n.
Proof.
  unfold decimal_value. rewrite NilEmpty.usu. simpl.
  now rewrite DecimalNat.Unsigned.of_to.
Qed.

Lemma decimal_value_pad3 n :
  decimal_value (pad3 (NilEmpty.string_of_uint (Nat.to_uint n))) = Some n.
Proof.
  unfold pad3.
  destruct (String.length _) as [|[|[|k]]];
    [change ("000" ++ ?x)%string with ("0" ++ ("0" ++ ("0" ++ x)))%string
    |change ("00" ++ ?x)%string with ("0" ++ ("0" ++ x))%string
    | | ];
    rewrite ?decimal_value_zero; apply decimal_value_print.
Qed.

Lemma append_inj_l (a x y : string) : (a ++ x)%string = (a ++ y)%string -> x = y.
Proof. induction a; simpl; intros H; auto. inversion H; auto. Qed.

Lemma numbered_inj base n m : numbered base n = numbered base m -> n = m.
Proof.
  unfold numbered. intros H. apply append_inj_l, append_inj_l in H.
  assert (E : decimal_value (pad3 (NilEmpty.string_of_uint (Nat.to_uint n)))
              = decimal_value (pad3 (NilEmpty.string_of_uint (Nat.to_uint m))))
    by now rewrite H.
  rewrite !decimal_value_pad3 in E. now inversion E.
Qed.

Lemma mem_In x l : mem x l = true <-> In x l.
Proof.
  unfold mem. rewrite existsb_exists. split.
  - intros (y & Hy & E). apply String.eqb_eq in E. now subst.
  - intros H. exists x. split; auto. apply String.eqb_refl.
Qed.

Lemma NoDup_map_inj {A B} (f : A -> B) (l : list A) :
  (forall a b, f a = f b -> a = b) -> NoDup l -> NoDup (map f l).
Proof.
  intros Hf. induction 1 as [|x l Hx Hnd IH]; simpl; constructor; auto.
  intros H. apply in_map_iff in H. destruct H as (y & E & Hy).
  apply Hf in E. now subst.
Qed.

(** The name the host gives a new bone is not taken: among the first
    [length taken + 1] numbered candidates one is free. *)
Lemma unique_name_fresh taken desired : ~ In (unique_name taken desired) taken.
Proof.
  unfold unique_name. destruct (mem desired taken) eqn:E.
  - destruct (find _ _) as [n|] eqn:F.
    + apply find_some in F. destruct F as [_ F].
      apply negb_true_iff in F. intros H. apply mem_In in H. congruence.
    + exfalso.
      pose proof (find_none _ _ F) as Hall.
      assert (Hincl : incl (map (numbered desired) (seq 1 (S (List.length taken)))) taken).
      { intros x Hx. apply in_map_iff in Hx. destruct Hx as (n & <- & Hn).
        specialize (Hall n Hn). apply negb_false_iff in Hall. now apply mem_In. }
      apply NoDup_incl_length in Hincl.
      * rewrite length_map, length_seq in Hincl. lia.
      * apply NoDup_map_inj; [|apply seq_NoDup].
        intros a b. apply numbered_inj.
  - intros H. apply mem_In in H. congruence.
Qed.

(** ** Effects of the primitives on the bones *)

Lemma find_is_bone_none n (l : list PoseBone) :
  ~ In n (map (fun p => name (bone p)) l) -> find (is_bone n) l = None.
Proof.
  induction l as [|x l IH]; simpl; intros H; auto.
  unfold is_bone at 1. destruct (String.eqb (name (bone x)) n) eqn:E.
  - apply String.eqb_eq in E. exfalso. apply H. auto.
  - apply IH. intros Hin. apply H. auto.
Qed.

Lemma find_app {A} (f : A -> bool) (l1 l2 : list A) :
  find f (l1 ++ l2) = match find f l1 with Some x => Some x | None => find f l2 end.
Proof. induction l1 as [|x l1 IH]; simpl; auto. destruct (f x); auto. Qed.

Lemma edit_bones_new_ok T d s s' n :
  edit_bones_new T d s = (s', Ok n) ->
  lookup s (T, n) = None /\
  lookup s' (T, n) = Some (new_pose_bone n) /\
  (forall r, r <> (T, n) -> lookup s' r = lookup s r) /\
  next_id s' = next_id s.
Proof.
  unfold edit_bones_new. intros H.
  apply bind_ok_inv in H. destruct H as (s1 & o & Ho & H).
  apply get_object_ok in Ho. destruct Ho as [-> Ho].
  apply bind_ok_inv in H. destruct H as (s2 & [] & Hm & H).
  inversion Hm; subst s2; clear Hm. inversion H; subst s' n; clear H.
  set (n := unique_name (map (fun p => name (bone p)) (bones o)) d).
  pose proof (unique_name_fresh (map (fun p => name (bone p)) (bones o)) d) as Hfresh.
  fold n in Hfresh.
  assert (Hnone : find (is_bone n) (bones o) = None) by now apply find_is_bone_none.
  split; [|split; [|split]].
  - unfold lookup. simpl. rewrite Ho. exact Hnone.
  - unfold lookup. simpl. rewrite lookup_object_update_object by reflexivity.
    rewrite String.eqb_refl, Ho. simpl. unfold lookup_bone. simpl.
    rewrite find_app, Hnone. simpl. unfold is_bone. simpl. now rewrite String.eqb_refl.
  - intros [o' m] Hne. unfold lookup. simpl.
    rewrite lookup_object_update_object by reflexivity.
    destruct (String.eqb o' T) eqn:E; auto.
    apply String.eqb_eq in E; subst o'. rewrite Ho. simpl.
    unfold lookup_bone. simpl. rewrite find_app.
    destruct (find (is_bone m) (bones o)); auto. simpl.
    unfold is_bone. simpl. destruct (String.eqb n m) eqn:E; auto.
    apply String.eqb_eq in E. congruence.
  - reflexivity.
Qed.

Lemma write_bone_effect r f s s' u :
  keeps_name f ->
  write_bone r f s = (s', Ok u) ->
  exists p, lookup s r = Some p /\ lookup s' r = Some (f p) /\
            (forall r', r' <> r -> lookup s' r' = lookup s r') /\
            next_id s' = next_id s.
Proof.
  intros Hf H. apply write_bone_ok in H. destruct H as [-> [p Hp]].
  exists p. split; auto. split; [|split].
  - rewrite lookup_update_bone_same, Hp by auto. reflexivity.
  - intros r' Hne. now apply lookup_update_bone_other.
  - reflexivity.
Qed.

Lemma constraints_new_ok owner ty s s' id :
  constraints_new owner ty s = (s', Ok id) ->
  id = next_id s /\ next_id s' = S id /\
  exists p, lookup s owner = Some p /\
            lookup s' owner
            = Some (set_constraints
                      (constraints p ++ [mkConstraint id ty None "" 0 None ""]) p) /\
            (forall r', r' <> owner -> lookup s' r' = lookup s r').
Proof.
  unfold constraints_new. intros H.
  apply bind_ok_inv in H. destruct H as (s1 & s0 & Hg & H).
  inversion Hg; subst s1 s0; clear Hg.
  apply bind_ok_inv in H. destruct H as (s1 & [] & Hw & H).
  apply write_bone_effect in Hw; [|intros p; reflexivity].
  destruct Hw as (p & Hp & Hp' & Ho & Hn).
  apply bind_ok_inv in H. destruct H as (s2 & [] & Hm & H).
  inversion Hm; subst s2; clear Hm. inversion H; subst s' id; clear H.
  split; auto. split; auto. exists p. repeat split; auto.
Qed.

Lemma write_constraint_effect owner id f s s' u :
  write_constraint owner id f s = (s', Ok u) ->
  exists p, lookup s owner = Some p /\
            lookup s' owner
            = Some (set_constraints
                      (update_first (fun c => Nat.eqb (c_id c) id) f (constraints p)) p) /\
            (forall r', r' <> owner -> lookup s' r' = lookup s r') /\
            next_id s' = next_id s.
Proof.
  unfold write_constraint. intros H.
  apply write_bone_effect in H; [|intros p; reflexivity]. exact H.
Qed.

Lemma constraints_remove_ok owner id s s' u :
  constraints_remove owner id s = (s', Ok u) ->
  exists p, lookup s owner = Some p /\
            lookup s' owner
            = Some (set_constraints
                      (filter (fun c => negb (Nat.eqb (c_id c) id)) (constraints p)) p) /\
            (forall r', r' <> owner -> lookup s' r' = lookup s r') /\
            next_id s' = next_id s.
Proof.
  unfold constraints_remove. intros H.
  apply bind_ok_inv in H. destruct H as (s1 & p & Hg & H).
  apply get_bone_ok in Hg. destruct Hg as [-> Hp].
  destruct (existsb _ _); [|discriminate].
  apply write_bone_effect in H; [|intros q; reflexivity].
  destruct H as (p' & Hp' & H). rewrite Hp in Hp'. inversion Hp'; subst p'.
  exists p. auto.
Qed.

Lemma format_for_ok t r s s' x :
  format_for t r s = (s', Ok x) -> s' = s /\ exists p, lookup s r = Some p.
Proof.
  unfold format_for. intros H.
  apply bind_ok_inv in H. destruct H as (s1 & p & Hg & H).
  apply get_bone_ok in Hg. destruct Hg as [-> Hp].
  apply bind_ok_inv in H. destruct H as (s1 & o & Hg & H).
  apply get_object_ok in Hg. destruct Hg as [-> Ho].
  inversion H; subst. eauto.
Qed.

Lemma not_none_ok {A} attr (o : option A) s s' a :
  not_none attr o s = (s', Ok a) -> s' = s /\ o = Some a.
Proof. destruct o; intros H; inversion H; auto. Qed.

Lemma has_agree s s' r par cs :
  has s r par cs -> lookup s' r = lookup s r -> has s' r par cs.
Proof. intros (p & Hp & H) E. exists p. rewrite E. auto. Qed.

Lemma has_written s r p par cs :
  lookup s r = Some p -> parent (bone p) = par -> constraints p = cs -> has s r par cs.
Proof. intros. exists p. auto. Qed.

(** [place_edit_bone] changes neither the parent nor the constraints. *)
Lemma place_edit_bone_effect r h t s s' u :
  place_edit_bone r h t s = (s', Ok u) ->
  (forall par cs, has s r par cs -> has s' r par cs) /\
  (forall r', r' <> r -> lookup s' r' = lookup s r') /\
  next_id s' = next_id s.
Proof.
  unfold place_edit_bone. intros H.
  apply bind_ok_inv in H. destruct H as (s1 & [] & H1 & H).
  apply bind_ok_inv in H. destruct H as (s2 & [] & H2 & H3).
  apply write_bone_effect in H1, H2, H3; auto with names.
  destruct H1 as (p1 & A1 & B1 & O1 & N1), H2 as (p2 & A2 & B2 & O2 & N2),
           H3 as (p3 & A3 & B3 & O3 & N3).
  split; [|split].
  - intros par cs (p & Hp & Hpar & Hcs).
    rewrite Hp in A1. inversion A1; subst p1.
    rewrite B1 in A2. inversion A2; subst p2.
    rewrite B2 in A3. inversion A3; subst p3.
    eexists. split; [exact B3|]. simpl. auto.
  - intros r' Hne. rewrite O3, O2, O1; auto.
  - congruence.
Qed.

Ltac pair_neq :=
  let E := fresh in intros E; inversion E; subst; auto; congruence.

Lemma build_edit_bone_spec T dest acc src s s' names :
  build_edit_bone T dest acc src s = (s', Ok names) ->
  exists p ch,
    lookup s src = Some p /\
    names = acc ++ [chain_copy ch] /\
    chain_shape (use_connect (bone p)) dest ch /\
    NoDup (chain_names ch) /\
    (forall x, In x (chain_names ch) -> lookup s (T, x) = None) /\
    agree_outside (map (pair T) (chain_names ch)) s s' /\
    chain_built s' T ch /\
    next_id s' = next_id s.
Proof.
  unfold build_edit_bone. intros H.
  apply bind_ok_inv in H. destruct H as (s0 & s0' & Hg & H).
  inversion Hg; subst s0 s0'; clear Hg.
  apply bind_ok_inv in H. destruct H as (s1 & desired & Hf & H).
  apply format_for_ok in Hf. destruct Hf as [-> [p Hp]].
  apply bind_ok_inv in H. destruct H as (s1 & n & Hn & H).
  apply edit_bones_new_ok in Hn. destruct Hn as (Fn & Ln & On & Nn).
  apply bind_ok_inv in H. destruct H as (s2 & p' & Hg & H).
  apply get_bone_ok in Hg. destruct Hg as [-> Hp'].
  assert (Hsrc : src <> (T, n)) by (intros ->; congruence).
  rewrite On, Hp in Hp' by exact Hsrc. inversion Hp'; subst p'; clear Hp'.
  apply bind_ok_inv in H. destruct H as (s2 & [] & Hpl & H).
  apply place_edit_bone_effect in Hpl. destruct Hpl as (Hn2 & O2 & N2).
  assert (Bn : has s2 (T, n) None []) by (apply Hn2; eapply has_written; eauto).
  apply bind_ok_inv in H. destruct H as (s3 & [] & Hb & H).
  inversion H; subst s3 names; clear H.
  exists p. destruct (use_connect (bone p)) eqn:Hc.
  - (* connected: an outer and an inner anchor *)
    apply bind_ok_inv in Hb. destruct Hb as (t0 & pname & Hf & Hb).
    apply format_for_ok in Hf. destruct Hf as [-> _].
    apply bind_ok_inv in Hb. destruct Hb as (t0 & cname & Hf & Hb).
    assert (t0 = s2) as ->.
    { destruct dest as [d|].
      - apply format_for_ok in Hf. tauto.
      - apply bind_ok_inv in Hf. destruct Hf as (t1 & par & Hnn & Hf).
        apply not_none_ok in Hnn. destruct Hnn as [-> _].
        apply format_for_ok in Hf. tauto. }
    clear Hf.
    apply bind_ok_inv in Hb. destruct Hb as (t1 & a & Ha & Hb).
    apply edit_bones_new_ok in Ha. destruct Ha as (Fa & La & Oa & Na).
    assert (Hna : n <> a).
    { intros ->. destruct Bn as (q & Hq & _). congruence. }
    apply bind_ok_inv in Hb. destruct Hb as (t2 & [] & Hpl & Hb).
    apply place_edit_bone_effect in Hpl. destruct Hpl as (Ha2 & Oa2 & Na2).
    assert (Ba : has t2 (T, a) None []) by (apply Ha2; eapply has_written; eauto).
    apply bind_ok_inv in Hb. destruct Hb as (t3 & c & Hcn & Hb).
    apply edit_bones_new_ok in Hcn. destruct Hcn as (Fc & Lc & Oc & Nc).
    assert (Hac : a <> c).
    { intros ->. destruct Ba as (q & Hq & _). congruence. }
    assert (Hnc : n <> c).
    { intros ->. destruct Bn as (q & Hq & _).
      rewrite Oa2, Oa in Fc by pair_neq. congruence. }
    apply bind_ok_inv in Hb. destruct Hb as (t4 & [] & Hpl & Hb).
    apply place_edit_bone_effect in Hpl. destruct Hpl as (Hc2 & Oc2 & Nc2).
    assert (Bc : has t4 (T, c) None []) by (apply Hc2; eapply has_written; eauto).
    apply bind_ok_inv in Hb. destruct Hb as (t5 & [] & W1 & Hb).
    apply bind_ok_inv in Hb. destruct Hb as (t6 & [] & W2 & W3).
    apply write_bone_effect in W1, W2, W3; auto with names.
    destruct W1 as (q1 & A1 & B1 & O1 & N1), W2 as (q2 & A2 & B2 & O2' & N2'),
             W3 as (q3 & A3 & B3 & O3 & N3).
    exists (ChainConnected n c a). simpl.
    split; [exact Hp|]. split; [reflexivity|]. split; [reflexivity|].
    split; [|split; [|split; [|split]]].
    + repeat constructor; simpl; intuition congruence.
    + intros x [<-|[<-|[<-|[]]]]; auto.
      * rewrite Oa2, Oa, O2, On in Fc by pair_neq. exact Fc.
      * rewrite O2, On in Fa by pair_neq. exact Fa.
    + intros r Hr. simpl in Hr.
      rewrite O3, O2', O1, Oc2, Oc, Oa2, Oa, O2, On by (intros ->; apply Hr; auto).
      reflexivity.
    + destruct Bn as (qn & Hqn & Pn & Cn).
      assert (Hn5 : lookup t5 (T, n) = Some qn).
      { rewrite O1, Oc2, Oc, Oa2, Oa by pair_neq. exact Hqn. }
      rewrite Hn5 in A2. inversion A2; subst q2.
      rewrite B2 in A3. inversion A3; subst q3.
      split; [eexists; split; [exact B3|]; simpl; auto|].
      destruct Bc as (qc & Hqc & Pc & Cc).
      rewrite Hqc in A1. inversion A1; subst q1.
      split.
      * eexists. split; [rewrite O3, O2' by pair_neq; exact B1|]. simpl. auto.
      * eapply has_agree; [exact Ba|].
        rewrite O3, O2', O1, Oc2, Oc by pair_neq. reflexivity.
    + congruence.
  - destruct dest as [d|].
    + (* not connected, a destination: one space anchor *)
      apply bind_ok_inv in Hb. destruct Hb as (t0 & dname & Hf & Hb).
      apply format_for_ok in Hf. destruct Hf as [-> _].
      apply bind_ok_inv in Hb. destruct Hb as (t1 & a & Ha & Hb).
      apply edit_bones_new_ok in Ha. destruct Ha as (Fa & La & Oa & Na).
      assert (Hna : n <> a).
      { intros ->. destruct Bn as (q & Hq & _). congruence. }
      apply bind_ok_inv in Hb. destruct Hb as (t2 & dp & Hg & Hb).
      apply get_bone_ok in Hg. destruct Hg as [-> _].
      apply bind_ok_inv in Hb. destruct Hb as (t2 & [] & Hpl & W1).
      apply place_edit_bone_effect in Hpl. destruct Hpl as (Ha2 & Oa2 & Na2).
      assert (Ba : has t2 (T, a) None []) by (apply Ha2; eapply has_written; eauto).
      apply write_bone_effect in W1; auto with names.
      destruct W1 as (q1 & A1 & B1 & O1 & N1).
      exists (ChainSpace n a). simpl.
      split; [exact Hp|]. split; [reflexivity|].
      split; [split; [reflexivity|discriminate]|].
      split; [|split; [|split; [|split]]].
      * repeat constructor; simpl; intuition congruence.
      * intros x [<-|[<-|[]]]; auto.
        rewrite O2, On in Fa by pair_neq. exact Fa.
      * intros r Hr. simpl in Hr.
        rewrite O1, Oa2, Oa, O2, On by (intros ->; apply Hr; auto). reflexivity.
      * destruct Bn as (qn & Hqn & Pn & Cn).
        assert (Hn5 : lookup t2 (T, n) = Some qn).
        { rewrite Oa2, Oa by pair_neq. exact Hqn. }
        rewrite Hn5 in A1. inversion A1; subst q1.
        split; [eexists; split; [exact B1|]; simpl; auto|].
        eapply has_agree; [exact Ba|]. rewrite O1 by pair_neq. reflexivity.
      * congruence.
    + (* not connected, world space: the copy is a root *)
      inversion Hb; subst s'; clear Hb.
      exists (ChainRoot n). simpl.
      split; [exact Hp|]. split; [reflexivity|]. split; [auto|].
      split; [|split; [|split; [|split]]].
      * repeat constructor; simpl; intuition.
      * intros x [<-|[]]; auto.
      * intros r Hr. simpl in Hr.
        rewrite O2, On by (intros ->; apply Hr; auto). reflexivity.
      * split; [exact Bn|exact I].
      * congruence.
Qed.

Lemma chain_built_exists s T ch x :
  chain_built s T ch -> In x (chain_names ch) -> lookup s (T, x) <> None.
Proof.
  intros [Hc Ha] Hx. destruct ch as [n|n d|n c a]; simpl in *.
  - destruct Hx as [<-|[]]. destruct Hc as (p & -> & _). discriminate.
  - destruct Hx as [<-|[<-|[]]].
    + destruct Hc as (p & -> & _). discriminate.
    + destruct Ha as (p & -> & _). discriminate.
  - destruct Ha as [Hi Ho]. destruct Hx as [<-|[<-|[<-|[]]]].
    + destruct Hc as (p & -> & _). discriminate.
    + destruct Hi as (p & -> & _). discriminate.
    + destruct Ho as (p & -> & _). discriminate.
Qed.

Lemma chain_built_agree s s' T ch :
  chain_built s T ch ->
  (forall x, In x (chain_names ch) -> lookup s' (T, x) = lookup s (T, x)) ->
  chain_built s' T ch.
Proof.
  intros [Hc Ha] E. destruct ch as [n|n d|n c a]; simpl in *.
  - split; auto. eapply has_agree; eauto.
  - split; eapply has_agree; eauto.
  - destruct Ha as [Hi Ho]. repeat split; eapply has_agree; eauto 6.
Qed.

Lemma in_map_pair (T : string) (x : string) l : In (T, x) (map (pair T) l) <-> In x l.
Proof.
  rewrite in_map_iff. split.
  - intros (y & E & Hy). inversion E. now subst.
  - intros H. exists x. auto.
Qed.

Lemma Forall2_impl_in {A B} (P Q : A -> B -> Prop) l1 l2 :
  Forall2 P l1 l2 -> (forall a b, In a l1 -> P a b -> Q a b) -> Forall2 Q l1 l2.
Proof.
  induction 1 as [|a b l1 l2 H HF IH]; intros Himp; constructor.
  - apply Himp; simpl; auto.
  - apply IH. intros x y Hx. apply Himp. simpl; auto.
Qed.

(** What the Edit Mode loop builds: one chain per source bone, out of
    bones that did not exist, all different; nothing else changes. *)
Lemma build_edit_bones_spec T dest :
  forall W acc s s' names,
    (forall src, In src W -> lookup s src <> None) ->
    for_fold W acc (build_edit_bone T dest) s = (s', Ok names) ->
    exists chains,
      names = acc ++ map chain_copy chains /\
      Forall2 (fun src ch => exists p, lookup s src = Some p /\
                 chain_shape (use_connect (bone p)) dest ch) W chains /\
      NoDup (flat_map chain_names chains) /\
      (forall x, In x (flat_map chain_names chains) -> lookup s (T, x) = None) /\
      agree_outside (map (pair T) (flat_map chain_names chains)) s s' /\
      Forall (chain_built s' T) chains /\
      next_id s' = next_id s.
Proof.
  induction W as [|src W IH]; intros acc s s' names Hold H.
  - inversion H; subst. exists []. simpl. rewrite app_nil_r.
    repeat split; auto; try constructor. intros x [].
  - simpl in H. apply bind_ok_inv in H. destruct H as (s1 & acc1 & H1 & H).
    apply build_edit_bone_spec in H1.
    destruct H1 as (p & ch & Hp & -> & Hshape & Hnd & Hfresh & Hagree & Hbuilt & Hid).
    assert (Hold1 : forall src', In src' W -> lookup s1 src' <> None).
    { intros src' Hin. rewrite Hagree; [apply Hold; simpl; auto|].
      intros Hr. apply in_map_iff in Hr. destruct Hr as (x & <- & Hx).
      apply (Hold (T, x)); [simpl; auto|]. now apply Hfresh. }
    destruct (IH _ _ _ _ Hold1 H)
      as (chains & -> & HF & Hnd' & Hfresh' & Hagree' & Hbuilt' & Hid').
    assert (Hdisj : forall x, In x (chain_names ch) ->
                              ~ In x (flat_map chain_names chains)).
    { intros x Hx Hx'. eapply chain_built_exists; eauto. }
    exists (ch :: chains). simpl.
    split; [now rewrite <- app_assoc|]. split; [|split; [|split; [|split; [|split]]]].
    + constructor; [eauto|].
      eapply Forall2_impl_in; [exact HF|]. intros a b Ha (q & Hq & Hs).
      exists q. split; auto. rewrite <- Hagree; auto.
      intros Hr. apply in_map_iff in Hr. destruct Hr as (x & <- & Hx).
      apply (Hold (T, x)); [simpl; auto|]. now apply Hfresh.
    + apply NoDup_app; auto.
    + intros x Hx. apply in_app_or in Hx. destruct Hx as [Hx|Hx]; auto.
      rewrite <- Hagree; auto.
      intros Hr. apply in_map_pair in Hr. eapply Hdisj; eauto.
    + intros r Hr. rewrite map_app in Hr.
      rewrite Hagree', Hagree; auto; intros Hin; apply Hr, in_or_app; auto.
    + constructor; auto. eapply chain_built_agree; eauto.
      intros x Hx. apply Hagree'. intros Hr. apply in_map_pair in Hr.
      eapply Hdisj; eauto.
    + congruence.
Qed.

(** ** Effects of the primitives on [has] *)

Lemma has_touches r s s' r' par cs :
  touches r s s' -> r' <> r -> has s r' par cs -> has s' r' par cs.
Proof. intros Ht Hne Hh. eapply has_agree; eauto. Qed.

Lemma write_keep_effect r f s s' u :
  write_bone r f s = (s', Ok u) ->
  keeps_name f ->
  (forall p, parent (bone (f p)) = parent (bone p)) ->
  (forall p, constraints (f p) = constraints p) ->
  touches r s s' /\
  (forall par cs, has s r par cs -> has s' r par cs) /\
  next_id s' = next_id s.
Proof.
  intros H Hn Hp Hc. apply write_bone_effect in H; auto.
  destruct H as (p & A & B & O & N). split; [exact O|]. split; auto.
  intros par cs (q & Hq & Hpar & Hcs). rewrite A in Hq. inversion Hq; subst q.
  exists (f p). rewrite Hp, Hc. auto.
Qed.

Lemma constraints_new_effect r ty s s' id :
  constraints_new r ty s = (s', Ok id) ->
  id = next_id s /\ next_id s' = S id /\
  touches r s s' /\
  (forall par cs, has s r par cs ->
                  has s' r par (cs ++ [mkConstraint id ty None "" 0 None ""])).
Proof.
  intros H. apply constraints_new_ok in H.
  destruct H as (Hid & Hn & p & A & B & O). repeat split; auto.
  intros par cs (q & Hq & Hpar & Hcs). rewrite A in Hq. inversion Hq; subst q.
  eexists. split; [exact B|]. simpl. subst cs. auto.
Qed.

Lemma write_constraint_has r id f s s' u :
  write_constraint r id f s = (s', Ok u) ->
  touches r s s' /\
  (forall par cs, has s r par cs ->
                  has s' r par (update_first (fun c => Nat.eqb (c_id c) id) f cs)) /\
  next_id s' = next_id s.
Proof.
  intros H. apply write_constraint_effect in H.
  destruct H as (p & A & B & O & N). repeat split; auto.
  intros par cs (q & Hq & Hpar & Hcs). rewrite A in Hq. inversion Hq; subst q.
  eexists. split; [exact B|]. simpl. subst cs. auto.
Qed.

Lemma constraints_remove_has r id s s' u :
  constraints_remove r id s = (s', Ok u) ->
  touches r s s' /\
  (forall par cs, has s r par cs ->
                  has s' r par (filter (fun c => negb (Nat.eqb (c_id c) id)) cs)) /\
  next_id s' = next_id s.
Proof.
  intros H. apply constraints_remove_ok in H.
  destruct H as (p & A & B & O & N). repeat split; auto.
  intros par cs (q & Hq & Hpar & Hcs). rewrite A in Hq. inversion Hq; subst q.
  eexists. split; [exact B|]. simpl. subst cs. auto.
Qed.

Lemma bones_item_ok obj n s s' r :
  bones_item obj n s = (s', Ok r) -> s' = s /\ r = (obj, n).
Proof.
  unfold bones_item. intros H.
  apply bind_ok_inv in H. destruct H as (s1 & o & Hg & H).
  apply get_object_ok in Hg. destruct Hg as [-> _].
  destruct (lookup_bone o n); inversion H; auto.
Qed.

Lemma write_object_same_bones n g s s' u :
  (forall o, obj_name (g o) = obj_name o) ->
  (forall o, bones (g o) = bones o) ->
  write_object n g s = (s', Ok u) -> same_bones s s'.
Proof.
  intros Hn Hb H. apply write_object_ok in H. destruct H as [-> _].
  split; [|reflexivity]. intros r. now apply lookup_update_object_bones.
Qed.

Lemma optional_write_object_same (c : bool) n g s s' u :
  (forall o, obj_name (g o) = obj_name o) ->
  (forall o, bones (g o) = bones o) ->
  (if c then write_object n g else ret tt) s = (s', Ok u) -> same_bones s s'.
Proof.
  intros Hn Hb H. destruct c.
  - eapply write_object_same_bones; eauto.
  - inversion H; subst. split; reflexivity.
Qed.

Lemma copy_rotation_mode_effect (c : bool) r m1 m2 aa s s' u :
  (if c then write_bone r (set_rotation_mode m1)
   else write_bone r (set_rotation_mode m2) ;;
        write_bone r (set_rotation_axis_angle aa)) s = (s', Ok u) ->
  touches r s s' /\
  (forall par cs, has s r par cs -> has s' r par cs) /\
  next_id s' = next_id s.
Proof.
  intros H. destruct c.
  - apply write_keep_effect in H; auto with names.
  - apply bind_ok_inv in H. destruct H as (s1 & [] & H1 & H2).
    apply write_keep_effect in H1, H2; auto with names.
    destruct H1 as (T1 & K1 & N1), H2 as (T2 & K2 & N2).
    split; [|split; [auto|congruence]].
    intros r' Hne. rewrite T2, T1; auto.
Qed.

Lemma mark_space_effect r s s' u :
  mark_space r s = (s', Ok u) ->
  touches r s s' /\
  (forall par cs, has s r par cs -> has s' r par cs) /\
  next_id s' = next_id s.
Proof.
  unfold mark_space. intros H.
  apply bind_ok_inv in H. destruct H as (s1 & [] & H1 & H2).
  apply write_keep_effect in H1, H2; auto with names.
  destruct H1 as (T1 & K1 & N1), H2 as (T2 & K2 & N2).
  split; [|split; [auto|congruence]].
  intros r' Hne. rewrite T2, T1; auto.
Qed.

Lemma agree_outside_refl F s : agree_outside F s s.
Proof. intros r _. reflexivity. Qed.

Lemma agree_outside_touch F s0 s s' r :
  agree_outside F s0 s -> touches r s s' -> In r F -> agree_outside F s0 s'.
Proof.
  intros Ha Ht Hin r' Hr'. rewrite Ht, Ha; auto. intros ->. contradiction.
Qed.

Lemma agree_outside_same F s0 s s' :
  agree_outside F s0 s -> same_bones s s' -> agree_outside F s0 s'.
Proof. intros Ha [Hs _] r Hr. rewrite Hs. auto. Qed.

Ltac neq_tac := first [assumption | apply not_eq_sym; assumption | pair_neq].

(** Carry what is known about the bones of state [s] over a step that
    writes one bone: [Ht] says which, [Hk] what happens to it. *)
Ltac advance s Ht Hk :=
  repeat match goal with
  | Hh : has s _ _ _ |- _ =>
      first [apply Hk in Hh | apply (has_touches _ _ _ _ _ _ Ht) in Hh; [|neq_tac]]
  | Hl : lookup s ?r' = Some _ |- _ => rewrite <- (Ht r') in Hl by neq_tac
  | Ho : agree_outside _ _ s |- _ =>
      apply (fun H => agree_outside_touch _ _ _ _ _ H Ht) in Ho; [|simpl; tauto]
  end.

Ltac advance_same s Hs :=
  repeat match goal with
  | Hh : has s ?r _ _ |- _ =>
      apply (fun H => has_agree s _ r _ _ H (proj1 Hs r)) in Hh
  | Hl : lookup s ?r' = Some _ |- _ => rewrite <- (proj1 Hs r') in Hl
  | Ho : agree_outside _ _ s |- _ =>
      apply (fun H => agree_outside_same _ _ _ _ H Hs) in Ho
  end.

(** Keep the count of constraint identities in terms of the start. *)
Ltac renumber Hn :=
  match type of Hn with
  | next_id _ = next_id ?s =>
      match goal with HN : next_id s = _ |- _ => rewrite HN in Hn; clear HN end
  | next_id _ = S (next_id ?s) =>
      match goal with HN : next_id s = _ |- _ => rewrite HN in Hn; clear HN end
  end.

(** Run a write that keeps parents and constraints. *)
Ltac run_keep H :=
  let s1 := fresh "s" in let Hw := fresh "Hw" in
  let Ht := fresh "Ht" in let Hk := fresh "Hk" in let Hn := fresh "Hn" in
  apply bind_ok_inv in H; destruct H as (s1 & [] & Hw & H);
  apply write_keep_effect in Hw; [|auto with names|intros ?; reflexivity..];
  destruct Hw as (Ht & Hk & Hn);
  match type of Ht with touches _ ?s _ => advance s Ht Hk end;
  renumber Hn; clear Ht Hk.

Ltac run_keep_last Hw :=
  let Ht := fresh "Ht" in let Hk := fresh "Hk" in let Hn := fresh "Hn" in
  apply write_keep_effect in Hw; [|auto with names|intros ?; reflexivity..];
  destruct Hw as (Ht & Hk & Hn);
  match type of Ht with touches _ ?s _ => advance s Ht Hk end;
  renumber Hn; clear Ht Hk.

Ltac run_set_last Hw :=
  let Ht := fresh "Ht" in let Hk := fresh "Hk" in let Hn := fresh "Hn" in
  apply write_constraint_has in Hw;
  destruct Hw as (Ht & Hk & Hn);
  match type of Ht with touches _ ?s _ => advance s Ht Hk end;
  renumber Hn; clear Ht Hk.

Ltac run_mark H :=
  let s1 := fresh "s" in let Hw := fresh "Hw" in
  let Ht := fresh "Ht" in let Hk := fresh "Hk" in let Hn := fresh "Hn" in
  apply bind_ok_inv in H; destruct H as (s1 & [] & Hw & H);
  apply mark_space_effect in Hw;
  destruct Hw as (Ht & Hk & Hn);
  match type of Ht with touches _ ?s _ => advance s Ht Hk end;
  renumber Hn; clear Ht Hk.

(** Run [constraints.new]; the identity handed out is named [id]. *)
Ltac run_new H id :=
  let s1 := fresh "s" in let Hw := fresh "Hw" in let Hid := fresh "Hid" in
  let Ht := fresh "Ht" in let Hk := fresh "Hk" in let Hn := fresh "Hn" in
  apply bind_ok_inv in H; destruct H as (s1 & id & Hw & H);
  apply constraints_new_effect in Hw;
  destruct Hw as (Hid & Hn & Ht & Hk);
  match type of Ht with touches _ ?s _ => advance s Ht Hk end;
  rewrite Hid in Hn;
  match type of Hid with
  | _ = next_id ?s =>
      match goal with HN : next_id s = _ |- _ => rewrite HN in Hid, Hn; clear HN end
  end;
  clear Ht Hk.

(** Run an attribute write on a constraint. *)
Ltac run_set H :=
  let s1 := fresh "s" in let Hw := fresh "Hw" in
  let Ht := fresh "Ht" in let Hk := fresh "Hk" in let Hn := fresh "Hn" in
  apply bind_ok_inv in H; destruct H as (s1 & [] & Hw & H);
  apply write_constraint_has in Hw;
  destruct Hw as (Ht & Hk & Hn);
  match type of Ht with touches _ ?s _ => advance s Ht Hk end;
  renumber Hn; clear Ht Hk.

Ltac run_get H p Hp :=
  let s1 := fresh "s" in
  apply bind_ok_inv in H; destruct H as (s1 & p & Hp & H);
  apply get_bone_ok in Hp; destruct Hp as [-> Hp].

Lemma eqb_succ n : Nat.eqb n (S n) = false.
Proof. apply Nat.eqb_neq. lia. Qed.

Lemma eqb_succ2 n : Nat.eqb n (S (S n)) = false.
Proof. apply Nat.eqb_neq. lia. Qed.

(** The part of the Pose Mode loop body that sets up the copy itself. *)
Ltac run_copy_setup H src sp Hsp cid tp Htp :=
  let z1 := fresh "z" in let z2 := fresh "z" in let z3 := fresh "z" in
  let temp := fresh "temp" in let Hb := fresh "Hb" in
  let sp' := fresh "sp" in let Hsp' := fresh "Hsp" in
  let Hrot := fresh "Hrot" in let Hact := fresh "Hact" in let Sid := fresh "Sid" in
  run_keep H; run_keep H;
  apply bind_ok_inv in H; destruct H as (z1 & temp & Hb & H);
  apply bones_item_ok in Hb; destruct Hb as [-> ->];
  run_get H sp' Hsp'; rewrite Hsp in Hsp'; inversion Hsp'; subst sp'; clear Hsp';
  apply bind_ok_inv in H; destruct H as (z2 & [] & Hrot & H);
  apply copy_rotation_mode_effect in Hrot;
  (let Ht := fresh "Ht" in let Hk := fresh "Hk" in let Hn := fresh "Hn" in
   destruct Hrot as (Ht & Hk & Hn);
   match type of Ht with touches _ ?s _ => advance s Ht Hk end;
   renumber Hn; clear Ht Hk);
  run_keep H; run_keep H;
  run_new H cid; run_set H;
  apply bind_ok_inv in H; destruct H as (z3 & [] & Hact & H);
  (apply optional_write_object_same in Hact; [|reflexivity..]);
  match type of Hact with same_bones ?z _ => advance_same z Hact end;
  destruct Hact as [_ Sid]; renumber Sid;
  run_get H tp Htp.

Lemma has_capture s r par cid src :
  has s r par
      (update_first (fun c => Nat.eqb (c_id c) cid)
         (set_target (Some (fst src)) (snd src))
         ([] ++ [mkConstraint cid COPY_TRANSFORMS None "" 0 None ""])) ->
  has s r par [copy_transforms_to cid src].
Proof. simpl. rewrite Nat.eqb_refl. auto. Qed.

Lemma setup_pose_bone_spec T dest active tpb ctr src ch s s' acc' sp :
  lookup s src = Some sp ->
  chain_shape (use_connect (bone sp)) dest ch ->
  NoDup (chain_names ch) ->
  ~ In src (map (pair T) (chain_names ch)) ->
  chain_built s T ch ->
  setup_pose_bone T dest active (tpb, ctr) (src, chain_copy ch) s = (s', Ok acc') ->
  acc' = (tpb ++ [(T, chain_copy ch)], ctr ++ [next_id s]) /\
  agree_outside (map (pair T) (chain_names ch)) s s' /\
  chain_wired s' T dest src (parent_ref src sp) ch (next_id s) /\
  (next_id s <= next_id s')%nat.
Proof.
  intros Hsp Hshape Hnd Hsrc [Hcopy Hanch] H.
  pose proof (agree_outside_refl (map (pair T) (chain_names ch)) s) as Hout.
  remember (next_id s) as N eqn:HN. symmetry in HN.
  unfold setup_pose_bone in H.
  apply bind_ok_inv in H. destruct H as (s1 & temp & Hb & H).
  apply bones_item_ok in Hb. destruct Hb as [-> ->].
  destruct ch as [n|n d|n c a]; simpl in Hshape, Hnd, Hsrc, Hcopy, Hanch, H, Hout |- *.
  - (* the copy is a root: nothing to constrain *)
    assert (Hsn : src <> (T, n)) by (intros ->; apply Hsrc; simpl; auto).
    destruct Hshape as [Hconn ->].
    run_copy_setup H src sp Hsp cid tp Htp.
    apply has_capture in Hcopy.
    pose proof Hcopy as (q & Hq & Hpar & _). rewrite Hq in Htp.
    inversion Htp; subst tp; clear Htp.
    unfold parent_ref in H at 1. rewrite Hpar in H.
    apply bind_ok_inv in H. destruct H as (z3 & [] & Hr & H).
    inversion Hr; subst z3; clear Hr. inversion H; subst s' acc'; clear H.
    subst cid. split; [reflexivity|]. split; [exact Hout|]. split; [|lia].
    split; [exact Hcopy|exact I].
  - (* the copy sits under a space anchor *)
    assert (Hsn : src <> (T, n)) by (intros ->; apply Hsrc; simpl; auto).
    assert (Hsd : src <> (T, d)) by (intros ->; apply Hsrc; simpl; auto).
    assert (Hnd' : n <> d) by (inversion Hnd; simpl in *; intuition).
    destruct Hshape as [Hconn Hdest].
    destruct dest as [dref|]; [clear Hdest|congruence].
    run_copy_setup H src sp Hsp cid tp Htp.
    apply has_capture in Hcopy.
    pose proof Hcopy as (q & Hq & Hpar & _). rewrite Hq in Htp.
    inversion Htp; subst tp; clear Htp.
    unfold parent_ref in H at 1. rewrite Hpar in H. simpl fst in H.
    clear q Hq Hpar.
    apply bind_ok_inv in H. destruct H as (z3 & [] & Hca & H).
    inversion H; subst z3 acc'; clear H.
    unfold constrain_anchor in Hca. rewrite Hconn in Hca.
    apply bind_ok_inv in Hca. destruct Hca as (z4 & td & Hr & Hca).
    inversion Hr; subst z4 td; clear Hr.
    run_mark Hca. run_new Hca id1. run_set Hca. run_new Hca id2.
    run_set_last Hca.
    subst cid id1 id2. split; [reflexivity|]. split; [exact Hout|]. split; [|lia].
    split; [exact Hcopy|]. simpl.
    exists dref, (S N), (S (S N)). split; [reflexivity|].
    revert Hanch. simpl. rewrite !Nat.eqb_refl. simpl.
    rewrite eqb_succ. simpl. rewrite Nat.eqb_refl. auto.
  - (* the copy is connected to an inner anchor under an outer one *)
    assert (Hsn : src <> (T, n)) by (intros ->; apply Hsrc; simpl; auto).
    assert (Hsc : src <> (T, c)) by (intros ->; apply Hsrc; simpl; auto).
    assert (Hsa : src <> (T, a)) by (intros ->; apply Hsrc; simpl; auto).
    assert (Hnc : n <> c) by (inversion Hnd; simpl in *; intuition).
    assert (Hna : n <> a) by (inversion Hnd; simpl in *; intuition).
    assert (Hca0 : c <> a).
    { inversion Hnd as [|? ? _ Hnd']. inversion Hnd'; simpl in *; intuition. }
    destruct Hanch as [Hinner Houter].
    run_copy_setup H src sp Hsp cid tp Htp.
    apply has_capture in Hcopy.
    pose proof Hcopy as (q & Hq & Hpar & _). rewrite Hq in Htp.
    inversion Htp; subst tp; clear Htp.
    unfold parent_ref in H at 1. rewrite Hpar in H. simpl fst in H.
    clear q Hq Hpar.
    apply bind_ok_inv in H. destruct H as (z3 & [] & Hca & H).
    inversion H; subst z3 acc'; clear H.
    unfold constrain_anchor in Hca. rewrite Hshape in Hca.
    apply bind_ok_inv in Hca. destruct Hca as (z4 & td & Hr & Hca).
    run_mark Hr. run_get Hr tdp Htdp.
    apply not_none_ok in Hr. destruct Hr as [-> Hr].
    assert (td = (T, a)) as ->.
    { destruct Hinner as (qi & Hqi & Hpi & _). rewrite Hqi in Htdp.
      inversion Htdp; subst tdp. unfold parent_ref in Hr. rewrite Hpi in Hr.
      now inversion Hr. }
    clear Hr Htdp.
    run_mark Hca. run_new Hca id1.
    apply bind_ok_inv in Hca. destruct Hca as (z5 & [] & Hloc & Hca).
    apply bind_ok_inv in Hloc. destruct Hloc as (z6 & par & Hpar & Hloc).
    apply not_none_ok in Hpar. destruct Hpar as [-> Hpar].
    run_set Hloc. run_set_last Hloc.
    revert Houter. simpl. rewrite !Nat.eqb_refl. simpl. rewrite Nat.eqb_refl.
    intros Houter.
    destruct dest as [dref|].
    + run_new Hca id2. run_set_last Hca.
      subst cid id1 id2. split; [reflexivity|]. split; [exact Hout|]. split; [|lia].
      split; [exact Hcopy|]. simpl. split; [exact Hinner|].
      exists par, (S N). eexists. split; [exact Hpar|]. split.
      * revert Houter. simpl. rewrite eqb_succ. simpl. rewrite Nat.eqb_refl.
        intros Houter. exact Houter.
      * exists (S (S N)). reflexivity.
    + inversion Hca; subst s'; clear Hca.
      subst cid id1. split; [reflexivity|]. split; [exact Hout|]. split; [|lia].
      split; [exact Hcopy|]. simpl. split; [exact Hinner|].
      exists par, (S N), []. split; [exact Hpar|]. split; [exact Houter|reflexivity].
Qed.

Lemma chain_wired_transfer s s' T dest src par ch cid :
  (forall x pr cs, In x (chain_names ch) -> has s (T, x) pr cs -> has s' (T, x) pr cs) ->
  chain_wired s T dest src par ch cid -> chain_wired s' T dest src par ch cid.
Proof.
  intros E [Hc Ha]. split.
  - apply E; auto. destruct ch; simpl; auto.
  - destruct ch as [n|n d|n c a]; simpl in *; auto.
    + destruct Ha as (dref & id1 & id2 & Hd & Hh).
      exists dref, id1, id2. split; auto.
    + destruct Ha as (Hi & par' & id1 & rot & Hp & Hh & Hr).
      split; [apply E; auto|]. exists par', id1, rot. repeat split; auto.
Qed.

Lemma chain_wired_agree s s' T dest src par ch cid :
  (forall x, In x (chain_names ch) -> lookup s' (T, x) = lookup s (T, x)) ->
  chain_wired s T dest src par ch cid -> chain_wired s' T dest src par ch cid.
Proof.
  intros E. apply chain_wired_transfer. intros x pr cs Hx Hh.
  eapply has_agree; eauto.
Qed.

Lemma not_in_flat_map_cons (T : string) (ch : Chain) chains (r : BoneRef) :
  ~ In r (map (pair T) (flat_map chain_names (ch :: chains))) ->
  ~ In r (map (pair T) (chain_names ch)) /\
  ~ In r (map (pair T) (flat_map chain_names chains)).
Proof.
  simpl. rewrite map_app. intros H. split; intros Hin; apply H, in_or_app; auto.
Qed.

Lemma NoDup_app_disjoint {A} (l1 l2 : list A) x :
  NoDup (l1 ++ l2) -> In x l1 -> ~ In x l2.
Proof.
  induction l1 as [|y l1 IH]; simpl; intros Hnd Hin; [contradiction|].
  inversion Hnd as [|? ? Hy Hnd']; subst. destruct Hin as [->|Hin]; auto.
  intros Hx. apply Hy, in_or_app. auto.
Qed.

(** What the Pose Mode loop leaves: every chain wired, with the capture
    constraints it returns, and nothing else changed. *)
Lemma setup_pose_bones_spec T dest active s0 :
  forall W chains,
    Forall2 (fun src ch => exists sp, lookup s0 src = Some sp /\
               chain_shape (use_connect (bone sp)) dest ch) W chains ->
    forall tpb ctr s s' acc',
      (forall src, In src W -> lookup s src = lookup s0 src) ->
      NoDup (flat_map chain_names chains) ->
      (forall src, In src W ->
                   ~ In src (map (pair T) (flat_map chain_names chains))) ->
      Forall (chain_built s T) chains ->
      for_fold (combine W (map chain_copy chains)) (tpb, ctr)
               (setup_pose_bone T dest active) s = (s', Ok acc') ->
      exists ids,
        acc' = (tpb ++ map (pair T) (map chain_copy chains), ctr ++ ids) /\
        agree_outside (map (pair T) (flat_map chain_names chains)) s s' /\
        Forall3 (fun src ch cid =>
                   chain_wired s' T dest src (parent_of s0 src) ch cid)
                W chains ids /\
        (next_id s <= next_id s')%nat.
Proof.
  induction 1 as [|src ch W chains (sp & Hsp & Hshape) HF IH];
    intros tpb ctr s s' acc' Hsame Hnd Hsrc Hbuilt H.
  - inversion H; subst. exists []. simpl. rewrite !app_nil_r.
    split; [reflexivity|]. split; [apply agree_outside_refl|].
    split; [constructor|lia].
  - simpl in H. apply bind_ok_inv in H. destruct H as (s1 & acc1 & H1 & H).
    inversion Hbuilt as [|? ? Hb Hbs]; subst.
    simpl in Hnd.
    assert (Hsrc_ch : ~ In src (map (pair T) (chain_names ch))).
    { apply (not_in_flat_map_cons T ch chains). apply Hsrc. simpl; auto. }
    assert (Hsp' : lookup s src = Some sp) by (rewrite Hsame; simpl; auto).
    apply (setup_pose_bone_spec T dest active tpb ctr src ch s s1 acc1 sp) in H1;
      auto; [|eapply NoDup_app_remove_r; eauto].
    destruct H1 as (-> & Hagree & Hwired & Hid).
    assert (Hdisj : forall x, In x (chain_names ch) ->
                              ~ In x (flat_map chain_names chains)).
    { intros x Hx. eapply NoDup_app_disjoint; eauto. }
    assert (Hdisj' : forall x, In x (flat_map chain_names chains) ->
                               ~ In (T, x) (map (pair T) (chain_names ch))).
    { intros x Hx Hin. apply in_map_pair in Hin. eapply Hdisj; eauto. }
    destruct (IH (tpb ++ [(T, chain_copy ch)]) (ctr ++ [next_id s]) s1 s' acc')
      as (ids & -> & Hagree' & Hwired' & Hid'); auto.
    + intros src' Hin. rewrite Hagree; [apply Hsame; simpl; auto|].
      apply (not_in_flat_map_cons T ch chains). apply Hsrc. simpl; auto.
    + eapply NoDup_app_remove_l; eauto.
    + intros src' Hin. apply (not_in_flat_map_cons T ch chains).
      apply Hsrc. simpl; auto.
    + rewrite Forall_forall in *. intros ch' Hch'.
      eapply chain_built_agree; [apply Hbs; auto|].
      intros x Hx. apply Hagree. apply Hdisj'.
      apply in_flat_map. eauto.
    + exists (next_id s :: ids). simpl. rewrite <- !app_assoc. simpl.
      split; [reflexivity|]. split; [|split; [|lia]].
      * intros r Hr. apply not_in_flat_map_cons in Hr. destruct Hr as [Hr1 Hr2].
        rewrite Hagree', Hagree; auto.
      * constructor; auto.
        unfold parent_of. rewrite Hsp.
        eapply chain_wired_agree; [|exact Hwired].
        intros x Hx. apply Hagree'. intros Hin. apply in_map_pair in Hin.
        eapply Hdisj; eauto.
Qed.

(** ** The rewiring loop *)

Lemma update_first_last {A} (p : A -> bool) (f : A -> A) (l : list A) (x : A) :
  (forall c, In c l -> p c = false) -> p x = true ->
  update_first p f (l ++ [x]) = l ++ [f x].
Proof.
  intros Hl Hx. induction l as [|y l IH]; simpl.
  - now rewrite Hx.
  - rewrite (Hl y) by (simpl; auto). f_equal. apply IH.
    intros c Hc. apply Hl. simpl; auto.
Qed.

Lemma new_constraint_set (cs : list Constraint) (cid : nat) (ty : ConstraintType)
    (f : Constraint -> Constraint) :
  (forall c, In c cs -> (c_id c < cid)%nat) ->
  update_first (fun c => Nat.eqb (c_id c) cid) f
               (cs ++ [mkConstraint cid ty None "" 0 None ""])
  = cs ++ [f (mkConstraint cid ty None "" 0 None "")].
Proof.
  intros H. apply update_first_last.
  - intros c Hc. apply Nat.eqb_neq. specialize (H c Hc). lia.
  - simpl. apply Nat.eqb_refl.
Qed.

(** One constraint is created on [r] and its target set. *)
Lemma new_targeted_constraint r ty (t : BoneRef) s s' p :
  lookup s r = Some p ->
  (forall c, In c (constraints p) -> (c_id c < next_id s)%nat) ->
  (cid <- constraints_new r ty ;;
   write_constraint r cid (set_target (Some (fst t)) (snd t))) s = (s', Ok tt) ->
  lookup s' r
  = Some (set_constraints
            (constraints p ++ [mkConstraint (next_id s) ty (Some (fst t)) (snd t) 0 None ""])
            p) /\
  (forall r', r' <> r -> lookup s' r' = lookup s r') /\
  next_id s' = S (next_id s).
Proof.
  intros Hp Hfresh H.
  apply bind_ok_inv in H. destruct H as (s1 & cid & Hn & H).
  apply constraints_new_ok in Hn.
  destruct Hn as (-> & Hid & q & Hq & Hq' & Ho).
  rewrite Hp in Hq. inversion Hq; subst q; clear Hq.
  apply write_constraint_effect in H.
  destruct H as (q & Hq & Hq2 & Ho2 & Hid2).
  rewrite Hq' in Hq. inversion Hq; subst q; clear Hq.
  simpl in Hq2. rewrite new_constraint_set in Hq2 by exact Hfresh.
  split; [exact Hq2|]. split; [|congruence].
  intros r' Hne. rewrite Ho2, Ho; auto.
Qed.

Lemma rewire_spec src copy cid s s' sp par :
  src <> copy ->
  lookup s src = Some sp ->
  (forall c, In c (constraints sp) -> (c_id c < next_id s)%nat) ->
  has s copy par [copy_transforms_to cid src] ->
  rewire (src, (copy, cid)) s = (s', Ok tt) ->
  has s' copy par [] /\
  (exists sp' id1 id2,
      lookup s' src = Some sp' /\ bone sp' = bone sp /\
      constraints sp'
      = constraints sp ++ gained (use_connect (bone sp)) copy id1 id2) /\
  (forall r, r <> src -> r <> copy -> lookup s' r = lookup s r) /\
  (next_id s <= next_id s')%nat.
Proof.
  intros Hne Hsp Hfresh Hcopy H. unfold rewire in H.
  apply bind_ok_inv in H. destruct H as (s1 & [] & Hr & H).
  apply constraints_remove_ok in Hr. destruct Hr as (cp & Hcp & Hcp1 & Ho1 & Hid1).
  destruct Hcopy as (cp' & Hcp' & Hpar & Hcs).
  rewrite Hcp in Hcp'. inversion Hcp'; subst cp'; clear Hcp'.
  rewrite Hcs in Hcp1. simpl in Hcp1. rewrite Nat.eqb_refl in Hcp1. simpl in Hcp1.
  apply bind_ok_inv in H. destruct H as (s2 & sp1 & Hg & H).
  apply get_bone_ok in Hg. destruct Hg as [-> Hsp1].
  rewrite Ho1, Hsp in Hsp1 by exact Hne. inversion Hsp1; subst sp1; clear Hsp1.
  assert (Hsrc1 : lookup s1 src = Some sp) by (rewrite Ho1; auto).
  rewrite <- Hid1 in Hfresh.
  destruct (use_connect (bone sp)) eqn:Econ; simpl in H.
  - change (ret tt ;; ?m) with m in H.
    unfold bind at 1 in H. simpl in H.
    apply (new_targeted_constraint src COPY_ROTATION copy s1 s' sp Hsrc1 Hfresh) in H.
    destruct H as (Hs' & Ho' & Hid').
    split; [|split; [|split]].
    + exists (set_constraints [] cp). split; [|auto].
      rewrite Ho' by auto. exact Hcp1.
    + eexists _, (next_id s1), (next_id s1). split; [exact Hs'|].
      split; reflexivity.
    + intros r Hr1 Hr2. rewrite Ho', Ho1; auto.
    + lia.
  - apply bind_ok_inv in H. destruct H as (s2 & [] & Hl & H).
    apply (new_targeted_constraint src COPY_LOCATION copy s1 s2 sp Hsrc1 Hfresh) in Hl.
    destruct Hl as (Hs2 & Ho2 & Hid2).
    apply (new_targeted_constraint src COPY_ROTATION copy s2 s' _ Hs2) in H.
    2:{ simpl. intros c Hc. apply in_app_or in Hc. rewrite Hid2.
        destruct Hc as [Hc|[<-|[]]]; [apply Hfresh in Hc; lia|simpl; lia]. }
    destruct H as (Hs' & Ho' & Hid').
    split; [|split; [|split]].
    + exists (set_constraints [] cp). split; [|auto].
      rewrite Ho', Ho2 by auto. exact Hcp1.
    + eexists _, (next_id s1), (next_id s2). split; [exact Hs'|].
      split; [reflexivity|]. simpl. rewrite <- app_assoc. reflexivity.
    + intros r Hr1 Hr2. rewrite Ho', Ho2, Ho1; auto.
    + lia.
Qed.

Lemma chain_copy_named ch : In (chain_copy ch) (chain_names ch).
Proof. destruct ch; simpl; auto. Qed.

Lemma copies_among_names (T : string) chains r :
  In r (map (pair T) (map chain_copy chains)) ->
  In r (map (pair T) (flat_map chain_names chains)).
Proof.
  rewrite !in_map_iff. intros (n & <- & Hn). exists n. split; auto.
  apply in_map_iff in Hn. destruct Hn as (ch & <- & Hch).
  apply in_flat_map. exists ch. split; auto. apply chain_copy_named.
Qed.

Lemma anchors_wired_agree s s' T dest par ch :
  NoDup (chain_names ch) ->
  (forall x, In x (chain_names ch) -> x <> chain_copy ch ->
             lookup s' (T, x) = lookup s (T, x)) ->
  anchors_wired s T dest par ch -> anchors_wired s' T dest par ch.
Proof.
  intros Hnd E Ha. destruct ch as [n|n d|n c a]; simpl in *; auto.
  - assert (Hd' : d <> n).
    { inversion Hnd as [|? ? Hn _]. simpl in Hn. intros ->. tauto. }
    destruct Ha as (dref & id1 & id2 & Hd & Hh).
    exists dref, id1, id2. split; auto.
    apply (has_agree s); [exact Hh|]. apply E; [tauto|exact Hd'].
  - assert (Hc' : c <> n /\ a <> n).
    { inversion Hnd as [|? ? Hn _]. simpl in Hn. split; intros ->; tauto. }
    destruct Hc' as [Hc' Ha'].
    destruct Ha as (Hi & par' & id1 & rot & Hp & Hh & Hr).
    split.
    + apply (has_agree s); [exact Hi|]. apply E; [tauto|exact Hc'].
    + exists par', id1, rot. split; [exact Hp|]. split; [|exact Hr].
      apply (has_agree s); [exact Hh|]. apply E; [tauto|exact Ha'].
Qed.

Lemma Forall3_impl_in {A B C} (P Q : A -> B -> C -> Prop) la lb lc :
  (forall a b c, In a la -> In b lb -> P a b c -> Q a b c) ->
  Forall3 P la lb lc -> Forall3 Q la lb lc.
Proof.
  intros H F. induction F; constructor.
  - apply H; simpl; auto.
  - apply IHF. intros; apply H; simpl; auto.
Qed.

Lemma Forall2_impl_in2 {A B} (P Q : A -> B -> Prop) l1 l2 :
  (forall a b, In a l1 -> In b l2 -> P a b -> Q a b) ->
  Forall2 P l1 l2 -> Forall2 Q l1 l2.
Proof.
  intros H F. induction F; constructor.
  - apply H; simpl; auto.
  - apply IHF. intros; apply H; simpl; auto.
Qed.

(** What the rewiring loop leaves: every capture constraint gone, every
    anchor as it was, and every source bone with its new constraints after
    the ones it had. *)
Lemma rewire_all_spec T dest (par : BoneRef -> option BoneRef) sb :
  forall W chains ids s s',
    Forall3 (fun src ch cid => chain_wired s T dest src (par src) ch cid)
            W chains ids ->
    NoDup W -> NoDup (flat_map chain_names chains) ->
    (forall src, In src W ->
                 ~ In src (map (pair T) (flat_map chain_names chains))) ->
    (forall src, In src W ->
       exists sp, lookup s src = Some sp /\
                  constraints sp = constraints_of sb src /\
                  use_connect (bone sp) = is_connected sb src /\
                  forall c, In c (constraints sp) -> (c_id c < next_id s)%nat) ->
    for_each (combine W (combine (map (pair T) (map chain_copy chains)) ids))
             rewire s = (s', Ok tt) ->
    Forall2 (fun src ch =>
               chain_done s' T dest (par src) ch /\
               exists id1 id2,
                 constraints_of s' src
                 = constraints_of sb src
                   ++ gained (is_connected sb src) (T, chain_copy ch) id1 id2)
            W chains /\
    (forall r, ~ In r W -> ~ In r (map (pair T) (map chain_copy chains)) ->
               lookup s' r = lookup s r) /\
    (next_id s <= next_id s')%nat.
Proof.
  intros W chains. revert W.
  induction chains as [|ch chains IH];
    intros W' ids' s s' F' HndW Hnd Hsrc Hsources H;
    inversion F' as [|src ch' cid W chs ids Hw F]; subst.
  - inversion H; subst. split; [constructor|]. split; auto.
  - simpl in H. apply bind_ok_inv in H. destruct H as (s1 & [] & H1 & H).
    inversion HndW as [|? ? HsrcW HndW']; subst.
    simpl in Hnd.
    assert (Hnd_ch : NoDup (chain_names ch)) by (eapply NoDup_app_remove_r; eauto).
    assert (Hnd' : NoDup (flat_map chain_names chains))
      by (eapply NoDup_app_remove_l; eauto).
    assert (Hdisj : forall x, In x (chain_names ch) ->
                              ~ In x (flat_map chain_names chains)).
    { intros x Hx. eapply NoDup_app_disjoint; eauto. }
    assert (Hsrc_ch : forall r, In r (src :: W) -> forall x, In x (chain_names ch) ->
                                r <> (T, x)).
    { intros r Hr x Hx ->. apply (Hsrc _ Hr). apply in_map_pair.
      simpl. apply in_or_app. auto. }
    assert (Hsrc' : forall r, In r (src :: W) ->
                              ~ In r (map (pair T) (flat_map chain_names chains))).
    { intros r Hr. apply (not_in_flat_map_cons T ch chains). auto. }
    destruct (Hsources src (or_introl eq_refl)) as (sp & Hsp & Hcs & Hcon & Hfresh).
    destruct Hw as [Hcopy Hanch].
    apply (rewire_spec src (T, chain_copy ch) cid s s1 sp (chain_parent ch)) in H1;
      auto; [|apply Hsrc_ch; [simpl; auto|apply chain_copy_named]].
    destruct H1 as (Hcopy1 & (sp' & id1 & id2 & Hsp' & Hbone & Hcs') & Ho1 & Hid1).
    assert (Hkeep1 : forall x, In x (flat_map chain_names chains) ->
                               lookup s1 (T, x) = lookup s (T, x)).
    { intros x Hx. apply Ho1.
      - intros E. apply (Hsrc' src); [simpl; auto|]. rewrite <- E. now apply in_map_pair.
      - intros E. inversion E; subst x. apply (Hdisj _ (chain_copy_named ch) Hx). }
    destruct (IH W ids s1 s') as (Hall & Ho' & Hid'); auto.
    + eapply Forall3_impl_in; [|exact F]. simpl.
      intros a b c Ha Hb Hwired. eapply chain_wired_agree; [|exact Hwired].
      intros x Hx. apply Hkeep1. apply in_flat_map. eauto.
    + intros r Hr. apply Hsrc'. simpl; auto.
    + intros r Hr.
      destruct (Hsources r (or_intror Hr)) as (rp & Hrp & Hrcs & Hrcon & Hrfresh).
      exists rp. rewrite Ho1; auto.
      * repeat split; auto. intros c Hc. specialize (Hrfresh c Hc). lia.
      * intros ->. contradiction.
      * apply Hsrc_ch; [simpl; auto|apply chain_copy_named].
    + assert (Hout : forall x, In x (chain_names ch) -> lookup s' (T, x) = lookup s1 (T, x)).
      { intros x Hx. apply Ho'.
        - intros Hin. apply (Hsrc_ch (T, x) (or_intror Hin) x Hx). reflexivity.
        - intros Hin. apply copies_among_names, in_map_pair in Hin.
          apply (Hdisj x); auto. }
      split; [|split; [|lia]].
      * constructor; [|exact Hall]. split.
        { split.
          - eapply has_agree; [exact Hcopy1|]. apply Hout, chain_copy_named.
          - apply (anchors_wired_agree s); auto.
            intros x Hx Hne. rewrite Hout by auto. apply Ho1.
            + apply not_eq_sym, Hsrc_ch; simpl; auto.
            + intros E. inversion E. contradiction. }
        { exists id1, id2. unfold constraints_of at 1.
          rewrite Ho'; [rewrite Hsp', Hcs', Hcs, Hcon; reflexivity|exact HsrcW|].
          intros Hin. apply copies_among_names in Hin.
          apply (Hsrc' src); simpl; auto. }
      * intros r Hr1 Hr2. simpl in Hr1, Hr2.
        rewrite Ho', Ho1; auto.
Qed.

(** ** Steps that keep every bone's parent, connection and constraints *)

Lemma kept_refl s : kept s s.
Proof. repeat split. Qed.

Lemma kept_trans a b c : kept a b -> kept b c -> kept a c.
Proof.
  intros (H1 & N1 & P1) (H2 & N2 & P2). split; [|split; congruence].
  intros r. rewrite H2. apply H1.
Qed.

Lemma kept_update_bone r f s :
  keeps_name f -> (forall p, keep_view (f p) = keep_view p) ->
  kept s (update_bone r f s).
Proof.
  intros Hn Hf. split; [|split; reflexivity].
  intros r'. rewrite lookup_update_bone by exact Hn.
  destruct (boneref_eqb r' r) eqn:E; auto.
  apply boneref_eqb_eq in E. subst r'.
  destruct (lookup s r); simpl; auto. now rewrite Hf.
Qed.

Lemma kept_update_object n g s :
  (forall o, obj_name (g o) = obj_name o) ->
  (forall o, bones (g o) = bones o) ->
  kept s (update_object n g s).
Proof.
  intros Hn Hb. split; [|split; reflexivity].
  intros r. now rewrite lookup_update_object_bones.
Qed.

Lemma find_object_map n (h : Object -> Object) (l : list Object) :
  (forall o, obj_name (h o) = obj_name o) ->
  find (is_object n) (map h l) = option_map h (find (is_object n) l).
Proof.
  intros Hn. induction l as [|o l IH]; simpl; auto.
  unfold is_object at 1. rewrite Hn. fold (is_object n o).
  destruct (is_object n o); auto.
Qed.

Lemma kept_map_objects (h : Object -> Object) s :
  (forall o, obj_name (h o) = obj_name o) ->
  (forall o, bones (h o) = bones o) ->
  kept s (set_objects (map h (objects s)) s).
Proof.
  intros Hn Hb. split; [|split; reflexivity].
  intros r. unfold lookup, lookup_object. simpl.
  rewrite find_object_map by exact Hn.
  destruct (find (is_object (fst r)) (objects s)); simpl; auto.
  unfold lookup_bone. now rewrite Hb.
Qed.

Lemma same_rig_kept s s' : same_rig s s' -> kept s s'.
Proof.
  intros (H & N & P). split; [|split; auto].
  intros r. specialize (H r).
  destruct (lookup s' r) as [p'|], (lookup s r) as [p|]; simpl in *;
    try discriminate; auto.
  unfold rig_view in H. unfold keep_view. congruence.
Qed.

Lemma kept_write_bone r f :
  keeps_name f -> (forall p, keep_view (f p) = keep_view p) ->
  steps kept (write_bone r f).
Proof.
  intros Hn Hf. unfold write_bone.
  steps_auto kept_refl kept_trans. now apply kept_update_bone.
Qed.

Lemma kept_write_object n g :
  (forall o, obj_name (g o) = obj_name o) ->
  (forall o, bones (g o) = bones o) ->
  steps kept (write_object n g).
Proof.
  intros Hn Hb. unfold write_object.
  steps_auto kept_refl kept_trans. now apply kept_update_object.
Qed.

Lemma kept_mode_set m : steps kept (mode_set m).
Proof.
  unfold mode_set. apply steps_modify. intros s.
  apply kept_map_objects; intros o; destruct m; simpl; auto;
    destruct (obj_select o || is_active_object s o); reflexivity.
Qed.

Lemma kept_select_set n v : steps kept (select_set n v).
Proof. apply kept_write_object; reflexivity. Qed.

Lemma find_app_none {A} (f : A -> bool) (l1 l2 : list A) :
  find f l1 = None -> find f (l1 ++ l2) = find f l2.
Proof. intros H. rewrite find_app, H. reflexivity. Qed.

(** The temporary armature is found or made; no bone changes. *)
Lemma get_space_switching_armature_object_ok s s' T :
  get_space_switching_armature_object s = (s', Ok T) ->
  T = pref_object_name (preferences s) /\ kept s s'.
Proof.
  unfold get_space_switching_armature_object.
  unfold bind at 1. unfold get at 1.
  destruct (lookup_object s (pref_object_name (preferences s))) as [o|] eqn:E.
  - intros H. inversion H; subst. split; [|apply kept_refl].
    unfold lookup_object in E. apply find_some in E. destruct E as [_ E].
    now apply String.eqb_eq in E.
  - intros H. inversion H; subst. split; [reflexivity|].
    split; [|split; reflexivity].
    intros r. unfold lookup, lookup_object. simpl.
    unfold lookup_object in E. rewrite find_app.
    destruct (find (is_object (fst r)) (objects s)) eqn:Er; auto.
    simpl. unfold is_object at 1. simpl.
    destruct (String.eqb _ (fst r)); reflexivity.
Qed.

Lemma has_kept s s' r par cs : kept s s' -> has s r par cs -> has s' r par cs.
Proof.
  intros (H & _) (p & Hp & Hpar & Hcs). specialize (H r). rewrite Hp in H.
  destruct (lookup s' r) as [p'|] eqn:E; simpl in H; [|discriminate].
  exists p'. unfold keep_view in H. split; [exact E|].
  split; congruence.
Qed.

Lemma chain_built_kept s s' T ch : kept s s' -> chain_built s T ch -> chain_built s' T ch.
Proof.
  intros K [Hc Ha]. split; [eapply has_kept; eauto|].
  destruct ch; simpl in *; auto.
  - eapply has_kept; eauto.
  - destruct Ha; split; eapply has_kept; eauto.
Qed.

Lemma chain_wired_kept s s' T dest src par ch cid :
  kept s s' -> chain_wired s T dest src par ch cid -> chain_wired s' T dest src par ch cid.
Proof.
  intros K. apply chain_wired_transfer. intros x pr cs _. now apply has_kept.
Qed.

(** What a bone with the same view still says. *)
Lemma same_view_refl s r : same_view s s r.
Proof. reflexivity. Qed.

Lemma same_view_trans a b c r : same_view a b r -> same_view b c r -> same_view a c r.
Proof. unfold same_view. congruence. Qed.

Lemma same_view_kept s s' r : kept s s' -> same_view s s' r.
Proof. intros (H & _). apply H. Qed.

Lemma same_view_lookup s s' r : lookup s' r = lookup s r -> same_view s s' r.
Proof. unfold same_view. now intros ->. Qed.

Lemma same_view_is_connected s s' r : same_view s s' r -> is_connected s' r = is_connected s r.
Proof.
  unfold same_view, is_connected. intros H.
  destruct (lookup s' r), (lookup s r); simpl in H; try discriminate; auto.
  unfold keep_view in H. congruence.
Qed.

Lemma same_view_parent_of s s' r : same_view s s' r -> parent_of s' r = parent_of s r.
Proof.
  unfold same_view, parent_of, parent_ref. intros H.
  destruct (lookup s' r) as [p'|], (lookup s r) as [p|]; simpl in H;
    try discriminate; auto.
  unfold keep_view in H. replace (parent (bone p')) with (parent (bone p)) by congruence.
  reflexivity.
Qed.

Lemma same_view_constraints_of s s' r :
  same_view s s' r -> constraints_of s' r = constraints_of s r.
Proof.
  unfold same_view, constraints_of. intros H.
  destruct (lookup s' r), (lookup s r); simpl in H; try discriminate; auto.
  unfold keep_view in H. congruence.
Qed.

Lemma same_view_some s s' r : same_view s s' r -> lookup s r <> None -> lookup s' r <> None.
Proof.
  unfold same_view. intros H Hs E. rewrite E in H.
  destruct (lookup s r); [discriminate|auto].
Qed.

Lemma kept_lookup_none s s' r : kept s s' -> lookup s' r = None -> lookup s r = None.
Proof.
  intros (H & _) E. specialize (H r). rewrite E in H.
  destruct (lookup s r); [discriminate|reflexivity].
Qed.

Lemma kept_lookup_some s s' r : kept s s' -> lookup s r <> None -> lookup s' r <> None.
Proof.
  intros (H & _) Hs E. specialize (H r). rewrite E in H.
  destruct (lookup s r); [discriminate|auto].
Qed.

Lemma remove_first_incl d l x : In x (remove_first d l) -> In x l.
Proof.
  induction l as [|y l IH]; simpl; auto.
  destruct (boneref_eqb y d); simpl; tauto.
Qed.

Lemma remove_first_NoDup d l : NoDup l -> NoDup (remove_first d l).
Proof.
  induction 1 as [|x l Hx Hnd IH]; simpl; [constructor|].
  destruct (boneref_eqb x d) eqn:E; auto.
  constructor; auto. intros Hin. apply Hx. eapply remove_first_incl; eauto.
Qed.

Lemma remove_dest_NoDup dest l : NoDup l -> NoDup (remove_dest dest l).
Proof. destruct dest; simpl; auto. apply remove_first_NoDup. Qed.

Lemma is_connected_lookup s r p : lookup s r = Some p -> is_connected s r = use_connect (bone p).
Proof. unfold is_connected. now intros ->. Qed.

Lemma Forall2_length_eq {A B} (P : A -> B -> Prop) l1 l2 :
  Forall2 P l1 l2 -> List.length l1 = List.length l2.
Proof. induction 1; simpl; auto. Qed.

Lemma kept_set_active_object a s : kept s (set_active_object a s).
Proof. repeat split. Qed.

Lemma write_bone_exact r f s s' u p :
  write_bone r f s = (s', Ok u) ->
  lookup s r = Some p ->
  keeps_name f ->
  lookup s' r = Some (f p) /\ (forall r', r' <> r -> lookup s' r' = lookup s r').
Proof.
  intros H Hp Hn. apply write_bone_effect in H; auto.
  destruct H as (q & Hq & Hq' & Ho & _). rewrite Hp in Hq. inversion Hq; subst q.
  auto.
Qed.

(** ** How the Pose Mode loop dresses a copy *)

Lemma agree_write_bone F r f :
  keeps_name f -> In r F -> steps (agree_outside F) (write_bone r f).
Proof.
  intros Hn Hin s s' res H. apply write_bone_run in H. destruct H as [->| ->].
  - apply agree_outside_refl.
  - intros r' Hr'. apply lookup_update_bone_other; auto. intros ->. contradiction.
Qed.

Lemma agree_outside_trans F a b c :
  agree_outside F a b -> agree_outside F b c -> agree_outside F a c.
Proof. intros H1 H2 r Hr. rewrite H2, H1; auto. Qed.

Lemma agree_set_next_id F n s : agree_outside F s (set_next_id n s).
Proof. intros r _. reflexivity. Qed.

Ltac agree_prim :=
  first [ apply agree_write_bone; [auto with names|simpl; auto]
        | apply agree_set_next_id ].

(** The anchor block writes the anchor it is given and, for a connected
    source, the parent of that anchor; nothing else. *)
Lemma constrain_anchor_touches dest src sp a s s' u r :
  constrain_anchor dest src sp a s = (s', Ok u) ->
  r <> a ->
  (forall q, lookup s a = Some q -> parent_ref a q <> Some r) ->
  lookup s' r = lookup s r.
Proof.
  intros H Hra Hpar. unfold constrain_anchor in H.
  apply bind_ok_inv in H. destruct H as (z & a' & H1 & H).
  assert (Hz : lookup z r = lookup s r /\ a' <> r).
  { destruct (use_connect (bone sp)).
    - apply bind_ok_inv in H1. destruct H1 as (z1 & [] & Hm & H1).
      pose proof Hm as Hm'. apply mark_space_effect in Hm'.
      destruct Hm' as (Ht & Hk & _).
      unfold mark_space in Hm. apply bind_ok_inv in Hm.
      destruct Hm as (z0 & [] & Hw & _). apply write_bone_ok in Hw.
      destruct Hw as [_ [q Hq]].
      apply bind_ok_inv in H1. destruct H1 as (z2 & tdp & Hg & H1).
      apply get_bone_ok in Hg. destruct Hg as [-> Hg].
      apply not_none_ok in H1. destruct H1 as [-> H1].
      destruct (Hk (parent (bone q)) (constraints q)) as (q' & Hq' & Hp' & _).
      { exists q. auto. }
      rewrite Hg in Hq'. inversion Hq'; subst q'.
      split; [apply Ht; auto|].
      intros ->. apply (Hpar q Hq). unfold parent_ref in *. rewrite <- Hp'. exact H1.
    - inversion H1; subst z a'. split; auto. }
  destruct Hz as [Hz Ha'].
  rewrite <- Hz.
  match type of H with
  | ?m z = _ =>
      assert (St : steps (agree_outside [a']) m)
        by (unfold mark_space, constraints_new, write_constraint;
            steps_prims (agree_outside_refl [a']) (agree_outside_trans [a'])
                        agree_prim)
  end.
  apply (St _ _ _ H). simpl. intros [E|[]]. now apply Ha'.
Qed.

Lemma setup_pose_bone_dress T dest active tpb ctr src ch s s' acc' sp :
  lookup s src = Some sp ->
  NoDup (chain_names ch) ->
  ~ In src (map (pair T) (chain_names ch)) ->
  chain_built s T ch ->
  setup_pose_bone T dest active (tpb, ctr) (src, chain_copy ch) s = (s', Ok acc') ->
  exists cp, lookup s' (T, chain_copy ch) = Some cp /\ copy_dress T sp cp.
Proof.
  intros Hsp Hnd Hsrc [Hcopy Hanch] H.
  set (n := chain_copy ch) in *. set (r := (T, n)) in *.
  assert (Hsr : src <> r).
  { intros ->. apply Hsrc. apply in_map. apply chain_copy_named. }
  destruct Hcopy as (cp0 & Hcp0 & Hpar0 & _).
  (* the anchor of the copy, if any, is another bone, and so is its parent *)
  assert (Hacyc : forall pn, chain_parent ch = Some pn ->
                    (T, pn) <> r /\
                    forall q, lookup s (T, pn) = Some q ->
                              parent_ref (T, pn) q <> Some r).
  { intros pn Hpn. unfold r, n.
    destruct ch as [m|m d|m c a]; simpl in *; inversion Hpn; subst pn.
    - inversion Hnd as [|? ? Hm _]; subst. simpl in Hm. split.
      + intros E. inversion E. subst. tauto.
      + intros q Hq. destruct Hanch as (q' & Hq' & Hp' & _).
        rewrite Hq in Hq'. inversion Hq'; subst q'.
        unfold parent_ref. rewrite Hp'. discriminate.
    - inversion Hnd as [|? ? Hm _]; subst. simpl in Hm. split.
      + intros E. inversion E. subst. tauto.
      + intros q Hq. destruct Hanch as [(q' & Hq' & Hp' & _) _].
        rewrite Hq in Hq'. inversion Hq'; subst q'.
        unfold parent_ref. rewrite Hp'. simpl. intros E. inversion E. subst. tauto. }
  unfold setup_pose_bone in H. fold n in H.
  apply bind_ok_inv in H. destruct H as (z & temp & Hb & H).
  apply bones_item_ok in Hb. destruct Hb as [-> ->]. fold r in H.
  apply bind_ok_inv in H. destruct H as (s1 & [] & W1 & H).
  eapply write_bone_exact in W1; [|exact Hcp0|auto with names].
  destruct W1 as (Hp1 & Ho1).
  apply bind_ok_inv in H. destruct H as (s2 & [] & W2 & H).
  eapply write_bone_exact in W2; [|exact Hp1|auto with names].
  destruct W2 as (Hp2 & Ho2).
  apply bind_ok_inv in H. destruct H as (z & temp & Hb & H).
  apply bones_item_ok in Hb. destruct Hb as [-> ->]. fold r in H.
  apply bind_ok_inv in H. destruct H as (z & sp2 & Hg & H).
  apply get_bone_ok in Hg. destruct Hg as [-> Hg].
  rewrite Ho2, Ho1, Hsp in Hg by exact Hsr. inversion Hg; subst sp2; clear Hg.
  apply bind_ok_inv in H. destruct H as (s3 & [] & W3 & H).
  assert (Hp3 : exists p3, lookup s3 r = Some p3 /\
                  bone p3 = bone (on_bone (set_space_switching_tag COPY)
                                    (on_bone (set_select true) cp0)) /\
                  rotation_mode p3
                  = (if use_connect (bone sp) && is_euler (rotation_mode sp)
                     then QUATERNION else rotation_mode sp) /\
                  forall r', r' <> r -> lookup s3 r' = lookup s2 r').
  { destruct (use_connect (bone sp) && is_euler (rotation_mode sp)).
    - eapply write_bone_exact in W3; [|exact Hp2|auto with names].
      destruct W3 as (Hp3 & Ho3). eexists. split; [exact Hp3|]. auto.
    - apply bind_ok_inv in W3. destruct W3 as (s3' & [] & W3 & W3').
      eapply write_bone_exact in W3; [|exact Hp2|auto with names].
      destruct W3 as (Hp3 & Ho3).
      eapply write_bone_exact in W3'; [|exact Hp3|auto with names].
      destruct W3' as (Hp3' & Ho3'). eexists. split; [exact Hp3'|].
      repeat split; auto. intros r' Hr'. rewrite Ho3', Ho3; auto. }
  clear W3. destruct Hp3 as (p3 & Hp3 & Hb3 & Hm3 & Ho3).
  apply bind_ok_inv in H. destruct H as (s4 & [] & W4 & H).
  eapply write_bone_exact in W4; [|exact Hp3|auto with names].
  destruct W4 as (Hp4 & Ho4).
  apply bind_ok_inv in H. destruct H as (s5 & [] & W5 & H).
  eapply write_bone_exact in W5; [|exact Hp4|auto with names].
  destruct W5 as (Hp5 & Ho5).
  apply bind_ok_inv in H. destruct H as (s6 & cid & W6 & H).
  apply constraints_new_ok in W6. destruct W6 as (_ & _ & p6 & Hq6 & Hp6 & Ho6).
  rewrite Hp5 in Hq6. inversion Hq6; subst p6; clear Hq6.
  apply bind_ok_inv in H. destruct H as (s7 & [] & W7 & H).
  apply write_constraint_effect in W7. destruct W7 as (p7 & Hq7 & Hp7 & Ho7 & _).
  rewrite Hp6 in Hq7. inversion Hq7; subst p7; clear Hq7.
  apply bind_ok_inv in H. destruct H as (s8 & [] & W8 & H).
  apply optional_write_object_same in W8; [|reflexivity..].
  destruct W8 as [L8 _].
  apply bind_ok_inv in H. destruct H as (z & tp & Hg & H).
  apply get_bone_ok in Hg. destruct Hg as [-> Hg].
  rewrite L8, Hp7 in Hg. inversion Hg; subst tp; clear Hg.
  apply bind_ok_inv in H. destruct H as (s9 & [] & W9 & H).
  inversion H; subst s9 acc'; clear H.
  assert (Hfinal : lookup s' r = lookup s8 r).
  { unfold parent_ref in W9. simpl in W9. rewrite Hb3 in W9. simpl in W9.
    rewrite Hpar0 in W9.
    destruct (chain_parent ch) as [pn|] eqn:Epn.
    - destruct (Hacyc pn eq_refl) as (Hne & Hq).
      simpl fst in W9.
      eapply constrain_anchor_touches; [exact W9|auto|].
      intros q Hl. apply Hq.
      rewrite L8, Ho7, Ho6, Ho5, Ho4, Ho3, Ho2, Ho1 in Hl by exact Hne. exact Hl.
    - inversion W9; subst. reflexivity. }
  eexists. split; [rewrite Hfinal, L8; exact Hp7|].
  unfold copy_dress. simpl. rewrite Hb3, Hm3. simpl. repeat split; reflexivity.
Qed.

Lemma setup_pose_bones_dress T dest active s0 :
  forall W chains,
    Forall2 (fun src ch => exists sp, lookup s0 src = Some sp /\
               chain_shape (use_connect (bone sp)) dest ch) W chains ->
    forall tpb ctr s s' acc',
      (forall src, In src W -> lookup s src = lookup s0 src) ->
      NoDup (flat_map chain_names chains) ->
      (forall src, In src W ->
                   ~ In src (map (pair T) (flat_map chain_names chains))) ->
      Forall (chain_built s T) chains ->
      for_fold (combine W (map chain_copy chains)) (tpb, ctr)
               (setup_pose_bone T dest active) s = (s', Ok acc') ->
      Forall2 (fun src ch =>
                 exists sp cp, lookup s0 src = Some sp /\
                               lookup s' (T, chain_copy ch) = Some cp /\
                               copy_dress T sp cp)
              W chains.
Proof.
  induction 1 as [|src ch W chains (sp & Hsp & Hshape) HF IH];
    intros tpb ctr s s' acc' Hsame Hnd Hsrc Hbuilt H; [constructor|].
  simpl in H. apply bind_ok_inv in H. destruct H as (s1 & acc1 & H1 & H).
  inversion Hbuilt as [|? ? Hb Hbs]; subst.
  simpl in Hnd.
  assert (Hsrc_ch : ~ In src (map (pair T) (chain_names ch))).
  { apply (not_in_flat_map_cons T ch chains). apply Hsrc. simpl; auto. }
  assert (Hsp' : lookup s src = Some sp) by (rewrite Hsame; simpl; auto).
  assert (Hnd_ch : NoDup (chain_names ch)) by (eapply NoDup_app_remove_r; eauto).
  destruct (setup_pose_bone_dress T dest active tpb ctr src ch s s1 acc1 sp)
    as (cp & Hcp & Hdress); auto.
  apply (setup_pose_bone_spec T dest active tpb ctr src ch s s1 acc1 sp) in H1; auto.
  destruct H1 as (-> & Hagree & _ & _).
  assert (Hdisj : forall x, In x (chain_names ch) ->
                            ~ In x (flat_map chain_names chains)).
  { intros x Hx. eapply NoDup_app_disjoint; eauto. }
  assert (Hdisj' : forall x, In x (flat_map chain_names chains) ->
                             ~ In (T, x) (map (pair T) (chain_names ch))).
  { intros x Hx Hin. apply in_map_pair in Hin. eapply Hdisj; eauto. }
  assert (Hsrc' : forall src', In src' W ->
                    ~ In src' (map (pair T) (flat_map chain_names chains))).
  { intros src' Hin. apply (not_in_flat_map_cons T ch chains). apply Hsrc. simpl; auto. }
  assert (Hsame' : forall src', In src' W -> lookup s1 src' = lookup s0 src').
  { intros src' Hin. rewrite Hagree; [apply Hsame; simpl; auto|].
    apply (not_in_flat_map_cons T ch chains). apply Hsrc. simpl; auto. }
  assert (Hnd' : NoDup (flat_map chain_names chains))
    by (eapply NoDup_app_remove_l; eauto).
  assert (Hbuilt' : Forall (chain_built s1 T) chains).
  { rewrite Forall_forall in *. intros ch' Hch'.
    eapply chain_built_agree; [apply Hbs; auto|].
    intros x Hx. apply Hagree. apply Hdisj'. apply in_flat_map. eauto. }
  constructor.
  - exists sp, cp. split; auto. split; auto.
    pose proof H as H'.
    apply (setup_pose_bones_spec T dest active s0 W chains HF) in H'; auto.
    destruct H' as (ids & _ & Hagree' & _).
    rewrite Hagree'; auto.
    intros Hin. apply in_map_pair in Hin.
    apply (Hdisj _ (chain_copy_named ch) Hin).
  - eapply IH; eauto.
Qed.

(** ** Bones stay as they show, and hidden *)

Lemma veiled_refl s : veiled s s.
Proof. intros r p Hp. exists p. auto. Qed.

Lemma veiled_trans a b c : veiled a b -> veiled b c -> veiled a c.
Proof.
  intros H1 H2 r p Hp. destruct (H1 r p Hp) as (p1 & Hp1 & V1 & I1).
  destruct (H2 r p1 Hp1) as (p2 & Hp2 & V2 & I2).
  exists p2. repeat split; auto. congruence.
Qed.

Lemma veiled_same_lookup s s' : (forall r, lookup s' r = lookup s r) -> veiled s s'.
Proof. intros H r p Hp. exists p. rewrite H. auto. Qed.

Lemma veiled_write_bone r f :
  keeps_name f ->
  (forall p, veil_view (f p) = veil_view p) ->
  (forall p, hide (bone p) = true -> hide (bone (f p)) = true) ->
  steps veiled (write_bone r f).
Proof.
  intros Hn Hv Hh s s' res H. apply write_bone_run in H. destruct H as [->| ->].
  - apply veiled_refl.
  - intros r' p Hp. rewrite lookup_update_bone by exact Hn.
    destruct (boneref_eqb r' r) eqn:E.
    + apply boneref_eqb_eq in E. subst r'. rewrite Hp. simpl.
      exists (f p). repeat split; auto.
    + exists p. auto.
Qed.

Lemma lookup_map_objects (h : Object -> Object) s r :
  (forall o, obj_name (h o) = obj_name o) ->
  (forall o, bones (h o) = bones o) ->
  lookup (set_objects (map h (objects s)) s) r = lookup s r.
Proof.
  intros Hn Hb. unfold lookup, lookup_object. simpl.
  rewrite find_object_map by exact Hn.
  destruct (find (is_object (fst r)) (objects s)); simpl; auto.
  unfold lookup_bone. now rewrite Hb.
Qed.

Lemma veiled_mode_set m : steps veiled (mode_set m).
Proof.
  unfold mode_set. apply steps_modify. intros s. apply veiled_same_lookup. intros r.
  apply lookup_map_objects; intros o; destruct m; simpl; auto;
    destruct (obj_select o || is_active_object s o); reflexivity.
Qed.

Lemma veiled_write_object n g :
  (forall o, obj_name (g o) = obj_name o) ->
  (forall o, bones (g o) = bones o) ->
  steps veiled (write_object n g).
Proof.
  intros Hn Hb. unfold write_object.
  steps_auto veiled_refl veiled_trans.
  apply veiled_same_lookup. intros r. now apply lookup_update_object_bones.
Qed.

Lemma veiled_of_kept_lookup s s' :
  (forall r, lookup s r <> None -> lookup s' r = lookup s r) -> veiled s s'.
Proof.
  intros H r p Hp. exists p. rewrite H; [auto|]. rewrite Hp. discriminate.
Qed.

Lemma veiled_get_space_switching_armature_object :
  steps veiled get_space_switching_armature_object.
Proof.
  intros s s' res H. apply veiled_of_kept_lookup. intros r Hr.
  revert H. unfold get_space_switching_armature_object.
  unfold bind at 1. unfold get at 1.
  destruct (lookup_object s (pref_object_name (preferences s))) as [o|] eqn:E.
  - intros H. inversion H; subst. reflexivity.
  - intros H. inversion H; subst. unfold lookup, lookup_object in *. simpl.
    rewrite find_app.
    destruct (find (is_object (fst r)) (objects s)); [reflexivity|].
    exfalso. apply Hr. reflexivity.
Qed.

Ltac veiled_prim :=
  first
    [ apply veiled_mode_set
    | apply veiled_get_space_switching_armature_object
    | apply veiled_write_object; reflexivity
    | apply veiled_write_bone;
      [auto with names | intros ?; reflexivity | intros ? ?; simpl; auto]
    | apply veiled_same_lookup; intros ?; reflexivity ].

Lemma same_dress_refl s : same_dress s s.
Proof. intros r. reflexivity. Qed.

Lemma same_dress_trans a b c : same_dress a b -> same_dress b c -> same_dress a c.
Proof. intros H1 H2 r. now rewrite H2. Qed.

Lemma same_dress_write_bone r f :
  keeps_name f -> (forall p, dress_view (f p) = dress_view p) ->
  steps same_dress (write_bone r f).
Proof.
  intros Hn Hv s s' res H. apply write_bone_run in H. destruct H as [->| ->].
  - apply same_dress_refl.
  - intros r'. rewrite lookup_update_bone by exact Hn.
    destruct (boneref_eqb r' r) eqn:E; auto.
    apply boneref_eqb_eq in E. subst r'.
    destruct (lookup s r); simpl; auto. now rewrite Hv.
Qed.

Lemma same_dress_same_rig s s' : same_rig s s' -> same_dress s s'.
Proof.
  intros (H & _) r. specialize (H r).
  destruct (lookup s' r) as [p'|], (lookup s r) as [p|]; simpl in *;
    try discriminate; auto.
  unfold rig_view in H. unfold dress_view. congruence.
Qed.

Lemma same_dress_set_next_id n s : same_dress s (set_next_id n s).
Proof. intros r. reflexivity. Qed.

Ltac same_dress_prim :=
  first
    [ apply same_dress_write_bone; [auto with names | intros ?; reflexivity]
    | apply same_dress_set_next_id ].

Lemma same_dress_rewire x : steps same_dress (rewire x).
Proof.
  unfold rewire. destruct x as [src [temp c]].
  unfold constraints_remove, constraints_new, write_constraint.
  steps_prims same_dress_refl same_dress_trans same_dress_prim.
Qed.

Lemma veiled_select_set n v : steps veiled (select_set n v).
Proof. apply veiled_write_object; reflexivity. Qed.

Lemma copy_dress_views T sp sp' cp cp' :
  veil_view sp' = veil_view sp -> dress_view cp' = dress_view cp ->
  copy_dress T sp cp -> copy_dress T sp' cp'.
Proof.
  unfold veil_view, dress_view, copy_dress.
  intros Hs Hc. inversion Hs as [[H1 H2 H3 H4]]. inversion Hc as [[H5 H6 H7]].
  rewrite H1, H2, H3, H4, H5, H6, H7. auto.
Qed.

(** ** Which temporary bones are connected *)

Lemma same_joints_refl s : same_joints s s.
Proof. intros r. reflexivity. Qed.

Lemma same_joints_trans a b c : same_joints a b -> same_joints b c -> same_joints a c.
Proof. intros H1 H2 r. now rewrite H2. Qed.

Lemma same_joints_kept s s' : kept s s' -> same_joints s s'.
Proof.
  intros (H & _) r. specialize (H r). unfold connected_flag.
  destruct (lookup s' r) as [p'|], (lookup s r) as [p|]; simpl in *;
    try discriminate; auto.
  unfold keep_view in H. inversion H. reflexivity.
Qed.

Lemma same_joints_write_bone r f :
  keeps_name f -> (forall p, use_connect (bone (f p)) = use_connect (bone p)) ->
  steps same_joints (write_bone r f).
Proof.
  intros Hn Hv s s' res H. apply write_bone_run in H. destruct H as [->| ->].
  - apply same_joints_refl.
  - intros r'. unfold connected_flag. rewrite lookup_update_bone by exact Hn.
    destruct (boneref_eqb r' r) eqn:E; auto.
    apply boneref_eqb_eq in E. subst r'.
    destruct (lookup s r); simpl; auto. now rewrite Hv.
Qed.

Lemma same_joints_lookup s s' : (forall r, lookup s' r = lookup s r) -> same_joints s s'.
Proof. intros H r. unfold connected_flag. now rewrite H. Qed.

Lemma same_joints_write_object n g :
  (forall o, obj_name (g o) = obj_name o) ->
  (forall o, bones (g o) = bones o) ->
  steps same_joints (write_object n g).
Proof.
  intros Hn Hb. unfold write_object.
  steps_auto same_joints_refl same_joints_trans.
  apply same_joints_lookup. intros r. now apply lookup_update_object_bones.
Qed.

Ltac same_joints_prim :=
  first
    [ apply same_joints_write_bone; [auto with names | intros ?; reflexivity]
    | apply same_joints_write_object; reflexivity
    | apply same_joints_lookup; intros ?; reflexivity ].

Lemma same_joints_place_edit_bone r h t : steps same_joints (place_edit_bone r h t).
Proof.
  unfold place_edit_bone.
  steps_prims same_joints_refl same_joints_trans same_joints_prim.
Qed.

Lemma same_joints_setup_pose_bone T dest active acc st :
  steps same_joints (setup_pose_bone T dest active acc st).
Proof.
  unfold setup_pose_bone, constrain_anchor. destruct acc, st.
  steps_prims same_joints_refl same_joints_trans same_joints_prim.
Qed.

Lemma same_joints_rewire x : steps same_joints (rewire x).
Proof.
  unfold rewire. destruct x as [src [temp c]].
  steps_prims same_joints_refl same_joints_trans same_joints_prim.
Qed.

(** The copy the Edit Mode loop makes for a source bone is connected
    exactly when the source bone is. *)
Lemma build_edit_bone_joint T dest acc src s s' names :
  build_edit_bone T dest acc src s = (s', Ok names) ->
  exists p n,
    lookup s src = Some p /\ names = acc ++ [n] /\
    connected_flag s' (T, n) = Some (use_connect (bone p)).
Proof.
  unfold build_edit_bone. intros H.
  apply bind_ok_inv in H. destruct H as (s0 & s0' & Hg & H).
  inversion Hg; subst s0 s0'; clear Hg.
  apply bind_ok_inv in H. destruct H as (s1 & desired & Hf & H).
  apply format_for_ok in Hf. destruct Hf as [-> [p Hp]].
  apply bind_ok_inv in H. destruct H as (s1 & n & Hn & H).
  apply edit_bones_new_ok in Hn. destruct Hn as (Fn & Ln & On & Nn).
  apply bind_ok_inv in H. destruct H as (s2 & p' & Hg & H).
  apply get_bone_ok in Hg. destruct Hg as [-> Hp'].
  assert (Hsrc : src <> (T, n)) by (intros ->; congruence).
  rewrite On, Hp in Hp' by exact Hsrc. inversion Hp'; subst p'; clear Hp'.
  apply bind_ok_inv in H. destruct H as (s2 & [] & Hpl & H).
  apply same_joints_place_edit_bone in Hpl.
  assert (Jn : connected_flag s2 (T, n) = Some false).
  { rewrite Hpl. unfold connected_flag. rewrite Ln. reflexivity. }
  apply bind_ok_inv in H. destruct H as (s3 & [] & Hb & H).
  inversion H; subst s3 names; clear H.
  exists p, n. split; [exact Hp|]. split; [reflexivity|].
  destruct (use_connect (bone p)) eqn:Hc.
  - (* connected: the last write connects the copy *)
    apply bind_ok_inv in Hb. destruct Hb as (t0 & pname & _ & Hb).
    apply bind_ok_inv in Hb. destruct Hb as (t1 & cname & _ & Hb).
    apply bind_ok_inv in Hb. destruct Hb as (t2 & a & _ & Hb).
    apply bind_ok_inv in Hb. destruct Hb as (t3 & [] & _ & Hb).
    apply bind_ok_inv in Hb. destruct Hb as (t4 & c & _ & Hb).
    apply bind_ok_inv in Hb. destruct Hb as (t5 & [] & _ & Hb).
    apply bind_ok_inv in Hb. destruct Hb as (t6 & [] & _ & Hb).
    apply bind_ok_inv in Hb. destruct Hb as (t7 & [] & _ & W).
    apply write_bone_effect in W; [|auto with names].
    destruct W as (q & _ & Hq & _). unfold connected_flag. rewrite Hq. reflexivity.
  - destruct dest as [d|].
    + (* not connected, a destination: the anchor is another bone *)
      apply bind_ok_inv in Hb. destruct Hb as (t0 & dname & Hf & Hb).
      apply format_for_ok in Hf. destruct Hf as [-> _].
      apply bind_ok_inv in Hb. destruct Hb as (t1 & a & Ha & Hb).
      apply edit_bones_new_ok in Ha. destruct Ha as (Fa & La & Oa & Na).
      assert (Hna : (T, n) <> (T, a)).
      { intros E. rewrite E in Jn. unfold connected_flag in Jn.
        rewrite Fa in Jn. discriminate. }
      apply bind_ok_inv in Hb. destruct Hb as (t2 & dp & Hg & Hb).
      apply get_bone_ok in Hg. destruct Hg as [-> _].
      apply bind_ok_inv in Hb. destruct Hb as (t2 & [] & Hpl2 & W).
      apply same_joints_place_edit_bone in Hpl2.
      apply same_joints_write_bone in W; [|auto with names|intros ?; reflexivity].
      rewrite W, Hpl2. unfold connected_flag. rewrite Oa by exact Hna. exact Jn.
    + inversion Hb; subst s'. exact Jn.
Qed.

Lemma build_edit_bones_joints T dest :
  forall W acc s s' names,
    (forall src, In src W -> lookup s src <> None) ->
    for_fold W acc (build_edit_bone T dest) s = (s', Ok names) ->
    exists ns,
      names = acc ++ ns /\
      Forall2 (fun src n => connected_flag s' (T, n) = Some (is_connected s src)) W ns.
Proof.
  induction W as [|src W IH]; intros acc s s' names Hold H.
  - inversion H; subst. exists []. rewrite app_nil_r. split; [reflexivity|constructor].
  - simpl in H. apply bind_ok_inv in H. destruct H as (s1 & acc1 & H1 & H).
    destruct (build_edit_bone_joint _ _ _ _ _ _ _ H1) as (p & n & Hp & -> & Jn).
    apply build_edit_bone_spec in H1.
    destruct H1 as (p' & ch & _ & _ & _ & _ & Hfresh & Hagree & _ & _).
    assert (Hsame : forall r, lookup s r <> None -> lookup s1 r = lookup s r).
    { intros r Hr. apply Hagree. intros Hin. apply in_map_iff in Hin.
      destruct Hin as (x & <- & Hx). apply Hr. now apply Hfresh. }
    assert (Hold1 : forall src', In src' W -> lookup s1 src' <> None).
    { intros src' Hin. rewrite Hsame; apply Hold; simpl; auto. }
    destruct (IH _ _ _ _ Hold1 H) as (ns & -> & HF).
    destruct (build_edit_bones_spec T dest W _ _ _ _ Hold1 H)
      as (chains & _ & _ & _ & Hfresh' & Hagree' & _ & _).
    exists (n :: ns). split; [now rewrite <- app_assoc|].
    constructor.
    + unfold is_connected. rewrite Hp, <- Jn. unfold connected_flag.
      rewrite Hagree'; [reflexivity|].
      intros Hin. apply in_map_iff in Hin. destruct Hin as (x & E & Hx).
      inversion E; subst x. apply Hfresh' in Hx.
      unfold connected_flag in Jn. rewrite Hx in Jn. discriminate.
    + eapply Forall2_impl_in; [exact HF|]. simpl.
      intros a b Ha ->. unfold is_connected.
      rewrite Hsame; [reflexivity|]. apply Hold. simpl; auto.
Qed.

Lemma Forall2_map_r {A B C} (P : A -> C -> Prop) (f : B -> C) l1 l2 :
  Forall2 P l1 (map f l2) -> Forall2 (fun a b => P a (f b)) l1 l2.
Proof.
  revert l1. induction l2 as [|b l2 IH]; intros l1 H; inversion H; subst;
    constructor; auto.
Qed.

Section SpaceSwitch.

Variable visual_local : Blender -> BoneRef -> Matrix.

Lemma bake_all_channels_kept frames pose_bones :
  steps kept (bake_all_channels visual_local frames pose_bones).
Proof.
  unfold bake_all_channels. destruct frames.
  - intros s s' r H. apply same_rig_kept.
    apply (custom_bake_bake_step visual_local _ _ _ _ _ _ _ _ H).
  - apply steps_raise, kept_refl.
Qed.

Lemma bake_all_channels_same_dress frames pose_bones :
  steps same_dress (bake_all_channels visual_local frames pose_bones).
Proof.
  unfold bake_all_channels. destruct frames.
  - intros s s' r H. apply same_dress_same_rig.
    apply (custom_bake_bake_step visual_local _ _ _ _ _ _ _ _ H).
  - apply steps_raise, same_dress_refl.
Qed.

(** The whole of [_space_switch], for the source bones it works on. *)
Lemma space_switch_effect src dest frames s s' :
  NoDup (remove_dest dest src) ->
  fresh_ids s (remove_dest dest src) ->
  _space_switch visual_local src dest frames s = (s', Ok tt) ->
  exists chains,
    Forall2 (switched s s' (pref_object_name (preferences s)) dest)
            (remove_dest dest src) chains /\
    NoDup (flat_map chain_names chains) /\
    (forall r, ~ In r (remove_dest dest src) ->
               ~ In r (map (pair (pref_object_name (preferences s)))
                           (flat_map chain_names chains)) ->
               same_view s s' r) /\
    Forall2 (dressed s s' (pref_object_name (preferences s)))
            (remove_dest dest src) chains /\
    Forall2 (fun x ch =>
               is_connected s' (pref_object_name (preferences s), chain_copy ch)
               = is_connected s x)
            (remove_dest dest src) chains.
Proof.
  intros HndW Hfresh H. unfold _space_switch in H.
  unfold bind at 1 in H. unfold get at 1 in H.
  set (W := remove_dest dest src) in *.
  destruct (List.length W <? 1)%nat eqn:Elen.
  { exists []. apply Nat.ltb_lt in Elen. destruct W; [|simpl in Elen; lia].
    inversion H; subst. split; [constructor|]. split; [constructor|].
    split; [|split; constructor]. intros r _ _. apply same_view_refl. }
  apply bind_ok_inv in H. destruct H as (s1 & [] & H1 & H).
  assert (K1 : kept s s1).
  { revert H1. apply steps_for_each; [exact kept_refl|exact kept_trans|].
    intros x _. apply kept_write_bone; [auto with names|reflexivity]. }
  assert (L1 : veiled s s1).
  { revert H1. apply steps_for_each; [exact veiled_refl|exact veiled_trans|].
    intros x _. veiled_prim. }
  apply bind_ok_inv in H. destruct H as (s2 & [] & H2 & H).
  assert (Hveil : forall x, steps veiled (write_bone x (on_bone (set_hide true))))
    by (intros x; veiled_prim).
  assert (L2 : veiled s1 s2).
  { revert H2. apply steps_for_each; [exact veiled_refl|exact veiled_trans|].
    intros x _. apply Hveil. }
  assert (Hhidden : forall x, In x W ->
                      exists p, lookup s2 x = Some p /\ hide (bone p) = true).
  { intros x Hx.
    destruct (for_each_ran veiled veiled_refl veiled_trans _ _ Hveil _ _ x H2 Hx)
      as (sa & sb & _ & Hw & Lb).
    pose proof Hw as Hw'. apply write_bone_ok in Hw'. destruct Hw' as [_ [p Hp]].
    eapply write_bone_exact in Hw; [|exact Hp|auto with names].
    destruct Hw as [Hpb _].
    destruct (Lb x _ Hpb) as (p2 & Hp2 & _ & Hh). exists p2. split; auto. }
  clear Hveil.
  assert (Hhide : forall x, steps kept (write_bone x (on_bone (set_hide true)))).
  { intros x. apply kept_write_bone; [auto with names|reflexivity]. }
  assert (K2 : kept s1 s2).
  { revert H2. apply steps_for_each; [exact kept_refl|exact kept_trans|].
    intros x _. apply Hhide. }
  assert (Hexists : forall x, In x W -> lookup s x <> None).
  { intros x Hx.
    destruct (for_each_ran kept kept_refl kept_trans _ _ Hhide _ _ x H2 Hx)
      as (sa & sb & Ka & Hw & _).
    apply write_bone_ok in Hw. destruct Hw as [_ [p Hp]].
    intros E. pose proof (kept_trans _ _ _ K1 Ka) as K.
    pose proof (same_view_kept _ _ x K) as V. unfold same_view in V.
    rewrite E, Hp in V. discriminate. }
  clear H1 H2 Hhide.
  pose proof (kept_trans _ _ _ K1 K2) as K; clear K1 K2.
  apply bind_ok_inv in H. destruct H as (s3 & [] & H3 & H).
  pose proof (veiled_mode_set _ _ _ _ H3) as L3.
  apply kept_mode_set in H3. pose proof (kept_trans _ _ _ K H3) as K3; clear K H3.
  apply bind_ok_inv in H. destruct H as (s4 & [] & H4 & H).
  assert (L4 : veiled s3 s4).
  { revert H4. apply steps_for_each; [exact veiled_refl|exact veiled_trans|].
    intros x _. veiled_prim. }
  assert (K4 : kept s3 s4).
  { revert H4. apply steps_for_each; [exact kept_refl|exact kept_trans|].
    intros x _. apply kept_select_set. }
  pose proof (kept_trans _ _ _ K3 K4) as K; clear K3 K4 H4.
  apply bind_ok_inv in H. destruct H as (s5 & T & H5 & H).
  pose proof (veiled_get_space_switching_armature_object _ _ _ H5) as L5.
  apply get_space_switching_armature_object_ok in H5. destruct H5 as [HT K5].
  assert (HT' : T = pref_object_name (preferences s)).
  { rewrite HT. f_equal. apply K. }
  clear HT. pose proof (kept_trans _ _ _ K K5) as K'; clear K K5.
  apply bind_ok_inv in H. destruct H as (s6 & [] & H6 & H).
  pose proof (veiled_select_set _ _ _ _ _ H6) as L6.
  apply kept_select_set in H6. pose proof (kept_trans _ _ _ K' H6) as K; clear K' H6.
  apply bind_ok_inv in H. destruct H as (s7 & [] & H7 & H).
  inversion H7; subst s7; clear H7.
  pose proof (kept_trans _ _ _ K (kept_set_active_object (Some T) s6)) as K7; clear K.
  apply bind_ok_inv in H. destruct H as (s8 & [] & H8 & H).
  pose proof (veiled_mode_set _ _ _ _ H8) as L8.
  apply kept_mode_set in H8. pose proof (kept_trans _ _ _ K7 H8) as K8; clear K7 H8.
  assert (L28 : veiled s2 s8).
  { apply (veiled_trans _ _ _ L3). apply (veiled_trans _ _ _ L4).
    apply (veiled_trans _ _ _ L5). apply (veiled_trans _ _ _ L6).
    eapply veiled_trans; [|exact L8]. apply veiled_same_lookup. reflexivity. }
  clear L3 L4 L5 L6 L8.
  (* Edit Mode *)
  apply bind_ok_inv in H. destruct H as (s9 & names & H9 & H).
  unfold build_edit_bones in H9.
  assert (Hexists8 : forall x, In x W -> lookup s8 x <> None).
  { intros x Hx. apply (same_view_some s s8 x (same_view_kept _ _ x K8)); auto. }
  destruct (build_edit_bones_joints T dest W [] s8 s9 names Hexists8 H9)
    as (ns & Hns & J9).
  simpl in Hns. subst ns. clear Hexists8.
  apply build_edit_bones_spec in H9;
    [|intros x Hx; apply (same_view_some s s8 x (same_view_kept _ _ x K8)); auto].
  destruct H9 as (chains & Hnames & Hshape & Hnd & Hnew & Hagree9 & Hbuilt & Hid9).
  simpl in Hnames. subst names.
  assert (Hout : forall x, In x W ->
                           ~ In x (map (pair T) (flat_map chain_names chains))).
  { intros x Hx Hin. apply in_map_iff in Hin. destruct Hin as (n & <- & Hn).
    apply (same_view_some s s8 _ (same_view_kept _ _ _ K8) (Hexists _ Hx)).
    auto. }
  (* back to Pose Mode *)
  apply bind_ok_inv in H. destruct H as (s10 & [] & H10 & H).
  pose proof (veiled_mode_set _ _ _ _ H10) as L10.
  apply kept_mode_set in H10.
  apply bind_ok_inv in H. destruct H as (s11 & [] & H11 & H).
  assert (L11 : veiled s10 s11).
  { revert H11. apply steps_for_each; [exact veiled_refl|exact veiled_trans|].
    intros x _. apply steps_bind; [exact veiled_trans|veiled_prim|].
    intros _. veiled_prim. }
  assert (K11 : kept s10 s11).
  { revert H11. apply steps_for_each; [exact kept_refl|exact kept_trans|].
    intros x _. apply steps_bind; [exact kept_trans|apply kept_select_set|].
    intros _. apply kept_write_object; reflexivity. }
  apply bind_ok_inv in H. destruct H as (s12 & [] & H12 & H).
  pose proof (veiled_trans _ _ _ L10
                (veiled_trans _ _ _ L11 (veiled_mode_set _ _ _ _ H12))) as L912.
  clear L10 L11.
  apply kept_mode_set in H12.
  pose proof (kept_trans _ _ _ H10 (kept_trans _ _ _ K11 H12)) as K12.
  clear H10 H11 K11 H12 s10 s11.
  pose proof (Forall2_length_eq _ _ _ Hshape) as Hlen.
  rewrite length_map, Hlen, Nat.eqb_refl in H. simpl in H.
  (* the view of a source bone, up to the Pose Mode loop *)
  assert (V12 : forall x, In x W -> same_view s s12 x).
  { intros x Hx.
    eapply same_view_trans; [apply same_view_kept, K8|].
    eapply same_view_trans; [apply same_view_lookup, Hagree9, Hout, Hx|].
    apply same_view_kept, K12. }
  apply bind_ok_inv in H. destruct H as (s13 & [tpb ctr] & H13 & H).
  unfold setup_pose_bones in H13.
  assert (Hshape12 : Forall2 (fun x ch => exists sp, lookup s12 x = Some sp /\
                        chain_shape (use_connect (bone sp)) dest ch) W chains).
  { eapply Forall2_impl_in2; [|exact Hshape]. simpl.
    intros x ch Hx _ (p & Hp & Hsh).
    pose proof (V12 x Hx) as V. pose proof (Hexists x Hx) as Hex.
    apply (same_view_some _ _ _ V) in Hex.
    destruct (lookup s12 x) as [p12|] eqn:E12; [|congruence].
    exists p12. split; [reflexivity|].
    rewrite <- (is_connected_lookup s12 x p12 E12).
    rewrite (same_view_is_connected _ _ _ V).
    rewrite <- (same_view_is_connected s s8 x) by apply same_view_kept, K8.
    rewrite (is_connected_lookup s8 x p Hp). exact Hsh. }
  assert (Hbuilt12 : Forall (chain_built s12 T) chains).
  { rewrite Forall_forall in *. intros ch Hch.
    eapply chain_built_kept; [exact K12|]. auto. }
  pose proof (setup_pose_bones_dress T dest _ s12 W chains Hshape12 _ _ _ _ _
                (fun _ _ => eq_refl) Hnd Hout Hbuilt12 H13) as Hdress13.
  assert (J13 : same_joints s12 s13).
  { revert H13. apply steps_for_fold; [exact same_joints_refl|exact same_joints_trans|].
    intros acc x _. apply same_joints_setup_pose_bone. }
  apply (setup_pose_bones_spec T dest _ s12 W chains) in H13; auto.
  destruct H13 as (ids & Hacc & Hagree13 & Hwired & Hid13).
  simpl in Hacc. inversion Hacc; subst tpb ctr; clear Hacc.
  (* the bake *)
  apply bind_ok_inv in H. destruct H as (s14 & [] & H14 & H).
  pose proof (bake_all_channels_same_dress _ _ _ _ _ H14) as D14.
  apply bake_all_channels_kept in H14.
  assert (Hlen3 : List.length ids = List.length W).
  { clear - Hwired. induction Hwired; simpl; auto. }
  rewrite !length_map, Hlen3, Hlen, !Nat.eqb_refl in H. simpl in H.
  assert (V14 : forall x, In x W -> same_view s s14 x).
  { intros x Hx.
    eapply same_view_trans; [apply V12, Hx|].
    eapply same_view_trans; [apply same_view_lookup, Hagree13, Hout, Hx|].
    apply same_view_kept, H14. }
  assert (Hids : (next_id s <= next_id s14)%nat).
  { destruct K8 as (_ & N8 & _), K12 as (_ & N12 & _), H14 as (_ & N14 & _). lia. }
  assert (J15 : same_joints s14 s').
  { revert H. apply steps_for_each; [exact same_joints_refl|exact same_joints_trans|].
    intros x _. apply same_joints_rewire. }
  assert (D15 : same_dress s14 s').
  { revert H. apply steps_for_each; [exact same_dress_refl|exact same_dress_trans|].
    intros x _. apply same_dress_rewire. }
  apply (rewire_all_spec T dest (parent_of s12) s14) in H; auto.
  2:{ eapply Forall3_impl_in; [|exact Hwired]. simpl.
      intros a b c _ _. apply chain_wired_kept, H14. }
  2:{ intros x Hx. pose proof (V14 x Hx) as V. pose proof (Hexists x Hx) as Hex.
      apply (same_view_some _ _ _ V) in Hex.
      destruct (lookup s14 x) as [p14|] eqn:E14; [|congruence].
      exists p14. split; [reflexivity|].
      unfold constraints_of, is_connected. rewrite E14.
      split; [reflexivity|]. split; [reflexivity|].
      intros c Hc. apply (Nat.lt_le_trans _ (next_id s)); [|exact Hids].
      apply (Hfresh x c Hx). rewrite <- (same_view_constraints_of _ _ _ V).
      unfold constraints_of. now rewrite E14. }
  destruct H as (Hall & Hrest & _).
  assert (Hframe : forall r, ~ In r W ->
                             ~ In r (map (pair T) (flat_map chain_names chains)) ->
                             same_view s s' r).
  { intros r HrW Hr.
    eapply same_view_trans; [apply same_view_kept, K8|].
    eapply same_view_trans; [apply same_view_lookup, Hagree9, Hr|].
    eapply same_view_trans; [apply same_view_kept, K12|].
    eapply same_view_trans; [apply same_view_lookup, Hagree13, Hr|].
    eapply same_view_trans; [apply same_view_kept, H14|].
    apply same_view_lookup, Hrest; auto.
    intros Hin. apply Hr. now apply copies_among_names. }
  assert (Hdressed : Forall2 (dressed s s' T) W chains).
  { eapply Forall2_impl_in2; [|exact Hdress13]. simpl.
    intros x ch Hx _ (sp12 & cp & Hsp12 & Hcp & Hcd).
    pose proof (Hexists x Hx) as Hex.
    destruct (lookup s x) as [sp|] eqn:Esp; [clear Hex|congruence].
    destruct (L1 x sp Esp) as (p1 & Hp1 & W1 & _).
    destruct (Hhidden x Hx) as (p2 & Hp2 & Hh2).
    destruct (L2 x p1 Hp1) as (p2' & Hp2' & W2 & _).
    rewrite Hp2 in Hp2'. inversion Hp2'; subst p2'; clear Hp2'.
    destruct (L28 x p2 Hp2) as (p8 & Hp8 & W8 & Hh8).
    assert (Hp9 : lookup s9 x = Some p8) by (rewrite Hagree9; auto).
    destruct (L912 x p8 Hp9) as (p12 & Hp12 & W12 & Hh12).
    rewrite Hsp12 in Hp12. inversion Hp12; subst p12; clear Hp12.
    assert (Hp13 : lookup s13 x = Some sp12) by (rewrite Hagree13; auto).
    pose proof (same_dress_trans _ _ _ D14 D15) as D.
    pose proof (D x) as Dx. rewrite Hp13 in Dx.
    pose proof (D (T, chain_copy ch)) as Dc. rewrite Hcp in Dc.
    destruct (lookup s' x) as [sp'|] eqn:Esp'; [|discriminate].
    destruct (lookup s' (T, chain_copy ch)) as [cp'|] eqn:Ecp'; [|discriminate].
    simpl in Dx, Dc. inversion Dx as [[Dx1 Dx2 Dx3]].
    exists sp, sp', cp'. split; [exact Esp|]. split; [exact Esp'|].
    split; [rewrite Dx1; auto|]. split; [exact Ecp'|].
    apply (copy_dress_views T sp12 sp cp cp'); [congruence|congruence|exact Hcd]. }
  assert (Hjoined : Forall2 (fun x ch => is_connected s' (T, chain_copy ch)
                                        = is_connected s x) W chains).
  { apply Forall2_map_r in J9.
    eapply Forall2_impl_in; [exact J9|]. simpl. intros x ch Hx J.
    pose proof (same_joints_trans _ _ _ (same_joints_kept _ _ K12)
                  (same_joints_trans _ _ _ J13
                     (same_joints_trans _ _ _ (same_joints_kept _ _ H14) J15))) as Js.
    rewrite <- Js in J. unfold connected_flag in J. unfold is_connected at 1.
    destruct (lookup s' (T, chain_copy ch)); [|discriminate].
    simpl in J. inversion J as [E]. rewrite E.
    apply same_view_is_connected, same_view_kept, K8. }
  exists chains. rewrite <- HT'.
  split; [|split; [exact Hnd|split; [exact Hframe|split; [exact Hdressed|exact Hjoined]]]].
  assert (Hin2 : forall x ch, In x W -> In ch chains ->
                 forall n, In n (chain_names ch) -> lookup s (T, n) = None).
  { intros x ch _ Hch n Hn.
    apply (kept_lookup_none s s8 _ K8). apply Hnew. apply in_flat_map. eauto. }
  clear - Hall Hshape V12 V14 Hin2 K8.
  revert Hall Hin2 V12 V14.
  induction Hshape as [|x ch W chains (p & Hp & Hsh) _ IH];
    intros Hall Hin2 V12 V14; [constructor|].
  inversion Hall as [|? ? ? ? (Hdone & id1 & id2 & Hcs) Hall']; subst.
  constructor.
  - split; [|split; [|split]].
    + rewrite <- (same_view_is_connected s s8 x) by apply same_view_kept, K8.
      now rewrite (is_connected_lookup s8 x p Hp).
    + intros n Hn. apply (Hin2 x ch); simpl; auto.
    + rewrite <- (same_view_parent_of s s12 x) by (apply V12; simpl; auto).
      exact Hdone.
    + exists id1, id2. rewrite Hcs.
      rewrite (same_view_constraints_of s s14 x), (same_view_is_connected s s14 x)
        by (apply V14; simpl; auto).
      reflexivity.
  - apply IH; auto.
    + intros y c Hy Hc. apply (Hin2 y c); simpl; auto.
    + intros y Hy. apply V12. simpl; auto.
    + intros y Hy. apply V14. simpl; auto.
Qed.

End SpaceSwitch.

Lemma Forall2_conj {A B} (P Q : A -> B -> Prop) l1 l2 :
  Forall2 P l1 l2 -> Forall2 Q l1 l2 -> Forall2 (fun a b => P a b /\ Q a b) l1 l2.
Proof.
  intros HP. induction HP; intros HQ; inversion HQ; subst; constructor; auto.
Qed.

Lemma Forall2_in_l {A B} (P : A -> B -> Prop) l1 l2 a :
  Forall2 P l1 l2 -> In a l1 -> exists b, In b l2 /\ P a b.
Proof.
  induction 1 as [|x y l1 l2 Hxy _ IH]; intros Hin; [destruct Hin|].
  destruct Hin as [->|Hin].
  - exists y. simpl; auto.
  - destruct (IH Hin) as (b & Hb & HP). exists b. simpl; auto.
Qed.

(** ** The anchors of a connected source bone *)

(** C7, as the code has it: after a run of [_space_switch] that returns,
    every connected source bone has a chain of three new bones in the
    temporary armature: its copy, connected to an inner anchor that is its
    parent, under an outer anchor.  The copy and the inner anchor carry no
    constraint.  The outer
    anchor carries a CopyLocation constraint with [head_tail] 1 whose
    target is the parent of the source bone, with or without a
    destination; and, exactly when a destination is given, a CopyRotation
    constraint to the destination after it. *)
Theorem connected_anchor_constraints visual_local src dest frames s s' srcb :
  NoDup (remove_dest dest src) ->
  fresh_ids s (remove_dest dest src) ->
  _space_switch visual_local src dest frames s = (s', Ok tt) ->
  In srcb (remove_dest dest src) ->
  is_connected s srcb = true ->
  exists copy inner outer par id1 rot,
    lookup s (pref_object_name (preferences s), inner) = None /\
    lookup s (pref_object_name (preferences s), outer) = None /\
    parent_of s srcb = Some par /\
    has s' (pref_object_name (preferences s), copy) (Some inner) [] /\
    is_connected s' (pref_object_name (preferences s), copy) = true /\
    has s' (pref_object_name (preferences s), inner) (Some outer) [] /\
    has s' (pref_object_name (preferences s), outer) None
        (copy_location_to id1 par 1 :: rot) /\
    match dest with
    | Some d => exists id2, rot = [copy_rotation_to id2 d]
    | None => rot = []
    end.
Proof.
  intros Hnd Hfresh H Hin Hcon.
  destruct (space_switch_effect visual_local src dest frames s s' Hnd Hfresh H)
    as (chains & Hall & _ & _ & _ & Hjoined).
  destruct (Forall2_in_l _ _ _ _ (Forall2_conj _ _ _ _ Hall Hjoined) Hin)
    as (ch & _ & (Hshape & Hnew & Hdone & _) & Hjoin).
  rewrite Hcon in Hshape, Hjoin.
  destruct ch as [n|n d|n c a]; simpl in Hshape;
    try (destruct Hshape; discriminate).
  destruct Hdone as (Hcopy & Hinner & par & id1 & rot & Hpar & Houter & Hrot).
  exists n, c, a, par, id1, rot. simpl in *.
  repeat split; auto.
Qed.

Lemma connected_anchor_constraints_witness :
  exists copy inner outer par id1 rot,
    lookup demo_scene ("SpaceSwitching", inner) = None /\
    lookup demo_scene ("SpaceSwitching", outer) = None /\
    parent_of demo_scene demo_arm = Some par /\
    has (fst (_space_switch demo_visual_local [demo_arm; demo_hand] (Some demo_target)
                (Some [1; 2]%Z) demo_scene))
        ("SpaceSwitching", copy) (Some inner) [] /\
    is_connected
      (fst (_space_switch demo_visual_local [demo_arm; demo_hand] (Some demo_target)
              (Some [1; 2]%Z) demo_scene))
      ("SpaceSwitching", copy) = true /\
    has (fst (_space_switch demo_visual_local [demo_arm; demo_hand] (Some demo_target)
                (Some [1; 2]%Z) demo_scene))
        ("SpaceSwitching", inner) (Some outer) [] /\
    has (fst (_space_switch demo_visual_local [demo_arm; demo_hand] (Some demo_target)
                (Some [1; 2]%Z) demo_scene))
        ("SpaceSwitching", outer) None (copy_location_to id1 par 1 :: rot) /\
    exists id2, rot = [copy_rotation_to id2 demo_target].
Proof.
  apply (connected_anchor_constraints demo_visual_local [demo_arm; demo_hand]
           (Some demo_target) (Some [1; 2]%Z) demo_scene
           (fst (_space_switch demo_visual_local [demo_arm; demo_hand] (Some demo_target)
                   (Some [1; 2]%Z) demo_scene))
           demo_arm).
  - repeat constructor; simpl; intuition discriminate.
  - intros r c [<-|[<-|[]]] Hc; vm_compute in Hc; destruct Hc.
  - vm_compute. reflexivity.
  - simpl. auto.
  - reflexivity.
Defined.

(** Arm is connected to Root.  Switching it to the space of Target gives
    the outer anchor a CopyLocation constraint to Root, not to Target, and
    a CopyRotation constraint to Target; the copy and the inner anchor
    carry nothing. *)
Lemma connected_anchor_ignores_destination :
  snd (_space_switch demo_visual_local [demo_arm] (Some demo_target)
         (Some [1; 2]%Z) demo_scene) = Ok tt /\
  is_connected demo_scene demo_arm = true /\
  parent_of demo_scene demo_arm = Some ("Rig", "Root") /\
  ("Rig", "Root") <> demo_target /\
  map (constraints_of
         (fst (_space_switch demo_visual_local [demo_arm] (Some demo_target)
                 (Some [1; 2]%Z) demo_scene)))
      [("SpaceSwitching", "Arm_Copy"); ("SpaceSwitching", "Target_Space");
       ("SpaceSwitching", "Arm_Parent")]
  = [[]; []; [copy_location_to 1 ("Rig", "Root") 1; copy_rotation_to 2 demo_target]].
Proof.
  split; [vm_compute; reflexivity|]. split; [reflexivity|].
  split; [reflexivity|]. split; [discriminate|].
  vm_compute. reflexivity.
Qed.

(** ** The rewiring *)

(** C8: after a run of [_space_switch] that returns, every source bone
    has a copy, a new bone of the temporary armature, that carries no
    constraint any more: its CopyTransforms capture constraint is gone.
    The source bone has the constraints it had, followed by a CopyLocation
    constraint to its copy when, and only when, it is not connected, and
    then by a CopyRotation constraint to its copy. *)
Theorem space_switch_rewires_sources visual_local src dest frames s s' srcb :
  NoDup (remove_dest dest src) ->
  fresh_ids s (remove_dest dest src) ->
  _space_switch visual_local src dest frames s = (s', Ok tt) ->
  In srcb (remove_dest dest src) ->
  exists copy par id1 id2,
    lookup s (pref_object_name (preferences s), copy) = None /\
    has s' (pref_object_name (preferences s), copy) par [] /\
    constraints_of s' srcb
    = constraints_of s srcb
      ++ (if is_connected s srcb then []
          else [copy_location_to id1 (pref_object_name (preferences s), copy) 0])
      ++ [copy_rotation_to id2 (pref_object_name (preferences s), copy)].
Proof.
  intros Hnd Hfresh H Hin.
  destruct (space_switch_effect visual_local src dest frames s s' Hnd Hfresh H)
    as (chains & Hall & _).
  destruct (Forall2_in_l _ _ _ _ Hall Hin)
    as (ch & _ & _ & Hnew & (Hcopy & _) & id1 & id2 & Hcs).
  exists (chain_copy ch), (chain_parent ch), id1, id2.
  split; [apply Hnew, chain_copy_named|]. split; [exact Hcopy|exact Hcs].
Qed.

Lemma space_switch_rewires_sources_witness :
  exists copy par id1 id2,
    lookup demo_scene ("SpaceSwitching", copy) = None /\
    has (fst (_space_switch demo_visual_local [demo_arm; demo_hand] None
                (Some [1; 2]%Z) demo_scene))
        ("SpaceSwitching", copy) par [] /\
    constraints_of
      (fst (_space_switch demo_visual_local [demo_arm; demo_hand] None
              (Some [1; 2]%Z) demo_scene))
      demo_hand
    = [copy_location_to id1 ("SpaceSwitching", copy) 0;
       copy_rotation_to id2 ("SpaceSwitching", copy)].
Proof.
  apply (space_switch_rewires_sources demo_visual_local [demo_arm; demo_hand]
           None (Some [1; 2]%Z) demo_scene
           (fst (_space_switch demo_visual_local [demo_arm; demo_hand] None
                   (Some [1; 2]%Z) demo_scene))
           demo_hand).
  - repeat constructor; simpl; intuition discriminate.
  - intros r c [<-|[<-|[]]] Hc; vm_compute in Hc; destruct Hc.
  - vm_compute. reflexivity.
  - simpl. auto.
Defined.

(* ===================================================================== *)
(** * More of the add-on *)
(* ===================================================================== *)

(** ** custom_bake: what it keys *)



Lemma bake_channel_same_rig dl dr ds p p' c :
  rig_view p' = rig_view p -> bake_channel dl dr ds p' c = bake_channel dl dr ds p c.
Proof.
  unfold rig_view. intros H. inversion H as [[Hb Hm Hc Hd]].
  unfold bake_channel. now rewrite Hb, Hm.
Qed.

Lemma bake_key_same_rig frames bones dl dr ds s s' obj k :
  same_rig s s' -> bake_key frames bones dl dr ds s' obj k ->
  bake_key frames bones dl dr ds s obj k.
Proof.
  intros (H & _) (Hb & Hf & Hg & p' & Hp' & Hc). repeat split; auto.
  specialize (H (obj, k_bone k)). rewrite Hp' in H.
  destruct (lookup s (obj, k_bone k)) as [p|]; simpl in H; [|discriminate].
  exists p. split; auto. rewrite <- Hc. symmetry. apply bake_channel_same_rig.
  congruence.
Qed.

Section KeyedStep.

Variable visual_local : Blender -> BoneRef -> Matrix.
Variables (frames : list Z) (pose_bones : list BoneRef).
Lemma keyed_step_refl dl dr ds s : keyed_step frames pose_bones dl dr ds s s.
Proof.
  split; [apply same_rig_refl|]. intros obj. exists []. split.
  - now rewrite app_nil_r.
  - intros k [].
Qed.

Lemma keyed_step_trans dl dr ds a b c : keyed_step frames pose_bones dl dr ds a b -> keyed_step frames pose_bones dl dr ds b c -> keyed_step frames pose_bones dl dr ds a c.
Proof.
  intros (R1 & K1) (R2 & K2). split; [eapply same_rig_trans; eauto|].
  intros obj. destruct (K1 obj) as (k1 & E1 & L1), (K2 obj) as (k2 & E2 & L2).
  exists (k1 ++ k2). split.
  - now rewrite E2, E1, app_assoc.
  - intros k Hk. apply in_app_or in Hk. destruct Hk as [Hk|Hk]; auto.
    eapply bake_key_same_rig; eauto.
Qed.

Lemma keyed_step_same_keys dl dr ds s s' :
  same_rig s s' -> (forall obj, action_keys s' obj = action_keys s obj) -> keyed_step frames pose_bones dl dr ds s s'.
Proof.
  intros Hr Hk. split; auto. intros obj. exists []. split.
  - now rewrite app_nil_r.
  - intros k [].
Qed.

Lemma keyed_step_update_bone dl dr ds r f s :
  (forall p, rig_view (f p) = rig_view p) -> keyed_step frames pose_bones dl dr ds s (update_bone r f s).
Proof.
  intros Hf. apply keyed_step_same_keys.
  - now apply same_rig_update_bone.
  - intros obj. apply action_keys_update_bone.
Qed.

Lemma keyed_step_write_bone dl dr ds r f :
  (forall p, rig_view (f p) = rig_view p) -> steps (keyed_step frames pose_bones dl dr ds) (write_bone r f).
Proof.
  intros Hf s s' res H. apply write_bone_run in H. destruct H as [->| ->].
  - apply (keyed_step_refl dl dr ds).
  - now apply keyed_step_update_bone.
Qed.

Lemma keyed_step_set_frame dl dr ds f s : keyed_step frames pose_bones dl dr ds s (set_frame_current f s).
Proof. apply keyed_step_same_keys; [repeat split|reflexivity]. Qed.

Lemma keyed_step_keyframe_insert dl dr ds r path frame s :
  In r pose_bones -> In frame frames ->
  (forall p, lookup s r = Some p -> bake_channel dl dr ds p path = true) ->
  steps_at (keyed_step frames pose_bones dl dr ds) (keyframe_insert r path frame (snd r)) s.
Proof.
  intros Hr Hf Hc s' res H. apply keyframe_insert_run in H.
  destruct H as [(-> & _)|(p & o & Hp & Ho & _ & ->)]; [apply (keyed_step_refl dl dr ds)|].
  split; [now apply same_rig_with_key|].
  intros obj. eexists. split; [apply action_keys_with_key; exact Ho|].
  intros k Hk. destruct (String.eqb obj (fst r)) eqn:E; [|destruct Hk].
  destruct Hk as [<-|[]]. apply String.eqb_eq in E; subst obj.
  unfold bake_key. simpl. rewrite <- surjective_pairing.
  repeat split; auto. exists p. auto.
Qed.

Lemma same_rig_channel dl dr ds s s' r p c :
  same_rig s s' -> lookup s r = Some p -> bake_channel dl dr ds p c = true ->
  forall p', lookup s' r = Some p' -> bake_channel dl dr ds p' c = true.
Proof.
  intros Hs Hp Hc p' Hp'. destruct (lookup_same_rig _ _ _ _ Hs Hp) as (q & Hq & Hv).
  rewrite Hq in Hp'. inversion Hp'; subst q.
  rewrite <- Hc. now apply bake_channel_same_rig.
Qed.

Lemma bake_rotation_keyed_step dl ds r frame prev s :
  In r pose_bones -> In frame frames ->
  steps_at (keyed_step frames pose_bones dl true ds) (bake_rotation r frame prev) s.
Proof.
  intros Hr Hf. unfold bake_rotation. destruct prev as [ep qp].
  apply steps_at_bind; try exact (keyed_step_trans dl true ds).
  { apply steps_at_of, steps_get_bone, (keyed_step_refl dl true ds). }
  intros p s1 Hp. apply get_bone_ok in Hp. destruct Hp as [-> Hp].
  destruct (rotation_mode p) eqn:Hmode.
  - apply steps_at_bind; try exact (keyed_step_trans dl true ds).
    + apply steps_at_of. destruct qp.
      * steps_auto (keyed_step_refl dl true ds) (keyed_step_trans dl true ds).
        now apply keyed_step_update_bone.
      * apply steps_ret, (keyed_step_refl dl true ds).
    + intros prev' s2 H2.
      assert (S2 : keyed_step frames pose_bones dl true ds s s2).
      { revert H2. destruct qp.
        - assert (St : steps (keyed_step frames pose_bones dl true ds)
                    (write_bone r (set_rotation_quaternion
                       (quat_make_compatible (rotation_quaternion p) q)) ;;
                     ret (ep, Some (quat_make_compatible (rotation_quaternion p) q)))).
          { steps_auto (keyed_step_refl dl true ds) (keyed_step_trans dl true ds).
            now apply keyed_step_update_bone. }
          apply St.
        - intros H2. inversion H2; subst. apply (keyed_step_refl dl true ds). }
      apply steps_at_bind; try exact (keyed_step_trans dl true ds).
      * apply keyed_step_keyframe_insert; auto.
        apply (same_rig_channel _ _ _ s s2 r p); [apply S2|exact Hp|].
        simpl. now rewrite Hmode.
      * intros. apply steps_at_of, steps_ret, (keyed_step_refl dl true ds).
  - apply steps_at_bind; try exact (keyed_step_trans dl true ds).
    + apply keyed_step_keyframe_insert; auto.
      intros p' Hp'. rewrite Hp in Hp'. inversion Hp'; subst p'.
      simpl. now rewrite Hmode.
    + intros. apply steps_at_of, steps_ret, (keyed_step_refl dl true ds).
  - apply steps_at_bind; try exact (keyed_step_trans dl true ds).
    + apply steps_at_of. destruct ep.
      * steps_auto (keyed_step_refl dl true ds) (keyed_step_trans dl true ds).
        now apply keyed_step_update_bone.
      * apply steps_ret, (keyed_step_refl dl true ds).
    + intros prev' s2 H2.
      assert (S2 : keyed_step frames pose_bones dl true ds s s2).
      { revert H2. destruct ep.
        - assert (St : steps (keyed_step frames pose_bones dl true ds)
                    (write_bone r (set_rotation_euler
                       (euler_make_compatible (rotation_euler p) v)) ;;
                     ret (Some (euler_make_compatible (rotation_euler p) v), qp))).
          { steps_auto (keyed_step_refl dl true ds) (keyed_step_trans dl true ds).
            now apply keyed_step_update_bone. }
          apply St.
        - intros H2. inversion H2; subst. apply (keyed_step_refl dl true ds). }
      apply steps_at_bind; try exact (keyed_step_trans dl true ds).
      * apply keyed_step_keyframe_insert; auto.
        apply (same_rig_channel _ _ _ s s2 r p); [apply S2|exact Hp|].
        simpl. now rewrite Hmode.
      * intros. apply steps_at_of, steps_ret, (keyed_step_refl dl true ds).
Qed.

Lemma bake_frame_keyed_step dl dr ds pose_info i r prev fi frame :
  In r pose_bones -> In frame frames ->
  steps (keyed_step frames pose_bones dl dr ds) (bake_frame dl dr ds pose_info i r prev (fi, frame)).
Proof.
  intros Hr Hf. unfold bake_frame.
  intros s. apply steps_at_bind; try exact (keyed_step_trans dl dr ds).
  { apply steps_at_of. unfold pose_info_at.
    steps_auto (keyed_step_refl dl dr ds) (keyed_step_trans dl dr ds). }
  intros m s1 _. apply steps_at_bind; try exact (keyed_step_trans dl dr ds).
  { apply steps_at_of, keyed_step_write_bone, rig_view_set_matrix_basis. }
  intros [] s2 _. apply steps_at_bind; try exact (keyed_step_trans dl dr ds).
  { apply steps_at_of, steps_get_bone, (keyed_step_refl dl dr ds). }
  intros p s3 Hp. apply get_bone_ok in Hp. destruct Hp as [-> Hp].
  apply steps_at_bind; try exact (keyed_step_trans dl dr ds).
  { destruct (dl && negb (use_connect (bone p))) eqn:E.
    - apply keyed_step_keyframe_insert; auto.
      intros p' Hp'. rewrite Hp in Hp'. inversion Hp'; subst p'. exact E.
    - apply steps_at_of, steps_ret, (keyed_step_refl dl dr ds). }
  intros [] s4 _. apply steps_at_bind; try exact (keyed_step_trans dl dr ds).
  { destruct dr.
    - apply bake_rotation_keyed_step; auto.
    - apply steps_at_of, steps_ret, (keyed_step_refl _ _ _). }
  intros prev' s5 _. apply steps_at_bind; try exact (keyed_step_trans dl dr ds).
  { destruct ds.
    - apply keyed_step_keyframe_insert; auto.
    - apply steps_at_of, steps_ret, (keyed_step_refl _ _ _). }
  intros. apply steps_at_of, steps_ret, (keyed_step_refl dl dr ds).
Qed.

Lemma in_enumerate_snd {A} (xs : list A) i x : In (i, x) (enumerate xs) -> In x xs.
Proof.
  unfold enumerate. generalize 0%nat. induction xs as [|y xs IH]; simpl; intros n H; auto.
  destruct H as [H|H]; [inversion H; auto|right; eauto].
Qed.

Lemma custom_bake_keyed_step dl dr ds :
  steps (keyed_step frames pose_bones dl dr ds) (custom_bake visual_local frames pose_bones dl dr ds).
Proof.
  unfold custom_bake. destruct (negb dl && negb dr && negb ds).
  - apply steps_raise, (keyed_step_refl dl dr ds).
  - apply steps_bind; [exact (keyed_step_trans dl dr ds)|apply steps_get, (keyed_step_refl dl dr ds)|].
    intros s0. apply steps_bind; [exact (keyed_step_trans dl dr ds)| |].
    + apply steps_for_fold; [exact (keyed_step_refl dl dr ds)|exact (keyed_step_trans dl dr ds)|].
      intros. unfold sample_frame.
      steps_auto (keyed_step_refl dl dr ds) (keyed_step_trans dl dr ds). apply keyed_step_set_frame.
    + intros pose_info. apply steps_bind; [exact (keyed_step_trans dl dr ds)| |].
      * apply steps_for_each; [exact (keyed_step_refl dl dr ds)|exact (keyed_step_trans dl dr ds)|].
        intros [i r] Hir. apply in_enumerate_snd in Hir. unfold bake_bone.
        apply steps_bind;
          [exact (keyed_step_trans dl dr ds)| |intros; apply steps_ret, (keyed_step_refl dl dr ds)].
        apply steps_for_fold; [exact (keyed_step_refl dl dr ds)|exact (keyed_step_trans dl dr ds)|].
        intros acc [fi frame] Hfr. apply in_enumerate_snd in Hfr.
        now apply bake_frame_keyed_step.
      * intros. unfold frame_set. apply steps_modify. intros.
        apply keyed_step_set_frame.
Qed.

End KeyedStep.

Lemma inserted_app s s' obj ks :
  action_keys s' obj = action_keys s obj ++ ks -> inserted s s' obj = ks.
Proof.
  unfold inserted. intros ->.
  rewrite skipn_app, skipn_all, Nat.sub_diag. reflexivity.
Qed.

Lemma inserted_of_app s s' b c ks new :
  action_keys s' (fst b) = action_keys s (fst b) ++ ks ->
  keys_of s' b c = keys_of s b c ++ new ->
  inserted_of s s' b c = new.
Proof.
  intros E K. unfold inserted_of. rewrite (inserted_app _ _ _ _ E).
  unfold keys_of in K. rewrite E, filter_app in K.
  now apply app_inv_head in K.
Qed.

Section BakeExtras.

Variable visual_local : Blender -> BoneRef -> Matrix.

(** X1: whatever a bake does, and whether it returns or raises, it leaves
    the rig alone: every bone keeps its bone data (name, parent,
    connection, flags), its rotation mode, its constraints and its display
    attributes, no bone appears or disappears, and the preferences and the
    constraint identities are untouched. *)
Theorem custom_bake_keeps_rig frames pose_bones dl dr ds s :
  same_rig s (fst (custom_bake visual_local frames pose_bones dl dr ds s)).
Proof.
  destruct (custom_bake visual_local frames pose_bones dl dr ds s) as [s' r] eqn:E.
  apply (custom_bake_keyed_step visual_local frames pose_bones dl dr ds _ _ _ E).
Qed.

(** X2: whatever a bake does, and whether it returns or raises, every
    insertion it makes, into the action of whatever object, is for one of
    the bones given, at one of the frames given, with the name of the bone
    passed as the group, and on a channel that is enabled for that bone:
    location only when [do_location] is set and the bone is not connected,
    scale only when [do_scale] is set, and, when [do_rotation] is set, the
    one rotation channel of the bone's rotation mode. *)
Theorem custom_bake_keys_discipline frames pose_bones dl dr ds s obj :
  Forall (bake_key frames pose_bones dl dr ds s obj)
         (inserted s (fst (custom_bake visual_local frames pose_bones dl dr ds s)) obj).
Proof.
  destruct (custom_bake visual_local frames pose_bones dl dr ds s) as [s' r] eqn:E.
  destruct (custom_bake_keyed_step visual_local frames pose_bones dl dr ds _ _ _ E)
    as (_ & K).
  destruct (K obj) as (ks & Eks & Hks). simpl.
  rewrite (inserted_app _ _ _ _ Eks). now apply Forall_forall.
Qed.






End BakeExtras.


(** ** custom_bake: the location and scale keys *)

(** The part of a pose bone the rotation block leaves alone. *)
Lemma bake_rotation_plain b frame prev s s' prev' p :
  lookup s b = Some p ->
  bake_rotation b frame prev s = (s', Ok prev') ->
  keys_of s' b location_path = keys_of s b location_path /\
  keys_of s' b scale_path = keys_of s b scale_path /\
  exists p', lookup s' b = Some p' /\ bone p' = bone p /\
             location p' = location p /\ scale p' = scale p.
Proof.
  intros Hp H. unfold bake_rotation in H. destruct prev as [ep qp].
  apply bind_ok_inv in H. destruct H as (s0 & p0 & G & H).
  apply get_bone_ok in G. destruct G as [-> G].
  rewrite Hp in G. inversion G; subst p0; clear G.
  assert (Hkey : forall path t t' u q,
             lookup t b = Some q ->
             channel_eqb path location_path = false ->
             channel_eqb path scale_path = false ->
             keyframe_insert b path frame (snd b) t = (t', Ok u) ->
             keys_of t' b location_path = keys_of t b location_path /\
             keys_of t' b scale_path = keys_of t b scale_path /\
             lookup t' b = Some q).
  { intros path t t' u q Hq E1 E2 Hk.
    apply keyframe_insert_ok in Hk. destruct Hk as (pk & _ & L & _ & K).
    rewrite (K location_path), (K scale_path), E1, E2, !app_nil_r, L. auto. }
  destruct (rotation_mode p).
  - apply bind_ok_inv in H. destruct H as (s1 & prev1 & G1 & H).
    apply bind_ok_inv in H. destruct H as (s2 & [] & G2 & H).
    inversion H; subst s2 prev1; clear H.
    destruct qp as [q1|].
    + apply bind_ok_inv in G1. destruct G1 as (s3 & [] & G3 & G1).
      inversion G1; subst s3 prev'; clear G1.
      apply write_bone_ok in G3. destruct G3 as [-> _].
      eapply Hkey in G2; [| |reflexivity|reflexivity].
      2:{ rewrite lookup_update_bone_same, Hp by auto with names. reflexivity. }
      destruct G2 as (K1 & K2 & L). rewrite K1, K2, !keys_of_update_bone.
      split; auto. split; auto. eexists. split; [exact L|]. auto.
    + inversion G1; subst s1 prev'; clear G1.
      eapply Hkey in G2; [|exact Hp|reflexivity|reflexivity].
      destruct G2 as (K1 & K2 & L). split; auto. split; auto.
      exists p. auto.
  - apply bind_ok_inv in H. destruct H as (s2 & [] & G2 & H).
    inversion H; subst s2 prev'; clear H.
    eapply Hkey in G2; [|exact Hp|reflexivity|reflexivity].
    destruct G2 as (K1 & K2 & L). split; auto. split; auto.
    exists p. auto.
  - apply bind_ok_inv in H. destruct H as (s1 & prev1 & G1 & H).
    apply bind_ok_inv in H. destruct H as (s2 & [] & G2 & H).
    inversion H; subst s2 prev1; clear H.
    destruct ep as [e1|].
    + apply bind_ok_inv in G1. destruct G1 as (s3 & [] & G3 & G1).
      inversion G1; subst s3 prev'; clear G1.
      apply write_bone_ok in G3. destruct G3 as [-> _].
      eapply Hkey in G2; [| |reflexivity|reflexivity].
      2:{ rewrite lookup_update_bone_same, Hp by auto with names. reflexivity. }
      destruct G2 as (K1 & K2 & L). rewrite K1, K2, !keys_of_update_bone.
      split; auto. split; auto. eexists. split; [exact L|]. auto.
    + inversion G1; subst s1 prev'; clear G1.
      eapply Hkey in G2; [|exact Hp|reflexivity|reflexivity].
      destruct G2 as (K1 & K2 & L). split; auto. split; auto.
      exists p. auto.
Qed.

Lemma set_matrix_basis_plain m p :
  bone (set_matrix_basis m p) = bone p /\
  location (set_matrix_basis m p) = m_location m /\
  scale (set_matrix_basis m p) = m_scale m.
Proof. unfold set_matrix_basis. destruct (rotation_mode p); auto. Qed.

(** One frame of the keyframing loop, seen from the location and scale
    channels of the bone. *)
Lemma bake_frame_plain dl dr ds pose_info i b prev fi frame s s' prev' row m p :
  nth_error pose_info i = Some row -> nth_error row fi = Some m ->
  lookup s b = Some p ->
  bake_frame dl dr ds pose_info i b prev (fi, frame) s = (s', Ok prev') ->
  keys_of s' b location_path
  = keys_of s b location_path
    ++ (if dl && negb (use_connect (bone p))
        then [sampled_key b location_path m_location m frame] else []) /\
  keys_of s' b scale_path
  = keys_of s b scale_path
    ++ (if ds then [sampled_key b scale_path m_scale m frame] else []) /\
  exists p', lookup s' b = Some p' /\ bone p' = bone p.
Proof.
  intros Hrow Hm Hp H. unfold bake_frame in H.
  unfold pose_info_at in H. rewrite Hrow, Hm in H.
  apply bind_ok_inv in H. destruct H as (s0 & m0 & H0 & H).
  inversion H0; subst s0 m0; clear H0.
  apply bind_ok_inv in H. destruct H as (s1 & [] & H1 & H).
  apply write_bone_ok in H1. destruct H1 as [-> _].
  apply bind_ok_inv in H. destruct H as (s2 & p2 & H2 & H).
  apply get_bone_ok in H2. destruct H2 as [-> Hp2].
  rewrite lookup_update_bone_same, Hp in Hp2 by auto with names.
  simpl in Hp2. inversion Hp2; subst p2; clear Hp2.
  destruct (set_matrix_basis_plain m p) as (Hb & Hl & Hs).
  set (p1 := set_matrix_basis m p) in *.
  set (s1 := update_bone b (set_matrix_basis m) s) in *.
  assert (Hp1 : lookup s1 b = Some p1).
  { unfold s1. rewrite lookup_update_bone_same, Hp by auto with names. reflexivity. }
  assert (K1 : forall c, keys_of s1 b c = keys_of s b c)
    by (intros c; apply keys_of_update_bone).
  apply bind_ok_inv in H. destruct H as (s3 & [] & H3 & H).
  assert (K3 : keys_of s3 b location_path
               = keys_of s b location_path
                 ++ (if dl && negb (use_connect (bone p))
                     then [sampled_key b location_path m_location m frame] else [])
               /\ keys_of s3 b scale_path = keys_of s b scale_path
               /\ lookup s3 b = Some p1).
  { rewrite Hb in H3. destruct (dl && negb (use_connect (bone p))).
    - apply keyframe_insert_ok in H3. destruct H3 as (pk & Hpk & L & _ & K).
      rewrite Hp1 in Hpk. inversion Hpk; subst pk.
      rewrite (K location_path), (K scale_path), !K1, L. simpl.
      rewrite app_nil_r. unfold inserted_key, sampled_key. simpl. rewrite Hl. auto.
    - inversion H3; subst s3. rewrite !K1, app_nil_r. auto. }
  destruct K3 as (K3l & K3s & Hp3).
  apply bind_ok_inv in H. destruct H as (s4 & prev4 & H4 & H).
  assert (K4 : keys_of s4 b location_path = keys_of s3 b location_path
               /\ keys_of s4 b scale_path = keys_of s3 b scale_path
               /\ exists p4, lookup s4 b = Some p4 /\ bone p4 = bone p1 /\
                             location p4 = location p1 /\ scale p4 = scale p1).
  { destruct dr.
    - eapply bake_rotation_plain; eauto.
    - inversion H4; subst s4. split; auto. split; auto. exists p1. auto. }
  destruct K4 as (K4l & K4s & p4 & Hp4 & Hb4 & _ & Hs4).
  apply bind_ok_inv in H. destruct H as (s5 & [] & H5 & H).
  inversion H; subst s5 prev4; clear H.
  destruct ds.
  - apply keyframe_insert_ok in H5. destruct H5 as (pk & Hpk & L & _ & K).
    rewrite Hp4 in Hpk. inversion Hpk; subst pk.
    rewrite (K location_path), (K scale_path), K4l, K4s, K3l, K3s, L. simpl.
    rewrite app_nil_r. unfold inserted_key, sampled_key. simpl. rewrite Hs4, Hs.
    split; auto. split; auto. exists p4. split; auto. congruence.
  - inversion H5; subst s'. rewrite K4l, K4s, K3l, K3s, app_nil_r.
    split; auto. split; auto. exists p4. split; auto. congruence.
Qed.

Lemma bake_frames_plain dl dr ds pose_info i b row :
  nth_error pose_info i = Some row ->
  forall xs ms prev s s' prev' p,
    Forall2 (fun (x : nat * Z) m => nth_error row (fst x) = Some m) xs ms ->
    lookup s b = Some p ->
    for_fold xs prev (bake_frame dl dr ds pose_info i b) s = (s', Ok prev') ->
    keys_of s' b location_path
    = keys_of s b location_path
      ++ (if dl && negb (use_connect (bone p))
          then map (fun xm => sampled_key b location_path m_location (snd xm)
                                (snd (fst xm)))
                   (combine xs ms)
          else []) /\
    keys_of s' b scale_path
    = keys_of s b scale_path
      ++ (if ds
          then map (fun xm => sampled_key b scale_path m_scale (snd xm) (snd (fst xm)))
                   (combine xs ms)
          else []).
Proof.
  intros Hrow xs ms prev s s' prev' p HF. revert prev s s' prev' p.
  induction HF as [|[fi frame] m xs ms Hm HF IH]; intros prev s s' prev' p Hp H.
  - inversion H; subst. simpl.
    destruct (dl && negb (use_connect (bone p))), ds; now rewrite ?app_nil_r.
  - simpl in H. apply bind_ok_inv in H. destruct H as (s1 & prev1 & H1 & H).
    destruct (bake_frame_plain _ _ _ _ _ _ _ _ _ _ _ _ _ _ _ Hrow Hm Hp H1)
      as (Kl & Ks & p1 & Hp1 & Hb1).
    destruct (IH _ _ _ _ _ Hp1 H) as (Kl' & Ks').
    rewrite Kl', Ks', Kl, Ks, Hb1, <- !app_assoc. simpl.
    destruct (dl && negb (use_connect (bone p))), ds; auto.
Qed.

Lemma combine_enumerate_map {A} (g : Z -> A) (frames : list Z) (h : Z -> A -> Keyframe) :
  forall n,
    map (fun xm : (nat * Z) * A => h (snd (fst xm)) (snd xm))
        (combine (enumerate_from n frames) (map g frames))
    = map (fun f => h f (g f)) frames.
Proof.
  induction frames as [|f frames IH]; intros n; simpl; auto. now rewrite IH.
Qed.

Section PlainKeys.

Variable visual_local : Blender -> BoneRef -> Matrix.

Lemma bake_bone_plain dl dr ds frames pose_bones s0 i b s s' p :
  In (i, b) (enumerate pose_bones) ->
  lookup s b = Some p ->
  bake_bone dl dr ds frames (samples visual_local frames pose_bones s0) (i, b) s
  = (s', Ok tt) ->
  keys_of s' b location_path
  = keys_of s b location_path
    ++ (if dl && negb (use_connect (bone p))
        then map (fun f => sampled_key b location_path m_location
                             (visual_local (set_frame_current f s0) b) f) frames
        else []) /\
  keys_of s' b scale_path
  = keys_of s b scale_path
    ++ (if ds
        then map (fun f => sampled_key b scale_path m_scale
                             (visual_local (set_frame_current f s0) b) f) frames
        else []).
Proof.
  intros Hib Hp H.
  unfold bake_bone in H. cbv zeta in H.
  apply bind_ok_inv in H. destruct H as (s1 & prev' & H & Hret).
  inversion Hret; subst s1; clear Hret.
  apply nth_error_enumerate_from in Hib. destruct Hib as [_ Hib].
  rewrite Nat.sub_0_r in Hib.
  set (g := fun f => visual_local (set_frame_current f s0) b).
  assert (Hrow : nth_error (samples visual_local frames pose_bones s0) i
                 = Some (map g frames)).
  { unfold samples. rewrite nth_error_map, Hib. reflexivity. }
  destruct (bake_frames_plain dl dr ds _ i b _ Hrow (enumerate frames)
              (map g frames) (None, None) s s' prev' p) as (Kl & Ks); auto.
  - exact (enumerate_from_samples g frames []).
  - unfold enumerate in Kl, Ks.
    rewrite (combine_enumerate_map g frames
               (fun f m => sampled_key b location_path m_location m f)) in Kl.
    rewrite (combine_enumerate_map g frames
               (fun f m => sampled_key b scale_path m_scale m f)) in Ks.
    auto.
Qed.

(** X4: in a bake that returns, the location insertions made for a
    baked bone are exactly one per frame, in the order of the frames, each
    with the name of the bone passed as the group and holding the location
    of the visual transform evaluated at that frame, when [do_location] is
    set and the bone is not connected, and none otherwise; the same for
    the scale insertions and [do_scale], connected or not. *)
Theorem custom_bake_location_scale_keys frames pose_bones dl dr ds s s' b p :
  NoDup pose_bones -> In b pose_bones -> lookup s b = Some p ->
  custom_bake visual_local frames pose_bones dl dr ds s = (s', Ok tt) ->
  inserted_of s s' b location_path
  = (if dl && negb (use_connect (bone p))
     then map (fun f => sampled_key b location_path m_location
                          (visual_local (set_frame_current f s) b) f) frames
     else []) /\
  inserted_of s s' b scale_path
  = (if ds
     then map (fun f => sampled_key b scale_path m_scale
                          (visual_local (set_frame_current f s) b) f) frames
     else []).
Proof.
  intros Hnd Hb Hp H.
  destruct (custom_bake_bake_step visual_local _ _ _ _ _ _ _ _ H) as (_ & G).
  destruct (G (fst b)) as (ks & Eks & _).
  destruct (custom_bake_per_bone _ _ _ _ _ _ _ _ _ Hnd Hb H)
    as (i & t & t' & Hi & Ha & Hrun & Hc).
  destruct (lookup_others_step _ _ _ _ _ Ha Hp) as (pt & Hpt & Hv).
  assert (Hbt : bone pt = bone p)
    by (unfold rig_view in Hv; inversion Hv; congruence).
  destruct (bake_bone_plain _ _ _ _ _ _ _ _ _ _ _ Hi Hpt Hrun) as (Kl & Ks).
  destruct Ha as [_ Ka], Hc as [_ Kc].
  split; apply (inserted_of_app _ _ _ _ ks _ Eks); rewrite Kc; [rewrite Kl|rewrite Ks];
    rewrite Ka, ?Hbt; reflexivity.
Qed.

End PlainKeys.

Lemma custom_bake_location_scale_keys_witness :
  inserted_of demo_scene
    (fst (custom_bake demo_visual_local [1; 2]%Z [demo_arm; demo_hand]
            true true true demo_scene))
    demo_hand location_path
  = (if true && negb (use_connect (bone (demo_bone "Hand" (Some "Arm") false
                                           QUATERNION true)))
     then map (fun f => sampled_key demo_hand location_path m_location
                          (demo_visual_local (set_frame_current f demo_scene)
                             demo_hand) f) [1; 2]%Z
     else []) /\
  inserted_of demo_scene
    (fst (custom_bake demo_visual_local [1; 2]%Z [demo_arm; demo_hand]
            true true true demo_scene))
    demo_hand scale_path
  = (if true
     then map (fun f => sampled_key demo_hand scale_path m_scale
                          (demo_visual_local (set_frame_current f demo_scene)
                             demo_hand) f) [1; 2]%Z
     else []).
Proof.
  apply (custom_bake_location_scale_keys demo_visual_local [1; 2]%Z
           [demo_arm; demo_hand] true true true demo_scene).
  - repeat constructor; simpl; intuition discriminate.
  - simpl. auto.
  - reflexivity.
  - vm_compute. reflexivity.
Defined.

(** ** The helpers *)

Lemma lookup_object_name s n o : lookup_object s n = Some o -> obj_name o = n.
Proof.
  unfold lookup_object. intros H. apply find_some in H. destruct H as [_ H].
  now apply String.eqb_eq in H.
Qed.

Lemma get_space_switching_armature_object_run s :
  snd (get_space_switching_armature_object s) = Ok (pref_object_name (preferences s)) /\
  lookup_object (fst (get_space_switching_armature_object s))
                (pref_object_name (preferences s)) <> None /\
  objects (fst (get_space_switching_armature_object s))
  = objects s
    ++ match lookup_object s (pref_object_name (preferences s)) with
       | Some _ => []
       | None => [mkObject (pref_object_name (preferences s))
                    (pref_armature_name (preferences s))
                    false OBJECT true [] None None]
       end /\
  get_space_switching_armature_object (fst (get_space_switching_armature_object s))
  = get_space_switching_armature_object s.
Proof.
  set (T := pref_object_name (preferences s)).
  set (new_obj := mkObject T (pref_armature_name (preferences s))
                           false OBJECT true [] None None).
  destruct (lookup_object s T) as [o|] eqn:E.
  - assert (R : get_space_switching_armature_object s = (s, Ok T)).
    { unfold get_space_switching_armature_object, bind, get. fold T. rewrite E.
      unfold ret. now rewrite (lookup_object_name _ _ _ E). }
    rewrite R. simpl. rewrite E, app_nil_r. repeat split; auto. discriminate.
  - assert (R : get_space_switching_armature_object s
                = (set_objects (objects s ++ [new_obj]) s, Ok T)).
    { unfold get_space_switching_armature_object, bind, get. fold T. now rewrite E. }
    rewrite R. simpl fst. simpl snd.
    assert (Ho : lookup_object (set_objects (objects s ++ [new_obj]) s) T = Some new_obj).
    { unfold lookup_object in *. simpl. rewrite find_app, E. simpl.
      unfold is_object. simpl. now rewrite String.eqb_refl. }
    split; [reflexivity|]. split; [rewrite Ho; discriminate|].
    split; [reflexivity|].
    unfold get_space_switching_armature_object, bind, get.
    change (preferences (set_objects (objects s ++ [new_obj]) s)) with (preferences s).
    fold T. rewrite Ho. reflexivity.
Qed.


Lemma filter_filter_implied {A} (f g : A -> bool) (l : list A) :
  (forall x, f x = true -> g x = true) -> filter f (filter g l) = filter f l.
Proof.
  intros H. induction l as [|x l IH]; simpl; auto.
  destruct (g x) eqn:Eg; simpl.
  - destruct (f x); now rewrite IH.
  - destruct (f x) eqn:Ef; [|exact IH]. apply H in Ef. congruence.
Qed.

(** X6: [remove_bone_curves], however it ends, touches no bone, and
    leaves the keys of every other bone, of the same object or of another
    one, as they are and in place.  It does nothing on an object without
    animation data; on an object whose animation data holds no action it
    raises AttributeError (the action is [None]) and changes nothing; on a
    reference to an object that is gone it raises ReferenceError. *)
Theorem remove_bone_curves_spec pose_bone s :
  (forall r, lookup (fst (remove_bone_curves pose_bone s)) r = lookup s r) /\
  (forall r c, r <> pose_bone ->
               keys_of (fst (remove_bone_curves pose_bone s)) r c = keys_of s r c) /\
  match lookup_object s (fst pose_bone) with
  | None => remove_bone_curves pose_bone s = (s, Raise ReferenceError)
  | Some armature =>
      match animation_data armature with
      | None => remove_bone_curves pose_bone s = (s, Ok tt)
      | Some None => remove_bone_curves pose_bone s = (s, Raise (AttributeError "fcurves"))
      | Some (Some _) => snd (remove_bone_curves pose_bone s) = Ok tt
      end
  end.
Proof.
  unfold remove_bone_curves, bind, get_object.
  destruct (lookup_object s (fst pose_bone)) as [o|] eqn:Eo;
    [|repeat split; reflexivity].
  destruct (animation_data o) as [[a|]|] eqn:Ea; simpl;
    [|repeat split; reflexivity..].
  split; [|split; [|reflexivity]].
  - intros r. now apply lookup_update_object_bones.
  - intros r c Hne. unfold keys_of, action_keys.
    rewrite lookup_object_update_object by reflexivity.
    destruct (String.eqb (fst r) (fst pose_bone)) eqn:E; [|reflexivity].
    apply String.eqb_eq in E. rewrite E, Eo. simpl.
    unfold ensure_action. rewrite Ea. simpl.
    apply filter_filter_implied. intros k Hk.
    apply andb_true_iff in Hk. destruct Hk as [Hk _].
    apply String.eqb_eq in Hk. rewrite Hk.
    destruct (String.eqb (snd r) (snd pose_bone)) eqn:E2; [|reflexivity].
    apply String.eqb_eq in E2. exfalso. apply Hne.
    now rewrite (surjective_pairing r), (surjective_pairing pose_bone), E, E2.
Qed.

(** ** Runs without frames *)

Section WithoutFrames.

Variable visual_local : Blender -> BoneRef -> Matrix.

(** X7: [frames] defaults to [None].  A run of [_space_switch] without
    frames, with at least one source bone left once the destination is
    removed, never returns: it ends in an exception (at the latest the
    TypeError of the bake, which cannot iterate [None]). *)
Theorem space_switch_needs_frames src dest s :
  remove_dest dest src <> [] ->
  snd (_space_switch visual_local src dest None s) <> Ok tt.
Proof.
  intros Hne. destruct (_space_switch visual_local src dest None s) as [s' r] eqn:H.
  simpl. intros ->. unfold _space_switch in H.
  unfold bind at 1 in H. unfold get at 1 in H.
  destruct (remove_dest dest src) as [|x W] eqn:EW; [congruence|].
  simpl length in H. cbn [Nat.ltb Nat.leb] in H.
  repeat (apply bind_ok_inv in H; destruct H as (? & ? & _ & H)).
  destruct (negb _) in H; [discriminate|].
  apply bind_ok_inv in H. destruct H as (? & [tpb ctr] & _ & H).
  apply bind_ok_inv in H. destruct H as (? & ? & Hb & _).
  discriminate.
Qed.

(** X8: [_remove_bones_common] with [do_apply] set and no frames, when
    some pose bone is constrained to a selected bone, raises the TypeError
    of the bake at once: nothing is removed and the state is untouched. *)
Theorem remove_bones_apply_needs_frames s :
  pose_bones_to_bake s (get_armature_objects s) <> [] ->
  _remove_bones_common visual_local true None s
  = (s, Raise (TypeError "'NoneType' object is not iterable")).
Proof.
  intros Hne. unfold _remove_bones_common.
  unfold bind at 1. unfold get at 1.
  destruct (pose_bones_to_bake s (get_armature_objects s)) as [|b l]; [congruence|].
  reflexivity.
Qed.

End WithoutFrames.

Lemma space_switch_needs_frames_witness :
  snd (_space_switch demo_visual_local [demo_arm; demo_hand] (Some demo_hand) None
         demo_scene) <> Ok tt.
Proof.
  apply (space_switch_needs_frames demo_visual_local [demo_arm; demo_hand] (Some demo_hand) demo_scene).
  simpl. discriminate.
Defined.

Lemma remove_bones_apply_needs_frames_witness :
  _remove_bones_common demo_visual_local true None demo_switched_scene
  = (demo_switched_scene, Raise (TypeError "'NoneType' object is not iterable")).
Proof.
  apply (remove_bones_apply_needs_frames demo_visual_local demo_switched_scene).
  vm_compute. discriminate.
Defined.

(** ** _space_switch: the other branch and the frame *)

Lemma Forall2_in_r {A B} (P : A -> B -> Prop) l1 l2 b :
  Forall2 P l1 l2 -> In b l2 -> exists a, In a l1 /\ P a b.
Proof.
  induction 1 as [|x y l1 l2 Hxy _ IH]; intros Hin; [destruct Hin|].
  destruct Hin as [->|Hin].
  - exists x. simpl; auto.
  - destruct (IH Hin) as (a & Ha & HP). exists a. simpl; auto.
Qed.

Section SwitchExtras.

Variable visual_local : Blender -> BoneRef -> Matrix.

(** X9: after a run of [_space_switch] that returns, a source bone that
    is not connected has, in the temporary armature, a new copy without
    constraints.  Without a destination the copy has no parent and no
    anchor is made.  With a destination the copy is the child of one new
    anchor, whose constraints are a CopyLocation constraint to the
    destination (at its head, [head_tail] 0) followed by a CopyRotation
    constraint to the destination. *)
Theorem loose_source_anchor src dest frames s s' srcb :
  NoDup (remove_dest dest src) ->
  fresh_ids s (remove_dest dest src) ->
  _space_switch visual_local src dest frames s = (s', Ok tt) ->
  In srcb (remove_dest dest src) ->
  is_connected s srcb = false ->
  match dest with
  | None =>
      exists copy,
        lookup s (pref_object_name (preferences s), copy) = None /\
        has s' (pref_object_name (preferences s), copy) None []
  | Some d =>
      exists copy space id1 id2,
        lookup s (pref_object_name (preferences s), copy) = None /\
        lookup s (pref_object_name (preferences s), space) = None /\
        has s' (pref_object_name (preferences s), copy) (Some space) [] /\
        has s' (pref_object_name (preferences s), space) None
            [copy_location_to id1 d 0; copy_rotation_to id2 d]
  end.
Proof.
  intros Hnd Hfresh H Hin Hcon.
  destruct (space_switch_effect visual_local src dest frames s s' Hnd Hfresh H)
    as (chains & Hall & _).
  destruct (Forall2_in_l _ _ _ _ Hall Hin) as (ch & _ & Hshape & Hnew & Hdone & _).
  rewrite Hcon in Hshape.
  destruct ch as [n|n d|n c a]; simpl in Hshape; [| |discriminate].
  - destruct Hshape as [_ ->]. exists n. destruct Hdone as [Hcopy _].
    split; [apply Hnew; simpl; auto|exact Hcopy].
  - destruct Hshape as [_ Hd]. destruct Hdone as [Hcopy Hanch]. simpl in *.
    destruct Hanch as (dref & id1 & id2 & -> & Hspace).
    exists n, d, id1, id2. repeat split; auto.
Qed.

(** X10: a run of [_space_switch] that returns changes the parent, the
    connection and the constraints of no bone that existed before, other
    than the source bones it worked on: in particular not those of the
    destination, when the source bones hold it at most once. *)
Theorem space_switch_frame src dest frames s s' :
  NoDup (remove_dest dest src) ->
  fresh_ids s (remove_dest dest src) ->
  _space_switch visual_local src dest frames s = (s', Ok tt) ->
  (forall r, ~ In r (remove_dest dest src) -> lookup s r <> None ->
             option_map keep_view (lookup s' r) = option_map keep_view (lookup s r)) /\
  (forall d, dest = Some d -> NoDup src -> lookup s d <> None ->
             option_map keep_view (lookup s' d) = option_map keep_view (lookup s d)).
Proof.
  intros Hnd Hfresh H.
  destruct (space_switch_effect visual_local src dest frames s s' Hnd Hfresh H)
    as (chains & Hall & _ & Hframe & _).
  assert (Hothers : forall r, ~ In r (remove_dest dest src) -> lookup s r <> None ->
                              same_view s s' r).
  { intros r Hr Hex. apply Hframe; auto.
    intros Hin. apply in_map_iff in Hin. destruct Hin as (n & <- & Hn).
    apply in_flat_map in Hn. destruct Hn as (ch & Hch & Hn).
    destruct (Forall2_in_r _ _ _ _ Hall Hch) as (a & _ & _ & Hnew & _).
    apply Hex, Hnew, Hn. }
  split; [exact Hothers|].
  intros d -> Hsrc Hex. apply Hothers; auto.
  simpl. now apply remove_first_nodup.
Qed.

End SwitchExtras.

Lemma demo_fresh_ids W : fresh_ids demo_scene W.
Proof.
  intros r c _ Hc. unfold constraints_of in Hc.
  destruct (lookup demo_scene r) as [p|] eqn:E; [|destruct Hc].
  unfold lookup in E. destruct (lookup_object demo_scene (fst r)) as [o|] eqn:Eo;
    [|discriminate].
  unfold lookup_object in Eo. simpl in Eo. destruct (is_object (fst r) _);
    inversion Eo; subst o.
  unfold lookup_bone in E. apply find_some in E. destruct E as [E _].
  simpl in E. destruct E as [<-|[<-|[<-|[<-|[]]]]]; destruct Hc.
Qed.

Lemma loose_source_anchor_witness :
  exists copy space id1 id2,
    lookup demo_scene ("SpaceSwitching", copy) = None /\
    lookup demo_scene ("SpaceSwitching", space) = None /\
    has (fst (_space_switch demo_visual_local [demo_arm; demo_hand] (Some demo_target)
                (Some [1; 2]%Z) demo_scene))
        ("SpaceSwitching", copy) (Some space) [] /\
    has (fst (_space_switch demo_visual_local [demo_arm; demo_hand] (Some demo_target)
                (Some [1; 2]%Z) demo_scene))
        ("SpaceSwitching", space) None
        [copy_location_to id1 demo_target 0; copy_rotation_to id2 demo_target].
Proof.
  apply (loose_source_anchor demo_visual_local [demo_arm; demo_hand]
           (Some demo_target) (Some [1; 2]%Z) demo_scene
           (fst (_space_switch demo_visual_local [demo_arm; demo_hand] (Some demo_target)
                   (Some [1; 2]%Z) demo_scene))
           demo_hand).
  - repeat constructor; simpl; intuition discriminate.
  - apply demo_fresh_ids.
  - vm_compute. reflexivity.
  - simpl. auto.
  - reflexivity.
Defined.

Lemma space_switch_frame_witness :
  option_map keep_view
    (lookup (fst (_space_switch demo_visual_local [demo_arm; demo_hand]
                    (Some demo_target) (Some [1; 2]%Z) demo_scene))
            demo_target)
  = option_map keep_view (lookup demo_scene demo_target).
Proof.
  apply (proj2 (space_switch_frame demo_visual_local [demo_arm; demo_hand]
                  (Some demo_target) (Some [1; 2]%Z) demo_scene
                  (fst (_space_switch demo_visual_local [demo_arm; demo_hand]
                          (Some demo_target) (Some [1; 2]%Z) demo_scene))
                  ltac:(repeat constructor; simpl; intuition discriminate)
                  (demo_fresh_ids _)
                  ltac:(vm_compute; reflexivity))
               demo_target eq_refl).
  - repeat constructor; simpl; intuition discriminate.
  - discriminate.
Defined.

(** ** The time cursor *)

Lemma returns_to_of_steps {A} R (m : M A) : steps R m -> returns_to R m.
Proof. intros H s s' a E. eapply H; eauto. Qed.

Lemma returns_to_bind {A B} (R : Blender -> Blender -> Prop) (m : M A) (k : A -> M B) :
  (forall a b c, R a b -> R b c -> R a c) ->
  returns_to R m -> (forall a, returns_to R (k a)) -> returns_to R (bind m k).
Proof.
  intros Ht Hm Hk s s' b H. apply bind_ok_inv in H. destruct H as (s1 & a & H1 & H2).
  eapply Ht; [eapply Hm|eapply Hk]; eauto.
Qed.

Ltac same_frame_steps :=
  apply returns_to_of_steps;
  solve [steps_prims same_frame_refl same_frame_trans ltac:(reflexivity)].

Section TimeCursor.

Variable visual_local : Blender -> BoneRef -> Matrix.

Lemma custom_bake_returns_same_frame frames pose_bones dl dr ds :
  returns_to same_frame (custom_bake visual_local frames pose_bones dl dr ds).
Proof.
  intros s s' [] H. unfold custom_bake in H.
  destruct (negb dl && negb dr && negb ds); [discriminate|].
  apply bind_ok_inv in H. destruct H as (s0 & s1 & Hg & H).
  inversion Hg; subst s0 s1; clear Hg.
  apply bind_ok_inv in H. destruct H as (s1 & info & _ & H).
  apply bind_ok_inv in H. destruct H as (s2 & [] & _ & H).
  inversion H; subst. reflexivity.
Qed.

Lemma bake_all_channels_returns_same_frame frames pose_bones :
  returns_to same_frame (bake_all_channels visual_local frames pose_bones).
Proof.
  unfold bake_all_channels. destruct frames.
  - apply custom_bake_returns_same_frame.
  - intros s s' a H. discriminate.
Qed.

Ltac cursor_step :=
  match goal with
  | |- returns_to _ (bake_all_channels _ _ _) =>
      apply bake_all_channels_returns_same_frame
  | |- returns_to _ (bind _ _) =>
      apply returns_to_bind; [exact same_frame_trans| |intros ?]
  | |- returns_to _ (if ?c then _ else _) => destruct c
  | |- returns_to _ (match ?x with _ => _ end) => destruct x
  | |- returns_to _ _ => same_frame_steps
  end.

(** X11: a run of [_space_switch] or of [_remove_bones_common] that
    returns leaves the time cursor on the frame it was on, whatever frames
    were baked in between. *)
Theorem operations_restore_time_cursor :
  (forall src dest frames s s',
      _space_switch visual_local src dest frames s = (s', Ok tt) ->
      frame_current s' = frame_current s) /\
  (forall do_apply frames s s',
      _remove_bones_common visual_local do_apply frames s = (s', Ok tt) ->
      frame_current s' = frame_current s).
Proof.
  split.
  - intros src dest frames s s' H.
    assert (R : returns_to same_frame (_space_switch visual_local src dest frames)).
    { clear. unfold _space_switch, build_edit_bones, build_edit_bone,
        setup_pose_bones, setup_pose_bone, constrain_anchor, rewire.
      repeat cursor_step. }
    exact (R _ _ _ H).
  - intros do_apply frames s s' H.
    assert (R : returns_to same_frame (_remove_bones_common visual_local do_apply frames)).
    { clear. unfold _remove_bones_common, remove_step, release_source.
      repeat cursor_step. }
    exact (R _ _ _ H).
Qed.

End TimeCursor.

Lemma operations_restore_time_cursor_witness :
  frame_current (fst (_space_switch demo_visual_local [demo_arm; demo_hand] None
                        (Some [1; 2]%Z) demo_scene))
  = frame_current demo_scene
  /\ frame_current (fst (_remove_bones_common demo_visual_local true (Some [1; 2]%Z)
                           demo_switched_scene))
     = frame_current demo_switched_scene.
Proof.
  destruct (operations_restore_time_cursor demo_visual_local) as [H1 H2]. split.
  - apply (H1 [demo_arm; demo_hand] None (Some [1; 2]%Z)). vm_compute. reflexivity.
  - apply (H2 true (Some [1; 2]%Z)). vm_compute. reflexivity.
Defined.

(** ** A space switch keys the temporary armature only *)

Lemma keys_elsewhere_refl s : keys_elsewhere s s.
Proof. split; auto. Qed.

Lemma keys_elsewhere_trans a b c :
  keys_elsewhere a b -> keys_elsewhere b c -> keys_elsewhere a c.
Proof.
  intros (P1 & K1) (P2 & K2). split; [congruence|].
  intros obj Hobj. rewrite K2, K1; auto. now rewrite P1.
Qed.

Lemma keys_elsewhere_same s s' :
  preferences s' = preferences s ->
  (forall obj, action_keys s' obj = action_keys s obj) -> keys_elsewhere s s'.
Proof. intros P K. split; auto. Qed.

Lemma action_keys_update_object n g s obj :
  (forall o, obj_name (g o) = obj_name o) ->
  (forall o, animation_data (g o) = animation_data o) ->
  action_keys (update_object n g s) obj = action_keys s obj.
Proof.
  intros Hn Ha. unfold action_keys. rewrite lookup_object_update_object by exact Hn.
  destruct (String.eqb obj n) eqn:E; auto.
  apply String.eqb_eq in E. subst obj.
  destruct (lookup_object s n); simpl; auto.
  unfold ensure_action. now rewrite Ha.
Qed.

Lemma action_keys_map_objects (h : Object -> Object) s obj :
  (forall o, obj_name (h o) = obj_name o) ->
  (forall o, animation_data (h o) = animation_data o) ->
  action_keys (set_objects (map h (objects s)) s) obj = action_keys s obj.
Proof.
  intros Hn Ha. unfold action_keys, lookup_object. simpl.
  rewrite find_object_map by exact Hn.
  destruct (find (is_object obj) (objects s)); simpl; auto.
  unfold ensure_action. now rewrite Ha.
Qed.

Lemma keys_elsewhere_mode_set m : steps keys_elsewhere (mode_set m).
Proof.
  unfold mode_set. apply steps_modify. intros s.
  apply keys_elsewhere_same; [reflexivity|]. intros obj.
  apply action_keys_map_objects; intros o; destruct m; simpl; auto;
    destruct (obj_select o || is_active_object s o); reflexivity.
Qed.

Lemma keys_elsewhere_get_space_switching_armature_object :
  steps keys_elsewhere get_space_switching_armature_object.
Proof.
  intros s s' r H. apply keys_elsewhere_same.
  - revert H. unfold get_space_switching_armature_object.
    unfold bind at 1. unfold get at 1.
    destruct (lookup_object s (pref_object_name (preferences s)));
      intros H; inversion H; reflexivity.
  - intros obj.
    pose proof (get_space_switching_armature_object_run s) as (_ & _ & Ho & _).
    rewrite H in Ho. simpl in Ho. unfold action_keys, lookup_object. rewrite Ho.
    rewrite find_app.
    destruct (lookup_object s (pref_object_name (preferences s))) as [o|] eqn:E.
    + simpl. destruct (find (is_object obj) (objects s)); reflexivity.
    + fold (lookup_object s obj).
      destruct (lookup_object s obj) as [o|] eqn:Eo; [reflexivity|].
      simpl. destruct (is_object obj _); reflexivity.
Qed.

Ltac keys_elsewhere_prim :=
  first
    [ apply keys_elsewhere_mode_set
    | apply keys_elsewhere_get_space_switching_armature_object
    | apply keys_elsewhere_same;
      [ reflexivity
      | intros ?;
        first [ reflexivity
              | apply action_keys_update_bone
              | apply action_keys_update_object; intros ?; reflexivity ] ] ].

Ltac keys_elsewhere_steps :=
  steps_prims keys_elsewhere_refl keys_elsewhere_trans keys_elsewhere_prim.

(** A step of a run, with what it returned and the relation it kept at
    hand for the steps after it. *)
Lemma steps_at_bind_run {A B} (R : Blender -> Blender -> Prop)
    (m : M A) (k : A -> M B) s :
  (forall a b c, R a b -> R b c -> R a c) ->
  steps R m ->
  (forall a s1, m s = (s1, Ok a) -> R s s1 -> steps_at R (k a) s1) ->
  steps_at R (bind m k) s.
Proof.
  intros Ht Hm Hk. apply steps_at_bind; [exact Ht|intros s' r E; eapply Hm; eauto|].
  intros a s1 E. apply Hk; [exact E|]. eapply Hm; eauto.
Qed.

Lemma returns_bind_with {A B} (P : A -> Prop) (Q : B -> Prop) (m : M A) (k : A -> M B) :
  returns_only P m -> (forall a, P a -> returns_only Q (k a)) ->
  returns_only Q (bind m k).
Proof.
  intros Hm Hk s s' b H. apply bind_ok_inv in H.
  destruct H as (s1 & a & H1 & H). eapply Hk; eauto.
Qed.

Lemma for_fold_invariant {A B} (Inv : B -> Prop) (xs : list A) (body : B -> A -> M B) :
  (forall acc x, Inv acc -> returns_only Inv (body acc x)) ->
  forall acc, Inv acc -> returns_only Inv (for_fold xs acc body).
Proof.
  intros Hb. induction xs as [|x xs IH]; intros acc Ha s s' acc' H; simpl in *.
  - inversion H; subst. exact Ha.
  - apply bind_ok_inv in H. destruct H as (s1 & acc1 & H1 & H).
    eapply IH; [|exact H]. eapply Hb; eauto.
Qed.

Lemma returns_bones_item obj n : returns_only (fun r => r = (obj, n)) (bones_item obj n).
Proof. intros s s' r H. apply bones_item_ok in H. tauto. Qed.

(** The pose bones the Pose Mode loop hands to the bake are bones of the
    temporary armature. *)
Lemma setup_pose_bones_object T dest active src names s s' tpb ctr :
  setup_pose_bones T dest active src names s = (s', Ok (tpb, ctr)) ->
  forall b, In b tpb -> fst b = T.
Proof.
  intros H. unfold setup_pose_bones in H.
  apply (for_fold_invariant
           (fun acc : list BoneRef * list nat => forall b, In b (fst acc) -> fst b = T))
    in H; [exact H| |intros b []].
  intros [a c] [x n] Ha. unfold setup_pose_bone.
  apply returns_bind; intros ?. apply returns_bind; intros ?.
  apply returns_bind; intros ?.
  apply (returns_bind_with _ _ _ _ (returns_bones_item T n)). intros r ->.
  repeat (apply returns_bind; intros ?). apply returns_ret.
  simpl. intros b Hb. apply in_app_or in Hb. destruct Hb as [Hb|[<-|[]]]; auto.
Qed.

Section KeysElsewhere.

Variable visual_local : Blender -> BoneRef -> Matrix.

Lemma keys_elsewhere_bake_all_channels frames pose_bones s :
  (forall b, In b pose_bones -> fst b = pref_object_name (preferences s)) ->
  steps_at keys_elsewhere (bake_all_channels visual_local frames pose_bones) s.
Proof.
  intros Hb s' r H. unfold bake_all_channels in H. destruct frames as [fs|].
  - destruct (custom_bake_keyed_step visual_local fs pose_bones true true true _ _ _ H)
      as ((_ & _ & Hpref) & K).
    split; [exact Hpref|]. intros obj Hobj. destruct (K obj) as (ks & E & Hks).
    destruct ks as [|k ks]; [now rewrite app_nil_r in E|].
    exfalso. apply Hobj. destruct (Hks k (or_introl eq_refl)) as (Hin & _).
    apply Hb in Hin. exact Hin.
  - inversion H; subst. apply keys_elsewhere_refl.
Qed.

Lemma space_switch_keys_elsewhere src dest frames s :
  steps_at keys_elsewhere (_space_switch visual_local src dest frames) s.
Proof.
  unfold _space_switch.
  apply steps_at_bind;
    [exact keys_elsewhere_trans|apply steps_at_of, steps_get, keys_elsewhere_refl|].
  intros s0 s0' Hg. inversion Hg; subst s0 s0'; clear Hg.
  destruct (_ <? _)%nat; [apply steps_at_of, steps_ret, keys_elsewhere_refl|].
  apply (steps_at_bind_run _ _ _ _ keys_elsewhere_trans); [keys_elsewhere_steps|].
  intros [] s1 _ (P1 & _).
  apply (steps_at_bind_run _ _ _ _ keys_elsewhere_trans); [keys_elsewhere_steps|].
  intros [] s2 _ (P2 & _).
  apply (steps_at_bind_run _ _ _ _ keys_elsewhere_trans); [keys_elsewhere_steps|].
  intros [] s3 _ (P3 & _).
  apply (steps_at_bind_run _ _ _ _ keys_elsewhere_trans); [keys_elsewhere_steps|].
  intros [] s4 _ (P4 & _).
  apply (steps_at_bind_run _ _ _ _ keys_elsewhere_trans); [keys_elsewhere_steps|].
  intros T s5 H5 (P5 & _).
  apply get_space_switching_armature_object_ok in H5. destruct H5 as [HT _].
  apply (steps_at_bind_run _ _ _ _ keys_elsewhere_trans); [keys_elsewhere_steps|].
  intros [] s6 _ (P6 & _).
  apply (steps_at_bind_run _ _ _ _ keys_elsewhere_trans); [keys_elsewhere_steps|].
  intros [] s7 _ (P7 & _).
  apply (steps_at_bind_run _ _ _ _ keys_elsewhere_trans); [keys_elsewhere_steps|].
  intros [] s8 _ (P8 & _).
  apply (steps_at_bind_run _ _ _ _ keys_elsewhere_trans).
  { unfold build_edit_bones, build_edit_bone. keys_elsewhere_steps. }
  intros names s9 _ (P9 & _).
  apply (steps_at_bind_run _ _ _ _ keys_elsewhere_trans); [keys_elsewhere_steps|].
  intros [] s10 _ (P10 & _).
  apply (steps_at_bind_run _ _ _ _ keys_elsewhere_trans); [keys_elsewhere_steps|].
  intros [] s11 _ (P11 & _).
  apply (steps_at_bind_run _ _ _ _ keys_elsewhere_trans); [keys_elsewhere_steps|].
  intros [] s12 _ (P12 & _).
  destruct (negb _); [apply steps_at_of, steps_raise, keys_elsewhere_refl|].
  apply (steps_at_bind_run _ _ _ _ keys_elsewhere_trans).
  { unfold setup_pose_bones, setup_pose_bone, constrain_anchor. keys_elsewhere_steps. }
  intros [tpb ctr] s13 H13 (P13 & _).
  apply steps_at_bind; [exact keys_elsewhere_trans| |].
  - apply keys_elsewhere_bake_all_channels. intros b Hb.
    rewrite (setup_pose_bones_object _ _ _ _ _ _ _ _ _ H13 b Hb), HT. congruence.
  - intros [] s14 _. apply steps_at_of.
    unfold rewire. keys_elsewhere_steps.
Qed.

(** X12: a space switch keys the temporary armature only.  However a run
    of [_space_switch] ends, returning or raising, it has made no
    insertion into the action of any other object: the action of every
    object other than the temporary armature is as it was. *)
Theorem space_switch_keys_temporary_armature src dest frames s obj :
  obj <> pref_object_name (preferences s) ->
  action_keys (fst (_space_switch visual_local src dest frames s)) obj
  = action_keys s obj.
Proof.
  intros Hobj.
  destruct (_space_switch visual_local src dest frames s) as [s' r] eqn:E. simpl.
  apply (space_switch_keys_elsewhere src dest frames s s' r E). exact Hobj.
Qed.

End KeysElsewhere.

Lemma space_switch_keys_temporary_armature_witness :
  action_keys (fst (_space_switch demo_visual_local [demo_arm; demo_hand] None
                      (Some [1; 2]%Z) demo_scene)) "Rig"
  = action_keys demo_scene "Rig".
Proof.
  apply (space_switch_keys_temporary_armature demo_visual_local [demo_arm; demo_hand]
           None (Some [1; 2]%Z) demo_scene "Rig").
  discriminate.
Defined.

(** ** The operators *)

Lemma find_unique {A} (key : A -> string) (l : list A) (x : A) :
  NoDup (map key l) -> In x l ->
  find (fun y => String.eqb (key y) (key x)) l = Some x.
Proof.
  induction l as [|y l IH]; intros Hnd Hin; [destruct Hin|].
  simpl in *. inversion Hnd as [|? ? Hy Hnd']; subst.
  destruct Hin as [->|Hin].
  - now rewrite String.eqb_refl.
  - destruct (String.eqb (key y) (key x)) eqn:E.
    + apply String.eqb_eq in E. exfalso. apply Hy. rewrite E. now apply in_map.
    + auto.
Qed.

Lemma lookup_unique s o p :
  unique_names s -> In o (objects s) -> In p (bones o) ->
  lookup s (obj_name o, name (bone p)) = Some p.
Proof.
  intros [Ho Hb] Hin Hp. unfold lookup, lookup_object. simpl.
  unfold is_object. rewrite (find_unique obj_name (objects s) o Ho Hin).
  unfold lookup_bone, is_bone.
  apply (find_unique (fun q => name (bone q)) (bones o) p (Hb o Hin) Hp).
Qed.

Lemma in_selected_pose_bones s r :
  In r (selected_pose_bones s) ->
  exists o p, In o (objects s) /\ In p (bones o) /\
              r = (obj_name o, name (bone p)) /\ In p (selected_pose_bone_data s).
Proof.
  unfold selected_pose_bones, selected_pose_bone_data. intros H.
  apply in_flat_map in H. destruct H as (o & Ho & H).
  destruct (obj_mode o) eqn:Em; try destruct H.
  apply in_map_iff in H. destruct H as (p & <- & Hp).
  exists o, p. repeat split; auto.
  - apply filter_In in Hp. tauto.
  - apply in_flat_map. exists o. rewrite Em. auto.
Qed.

Lemma selected_lookup s r :
  unique_names s -> In r (selected_pose_bones s) ->
  exists p, lookup s r = Some p /\ In p (selected_pose_bone_data s).
Proof.
  intros Hu Hr. destruct (in_selected_pose_bones s r Hr) as (o & p & Ho & Hp & -> & Hd).
  exists p. split; auto. now apply lookup_unique.
Qed.

Lemma NoDup_map_filter {A B} (f : A -> B) (g : A -> bool) (l : list A) :
  NoDup (map f l) -> NoDup (map f (filter g l)).
Proof.
  induction l as [|x l IH]; simpl; intros H; [constructor|].
  inversion H as [|? ? Hx Hnd]; subst.
  destruct (g x); simpl; auto. constructor; auto.
  intros Hin. apply Hx. apply in_map_iff in Hin. destruct Hin as (y & Hy & Hin).
  apply in_map_iff. exists y. split; auto. apply filter_In in Hin. tauto.
Qed.

Lemma NoDup_app_intro {A} (l1 l2 : list A) :
  NoDup l1 -> NoDup l2 -> (forall x, In x l1 -> ~ In x l2) -> NoDup (l1 ++ l2).
Proof.
  induction 1 as [|x l1 Hx Hnd IH]; simpl; intros H2 Hd; auto.
  constructor.
  - intros Hin. apply in_app_or in Hin. destruct Hin as [Hin|Hin]; auto.
    apply (Hd x); auto.
  - apply IH; auto.
Qed.

Lemma selected_pose_bones_NoDup s : unique_names s -> NoDup (selected_pose_bones s).
Proof.
  intros [Ho Hb]. unfold selected_pose_bones.
  induction (objects s) as [|o os IH]; simpl; [constructor|].
  simpl in Ho. inversion Ho as [|? ? Hname Hnd]; subst.
  assert (Hrest : NoDup (flat_map
            (fun o0 => match obj_mode o0 with
                       | POSE => map (fun p => (obj_name o0, name (bone p)))
                                     (filter (fun p => select (bone p) && negb (hide (bone p)))
                                             (bones o0))
                       | _ => []
                       end) os)).
  { apply IH; auto. intros o' Ho'. apply Hb. simpl; auto. }
  assert (Hhead : forall x,
            In x (flat_map
              (fun o0 => match obj_mode o0 with
                         | POSE => map (fun p => (obj_name o0, name (bone p)))
                                       (filter (fun p => select (bone p) && negb (hide (bone p)))
                                               (bones o0))
                         | _ => []
                         end) os) -> fst x <> obj_name o).
  { intros x Hx E. apply in_flat_map in Hx. destruct Hx as (o' & Ho' & Hx).
    destruct (obj_mode o'); try destruct Hx.
    apply in_map_iff in Hx. destruct Hx as (p & <- & _). simpl in E.
    apply Hname. rewrite <- E. now apply in_map. }
  destruct (obj_mode o); auto.
  apply NoDup_app_intro; auto.
  - assert (Hinj : NoDup (map (fun p => name (bone p))
                           (filter (fun p => select (bone p) && negb (hide (bone p)))
                                   (bones o)))).
    { apply NoDup_map_filter, Hb. simpl; auto. }
    revert Hinj. generalize (filter (fun p => select (bone p) && negb (hide (bone p)))
                                    (bones o)).
    induction l as [|p l IHl]; simpl; intros H; [constructor|].
    inversion H as [|? ? Hp Hl]; subst. constructor; auto.
    intros Hin. apply Hp. apply in_map_iff in Hin. destruct Hin as (q & Hq & Hin).
    inversion Hq. apply in_map_iff. eauto.
  - intros x Hx Hx'. apply (Hhead x Hx').
    apply in_map_iff in Hx. destruct Hx as (p & <- & _). reflexivity.
Qed.



Lemma existsb_false {A} (f : A -> bool) (l : list A) x :
  existsb f l = false -> In x l -> f x = false.
Proof.
  intros H Hin. destruct (f x) eqn:E; auto.
  assert (existsb f l = true) by (apply existsb_exists; eauto). congruence.
Qed.

Lemma existsb_weaken {A} (f g : A -> bool) (l : list A) :
  (forall x, g x = true -> f x = true) -> existsb f l = false -> existsb g l = false.
Proof.
  intros H Hf. destruct (existsb g l) eqn:E; auto.
  apply existsb_exists in E. destruct E as (x & Hx & Hg).
  specialize (H x Hg). rewrite (existsb_false f l x Hf Hx) in H. discriminate.
Qed.

(** X13: how the polls of the operators relate.  Whenever Apply Bone is
    offered, Delete Bone is offered; whenever Switch to Active or Build
    Two-Bone IK is offered, Switch to World is offered; Switch to Target is
    offered exactly when Switch to World is; every one of them requires
    Pose Mode, as Add Empty does; and when a switching operator is offered,
    no selected pose bone carries a constraint. *)
Theorem polls_hierarchy s :
  (apply_bone_poll s = true -> delete_bone_poll s = true) /\
  (selection_to_active_poll s = true -> selection_to_world_poll s = true) /\
  (build_two_bone_ik_poll s = true -> selection_to_world_poll s = true) /\
  selection_to_target_poll s = selection_to_world_poll s /\
  (delete_bone_poll s = true \/ selection_to_world_poll s = true
   \/ bake_pose_poll s = true -> add_empty_poll s = true) /\
  (selection_to_world_poll s = true ->
   selected_pose_bone_data s <> [] /\
   forall p, In p (selected_pose_bone_data s) -> constraints p = []).
Proof.
  unfold apply_bone_poll, delete_bone_poll, selection_to_active_poll,
    selection_to_world_poll, build_two_bone_ik_poll, selection_to_target_poll,
    bake_pose_poll, add_empty_poll, selection_constrained.
  destruct (mode_eqb (context_mode s) POSE); simpl.
  2:{ repeat split; try discriminate. intros [H|[H|H]]; discriminate. }
  split; [|split; [|split; [|split; [reflexivity|split; [auto|]]]]].
  - destruct (existsb _ _) eqn:E; [discriminate|].
    intros H.
    assert (W : forall p : PoseBone,
               tag_eqb (space_switching_tag (bone p)) NONE = true ->
               negb (tag_eqb (space_switching_tag (bone p)) COPY) = true).
    { intros p. destruct (space_switching_tag (bone p)); simpl; congruence. }
    rewrite (existsb_weaken _ _ _ W E). exact H.
  - destruct (existsb _ _); auto. intros H.
    apply Nat.ltb_lt in H. apply Nat.ltb_lt. lia.
  - destruct (existsb _ _); auto. intros H.
    apply Nat.eqb_eq in H. apply Nat.ltb_lt. lia.
  - destruct (existsb _ _) eqn:E; [discriminate|]. intros H. split.
    + intros E0. rewrite E0 in H. discriminate.
    + intros p Hp. apply (existsb_false _ _ p E) in Hp.
      destruct (constraints p); [reflexivity|discriminate].
Qed.

Lemma unique_names_demo_scene : unique_names demo_scene.
Proof.
  split.
  - repeat constructor; simpl; intuition discriminate.
  - intros o [<-|[]]. repeat constructor; simpl; intuition discriminate.
Qed.

Lemma polls_hierarchy_witness :
  delete_bone_poll demo_switched_scene = true
  /\ selection_to_world_poll demo_scene = true
  /\ add_empty_poll demo_scene = true
  /\ (selected_pose_bone_data demo_scene <> [] /\
      forall p, In p (selected_pose_bone_data demo_scene) -> constraints p = []).
Proof.
  destruct (polls_hierarchy demo_switched_scene) as (H1 & _).
  destruct (polls_hierarchy demo_scene) as (_ & H2 & _ & _ & H5 & H6).
  split; [apply H1; vm_compute; reflexivity|].
  split; [apply H2; vm_compute; reflexivity|].
  split; [apply H5; right; left; vm_compute; reflexivity|].
  apply H6. vm_compute. reflexivity.
Defined.

Section SwitchOperators.

Variable visual_local : Blender -> BoneRef -> Matrix.

Lemma unconstrained_selection s :
  unique_names s ->
  selection_constrained s = false ->
  NoDup (selected_pose_bones s) /\
  forall W, (forall x, In x W -> In x (selected_pose_bones s)) ->
            (forall x, In x W -> constraints_of s x = []) /\ fresh_ids s W.
Proof.
  intros Hu Hc. split; [now apply selected_pose_bones_NoDup|].
  intros W HW.
  assert (Hnone : forall x, In x W -> constraints_of s x = []).
  { intros x Hx. destruct (selected_lookup s x Hu (HW x Hx)) as (p & Hp & Hd).
    unfold constraints_of. rewrite Hp.
    apply (existsb_false _ _ p Hc) in Hd.
    destruct (constraints p); [reflexivity|discriminate]. }
  split; auto. intros x c Hx Hin. rewrite (Hnone x Hx) in Hin. destruct Hin.
Qed.

Lemma switched_source src dest frames s s' srcb :
  NoDup (remove_dest dest src) ->
  fresh_ids s (remove_dest dest src) ->
  _space_switch visual_local src dest frames s = (s', Ok tt) ->
  In srcb (remove_dest dest src) ->
  exists copy par id1 id2,
    lookup s (pref_object_name (preferences s), copy) = None /\
    has s' (pref_object_name (preferences s), copy) par [] /\
    constraints_of s' srcb
    = constraints_of s srcb
      ++ gained (is_connected s srcb) (pref_object_name (preferences s), copy) id1 id2.
Proof.
  intros Hnd Hfresh H Hin.
  destruct (space_switch_effect visual_local src dest frames s s' Hnd Hfresh H)
    as (chains & Hall & _).
  destruct (Forall2_in_l _ _ _ _ Hall Hin)
    as (ch & _ & _ & Hnew & (Hcopy & _) & id1 & id2 & Hcs).
  exists (chain_copy ch), (chain_parent ch), id1, id2.
  split; [apply Hnew, chain_copy_named|]. split; [exact Hcopy|exact Hcs].
Qed.

Lemma poll_unconstrained s :
  selection_to_world_poll s = true \/ selection_to_active_poll s = true ->
  selection_constrained s = false.
Proof.
  unfold selection_to_world_poll, selection_to_active_poll.
  destruct (mode_eqb (context_mode s) POSE), (selection_constrained s);
    intros [H|H]; auto; discriminate.
Qed.

(** X15: Switch to World, run where its poll holds on a scene whose names
    identify.  When it returns, every selected pose bone has a new,
    unconstrained copy in the temporary armature, and its constraints,
    none before, are exactly: a CopyLocation constraint to the
    copy unless the bone is connected, then a CopyRotation constraint to
    the copy. *)
Theorem selection_to_world_switches frame_start frame_end s s' srcb :
  unique_names s ->
  selection_to_world_poll s = true ->
  selection_to_world_execute visual_local frame_start frame_end s = (s', Ok FINISHED) ->
  In srcb (selected_pose_bones s) ->
  exists copy id1 id2,
    lookup s (pref_object_name (preferences s), copy) = None /\
    (exists par, has s' (pref_object_name (preferences s), copy) par []) /\
    constraints_of s srcb = [] /\
    constraints_of s' srcb
    = (if is_connected s srcb then []
       else [copy_location_to id1 (pref_object_name (preferences s), copy) 0])
      ++ [copy_rotation_to id2 (pref_object_name (preferences s), copy)].
Proof.
  intros Hu Hpoll H Hin. unfold selection_to_world_execute in H.
  unfold bind at 1 in H. unfold get at 1 in H.
  apply bind_ok_inv in H. destruct H as (s1 & [] & H & Hret).
  inversion Hret; subst s1; clear Hret.
  destruct (unconstrained_selection s Hu (poll_unconstrained s (or_introl Hpoll)))
    as (Hnd & Hsel).
  destruct (Hsel (selected_pose_bones s) (fun x Hx => Hx)) as (Hnone & Hfresh).
  destruct (switched_source _ None _ s s' srcb Hnd Hfresh H Hin)
    as (copy & par & id1 & id2 & Hnew & Hcopy & Hcs).
  exists copy, id1, id2. rewrite (Hnone srcb Hin) in Hcs.
  repeat split; eauto.
Qed.

(** X16: Switch to Active, run where its poll holds on a scene whose names
    identify.  When it returns, the active pose bone keeps its parent, its
    connection and its constraints: it is the destination, never a source.
    Every other selected pose bone has a new unconstrained copy in the
    temporary armature and, as its only constraints, a CopyLocation
    constraint to the copy unless it is connected, then a CopyRotation
    constraint to the copy. *)
Theorem selection_to_active_spares_active frame_start frame_end s s' d :
  unique_names s ->
  selection_to_active_poll s = true ->
  active_pose_bone s = Some d ->
  selection_to_active_execute visual_local frame_start frame_end s = (s', Ok FINISHED) ->
  option_map keep_view (lookup s' d) = option_map keep_view (lookup s d) /\
  forall srcb,
    In srcb (selected_pose_bones s) -> srcb <> d ->
    exists copy id1 id2,
      lookup s (pref_object_name (preferences s), copy) = None /\
      (exists par, has s' (pref_object_name (preferences s), copy) par []) /\
      constraints_of s' srcb
      = (if is_connected s srcb then []
         else [copy_location_to id1 (pref_object_name (preferences s), copy) 0])
        ++ [copy_rotation_to id2 (pref_object_name (preferences s), copy)].
Proof.
  intros Hu Hpoll Hd H. unfold selection_to_active_execute in H.
  unfold bind at 1 in H. unfold get at 1 in H. cbv zeta in H. rewrite Hd in H.
  apply bind_ok_inv in H. destruct H as (s1 & [] & H & Hret).
  inversion Hret; subst s1; clear Hret.
  destruct (unconstrained_selection s Hu (poll_unconstrained s (or_intror Hpoll)))
    as (Hnd & Hsel).
  assert (Hsub : forall x, In x (remove_dest (Some d) (selected_pose_bones s)) ->
                           In x (selected_pose_bones s)).
  { intros x Hx. simpl in Hx. eapply remove_first_incl; eauto. }
  destruct (Hsel _ Hsub) as (Hnone & Hfresh).
  assert (HndW : NoDup (remove_dest (Some d) (selected_pose_bones s)))
    by now apply remove_dest_NoDup.
  assert (Hex : lookup s d <> None).
  { unfold active_pose_bone in Hd. unfold lookup.
    destruct (active_object s) as [a|]; [|discriminate].
    destruct (lookup_object s a) as [o|] eqn:Eo; [|discriminate].
    destruct (active_bone o) as [b|]; [|discriminate].
    destruct (lookup_bone o b) eqn:Eb; [|discriminate].
    inversion Hd; subst d. simpl. rewrite Eo, Eb. discriminate. }
  split.
  - destruct (space_switch_effect visual_local _ _ _ s s' HndW Hfresh H)
      as (chains & Hall & _ & Hframe & _).
    apply Hframe.
    + simpl. now apply remove_first_nodup.
    + intros Hin. apply in_map_iff in Hin. destruct Hin as (n & <- & Hn).
      apply in_flat_map in Hn. destruct Hn as (ch & Hch & Hn).
      destruct (Forall2_in_r _ _ _ _ Hall Hch) as (a & _ & _ & Hnew & _).
      apply Hex, Hnew, Hn.
  - intros srcb Hin Hne.
    assert (HinW : In srcb (remove_dest (Some d) (selected_pose_bones s))).
    { simpl. now apply remove_first_in_iff. }
    destruct (switched_source _ _ _ s s' srcb HndW Hfresh H HinW)
      as (copy & par & id1 & id2 & Hnew & Hcopy & Hcs).
    exists copy, id1, id2. rewrite (Hnone srcb HinW) in Hcs.
    repeat split; eauto.
Qed.


End SwitchOperators.

Lemma selection_to_world_switches_witness :
  exists copy id1 id2,
    lookup demo_scene ("SpaceSwitching", copy) = None /\
    (exists par,
        has (fst (selection_to_world_execute demo_visual_local 1 2 demo_scene))
            ("SpaceSwitching", copy) par []) /\
    constraints_of demo_scene demo_hand = [] /\
    constraints_of (fst (selection_to_world_execute demo_visual_local 1 2 demo_scene))
                   demo_hand
    = [copy_location_to id1 ("SpaceSwitching", copy) 0;
       copy_rotation_to id2 ("SpaceSwitching", copy)].
Proof.
  apply (selection_to_world_switches demo_visual_local 1 2 demo_scene
           (fst (selection_to_world_execute demo_visual_local 1 2 demo_scene))
           demo_hand).
  - exact unique_names_demo_scene.
  - vm_compute. reflexivity.
  - vm_compute. reflexivity.
  - simpl. auto.
Defined.

Lemma selection_to_active_spares_active_witness :
  option_map keep_view
    (lookup (fst (selection_to_active_execute demo_visual_local 1 2 demo_scene))
            demo_hand)
  = option_map keep_view (lookup demo_scene demo_hand) /\
  forall srcb,
    In srcb (selected_pose_bones demo_scene) -> srcb <> demo_hand ->
    exists copy id1 id2,
      lookup demo_scene ("SpaceSwitching", copy) = None /\
      (exists par,
          has (fst (selection_to_active_execute demo_visual_local 1 2 demo_scene))
              ("SpaceSwitching", copy) par []) /\
      constraints_of (fst (selection_to_active_execute demo_visual_local 1 2 demo_scene))
                     srcb
      = (if is_connected demo_scene srcb then []
         else [copy_location_to id1 ("SpaceSwitching", copy) 0])
        ++ [copy_rotation_to id2 ("SpaceSwitching", copy)].
Proof.
  apply (selection_to_active_spares_active demo_visual_local 1 2 demo_scene
           (fst (selection_to_active_execute demo_visual_local 1 2 demo_scene))
           demo_hand).
  - exact unique_names_demo_scene.
  - vm_compute. reflexivity.
  - reflexivity.
  - vm_compute. reflexivity.
Defined.


(** ** From the switch to the removal *)

Lemma is_constrained_to_made (c : Constraint) (r : BoneRef) :
  target c = Some (fst r) -> subtarget c = snd r -> is_constrained_to c r = true.
Proof.
  intros Ht Hs. unfold is_constrained_to. rewrite Ht, Hs. simpl.
  now rewrite !String.eqb_refl.
Qed.

Section Found.

Variable visual_local : Blender -> BoneRef -> Matrix.

(** X18: what the switch builds, the removal finds.  After a run of
    [_space_switch] that returns, every source bone it worked on is a bone
    the scan of [_remove_bones_common] takes as constrained to its copy,
    by [is_constrained_to] on the CopyRotation constraint the switch gave
    it; so it is among the bones Apply bakes when the copy is selected. *)
Theorem switched_sources_are_found src dest frames s s' srcb :
  NoDup (remove_dest dest src) ->
  fresh_ids s (remove_dest dest src) ->
  _space_switch visual_local src dest frames s = (s', Ok tt) ->
  In srcb (remove_dest dest src) ->
  exists copy sp id,
    lookup s (pref_object_name (preferences s), copy) = None /\
    lookup s' (pref_object_name (preferences s), copy) <> None /\
    lookup s' srcb = Some sp /\
    In (copy_rotation_to id (pref_object_name (preferences s), copy)) (constraints sp) /\
    is_constrained_to (copy_rotation_to id (pref_object_name (preferences s), copy))
                      (pref_object_name (preferences s), copy) = true /\
    was_constrained (pref_object_name (preferences s), copy) sp = true.
Proof.
  intros Hnd Hfresh H Hin.
  destruct (switched_source visual_local src dest frames s s' srcb Hnd Hfresh H Hin)
    as (copy & par & id1 & id2 & Hnew & (cp & Hcp & _) & Hcs).
  unfold constraints_of in Hcs at 1.
  destruct (lookup s' srcb) as [sp|] eqn:Esp.
  2:{ exfalso. symmetry in Hcs. apply app_eq_nil in Hcs. destruct Hcs as [_ Hcs].
      unfold gained in Hcs. apply app_eq_nil in Hcs. destruct Hcs as [_ Hcs].
      discriminate. }
  exists copy, sp, id2.
  assert (Hc : In (copy_rotation_to id2 (pref_object_name (preferences s), copy))
                  (constraints sp)).
  { rewrite Hcs. unfold gained. apply in_or_app. right. apply in_or_app. right.
    simpl. auto. }
  assert (Hi : is_constrained_to
                 (copy_rotation_to id2 (pref_object_name (preferences s), copy))
                 (pref_object_name (preferences s), copy) = true)
    by (apply is_constrained_to_made; reflexivity).
  repeat split; auto.
  - rewrite Hcp. discriminate.
  - unfold was_constrained. apply existsb_exists. eauto.
Qed.

End Found.

Lemma switched_sources_are_found_witness :
  exists copy sp id,
    lookup demo_scene ("SpaceSwitching", copy) = None /\
    lookup demo_switched_scene ("SpaceSwitching", copy) <> None /\
    lookup demo_switched_scene demo_arm = Some sp /\
    In (copy_rotation_to id ("SpaceSwitching", copy)) (constraints sp) /\
    is_constrained_to (copy_rotation_to id ("SpaceSwitching", copy))
                      ("SpaceSwitching", copy) = true /\
    was_constrained ("SpaceSwitching", copy) sp = true.
Proof.
  apply (switched_sources_are_found demo_visual_local [demo_arm; demo_hand] None
           (Some [1; 2]%Z) demo_scene demo_switched_scene demo_arm).
  - repeat constructor; simpl; intuition discriminate.
  - apply demo_fresh_ids.
  - vm_compute. reflexivity.
  - simpl. auto.
Defined.

(** ** What the removal spares *)

Lemma get_space_switching_armature_object_ok' s s' r :
  get_space_switching_armature_object s = (s', r) ->
  r = Ok (pref_object_name (preferences s)) /\ kept s s'.
Proof.
  intros H. pose proof (get_space_switching_armature_object_run s) as (Hr & _).
  rewrite H in Hr. simpl in Hr. subst r. split; auto.
  exact (proj2 (get_space_switching_armature_object_ok _ _ _ H)).
Qed.


Lemma spared_refl T s : spared T s s.
Proof.
  split; auto. intros r p _ Hp. exists p. repeat split; auto. apply incl_refl.
Qed.

Lemma spared_trans T a b c : spared T a b -> spared T b c -> spared T a c.
Proof.
  intros (P1 & H1) (P2 & H2). split; [congruence|].
  intros r p Hr Hp. destruct (H1 r p Hr Hp) as (p1 & Hp1 & A1 & B1 & C1).
  destruct (H2 r p1 Hr Hp1) as (p2 & Hp2 & A2 & B2 & C2).
  exists p2. repeat split; try congruence. eapply incl_tran; eauto.
Qed.

Lemma spared_of_kept T s s' : kept s s' -> spared T s s'.
Proof.
  intros (H & _ & P). split; auto. intros r p _ Hp.
  specialize (H r). rewrite Hp in H.
  destruct (lookup s' r) as [p'|]; simpl in H; [|discriminate].
  exists p'. unfold keep_view in H. inversion H as [[A B C]].
  repeat split; auto. rewrite C. apply incl_refl.
Qed.

Lemma spared_while_refl T s : spared_while T s s.
Proof. intros _. apply spared_refl. Qed.

Lemma spared_while_trans T a b c :
  spared_while T a b -> spared_while T b c -> spared_while T a c.
Proof.
  intros H1 H2 G. specialize (H1 G). eapply spared_trans; [exact H1|].
  apply H2. destruct H1 as [P _]. now rewrite P.
Qed.

Lemma steps_weaken {A} (R R' : Blender -> Blender -> Prop) (m : M A) :
  (forall s s', R s s' -> R' s s') -> steps R m -> steps R' m.
Proof. intros H Hm s s' r E. apply H. eapply Hm; eauto. Qed.

Lemma spared_write_bone T r f :
  keeps_name f ->
  (forall p, parent (bone (f p)) = parent (bone p)) ->
  (forall p, use_connect (bone (f p)) = use_connect (bone p)) ->
  (forall p, incl (constraints (f p)) (constraints p)) ->
  steps (spared T) (write_bone r f).
Proof.
  intros Hn Hp Hc Hi s s' res H. apply write_bone_run in H. destruct H as [->| ->].
  - apply spared_refl.
  - split; [reflexivity|]. intros r' p _ Hl.
    rewrite lookup_update_bone by exact Hn.
    destruct (boneref_eqb r' r) eqn:E.
    + apply boneref_eqb_eq in E. subst r'. rewrite Hl. simpl.
      exists (f p). repeat split; auto.
    + exists p. repeat split; auto. apply incl_refl.
Qed.

Lemma kept_remove_bone_curves b : steps kept (remove_bone_curves b).
Proof.
  unfold remove_bone_curves.
  steps_auto kept_refl kept_trans. apply kept_update_object; reflexivity.
Qed.

Lemma spared_edit_bones_remove T n :
  steps (spared T) (edit_bones_remove (T, n)).
Proof.
  unfold edit_bones_remove. intros s s' res H.
  apply bind_inv in H. destruct H as [(e & H & ->)|(s1 & p & H1 & H2)].
  - unfold get_bone in H. destruct (lookup s (T, n)); inversion H. apply spared_refl.
  - apply get_bone_ok in H1. destruct H1 as [-> _].
    inversion H2; subst s' res; clear H2.
    split; [reflexivity|]. intros r q Hr Hq. exists q.
    repeat split; auto; [|apply incl_refl].
    unfold lookup in *. rewrite lookup_object_update_object by reflexivity.
    simpl fst. apply String.eqb_neq in Hr. now rewrite Hr.
Qed.

Lemma spared_remove_named T name :
  steps (spared T)
        (bind (bones_item T name) (fun temp_edit_bone => edit_bones_remove temp_edit_bone)).
Proof.
  intros s s' res H. apply bind_inv in H.
  destruct H as [(e & H & ->)|(s1 & b & H1 & H2)].
  - assert (St : steps (spared T) (bones_item T name)).
    { unfold bones_item. steps_auto (spared_refl T) (spared_trans T). }
    exact (St _ _ _ H).
  - apply bones_item_ok in H1. destruct H1 as [-> ->].
    exact (spared_edit_bones_remove T name _ _ _ H2).
Qed.

Ltac spared_kept T :=
  apply (steps_weaken kept (spared T) _ (spared_of_kept T));
  first [ apply kept_mode_set | apply kept_select_set | apply kept_remove_bone_curves
        | apply kept_write_object; reflexivity ].

Ltac spared_prim T :=
  first
    [ spared_kept T
    | apply spared_remove_named
    | apply spared_write_bone;
      [ auto with names | intros ?; reflexivity | intros ?; reflexivity
      | intros ?; simpl; first [apply incl_refl | apply incl_filter] ]
    | apply spared_of_kept, kept_set_active_object ].

Section Spared.

Variable visual_local : Blender -> BoneRef -> Matrix.

Lemma spared_bake_all_channels T frames pose_bones :
  steps (spared T) (bake_all_channels visual_local frames pose_bones).
Proof.
  apply (steps_weaken kept (spared T) _ (spared_of_kept T)).
  apply bake_all_channels_kept.
Qed.

Lemma spared_while_of T {A} (m : M A) : steps (spared T) m -> steps (spared_while T) m.
Proof. apply steps_weaken. intros s s' H _. exact H. Qed.

Lemma remove_bones_common_spared_while T do_apply frames :
  steps (spared_while T) (_remove_bones_common visual_local do_apply frames).
Proof.
  unfold _remove_bones_common, remove_step, release_source.
  repeat
    match goal with
    | |- steps _ (bind get_space_switching_armature_object _) =>
        intros s4 s' res H G;
        apply bind_inv in H;
        destruct H as [(e & H & ->)|(s5 & temp_obj & H1 & H2)];
        [ apply spared_of_kept;
          exact (proj2 (get_space_switching_armature_object_ok' _ _ _ H))
        | pose proof (get_space_switching_armature_object_ok _ _ _ H1) as [HT K5];
          rewrite G in HT; subst temp_obj;
          apply (spared_trans T _ s5); [now apply spared_of_kept|];
          revert H2;
          match goal with
          | |- ?m s5 = _ -> _ =>
              let St := fresh "St" in
              assert (St : steps (spared T) m)
                by (steps_prims (spared_refl T) (spared_trans T)
                      ltac:(spared_prim T));
              apply St
          end ]
    | |- steps _ (bake_all_channels _ _ _) =>
        apply spared_while_of, spared_bake_all_channels
    | |- _ =>
        first [ solve [apply spared_while_of; spared_prim T]
              | steps_step (spared_while_refl T) (spared_while_trans T) ]
    end.
Qed.

(** X19: what Delete Bone and Apply Bone never do to the user's armatures.
    However a run of [_remove_bones_common] ends, returning or raising,
    every bone of an object other than the temporary armature is still
    there, under the same parent and connected or not as before, and
    carries no constraint it did not carry; and the preferences are
    untouched.  Bones are only ever removed from the temporary armature. *)
Theorem remove_bones_common_spares do_apply frames s :
  spared (pref_object_name (preferences s)) s
         (fst (_remove_bones_common visual_local do_apply frames s)).
Proof.
  destruct (_remove_bones_common visual_local do_apply frames s) as [s' r] eqn:E.
  exact (remove_bones_common_spared_while _ do_apply frames _ _ _ E eq_refl).
Qed.

End Spared.

(** ** Add Empty *)










(* ===================================================================== *)
(** ** How a space switch dresses the bones *)
(* ===================================================================== *)

Section SwitchDress.

Variable visual_local : Blender -> BoneRef -> Matrix.


End SwitchDress.

